(** * dir-compare: the content-addressed comparison engine

    A shallow embedding of the comparison engine of [main.go]: the file
    catalog ([FileSet]) and its two indexes, the differ
    ([compareFileSets]), the scanner ([walkDirectoriesWithLimit] with its
    sequential and parallel back ends) and the directory collapser
    ([buildTree], [buildSmartTree], [markEntireDirectoriesNew],
    [removeEmptyDirectories]); then the rest of the tree code
    ([collectAllFilesUnderNode], [countTreeItems],
    [markEntireDirectories], [printTree]), the flag loop of [main], and
    the one-pass scanner of the first version of the file.

    Go maps are [gmap]s, slices are lists, [*TreeNode] pointers are
    addresses into an explicit node store. *)

From Stdlib Require Import ZArith Ascii String List Lia.
From stdpp Require Import base option list gmap strings fin_maps sorting.

Open Scope string_scope.
Open Scope list_scope.
Open Scope nat_scope.
Open Scope stdpp_scope.

(** ** Data model *)

(** [type FileInfo struct]: one file observed during a scan. *)
Record FileInfo := mkFileInfo {
  RelativePath : string;
  AbsolutePath : string;
  Name : string;
  Hash : string;
  Size : Z;
  RootDir : string
}.

(** [type FileSet struct]: the record list and the indexes by name and by
    hash.  Both indexes map a key to a list of records. *)
Record FileSet := mkFileSet {
  Files : list FileInfo;
  NameMap : gmap string (list FileInfo);
  HashMap : gmap string (list FileInfo)
}.

(** [type ComparisonResult struct]. *)
Record ComparisonResult := mkComparisonResult {
  SameNameDifferentHash : list FileInfo;
  NameMappings : gmap string (list FileInfo);
  UniqueToSet2 : list FileInfo;
  UniqueToSet1 : list FileInfo
}.

(** ** The differ *)

(** Body of the first loop of [compareFileSets] (one [file2] of [set2]). *)
Definition compareSet2File (set1 : FileSet) (result : ComparisonResult)
    (file2 : FileInfo) : ComparisonResult :=
  match HashMap set1 !! Hash file2 with
  | Some _ => result
  | None =>
      match NameMap set1 !! Name file2 with
      | Some files1WithSameName =>
          {| SameNameDifferentHash := SameNameDifferentHash result ++ [file2];
             NameMappings := <[Name file2 := files1WithSameName]> (NameMappings result);
             UniqueToSet2 := UniqueToSet2 result;
             UniqueToSet1 := UniqueToSet1 result |}
      | None =>
          {| SameNameDifferentHash := SameNameDifferentHash result;
             NameMappings := NameMappings result;
             UniqueToSet2 := UniqueToSet2 result ++ [file2];
             UniqueToSet1 := UniqueToSet1 result |}
      end
  end.

(** Body of the second loop of [compareFileSets] (one [file1] of [set1]). *)
Definition compareSet1File (set2 : FileSet) (result : ComparisonResult)
    (file1 : FileInfo) : ComparisonResult :=
  match HashMap set2 !! Hash file1 with
  | Some _ => result
  | None =>
      match NameMap set2 !! Name file1 with
      | Some _ => result
      | None =>
          {| SameNameDifferentHash := SameNameDifferentHash result;
             NameMappings := NameMappings result;
             UniqueToSet2 := UniqueToSet2 result;
             UniqueToSet1 := UniqueToSet1 result ++ [file1] |}
      end
  end.

Definition emptyComparisonResult : ComparisonResult :=
  {| SameNameDifferentHash := []; NameMappings := ∅;
     UniqueToSet2 := []; UniqueToSet1 := [] |}.

Definition compareFileSets (set1 set2 : FileSet) : ComparisonResult :=
  let result := fold_left (compareSet2File set1) (Files set2) emptyComparisonResult in
  fold_left (compareSet1File set2) (Files set1) result.

(** *** What the two loops compute *)

(** The three tests of the differ, as decidable predicates on a record. *)
Definition hashIn (s : FileSet) (f : FileInfo) : Prop := is_Some (HashMap s !! Hash f).
Definition nameIn (s : FileSet) (f : FileInfo) : Prop := is_Some (NameMap s !! Name f).

Definition isModified (set1 : FileSet) (f : FileInfo) : Prop :=
  ¬ hashIn set1 f ∧ nameIn set1 f.
Definition isUnique (other : FileSet) (f : FileInfo) : Prop :=
  ¬ hashIn other f ∧ ¬ nameIn other f.

#[global] Instance hashIn_dec s f : Decision (hashIn s f).
Proof. unfold hashIn. apply _. Defined.
#[global] Instance nameIn_dec s f : Decision (nameIn s f).
Proof. unfold nameIn. apply _. Defined.
#[global] Instance isModified_dec s f : Decision (isModified s f).
Proof. unfold isModified. apply _. Defined.
#[global] Instance isUnique_dec s f : Decision (isUnique s f).
Proof. unfold isUnique. apply _. Defined.

(** The name mapping left by the first loop run over [l] from [m]. *)
Fixpoint mappingsOf (set1 : FileSet) (l : list FileInfo)
    (m : gmap string (list FileInfo)) : gmap string (list FileInfo) :=
  match l with
  | [] => m
  | f :: l' =>
      match NameMap set1 !! Name f with
      | Some fs => mappingsOf set1 l' (<[Name f := fs]> m)
      | None => mappingsOf set1 l' m
      end
  end.

(** ** Catalog indexes

    Both scanner back ends add a record to a catalog with the same three
    statements:
    [fileSet.Files = append(fileSet.Files, fileInfo)],
    [fileSet.NameMap[fileInfo.Name] = append(fileSet.NameMap[fileInfo.Name], fileInfo)],
    [fileSet.HashMap[fileInfo.Hash] = append(fileSet.HashMap[fileInfo.Hash], fileInfo)].
    Reading a missing key of a Go map yields the nil slice. *)

#[global] Instance FileInfo_eq_dec : EqDecision FileInfo.
Proof. solve_decision. Defined.

Definition appendIndex (key : FileInfo → string) (m : gmap string (list FileInfo))
    (fileInfo : FileInfo) : gmap string (list FileInfo) :=
  <[key fileInfo := default [] (m !! key fileInfo) ++ [fileInfo]]> m.

Definition addFile (fileSet : FileSet) (fileInfo : FileInfo) : FileSet :=
  {| Files := Files fileSet ++ [fileInfo];
     NameMap := appendIndex Name (NameMap fileSet) fileInfo;
     HashMap := appendIndex Hash (HashMap fileSet) fileInfo |}.

Definition emptyFileSet : FileSet :=
  {| Files := []; NameMap := ∅; HashMap := ∅ |}.

(** The index that a record list determines: key [k] is present exactly
    when some record has it, and maps to the records having it, in list
    order and with their multiplicity. *)
Definition indexOf (key : FileInfo → string) (files : list FileInfo) (k : string)
    : option (list FileInfo) :=
  match filter (λ f, key f = k) files with
  | [] => None
  | l => Some l
  end.

(** A catalog whose indexes are the ones its record list determines. *)
Definition indexBy (key : FileInfo → string) (files : list FileInfo)
    : gmap string (list FileInfo) :=
  fold_left (appendIndex key) files ∅.

Definition indexesDerived (s : FileSet) : Prop :=
  NameMap s = indexBy Name (Files s) ∧ HashMap s = indexBy Hash (Files s).

#[global] Instance indexesDerived_dec s : Decision (indexesDerived s).
Proof. unfold indexesDerived. apply _. Defined.

(** Two catalogs whose indexes hold the same records under the same keys,
    in possibly different orders. *)
Definition sameIndex (m m' : gmap string (list FileInfo)) : Prop :=
  ∀ k, option_Forall2 (≡ₚ) (m !! k) (m' !! k).

Definition sameCatalog (s s' : FileSet) : Prop :=
  Files s ≡ₚ Files s' ∧ sameIndex (NameMap s) (NameMap s') ∧
  sameIndex (HashMap s) (HashMap s').

(** The catalog that adding the records of a list one by one builds. *)
Definition catalogOf (files : list FileInfo) : FileSet :=
  fold_left addFile files emptyFileSet.

(** *** Concrete scenarios *)

Module Scenario.
Definition file (rel name hash : string) : FileInfo :=
  {| RelativePath := rel; AbsolutePath := "/data/" +:+ rel; Name := name;
     Hash := hash; Size := 1%Z; RootDir := "/data" |}.

(** Set A = {common.txt: x, a.txt: orig}, set B = {common.txt: x, a.txt: mod}. *)
Definition common := file "common.txt" "common.txt" "hash-x".
Definition a_orig := file "a.txt" "a.txt" "hash-orig".
Definition a_mod := file "a.txt" "a.txt" "hash-mod".
Definition setA1 := catalogOf [common; a_orig].
Definition setB1 := catalogOf [common; a_mod].

(** Set A = {old.txt: z}, set B = {renamed.txt: z}. *)
Definition old := file "old.txt" "old.txt" "hash-z".
Definition renamed := file "renamed.txt" "renamed.txt" "hash-z".
Definition setA3 := catalogOf [old].
Definition setB3 := catalogOf [renamed].

(** Set A = {keep.txt: x}, set B = {keep.txt: x, extra.txt: y}, and B
    with its records in the other order. *)
Definition keep := file "keep.txt" "keep.txt" "hash-x".
Definition extra := file "extra.txt" "extra.txt" "hash-y".
Definition setA2 := catalogOf [keep].
Definition setB2 := catalogOf [keep; extra].
Definition setB2' := catalogOf [extra; keep].
End Scenario.

(** ** The scanner *)

(** *** Errors, integers, output *)

(** Go [error] values: the two sentinels of [path/filepath] and errors made
    from a message. *)
Inductive error :=
| SkipDir
| SkipAll
| errorString (msg : string).

#[global] Instance error_eq_dec : EqDecision error.
Proof. solve_decision. Defined.

Definition error_Error (e : error) : string :=
  match e with
  | SkipDir => "skip this directory"
  | SkipAll => "skip everything and stop the walk"
  | errorString msg => msg
  end.

(** A Go result pair [(v, err)] with exactly one side meaningful. *)
Inductive result (A : Type) :=
| Ok (a : A)
| Err (e : error).
Arguments Ok {A} a.
Arguments Err {A} e.

(** Go [int] on a 64-bit platform: two's complement wrap-around. *)
Definition int_wrap (z : Z) : Z := ((z + 2 ^ 63) mod 2 ^ 64 - 2 ^ 63)%Z.
Definition int_max : Z := (2 ^ 63 - 1)%Z.

Definition newline : string := String (ascii_of_nat 10) EmptyString.

(** *** The file system and the run-time, as the scanner observes them *)

(** [os.FileInfo], the three methods the scanner calls. *)
Record os_FileInfo := mkOsFileInfo {
  fi_Name : string;
  fi_Size : Z;
  fi_IsDir : bool
}.

(** A snapshot of what [filepath.Walk] meets below a root: a non-directory
    with its size, or a directory with the outcome of listing it (an error,
    or its entries in the order [Walk] visits them); the [lstat] of an
    entry either fails or yields the node. *)
Inductive FsNode :=
| FsFile (size : Z)
| FsDir (readErr : option error) (entries : list (string * result FsNode)).

Definition FsNode_IsDir (n : FsNode) : bool :=
  match n with FsFile _ => false | FsDir _ _ => true end.

Definition FsNode_Info (name : string) (n : FsNode) : os_FileInfo :=
  match n with
  | FsFile size => {| fi_Name := name; fi_Size := size; fi_IsDir := false |}
  | FsDir _ _ => {| fi_Name := name; fi_Size := 0%Z; fi_IsDir := true |}
  end.

(** Everything outside the program: [os.Stat] on a root (only whether the
    error is "does not exist" matters), [os.Lstat] on a root (its base name
    and node), [hashFile]'s view of file contents, [runtime.NumCPU], and
    the order in which the workers' batch results reach the results
    channel (as indexes into the job list). *)
Record Env := mkEnv {
  os_Stat_IsNotExist : string → bool;
  os_Lstat : string → result (string * FsNode);
  hashFile : string → result string;
  runtime_NumCPU : Z;
  arrival : nat → list nat
}.

(** Every job is taken by exactly one worker and its batch result is
    delivered exactly once: the arrival order is a permutation of the
    jobs. *)
Definition fairArrival (env : Env) : Prop :=
  ∀ n, arrival env n ≡ₚ seq 0 n.

(** [filepath.Join(path, name)] for a clean [path] and a plain [name].
    Go cleans the result: below a root that is not clean (a trailing
    separator, a [.] or [..] element) its paths are the cleaned
    spellings of the ones built here. *)
Definition filepath_Join (path name : string) : string :=
  path +:+ "/" +:+ name.

(** [s] without its first [n] characters. *)
Fixpoint string_drop (n : nat) (s : string) : string :=
  match n, s with
  | O, _ => s
  | S n', String _ s' => string_drop n' s'
  | S _, EmptyString => EmptyString
  end.

(** [filepath.Rel(basepath, targpath)] for clean paths of which the
    target is the base or lies below it; any other pair is refused. *)
Definition filepath_Rel (basepath targpath : string) : result string :=
  if decide (targpath = basepath) then Ok "."
  else if String.prefix (basepath +:+ "/") targpath
       then Ok (string_drop (String.length basepath + 1) targpath)
       else Err (errorString ("Rel: can't make " +:+ targpath +:+ " relative to " +:+ basepath)).

(** *** [filepath.Walk] *)

Section Walk.
Context {S : Type}.

(** [filepath.WalkFunc], with the state its closure captures passed
    explicitly. *)
Definition WalkFunc : Type :=
  string → option os_FileInfo → option error → S → S * option error.

Variable walkFn : WalkFunc.

(** The loop [for _, name := range names] of [filepath.walk], over the
    entries of the directory at [path]; [walkRec] is the recursive call. *)
Definition walkEntries (walkRec : string → string → FsNode → S → S * option error)
    (path : string) : list (string * result FsNode) → S → S * option error :=
  fix loop names s :=
    match names with
    | [] => (s, None)
    | (name', Err e) :: rest =>
        let filename := filepath_Join path name' in
        let '(s', err) := walkFn filename None (Some e) s in
        match err with
        | None | Some SkipDir => loop rest s'
        | Some err' => (s', Some err')
        end
    | (name', Ok child) :: rest =>
        let filename := filepath_Join path name' in
        let '(s', err) := walkRec filename name' child s in
        match err with
        | None => loop rest s'
        | Some err' =>
            if negb (FsNode_IsDir child) || negb (bool_decide (err' = SkipDir))
            then (s', Some err')
            else loop rest s'
        end
    end.

(** [filepath.walk]: report the node; descend into a listed directory
    unless the callback or the listing said otherwise. *)
Fixpoint walk (path name : string) (node : FsNode) (s : S) : S * option error :=
  match node with
  | FsFile _ => walkFn path (Some (FsNode_Info name node)) None s
  | FsDir readErr entries =>
      let '(s1, err1) := walkFn path (Some (FsNode_Info name node)) readErr s in
      match readErr, err1 with
      | None, None => walkEntries walk path entries s1
      | _, _ => (s1, err1)
      end
  end.

(** [filepath.Walk(root, fn)]. *)
Definition filepath_Walk (env : Env) (root : string) (s : S) : S * option error :=
  let '(s', err) :=
    match os_Lstat env root with
    | Err e => walkFn root None (Some e) s
    | Ok (name, node) => walk root name node s
    end in
  match err with
  | Some SkipDir | Some SkipAll => (s', None)
  | _ => (s', err)
  end.
End Walk.

(** *** Tasks, jobs, batch results *)

(** [type FileTask struct]. *)
Record FileTask := mkFileTask {
  task_Path : string;
  task_Info : os_FileInfo;
  task_RootDir : string;
  task_RelPath : string
}.

(** [type FileJob struct]. *)
Record FileJob := mkFileJob { job_Files : list FileTask }.

(** [type FileResult struct]. *)
Record FileResult := mkFileResult {
  FileInfos : list FileInfo;
  Errors : list error
}.

(** The record both back ends make from a task and its hash. *)
Definition taskFileInfo (task : FileTask) (hash : string) : FileInfo :=
  {| RelativePath := task_RelPath task;
     AbsolutePath := task_Path task;
     Name := fi_Name (task_Info task);
     Hash := hash;
     Size := fi_Size (task_Info task);
     RootDir := task_RootDir task |}.

(** [hashWorker], the body of [for job := range jobs]: the batch result of
    one job. *)
Definition hashWorkerTask (env : Env) (batch : FileResult) (task : FileTask) : FileResult :=
  match hashFile env (task_Path task) with
  | Err err =>
      {| FileInfos := FileInfos batch;
         Errors := Errors batch ++
           [errorString ("could not hash file " +:+ task_Path task +:+ ": " +:+ error_Error err)] |}
  | Ok hash =>
      {| FileInfos := FileInfos batch ++ [taskFileInfo task hash];
         Errors := Errors batch |}
  end.

Definition hashWorkerJob (env : Env) (job : FileJob) : FileResult :=
  fold_left (hashWorkerTask env) (job_Files job) {| FileInfos := []; Errors := [] |}.

(** *** Enumeration: the first phase of [walkDirectoriesWithLimit] *)

(** The variables the walk callback captures, and standard output. *)
Record walkState := mkWalkState {
  allTasks : list FileTask;
  taskCount : Z;
  stdout : list string
}.

(** The function literal passed to [filepath.Walk]. *)
Definition walkCallback (dir : string) (limit : Z) : @WalkFunc walkState :=
  λ path info err st,
    match err with
    | Some e =>
        ({| allTasks := allTasks st; taskCount := taskCount st;
            stdout := stdout st ++
              ["Warning: Error accessing " +:+ path +:+ ": " +:+ error_Error e +:+ newline] |},
         None)
    | None =>
        match info with
        | None => (st, None)
        | Some info =>
            if fi_IsDir info then (st, None)
            else if bool_decide (limit > 0)%Z && bool_decide (taskCount st >= limit)%Z
            then (st, Some SkipAll)
            else
              let relPath :=
                match filepath_Rel dir path with
                | Ok rel => rel
                | Err _ => path
                end in
              let task := {| task_Path := path; task_Info := info;
                             task_RootDir := dir; task_RelPath := relPath |} in
              ({| allTasks := allTasks st ++ [task];
                  taskCount := int_wrap (taskCount st + 1);
                  stdout := stdout st |},
               None)
        end
    end.

(** The loop [for _, dir := range dirs] of [walkDirectoriesWithLimit]:
    the captured state, and the error that ends the loop early. *)
Fixpoint collectTasks (env : Env) (dirs : list string) (limit : Z) (st : walkState)
    : walkState * option error :=
  match dirs with
  | [] => (st, None)
  | dir :: dirs' =>
      if os_Stat_IsNotExist env dir then
        collectTasks env dirs' limit
          {| allTasks := allTasks st; taskCount := taskCount st;
             stdout := stdout st ++
               ["Warning: Directory " +:+ dir +:+ " does not exist, skipping..." +:+ newline] |}
      else
        let '(st', err) := filepath_Walk (walkCallback dir limit) env dir st in
        match err with
        | Some e =>
            (st', Some (errorString ("error walking directory " +:+ dir +:+ ": "
                                       +:+ error_Error e)))
        | None => collectTasks env dirs' limit st'
        end
  end.

(** *** The two back ends *)

(** [processFilesSequentially]: the catalog and what was printed. *)
Definition sequentialTask (env : Env) (acc : FileSet * list string) (task : FileTask)
    : FileSet * list string :=
  match hashFile env (task_Path task) with
  | Err err =>
      (acc.1, acc.2 ++
         ["Warning: Could not hash file " +:+ task_Path task +:+ ": " +:+ error_Error err +:+ newline])
  | Ok hash => (addFile acc.1 (taskFileInfo task hash), acc.2)
  end.

Definition processFilesSequentially (env : Env) (tasks : list FileTask)
    : result FileSet * list string :=
  let '(fileSet, out) := fold_left (sequentialTask env) tasks (emptyFileSet, []) in
  (Ok fileSet, out).

(** [numWorkers := int(float64(runtime.NumCPU()) * 0.75)], at least 1.
    The product is exact in [float64] for any core count, and the
    conversion truncates. *)
Definition numWorkers (env : Env) : Z :=
  let n := (runtime_NumCPU env * 3 / 4)%Z in
  if bool_decide (n < 1)%Z then 1%Z else n.

Definition minBatchSize : Z := 10.

Definition batchSizeFor (env : Env) (tasks : list FileTask) : Z :=
  let batchSize := (Z.of_nat (length tasks) / (numWorkers env * 2))%Z in
  if bool_decide (batchSize < minBatchSize)%Z then minBatchSize else batchSize.

(** [for i := 0; i < len(tasks); i += batchSize], at most [fuel] rounds. *)
Fixpoint makeJobs (fuel : nat) (tasks : list FileTask) (batchSize i : nat) : list FileJob :=
  match fuel with
  | O => []
  | S fuel' =>
      if decide (i < length tasks) then
        let end_ := if decide (length tasks < i + batchSize)
                    then length tasks else i + batchSize in
        {| job_Files := take (end_ - i) (drop i tasks) |}
          :: makeJobs fuel' tasks batchSize (i + batchSize)
      else []
  end.

(** The loop [for result := range resultChannel]: print the batch's
    errors, add its records. *)
Definition collectResult (acc : FileSet * list string) (result : FileResult)
    : FileSet * list string :=
  (fold_left addFile (FileInfos result) acc.1,
   acc.2 ++ map (λ err, "Warning: " +:+ error_Error err +:+ newline) (Errors result)).

(** [processFilesInParallel].  Each job is hashed by the worker that takes
    it; the batch results are collected in their order of arrival. *)
Definition processFilesInParallel (env : Env) (tasks : list FileTask)
    : result FileSet * list string :=
  let batchSize := Z.to_nat (batchSizeFor env tasks) in
  let jobs := makeJobs (length tasks) tasks batchSize 0 in
  let results :=
    omap (λ i, hashWorkerJob env <$> jobs !! i) (arrival env (length jobs)) in
  let '(fileSet, out) := fold_left collectResult results (emptyFileSet, []) in
  (Ok fileSet, out).

Definition minFilesForParallelization : nat := 20.

Definition initialWalkState : walkState :=
  {| allTasks := []; taskCount := 0; stdout := [] |}.


(** [walkDirectoriesWithLimit]: the catalog or the error, and what was
    printed. *)
Definition walkDirectoriesWithLimit (env : Env) (dirs : list string) (limit : Z)
    : result FileSet * list string :=
  match collectTasks env dirs limit initialWalkState with
  | (st, Some e) => (Err e, stdout st)
  | (st, None) =>
      let '(r, out) :=
        if decide (length (allTasks st) < minFilesForParallelization)
        then processFilesSequentially env (allTasks st)
        else processFilesInParallel env (allTasks st) in
      (r, stdout st ++ out)
  end.

(** [walkDirectories]. *)
Definition walkDirectories (env : Env) (dirs : list string) : result FileSet * list string :=
  walkDirectoriesWithLimit env dirs (-1).

(** *** Reference descriptions of what a scan should yield *)

(** While a positive cap is in force the counter equals the number of
    tasks and has not passed the cap. *)
Definition capInv (limit : Z) (st : walkState) : Prop :=
  taskCount st = Z.of_nat (length (allTasks st)) ∧ (taskCount st ≤ limit)%Z.

(** The path and the [os.FileInfo] of a task. *)
Definition taskKey (task : FileTask) : string * os_FileInfo :=
  (task_Path task, task_Info task).

(** The records of the tasks whose hashing succeeds, in task order. *)
Definition hashedRecord (env : Env) (task : FileTask) : option FileInfo :=
  match hashFile env (task_Path task) with
  | Ok hash => Some (taskFileInfo task hash)
  | Err _ => None
  end.

Definition hashedRecords (env : Env) (tasks : list FileTask) : list FileInfo :=
  omap (hashedRecord env) tasks.

(** The non-directories that a traversal from [path] can reach: those
    whose [lstat] succeeds, below directories that can be listed. *)
Fixpoint regularFiles (path name : string) (node : FsNode) : list (string * os_FileInfo) :=
  match node with
  | FsFile _ => [(path, FsNode_Info name node)]
  | FsDir (Some _) _ => []
  | FsDir None entries =>
      flat_map (λ entry : string * result FsNode,
                  match entry.2 with
                  | Ok child => regularFiles (filepath_Join path entry.1) entry.1 child
                  | Err _ => []
                  end) entries
  end.

(** The same for a root: nothing when the root is missing or cannot be
    examined. *)
Definition rootFiles (env : Env) (dir : string) : list (string * os_FileInfo) :=
  if os_Stat_IsNotExist env dir then []
  else match os_Lstat env dir with
       | Ok (name, node) => regularFiles dir name node
       | Err _ => []
       end.

(** The warning lines of the two back ends for a task that fails to hash. *)
Definition sequentialWarning (env : Env) (task : FileTask) : option string :=
  match hashFile env (task_Path task) with
  | Ok _ => None
  | Err err =>
      Some ("Warning: Could not hash file " +:+ task_Path task +:+ ": "
              +:+ error_Error err +:+ newline)
  end.

Definition parallelWarning (env : Env) (task : FileTask) : option string :=
  match hashFile env (task_Path task) with
  | Ok _ => None
  | Err err =>
      Some ("Warning: " +:+ ("could not hash file " +:+ task_Path task +:+ ": "
              +:+ error_Error err) +:+ newline)
  end.

Definition resultWarnings (r : FileResult) : list string :=
  map (λ err, "Warning: " +:+ error_Error err +:+ newline) (Errors r).


(** What one call of the walk callback, or a whole (sub)walk, does to the
    captured state: it returns no error other than [SkipAll], it keeps
    the cap invariant, it only adds output, and without a cap it does not
    stop and appends exactly the tasks of [files]. *)
Definition walkPost (limit : Z) (st : walkState) (r : walkState * option error)
    (files : list (string * os_FileInfo)) : Prop :=
  (r.2 = None ∨ r.2 = Some SkipAll) ∧
  ((0 < limit ≤ int_max)%Z → capInv limit st → capInv limit r.1) ∧
  stdout st `prefix_of` stdout r.1 ∧
  ((limit ≤ 0)%Z →
     r.2 = None ∧ taskKey <$> allTasks r.1 = (taskKey <$> allTasks st) ++ files).

Definition missingRootWarning (dir : string) : string :=
  "Warning: Directory " +:+ dir +:+ " does not exist, skipping..." +:+ newline.

(** What [filepath.Walk] reports to the callback, in the order of the
    reports, the directories that could be listed left out (the callback
    does nothing for them): a non-directory, or a failure to access an
    entry (an [lstat] that fails, a directory that cannot be listed). *)
Inductive walkEvent :=
| evFile (path : string) (info : os_FileInfo)
| evFail (path : string) (e : error).

Fixpoint walkEvents (path name : string) (node : FsNode) : list walkEvent :=
  match node with
  | FsFile _ => [evFile path (FsNode_Info name node)]
  | FsDir (Some e) _ => [evFail path e]
  | FsDir None entries =>
      flat_map (λ entry : string * result FsNode,
                  match entry.2 with
                  | Ok child => walkEvents (filepath_Join path entry.1) entry.1 child
                  | Err e => [evFail (filepath_Join path entry.1) e]
                  end) entries
  end.

(** The same for a root: nothing for a root that [os.Stat] reports
    missing (the walk is not started), one failure for a root that
    cannot be examined. *)
Definition rootEvents (env : Env) (dir : string) : list walkEvent :=
  if os_Stat_IsNotExist env dir then []
  else match os_Lstat env dir with
       | Ok (name, node) => walkEvents dir name node
       | Err e => [evFail dir e]
       end.

(** The non-directories among the reports. *)
Definition eventFiles (events : list walkEvent) : list (string * os_FileInfo) :=
  omap (λ ev, match ev with
              | evFile path info => Some (path, info)
              | evFail _ _ => None
              end) events.

(** The callback on one report, and on a list of reports until it
    returns an error. *)
Definition eventStep (dir : string) (limit : Z) (ev : walkEvent) (st : walkState)
    : walkState * option error :=
  match ev with
  | evFile path info => walkCallback dir limit path (Some info) None st
  | evFail path e => walkCallback dir limit path None (Some e) st
  end.

Fixpoint runEvents (dir : string) (limit : Z) (events : list walkEvent) (st : walkState)
    : walkState * option error :=
  match events with
  | [] => (st, None)
  | ev :: events' =>
      let '(st', err) := eventStep dir limit ev st in
      match err with
      | None => runEvents dir limit events' st'
      | Some e => (st', Some e)
      end
  end.

(** The line the callback prints for an entry it cannot access. *)
Definition accessWarning (path : string) (e : error) : string :=
  "Warning: Error accessing " +:+ path +:+ ": " +:+ error_Error e +:+ newline.

(** The traversal reaches what follows the reports [pre] from [st]: there
    is no cap, or the counter stays within the cap over the files of
    [pre]. *)
Definition withinCap (limit : Z) (st : walkState) (pre : list walkEvent) : Prop :=
  (limit ≤ 0)%Z ∨
  ((limit ≤ int_max)%Z ∧ (0 ≤ taskCount st)%Z ∧
   (taskCount st + Z.of_nat (length (eventFiles pre)) ≤ limit)%Z).

(** *** A concrete machine *)

Module Machine.
Definition denied : error := errorString "permission denied".

(** [/a]: a file that cannot be hashed, an entry whose [lstat] fails, a
    directory that cannot be listed, a readable subdirectory, a file. *)
Definition treeA : FsNode :=
  FsDir None
    [("broken.txt", Ok (FsFile 3));
     ("denied", Err denied);
     ("locked", Ok (FsDir (Some denied) []));
     ("sub", Ok (FsDir None [("x.txt", Ok (FsFile 5))]));
     ("y.txt", Ok (FsFile 7))].

Definition names20 : list string :=
  ["f00"; "f01"; "f02"; "f03"; "f04"; "f05"; "f06"; "f07"; "f08"; "f09";
   "f10"; "f11"; "f12"; "f13"; "f14"; "f15"; "f16"; "f17"; "f18"; "f19"].

(** [/big]: twenty files. *)
Definition treeBig : FsNode :=
  FsDir None (map (λ name, (name, Ok (FsFile 1))) names20).

(** [/few]: nineteen of them. *)
Definition treeFew : FsNode :=
  FsDir None (map (λ name, (name, Ok (FsFile 1))) (take 19 names20)).

Definition env : Env :=
  {| os_Stat_IsNotExist := λ dir, bool_decide (dir = "/missing");
     os_Lstat := λ dir,
       if decide (dir = "/a") then Ok ("a", treeA)
       else if decide (dir = "/big") then Ok ("big", treeBig)
       else if decide (dir = "/few") then Ok ("few", treeFew)
       else Err denied;
     hashFile := λ path,
       if decide (path = "/a/broken.txt") then Err (errorString "no such file")
       else Ok ("sha256:" +:+ path);
     runtime_NumCPU := 4;
     arrival := λ n, reverse (seq 0 n) |}.
End Machine.
(** ** Paths *)

(** [filepath.Separator] on the platforms where it is a slash. *)
Definition filepath_Separator : ascii := "/"%char.

(** [strings.Split(s, sep)] for a one-character separator: the pieces of
    [s] between the separators, at least one piece. *)
Fixpoint strings_Split (s : string) (sep : ascii) : list string :=
  match s with
  | EmptyString => [EmptyString]
  | String c s' =>
      if decide (c = sep) then EmptyString :: strings_Split s' sep
      else match strings_Split s' sep with
           | [] => [String c EmptyString]
           | piece :: pieces => String c piece :: pieces
           end
  end.

(** [strings.Join(elems, sep)]. *)
Fixpoint strings_Join (elems : list string) (sep : string) : string :=
  match elems with
  | [] => EmptyString
  | [e] => e
  | e :: rest => e +:+ sep +:+ strings_Join rest sep
  end.

Definition separatorString : string := String filepath_Separator EmptyString.

Fixpoint hasSeparator (s : string) : bool :=
  match s with
  | EmptyString => false
  | String c s' => bool_decide (c = filepath_Separator) || hasSeparator s'
  end.

(** [path[:i+1]] for the index [i] of the last separator of [path]
    (nothing when there is none). *)
Fixpoint upToLastSeparator (path : string) : string :=
  match path with
  | EmptyString => EmptyString
  | String c path' =>
      if hasSeparator path then String c (upToLastSeparator path') else EmptyString
  end.

(** The element pass of [filepath.Clean]: empty and [.] elements are
    dropped, [..] removes the element before it, or is kept when a
    relative path has nothing left to remove.  [ups] counts the leading
    [..] elements kept, [out] holds the elements after them, last
    first. *)
Fixpoint cleanElements (rooted : bool) (elems : list string) (ups : nat)
    (out : list string) : nat * list string :=
  match elems with
  | [] => (ups, out)
  | e :: rest =>
      if decide (e = "" ∨ e = ".") then cleanElements rooted rest ups out
      else if decide (e = "..") then
        match out with
        | _ :: out' => cleanElements rooted rest ups out'
        | [] => cleanElements rooted rest (if rooted then ups else S ups) []
        end
      else cleanElements rooted rest ups (e :: out)
  end.

(** [filepath.Clean(path)]. *)
Definition filepath_Clean (path : string) : string :=
  match path with
  | EmptyString => "."
  | String c _ =>
      let rooted := bool_decide (c = filepath_Separator) in
      let '(ups, out) := cleanElements rooted (strings_Split path filepath_Separator) 0 [] in
      let elems := replicate ups ".." ++ reverse out in
      if rooted then separatorString +:+ strings_Join elems separatorString
      else match elems with
           | [] => "."
           | _ => strings_Join elems separatorString
           end
  end.

(** [filepath.Dir(path)]. *)
Definition filepath_Dir (path : string) : string :=
  filepath_Clean (upToLastSeparator path).

(** ** The directory tree *)

(** [*TreeNode]: the address of a node in the node store; [nil] is the
    absence of an address. *)
Abbreviation addr := nat.

(** [type TreeNode struct]. *)
Record TreeNode := mkTreeNode {
  tn_Name : string;
  tn_IsDir : bool;
  tn_Files : list FileInfo;
  tn_Children : gmap string addr;
  tn_Parent : option addr;
  tn_IsEntireDir : bool
}.

(** The node store: the nodes allocated so far, a node's address being
    its position.  Allocation appends. *)
Abbreviation heap := (list TreeNode).

Definition setFiles (n : TreeNode) (files : list FileInfo) : TreeNode :=
  {| tn_Name := tn_Name n; tn_IsDir := tn_IsDir n; tn_Files := files;
     tn_Children := tn_Children n; tn_Parent := tn_Parent n;
     tn_IsEntireDir := tn_IsEntireDir n |}.

Definition setChildren (n : TreeNode) (children : gmap string addr) : TreeNode :=
  {| tn_Name := tn_Name n; tn_IsDir := tn_IsDir n; tn_Files := tn_Files n;
     tn_Children := children; tn_Parent := tn_Parent n;
     tn_IsEntireDir := tn_IsEntireDir n |}.

Definition setIsEntireDir (n : TreeNode) (b : bool) : TreeNode :=
  {| tn_Name := tn_Name n; tn_IsDir := tn_IsDir n; tn_Files := tn_Files n;
     tn_Children := tn_Children n; tn_Parent := tn_Parent n;
     tn_IsEntireDir := b |}.

(** [&TreeNode{Name: "", IsDir: true, Children: make(...)}]. *)
Definition newRoot : TreeNode :=
  {| tn_Name := ""; tn_IsDir := true; tn_Files := []; tn_Children := ∅;
     tn_Parent := None; tn_IsEntireDir := false |}.

(** [&TreeNode{Name: part, IsDir: true, Children: make(...), Parent: current}]. *)
Definition newDir (part : string) (current : addr) : TreeNode :=
  {| tn_Name := part; tn_IsDir := true; tn_Files := []; tn_Children := ∅;
     tn_Parent := Some current; tn_IsEntireDir := false |}.

(** The address of the root that [buildTree] and [buildSmartTree]
    allocate first. *)
Definition root : addr := 0.

(** *** Building *)

(** [current.Children[part] = &TreeNode{...}]: the new node is allocated
    at the end of the store and entered in the children of [current],
    whose node is [n]. *)
Definition allocChild (h : heap) (current : addr) (n : TreeNode) (part : string) : heap :=
  <[current := setChildren n (<[part := length h]> (tn_Children n))]> h
    ++ [newDir part current].

(** The loop [for i, part := range parts]: the last part attaches the
    file to [current], every other part steps into the child of that
    name, allocating it when [current.Children[part] == nil]. *)
Fixpoint insertParts (file : FileInfo) (parts : list string) (h : heap) (current : addr)
    : heap :=
  match parts with
  | [] => h
  | [_] => alter (λ n, setFiles n (tn_Files n ++ [file])) current h
  | part :: rest =>
      match h !! current with
      | None => h
      | Some n =>
          match tn_Children n !! part with
          | Some child => insertParts file rest h child
          | None => insertParts file rest (allocChild h current n part) (length h)
          end
      end
  end.

(** The loop [for _, file := range files]. *)
Definition insertFile (h : heap) (file : FileInfo) : heap :=
  insertParts file (strings_Split (RelativePath file) filepath_Separator) h root.

(** [buildTree]: the store, with the root at [root]. *)
Definition buildTree (files : list FileInfo) : heap :=
  fold_left insertFile files [newRoot].

(** *** Marking *)

(** The loop [for dir != "." && dir != ""] of [buildSmartTree], at most
    [fuel] rounds. *)
Fixpoint addAncestors (fuel : nat) (dir : string) (m : gmap string bool)
    : option (gmap string bool) :=
  if decide (dir ≠ "." ∧ dir ≠ "") then
    match fuel with
    | O => None
    | S fuel' => addAncestors fuel' (filepath_Dir dir) (<[dir := true]> m)
    end
  else Some m.

(** [directoriesInSourceSet]: the parent directory of every record of the
    source catalog, and its ancestors. *)
Fixpoint directoriesOf (files : list FileInfo) (m : gmap string bool)
    : option (gmap string bool) :=
  match files with
  | [] => Some m
  | file :: files' =>
      m' ← addAncestors (String.length (RelativePath file))
             (filepath_Dir (RelativePath file)) m;
      directoriesOf files' m'
  end.

(** The loop [for current != nil && current.Name != ""] of
    [markEntireDirectoriesNew], at most [fuel] rounds. *)
Fixpoint pathPartsLoop (fuel : nat) (h : heap) (current : option addr)
    (pathParts : list string) : option (list string) :=
  match current with
  | None => Some pathParts
  | Some a =>
      n ← h !! a;
      if decide (tn_Name n = "") then Some pathParts
      else match fuel with
           | O => None
           | S fuel' => pathPartsLoop fuel' h (tn_Parent n) (tn_Name n :: pathParts)
           end
  end.

(** The loop over [sourceSet.Files] counting the files directly in
    [dirPath] and those of them without a hash match in [otherSet]. *)
Definition countDirect (sourceSet otherSet : FileSet) (dirPath : string) : nat * nat :=
  fold_left
    (λ (counts : nat * nat) sourceFile,
       if decide (filepath_Dir (RelativePath sourceFile) = dirPath) then
         (S counts.1,
          match HashMap otherSet !! Hash sourceFile with
          | Some _ => counts.2
          | None => S counts.2
          end)
       else counts)
    (Files sourceSet) (0, 0).

(** The loop over [node.Children] with its [break]: the final values of
    [allChildrenAreEntire] and [hasChildDirs]. *)
Fixpoint childrenLoop (h : heap) (children : list addr)
    (allChildrenAreEntire hasChildDirs : bool) : option (bool * bool) :=
  match children with
  | [] => Some (allChildrenAreEntire, hasChildDirs)
  | child :: rest =>
      c ← h !! child;
      if tn_IsDir c then
        if negb (tn_IsEntireDir c) then Some (false, true)
        else childrenLoop h rest allChildrenAreEntire true
      else childrenLoop h rest allChildrenAreEntire hasChildDirs
  end.

(** The children of a node in the order the [range] visits them (Go
    leaves the order unspecified; the enumeration order of the map
    stands for it). *)
Definition childrenOf (n : TreeNode) : list (string * addr) :=
  map_to_list (tn_Children n).

Definition markNode (h : heap) (node : addr) (b : bool) : heap :=
  alter (λ n, setIsEntireDir n b) node h.

(** The value that [markEntireDirectoriesNew] assigns to
    [node.IsEntireDir] once the children of [node] are processed. *)
Definition entireVerdict (sourceSet otherSet : FileSet)
    (directoriesInSourceSet : gmap string bool) (h : heap) (node : addr) : option bool :=
  n ← h !! node;
  if decide (tn_Name n = "") then Some false
  else
    pathParts ← pathPartsLoop (length h) h (Some node) [];
    let dirPath := strings_Join pathParts separatorString in
    if negb (default false (directoriesInSourceSet !! dirPath)) then Some false
    else
      let '(filesInDirCount, filesWithoutMatchCount) :=
        countDirect sourceSet otherSet dirPath in
      let allDirectFilesUnmatched :=
        bool_decide (filesInDirCount = 0) ||
        (bool_decide (0 < filesInDirCount) &&
         bool_decide (filesInDirCount = filesWithoutMatchCount)) in
      '(allChildrenAreEntire, hasChildDirs) ← childrenLoop h (childrenOf n).*2 true false;
      let hasContent := bool_decide (0 < filesInDirCount) || hasChildDirs in
      Some (hasContent && allDirectFilesUnmatched &&
            (negb hasChildDirs || allChildrenAreEntire)).

(** What [markEntireDirectoriesNew] does at [node] once its children
    are processed. *)
Definition markSelf (sourceSet otherSet : FileSet) (directoriesInSourceSet : gmap string bool)
    (h : heap) (node : addr) : option heap :=
  b ← entireVerdict sourceSet otherSet directoriesInSourceSet h node;
  Some (markNode h node b).

(** The loop [for _, child := range node.Children] that processes the
    children first; [rec] is the recursive call. *)
Fixpoint markChildren (rec : heap → addr → option heap) (children : list addr) (h : heap)
    : option heap :=
  match children with
  | [] => Some h
  | child :: rest => h' ← rec h child; markChildren rec rest h'
  end.

(** [markEntireDirectoriesNew], to a recursion depth of at most [fuel]. *)
Fixpoint markEntireDirectoriesNew (fuel : nat) (sourceSet otherSet : FileSet)
    (directoriesInSourceSet : gmap string bool) (h : heap) (node : addr) : option heap :=
  match fuel with
  | O => None
  | S fuel' =>
      n ← h !! node;
      if negb (tn_IsDir n) then Some h
      else
        h' ← markChildren
               (markEntireDirectoriesNew fuel' sourceSet otherSet directoriesInSourceSet)
               (childrenOf n).*2 h;
        markSelf sourceSet otherSet directoriesInSourceSet h' node
  end.

(** *** Pruning *)

(** Whether a node has files or children: the value
    [len(node.Files) > 0 || len(node.Children) > 0]. *)
Definition hasEntries (n : TreeNode) : bool :=
  bool_decide (0 < length (tn_Files n)) || bool_decide (0 < size (tn_Children n)).

Definition deleteChild (h : heap) (node : addr) (name : string) : heap :=
  alter (λ n, setChildren n (delete name (tn_Children n))) node h.

(** The loop [for name, child := range node.Children]: a child whose
    verdict is false is deleted from [node.Children]; [rec] is the
    recursive call. *)
Fixpoint pruneChildren (rec : heap → addr → option (heap * bool)) (node : addr)
    (entries : list (string * addr)) (h : heap) : option heap :=
  match entries with
  | [] => Some h
  | (name, child) :: rest =>
      '(h', keep) ← rec h child;
      pruneChildren rec node rest (if negb keep then deleteChild h' node name else h')
  end.

(** [removeEmptyDirectories], to a recursion depth of at most [fuel]: the
    store afterwards and the verdict. *)
Fixpoint removeEmptyDirectories (fuel : nat) (h : heap) (node : addr)
    : option (heap * bool) :=
  match fuel with
  | O => None
  | S fuel' =>
      n ← h !! node;
      if negb (tn_IsDir n) then Some (h, true)
      else
        h' ← pruneChildren (removeEmptyDirectories fuel') node (childrenOf n) h;
        n' ← h' !! node;
        Some (h', hasEntries n')
  end.

(** *** [buildSmartTree] *)

Definition buildSmartTree (files : list FileInfo) (sourceSet otherSet : FileSet)
    : option heap :=
  directoriesInSourceSet ← directoriesOf (Files sourceSet) ∅;
  let h := buildTree files in
  h1 ← markEntireDirectoriesNew (length h) sourceSet otherSet directoriesInSourceSet h root;
  '(h2, _) ← removeEmptyDirectories (length h1) h1 root;
  Some h2.

(** *** Shapes of node stores *)

(** [c] is the child of [a] under the key [k]. *)
Definition child (h : heap) (a : addr) (k : string) (c : addr) : Prop :=
  ∃ n, h !! a = Some n ∧ tn_Children n !! k = Some c.

(** [x] is [a] or lies below it. *)
Inductive desc (h : heap) : addr → addr → Prop :=
| desc_refl a : desc h a a
| desc_step a k c x : child h a k c → desc h c x → desc h a x.

(** The same, passing through directory nodes only, as the recursive
    functions on trees do. *)
Inductive dirDesc (h : heap) : addr → addr → Prop :=
| dirDesc_refl a : dirDesc h a a
| dirDesc_step a n k c x :
    h !! a = Some n → tn_IsDir n = true → tn_Children n !! k = Some c →
    dirDesc h c x → dirDesc h a x.

(** The store holds trees: a child is allocated, and after its parent,
    and no node is the child of two nodes or under two keys. *)
Record treeShaped (h : heap) : Prop := mkTreeShaped {
  ts_order : ∀ a k c, child h a k c → a < c < length h;
  ts_unique : ∀ a k c a' k', child h a k c → child h a' k' c → a = a' ∧ k = k'
}.

(** [h'] is [h] with some children removed from some nodes. *)
Definition shrinks (h h' : heap) : Prop :=
  length h' = length h ∧
  ∀ x n, h !! x = Some n →
    ∃ n', h' !! x = Some n' ∧
      tn_Name n' = tn_Name n ∧ tn_IsDir n' = tn_IsDir n ∧ tn_Files n' = tn_Files n ∧
      tn_Parent n' = tn_Parent n ∧ tn_IsEntireDir n' = tn_IsEntireDir n ∧
      tn_Children n' ⊆ tn_Children n.

(** Every directory at or below [c] has a file or a child. *)
Definition prunedAt (h : heap) (c : addr) : Prop :=
  ∀ x m, dirDesc h c x → h !! x = Some m → tn_IsDir m = true → hasEntries m = true.

(** The verdict of [removeEmptyDirectories] on a node as it stands. *)
Definition verdict (h : heap) (a : addr) : bool :=
  match h !! a with
  | Some n => negb (tn_IsDir n) || hasEntries n
  | None => true
  end.

(** No node of [h] lost a child that is not a directory. *)
Definition keepsFiles (h h' : heap) : Prop :=
  ∀ x k c m, child h x k c → h !! c = Some m → tn_IsDir m = false → child h' x k c.

(** The parent-key-child triples of a store, and a decidable test that
    the store holds trees. *)
Definition edges (h : heap) : list (addr * string * addr) :=
  imap (λ a n, (a, n)) h ≫=
    λ an : addr * TreeNode,
      (λ kc : string * addr, (an.1, kc.1, kc.2)) <$> map_to_list (tn_Children an.2).

Definition treeShapedCheck (h : heap) : Prop :=
  Forall (λ e : addr * string * addr, e.1.1 < e.2 < length h) (edges h) ∧
  NoDup (edges h).*2.

#[global] Instance treeShapedCheck_dec h : Decision (treeShapedCheck h).
Proof. unfold treeShapedCheck. apply _. Defined.

Module PruneExample.
Definition dir (name : string) (parent : addr) (files : list FileInfo)
    (children : list (string * addr)) : TreeNode :=
  {| tn_Name := name; tn_IsDir := true; tn_Files := files;
     tn_Children := list_to_map children; tn_Parent := Some parent;
     tn_IsEntireDir := false |}.

(** A root with an empty directory, a directory holding a file, and a
    directory whose only child is an empty directory. *)
Definition store : heap :=
  [setChildren newRoot (list_to_map [("empty", 1); ("withfiles", 2); ("chain", 3)]);
   dir "empty" 0 [] [];
   dir "withfiles" 0 [Scenario.file "withfiles/test.txt" "test.txt" "hash-t"] [];
   dir "chain" 0 [] [("inner", 4)];
   dir "inner" 3 [] []].
End PruneExample.

(** *** Well-formed trees *)

(** The names on the way from the root down to a node. *)
Inductive nodePath (h : heap) : addr → list string → Prop :=
| nodePath_root : nodePath h root []
| nodePath_child a l k c :
    nodePath h a l → child h a k c → nodePath h c (l ++ [k]).

(** The links of a well-formed store: the root is nameless and has no
    parent; every node is a directory; a child carries its key as its
    name and points back to its parent, which was allocated before it;
    and every other node is the child of its parent. *)
Record wellFormed (h : heap) : Prop := mkWellFormed {
  wf_root : ∃ r, h !! root = Some r ∧ tn_Name r = "" ∧ tn_Parent r = None;
  wf_dir : ∀ a n, h !! a = Some n → tn_IsDir n = true;
  wf_child : ∀ a k c, child h a k c →
    a < c ∧ ∃ m, h !! c = Some m ∧ tn_Name m = k ∧ tn_Parent m = Some a;
  wf_parent : ∀ c m, h !! c = Some m → c ≠ root →
    ∃ a, tn_Parent m = Some a ∧ child h a (tn_Name m) c
}.

(** The parts of a record's relative path, and the condition that none
    of its directory parts is empty (no doubled separator, no leading
    separator), as holds of the relative paths that a scan produces. *)
Definition pathParts (f : FileInfo) : list string :=
  strings_Split (RelativePath f) filepath_Separator.

Definition cleanParts (f : FileInfo) : Prop :=
  Forall (λ part, part ≠ "") (removelast (pathParts f)).

#[global] Instance cleanParts_dec f : Decision (cleanParts f).
Proof. unfold cleanParts. apply _. Defined.

(** What holds of the store while the files of [files] are inserted;
    [except] is the node at which an insertion is under way. *)
Record buildInv (files : list FileInfo) (except : option addr) (h : heap) : Prop :=
  mkBuildInv {
  bi_wf : wellFormed h;
  bi_files : ∀ a n f, h !! a = Some n → f ∈ tn_Files n →
    ∃ l last, nodePath h a l ∧ pathParts f = l ++ [last];
  bi_names : ∀ a l, nodePath h a l → l ≠ [] →
    ∃ f rest, f ∈ files ∧ rest ≠ [] ∧ pathParts f = l ++ rest;
  bi_nonempty : ∀ a n, h !! a = Some n → a ≠ root → Some a ≠ except →
    hasEntries n = true
}.

(** Two stores that differ in [IsEntireDir] marks only. *)
Definition skeleton (h : heap) : heap := (λ n, setIsEntireDir n false) <$> h.

Definition sameSkeleton (h h' : heap) : Prop := skeleton h = skeleton h'.

(** Two stores with the same links: names, directory flags, children and
    parents agree node by node. *)
Definition linksEq (h h' : heap) : Prop :=
  length h = length h' ∧
  ∀ a n n', h !! a = Some n → h' !! a = Some n' →
    tn_Name n' = tn_Name n ∧ tn_IsDir n' = tn_IsDir n ∧
    tn_Children n' = tn_Children n ∧ tn_Parent n' = tn_Parent n.

(** The well-formedness of a tree: every child carries its key as its
    name, points back to its parent and is a directory; the root, and
    only the root, has the empty name; and for every node the names
    collected by following the parent links, as
    [markEntireDirectoriesNew] does, are a prefix of the path parts of
    every record attached at or below the node, one part short of the
    whole path for the records attached at the node itself. *)
Definition treeInvariant (h : heap) : Prop :=
  (∀ a d k c, h !! a = Some d → tn_Children d !! k = Some c →
     ∃ m, h !! c = Some m ∧ tn_Name m = k ∧ tn_Parent m = Some a ∧ tn_IsDir m = true) ∧
  (∀ a n, h !! a = Some n → (tn_Name n = "" ↔ a = root)) ∧
  (∀ a n, h !! a = Some n →
     ∃ l, pathPartsLoop (length h) h (Some a) [] = Some l ∧
       ∀ b m f, desc h a b → h !! b = Some m → f ∈ tn_Files m →
         ∃ rest, rest ≠ [] ∧ (b = a → length rest = 1) ∧
           pathParts f = l ++ rest ∧
           RelativePath f = strings_Join (l ++ rest) separatorString).

Module BuildExample.
(** The three files of [TestBuildTree]. *)
Definition files : list FileInfo :=
  [Scenario.file "file1.txt" "file1.txt" "hash-1";
   Scenario.file "subdir/file2.txt" "file2.txt" "hash-2";
   Scenario.file "subdir/nested/file3.txt" "file3.txt" "hash-3"].

Definition source : FileSet := catalogOf files.
Definition other : FileSet := emptyFileSet.

(** A path with a doubled separator. *)
Definition doubled : list FileInfo := [Scenario.file "a//b.txt" "b.txt" "hash-b"].
End BuildExample.

Module CollapseExample.
(** The source set holds [dir/a.txt] and [dir/sub/b.txt]; the other set
    holds a file with the content of [dir/sub/b.txt]. *)
Definition a := Scenario.file "dir/a.txt" "a.txt" "hash-a".
Definition b := Scenario.file "dir/sub/b.txt" "b.txt" "hash-b".
Definition source : FileSet := catalogOf [a; b].
Definition other : FileSet := catalogOf [Scenario.file "b.txt" "b.txt" "hash-b"].

(** The files that the differ reports as unique to the source set. *)
Definition unique : list FileInfo := UniqueToSet2 (compareFileSets other source).
End CollapseExample.

(** *** Relative paths *)

(** Whether a path starts with the separator. *)
Definition rooted (path : string) : bool :=
  match path with
  | EmptyString => false
  | String c _ => bool_decide (c = filepath_Separator)
  end.

Definition relativeRecord (f : FileInfo) : Prop := rooted (RelativePath f) = false.

#[global] Instance relativeRecord_dec f : Decision (relativeRecord f).
Proof. unfold relativeRecord. apply _. Defined.

(** The length of the elements of a path joined by separators, plus
    one. *)
Fixpoint weight (elems : list string) : nat :=
  match elems with
  | [] => 0
  | e :: rest => S (String.length e) + weight rest
  end.

(** An element that [filepath.Clean] keeps. *)
Definition keptElement (e : string) : Prop := e ≠ "" ∧ hasSeparator e = false.

(** *** The relative paths of scanned records *)

(** A file system whose entry names are non-empty and free of
    separators, as every file system's are. *)
Fixpoint plainNames (node : FsNode) : Prop :=
  match node with
  | FsFile _ => True
  | FsDir _ entries =>
      (fix all (entries : list (string * result FsNode)) : Prop :=
         match entries with
         | [] => True
         | (name, r) :: rest =>
             keptElement name ∧
             match r with Ok child => plainNames child | Err _ => True end ∧
             all rest
         end) entries
  end.

Definition plainEnv (env : Env) : Prop :=
  ∀ dir name node, os_Lstat env dir = Ok (name, node) → plainNames node.

(** The path of the entry reached from [dir] through [names]. *)
Definition joinAll (dir : string) (names : list string) : string :=
  fold_left filepath_Join names dir.

(** A relative path without empty directory parts and without a leading
    separator. *)
Definition cleanRelPath (s : string) : Prop :=
  Forall (λ part, part ≠ "") (removelast (strings_Split s filepath_Separator)) ∧
  rooted s = false.

(** The characters appended to [dir] on the way through [names]. *)
Fixpoint suffixOf (names : list string) : string :=
  match names with
  | [] => ""
  | name :: rest => "/" +:+ name +:+ suffixOf rest
  end.

(** Every task carries a clean relative path. *)
Definition cleanTasks (st : walkState) : Prop :=
  Forall (λ task, cleanRelPath (task_RelPath task)) (allTasks st).

(** A node whose mark is the one that [markEntireDirectoriesNew] would
    assign it now. *)
Definition settled (sourceSet otherSet : FileSet) (directoriesInSourceSet : gmap string bool)
    (h : heap) (a : addr) : Prop :=
  ∃ n b, h !! a = Some n ∧
    entireVerdict sourceSet otherSet directoriesInSourceSet h a = Some b ∧
    tn_IsEntireDir n = b.

(** ** Further descriptions and scenarios *)

Module Shadow.
(** Set 1 holds [x.txt] with content 1 and [y.txt] with content 2; set 2
    holds [x.txt] with content 2. *)
Definition x1 := Scenario.file "x.txt" "x.txt" "hash-1".
Definition y2 := Scenario.file "y.txt" "y.txt" "hash-2".
Definition x2 := Scenario.file "x.txt" "x.txt" "hash-2".
Definition set1 := catalogOf [x1; y2].
Definition set2 := catalogOf [x2].
End Shadow.

(** What a call of the walk callback, or a whole (sub)walk over [files],
    does under a positive cap: it keeps the cap invariant, it stops only
    with the counter at the cap, and it appends the tasks of as many of
    [files], from the front, as the cap had room for. *)
Definition capPost (limit : Z) (st : walkState) (r : walkState * option error)
    (files : list (string * os_FileInfo)) : Prop :=
  capInv limit r.1 ∧
  (r.2 = None ∨ (r.2 = Some SkipAll ∧ taskCount r.1 = limit)) ∧
  taskKey <$> allTasks r.1 =
    (taskKey <$> allTasks st) ++ take (Z.to_nat (limit - taskCount st)) files.

(** Whether [hashFile] succeeds on a path. *)
Definition hashable (env : Env) (path : string) : Prop :=
  match hashFile env path with Ok _ => True | Err _ => False end.

#[global] Instance hashable_dec env path : Decision (hashable env path).
Proof. unfold hashable. destruct (hashFile env path); apply _. Defined.

Module CollapsedTree.
(** The tree of the collapse example once marked: the root and the
    directory [dir], which holds [dir/a.txt] and is marked entire. *)
Definition dirNode : TreeNode :=
  {| tn_Name := "dir"; tn_IsDir := true; tn_Files := [CollapseExample.a];
     tn_Children := ∅; tn_Parent := Some 0; tn_IsEntireDir := true |}.

Definition tree : heap := [setChildren newRoot {["dir" := 1]}; dirNode].
End CollapsedTree.

(** ** The rest of the tree code *)

(** *** [collectAllFilesUnderNode] *)

(** The loop [for _, child := range node.Children] of
    [collectAllFilesUnderNode]; [rec] is the recursive call. *)
Fixpoint collectChildren (rec : addr → option (list FileInfo)) (children : list addr)
    (files : list FileInfo) : option (list FileInfo) :=
  match children with
  | [] => Some files
  | child :: rest => sub ← rec child; collectChildren rec rest (files ++ sub)
  end.

(** [collectAllFilesUnderNode], to a recursion depth of at most [fuel]. *)
Fixpoint collectAllFilesUnderNode (fuel : nat) (h : heap) (node : addr)
    : option (list FileInfo) :=
  match fuel with
  | O => None
  | S fuel' =>
      n ← h !! node;
      collectChildren (collectAllFilesUnderNode fuel' h) (childrenOf n).*2 (tn_Files n)
  end.

(** *** [countTreeItems] *)

(** The loop [for _, child := range node.Children] of [countTreeItems],
    on the named results [files] and [dirs]; [rec] is the recursive
    call. *)
Fixpoint countChildren (rec : addr → option (Z * Z)) (h : heap) (children : list addr)
    (files dirs : Z) : option (Z * Z) :=
  match children with
  | [] => Some (files, dirs)
  | child :: rest =>
      c ← h !! child;
      if tn_IsDir c then
        '(childFiles, childDirs) ← rec child;
        countChildren rec h rest (int_wrap (files + childFiles))
          (int_wrap (int_wrap (dirs + 1) + childDirs))
      else countChildren rec h rest files dirs
  end.

(** [countTreeItems], to a recursion depth of at most [fuel]. *)
Fixpoint countTreeItems (fuel : nat) (h : heap) (node : addr) : option (Z * Z) :=
  match fuel with
  | O => None
  | S fuel' =>
      n ← h !! node;
      countChildren (countTreeItems fuel' h) h (childrenOf n).*2
        (int_wrap (0 + Z.of_nat (length (tn_Files n)))) 0
  end.

(** *** [markEntireDirectories], the marking that looks at the tree only *)

(** The loop over [node.Children] with its [break]: the final value of
    [allChildrenAreEntire]. *)
Fixpoint allEntireLoop (h : heap) (children : list addr) : option bool :=
  match children with
  | [] => Some true
  | child :: rest =>
      c ← h !! child;
      if tn_IsDir c && negb (tn_IsEntireDir c) then Some false
      else allEntireLoop h rest
  end.

(** The value that [markEntireDirectories] assigns to [node.IsEntireDir]
    once the children of [node] are processed. *)
Definition treeVerdict (h : heap) (node : addr) : option bool :=
  n ← h !! node;
  if decide (tn_Name n = "") then Some false
  else
    let hasChildren := bool_decide (0 < size (tn_Children n)) in
    allChildrenAreEntire ← allEntireLoop h (childrenOf n).*2;
    Some (if negb hasChildren && bool_decide (0 < length (tn_Files n)) then true
          else if hasChildren && allChildrenAreEntire then true
          else false).

(** [markEntireDirectories], to a recursion depth of at most [fuel].  The
    two catalogs are passed along and never read. *)
Fixpoint markEntireDirectories (fuel : nat) (sourceSet otherSet : FileSet)
    (h : heap) (node : addr) : option heap :=
  match fuel with
  | O => None
  | S fuel' =>
      n ← h !! node;
      if negb (tn_IsDir n) then Some h
      else
        h' ← markChildren (markEntireDirectories fuel' sourceSet otherSet)
               (childrenOf n).*2 h;
        b ← treeVerdict h' node;
        Some (markNode h' node b)
  end.

(** *** [printTree] *)

(** The connectors and icons, as the source file has them. *)
Definition teeConnector : string := "â”œâ”€â”€ ".
Definition cornerConnector : string := "â””â”€â”€ ".
Definition barIndent : string := "â”‚   ".
Definition blankIndent : string := "    ".
Definition dirIcon : string := "ðŸ“".
Definition fileIcon : string := "ðŸ“„".
Definition arrow : string := " â†’ ".

(** [sort.Strings]: ascending byte-wise order. *)
Definition sort_Strings (names : list string) : list string :=
  merge_sort String.le names.

Section PrintTree.
(** [fmt.Sprintf(" (%.2f KB)", float64(size)/1024.0)], the one place
    where [printTree] formats a floating-point number. *)
Variable fmt_KB : Z → string.

Variable showDetails : bool.

(** A nil map reads like an empty one. *)
Variable nameMappings : gmap string (list FileInfo).

(** The line of the directory itself. *)
Definition dirLine (prefix : string) (isLast : bool) (n : TreeNode) : string :=
  let connector := if isLast then cornerConnector else teeConnector in
  if tn_IsEntireDir n
  then prefix +:+ connector +:+ dirIcon +:+ " " +:+ tn_Name n +:+ "/ (entire directory)"
         +:+ newline
  else prefix +:+ connector +:+ dirIcon +:+ " " +:+ tn_Name n +:+ "/" +:+ newline.

(** The body of the loop [for i, file := range node.Files]. *)
Definition fileLine (prefix : string) (n : TreeNode) (i : nat) (file : FileInfo) : string :=
  let isLastFile :=
    bool_decide (i = length (tn_Files n) - 1) && bool_decide (size (tn_Children n) = 0) in
  let connector := if isLastFile then cornerConnector else teeConnector in
  let fileOutput := fileIcon +:+ " " +:+ Name file in
  let fileOutput :=
    if showDetails then fileOutput +:+ fmt_KB (Size file) else fileOutput in
  let fileOutput :=
    match nameMappings !! Name file with
    | Some (mapped :: _) => fileOutput +:+ arrow +:+ RelativePath mapped
    | _ => fileOutput
    end in
  prefix +:+ connector +:+ fileOutput +:+ newline.

(** The loop [for i, name := range childNames]; [rec] is the recursive
    call and [count] is [len(childNames)]. *)
Fixpoint printChildren (rec : addr → string → bool → option (list string))
    (children : gmap string addr) (prefix : string) (count : nat) (i : nat)
    (childNames : list string) : option (list string) :=
  match childNames with
  | [] => Some []
  | name :: rest =>
      child ← children !! name;
      out ← rec child prefix (bool_decide (i = count - 1));
      outs ← printChildren rec children prefix count (S i) rest;
      Some (out ++ outs)
  end.

(** [printTree], to a recursion depth of at most [fuel]: the strings
    written to standard output, one for each call of [fmt.Printf]. *)
Fixpoint printTree (fuel : nat) (h : heap) (node : addr) (prefix : string) (isLast : bool)
    : option (list string) :=
  match fuel with
  | O => None
  | S fuel' =>
      n ← h !! node;
      let own :=
        if decide (tn_Name n ≠ "") then
          if tn_IsDir n then [dirLine prefix isLast n] else []
        else [] in
      let prefix :=
        if decide (tn_Name n ≠ "") then
          if isLast then prefix +:+ blankIndent else prefix +:+ barIndent
        else prefix in
      if tn_IsEntireDir n then Some own
      else
        let childNames := sort_Strings (map_to_list (tn_Children n)).*1 in
        outs ← printChildren (printTree fuel' h) (tn_Children n) prefix
                 (length childNames) 0 childNames;
        Some (own ++ imap (fileLine prefix n) (tn_Files n) ++ outs)
  end.
End PrintTree.

(** *** Reference descriptions for trees *)

(** The nodes at and below [node], a node before its children and the
    children in the order of [childrenOf]. *)
Fixpoint subtree (fuel : nat) (h : heap) (node : addr) : list addr :=
  match fuel with
  | O => []
  | S fuel' =>
      match h !! node with
      | None => []
      | Some n => node :: ((childrenOf n).*2 ≫= subtree fuel' h)
      end
  end.

(** The nodes that [printTree] visits: it does not go below a node
    marked entire. *)
Fixpoint shown (fuel : nat) (h : heap) (node : addr) : list addr :=
  match fuel with
  | O => []
  | S fuel' =>
      match h !! node with
      | None => []
      | Some n =>
          node :: (if tn_IsEntireDir n then []
                   else (childrenOf n).*2 ≫= shown fuel' h)
      end
  end.

(** The files attached to the node at an address. *)
Definition filesAt (h : heap) (a : addr) : list FileInfo :=
  default [] (tn_Files <$> h !! a).

(** Whether [printTree] writes a line for the node itself, and the
    files of a node for which it writes lines. *)
Definition hasDirLine (h : heap) (a : addr) : Prop :=
  ∃ n, h !! a = Some n ∧ tn_Name n ≠ "" ∧ tn_IsDir n = true.

#[global] Instance hasDirLine_dec h a : Decision (hasDirLine h a).
Proof.
  unfold hasDirLine. destruct (h !! a) as [n|].
  - destruct (decide (tn_Name n ≠ "" ∧ tn_IsDir n = true)) as [Hn|Hn].
    + left. by exists n.
    + right. intros (n' & [= <-] & ?). by apply Hn.
  - right. by intros (n & ? & _).
Defined.

Definition printedFiles (h : heap) (a : addr) : list FileInfo :=
  match h !! a with
  | Some n => if tn_IsEntireDir n then [] else tn_Files n
  | None => []
  end.

(** The number of lines that [printTree] writes for one node it
    visits. *)
Definition linesAt (h : heap) (a : addr) : nat :=
  (if decide (hasDirLine h a) then 1 else 0) + length (printedFiles h a).

(** A node whose mark is the one that [markEntireDirectories] would
    assign it now. *)
Definition treeSettled (h : heap) (a : addr) : Prop :=
  ∃ n b, h !! a = Some n ∧ treeVerdict h a = Some b ∧ tn_IsEntireDir n = b.

(** A node with something to show: it has a file, or is not a directory,
    or has such a node below it. *)
Definition holdsFile (h : heap) (x : addr) : Prop :=
  ∃ y n, desc h x y ∧ h !! y = Some n ∧ (tn_Files n ≠ [] ∨ tn_IsDir n = false).

(** A path element that names an entry: not empty, free of separators,
    and neither [.] nor [..]; and a record whose relative path is made
    of such elements. *)
Definition normalElement (e : string) : Prop :=
  keptElement e ∧ e ≠ "." ∧ e ≠ "..".

Definition normalRecord (f : FileInfo) : Prop :=
  Forall normalElement (pathParts f).

#[global] Instance normalElement_dec e : Decision (normalElement e).
Proof. unfold normalElement, keptElement. apply _. Defined.

#[global] Instance normalRecord_dec f : Decision (normalRecord f).
Proof. unfold normalRecord. apply _. Defined.

(** ** The command line *)

(** The value of a decimal digit. *)
Definition digitValue (c : ascii) : option Z :=
  let n := Z.of_nat (nat_of_ascii c) in
  if decide (48 ≤ n ≤ 57)%Z then Some (n - 48)%Z else None.

(** The number that a string of decimal digits denotes, continuing from
    [acc]; nothing when a character is not a digit. *)
Fixpoint digitsValue (s : string) (acc : Z) : option Z :=
  match s with
  | EmptyString => Some acc
  | String c s' => d ← digitValue c; digitsValue s' (acc * 10 + d)
  end.

(** [strconv.Atoi]: an optional sign followed by one or more decimal
    digits, in the range of [int].  [None] stands for every error
    return ([main] tests only whether the error is nil). *)
Definition strconv_Atoi (s : string) : option Z :=
  let '(neg, digits) :=
    match s with
    | String "-" rest => (true, rest)
    | String "+" rest => (false, rest)
    | _ => (false, s)
    end in
  match digits with
  | EmptyString => None
  | _ =>
      un ← digitsValue digits 0;
      let n := if neg : bool then (- un)%Z else un in
      if decide (- 2 ^ 63 ≤ n ≤ int_max)%Z then Some n else None
  end.

(** The variables that the flag loop of [main] assigns, and what it
    prints. *)
Record Flags := mkFlags {
  showDetails : bool;
  showUniqueToSet1 : bool;
  showUniqueToSet2 : bool;
  showModified : bool;
  isPreview : bool;
  previewCount : Z;
  flagsOut : list string
}.

(** The variables before the loop: every flag off, a preview count of
    ten. *)
Definition initialFlags : Flags :=
  {| showDetails := false; showUniqueToSet1 := false; showUniqueToSet2 := false;
     showModified := false; isPreview := false; previewCount := 10; flagsOut := [] |}.

(** The loop [for i := 3; i < len(os.Args); i++] of [main], over
    [os.Args[3:]]. *)
Fixpoint parseFlags (args : list string) (st : Flags) : Flags :=
  match args with
  | [] => st
  | arg :: rest =>
      if decide (arg = "--details") then
        parseFlags rest
          {| showDetails := true; showUniqueToSet1 := showUniqueToSet1 st;
             showUniqueToSet2 := showUniqueToSet2 st; showModified := showModified st;
             isPreview := isPreview st; previewCount := previewCount st;
             flagsOut := flagsOut st |}
      else if decide (arg = "--show-unique-1") then
        parseFlags rest
          {| showDetails := showDetails st; showUniqueToSet1 := true;
             showUniqueToSet2 := showUniqueToSet2 st; showModified := showModified st;
             isPreview := isPreview st; previewCount := previewCount st;
             flagsOut := flagsOut st |}
      else if decide (arg = "--show-unique-2") then
        parseFlags rest
          {| showDetails := showDetails st; showUniqueToSet1 := showUniqueToSet1 st;
             showUniqueToSet2 := true; showModified := showModified st;
             isPreview := isPreview st; previewCount := previewCount st;
             flagsOut := flagsOut st |}
      else if decide (arg = "--show-modified") then
        parseFlags rest
          {| showDetails := showDetails st; showUniqueToSet1 := showUniqueToSet1 st;
             showUniqueToSet2 := showUniqueToSet2 st; showModified := true;
             isPreview := isPreview st; previewCount := previewCount st;
             flagsOut := flagsOut st |}
      else if decide (arg = "--preview") then
        parseFlags rest
          {| showDetails := showDetails st; showUniqueToSet1 := showUniqueToSet1 st;
             showUniqueToSet2 := showUniqueToSet2 st; showModified := showModified st;
             isPreview := true; previewCount := previewCount st;
             flagsOut := flagsOut st |}
      else if decide (arg = "--preview-count") then
        match rest with
        | next :: rest' =>
            let '(count, out) :=
              match strconv_Atoi next with
              | Some count =>
                  if decide (count < 1)%Z
                  then (10%Z, ["Invalid preview count: " +:+ next
                                 +:+ ". Using default of 10." +:+ newline])
                  else (count, [])
              | None =>
                  (10%Z, ["Invalid preview count: " +:+ next
                            +:+ ". Using default of 10." +:+ newline])
              end in
            parseFlags rest'
              {| showDetails := showDetails st; showUniqueToSet1 := showUniqueToSet1 st;
                 showUniqueToSet2 := showUniqueToSet2 st; showModified := showModified st;
                 isPreview := true; previewCount := count;
                 flagsOut := flagsOut st ++ out |}
        | [] =>
            {| showDetails := showDetails st; showUniqueToSet1 := showUniqueToSet1 st;
               showUniqueToSet2 := showUniqueToSet2 st; showModified := showModified st;
               isPreview := true; previewCount := previewCount st;
               flagsOut := flagsOut st |}
        end
      else parseFlags rest st
  end.

(** The arguments that the loop acts on. *)
Definition knownFlags : list string :=
  ["--details"; "--show-unique-1"; "--show-unique-2"; "--show-modified";
   "--preview"; "--preview-count"].

(** ** The one-pass scanner of the first version of [main.go] *)

Module Original.
(** The function literal passed to [filepath.Walk]: it hashes each file
    as the walk meets it and adds the record to the catalog at once.
    The captured catalog and standard output are the state. *)
Definition walkCallback (env : Env) (dir : string) : @WalkFunc (FileSet * list string) :=
  λ path info err st,
    match err with
    | Some e =>
        ((st.1, st.2 ++ ["Warning: Error accessing " +:+ path +:+ ": "
                           +:+ error_Error e +:+ newline]), None)
    | None =>
        match info with
        | None => (st, None)
        | Some info =>
            if fi_IsDir info then (st, None)
            else
              match hashFile env path with
              | Err err =>
                  ((st.1, st.2 ++ ["Warning: Could not hash file " +:+ path +:+ ": "
                                     +:+ error_Error err +:+ newline]), None)
              | Ok hash =>
                  let relPath :=
                    match filepath_Rel dir path with
                    | Ok rel => rel
                    | Err _ => path
                    end in
                  let fileInfo :=
                    {| RelativePath := relPath; AbsolutePath := path;
                       Name := fi_Name info; Hash := hash; Size := fi_Size info;
                       RootDir := dir |} in
                  ((addFile st.1 fileInfo, st.2), None)
              end
        end
    end.

(** The loop [for _, dir := range dirs] of [walkDirectories]. *)
Fixpoint walkRoots (env : Env) (dirs : list string) (st : FileSet * list string)
    : (FileSet * list string) * option error :=
  match dirs with
  | [] => (st, None)
  | dir :: dirs' =>
      if os_Stat_IsNotExist env dir then
        walkRoots env dirs'
          (st.1, st.2 ++ ["Warning: Directory " +:+ dir
                            +:+ " does not exist, skipping..." +:+ newline])
      else
        let '(st', err) := filepath_Walk (walkCallback env dir) env dir st in
        match err with
        | Some e =>
            (st', Some (errorString ("error walking directory " +:+ dir +:+ ": "
                                       +:+ error_Error e)))
        | None => walkRoots env dirs' st'
        end
  end.

(** [walkDirectories]: the catalog or the error, and what was printed. *)
Definition walkDirectories (env : Env) (dirs : list string) : result FileSet * list string :=
  match walkRoots env dirs (emptyFileSet, []) with
  | (st, Some e) => (Err e, st.2)
  | (st, None) => (Ok st.1, st.2)
  end.
End Original.

(** The one-pass scan and the enumeration of the two-pass scan in step:
    the catalog of the one holds the records of the tasks of the other,
    and the one has printed what the other has printed and would print
    while hashing. *)
Definition inStep (env : Env) (old : FileSet * list string) (st : walkState) : Prop :=
  Files old.1 = hashedRecords env (allTasks st) ∧
  indexesDerived old.1 ∧
  old.2 ≡ₚ stdout st ++ omap (sequentialWarning env) (allTasks st).

(** * Proofs *)

(** A closed decidable proposition, settled by evaluating its decision
    procedure. *)
Ltac by_computation := apply (bool_decide_unpack _); by vm_compute.

(** ** Lemmas on the differ *)

Lemma loop2_spec set1 l r :
  let r' := fold_left (compareSet2File set1) l r in
  SameNameDifferentHash r' = SameNameDifferentHash r ++ filter (isModified set1) l ∧
  UniqueToSet2 r' = UniqueToSet2 r ++ filter (isUnique set1) l ∧
  UniqueToSet1 r' = UniqueToSet1 r ∧
  NameMappings r' = mappingsOf set1 (filter (isModified set1) l) (NameMappings r).
Proof.
  revert r. induction l as [|f l IH]; intros r; simpl.
  - rewrite !app_nil_r. done.
  - specialize (IH (compareSet2File set1 r f)). simpl in IH.
    destruct IH as (IH1 & IH2 & IH3 & IH4).
    rewrite IH1, IH2, IH3, IH4. clear IH1 IH2 IH3 IH4.
    unfold compareSet2File.
    destruct (HashMap set1 !! Hash f) as [hs|] eqn:Hh.
    + assert (¬ isModified set1 f) as Hm.
      { intros [Hn _]. apply Hn. unfold hashIn. rewrite Hh. eauto. }
      assert (¬ isUnique set1 f) as Hu.
      { intros [Hn _]. apply Hn. unfold hashIn. rewrite Hh. eauto. }
      rewrite !filter_cons. rewrite !decide_False by done. done.
    + destruct (NameMap set1 !! Name f) as [fs|] eqn:Hn; simpl.
      * assert (isModified set1 f) as Hm.
        { split; unfold hashIn, nameIn; rewrite ?Hh, ?Hn; eauto.
          all: try (intros [? ?]; done). }
        assert (¬ isUnique set1 f) as Hu.
        { intros [_ Hx]. apply Hx. unfold nameIn. rewrite Hn. eauto. }
        rewrite !filter_cons. rewrite decide_True by done.
        rewrite decide_False by done. simpl. rewrite Hn.
        rewrite <- !app_assoc. done.
      * assert (¬ isModified set1 f) as Hm.
        { intros [_ Hx]. unfold nameIn in Hx. rewrite Hn in Hx.
          destruct Hx; done. }
        assert (isUnique set1 f) as Hu.
        { split; unfold hashIn, nameIn; rewrite ?Hh, ?Hn; intros [? ?]; done. }
        rewrite !filter_cons. rewrite decide_False by done.
        rewrite decide_True by done. rewrite <- !app_assoc. done.
Qed.

Lemma loop1_spec set2 l r :
  let r' := fold_left (compareSet1File set2) l r in
  SameNameDifferentHash r' = SameNameDifferentHash r ∧
  UniqueToSet2 r' = UniqueToSet2 r ∧
  UniqueToSet1 r' = UniqueToSet1 r ++ filter (isUnique set2) l ∧
  NameMappings r' = NameMappings r.
Proof.
  revert r. induction l as [|f l IH]; intros r; simpl.
  - rewrite !app_nil_r. done.
  - specialize (IH (compareSet1File set2 r f)). simpl in IH.
    destruct IH as (IH1 & IH2 & IH3 & IH4).
    rewrite IH1, IH2, IH3, IH4. clear IH1 IH2 IH3 IH4.
    unfold compareSet1File.
    destruct (HashMap set2 !! Hash f) as [hs|] eqn:Hh.
    + assert (¬ isUnique set2 f) as Hu.
      { intros [Hn _]. apply Hn. unfold hashIn. rewrite Hh. eauto. }
      rewrite filter_cons, decide_False by done. done.
    + destruct (NameMap set2 !! Name f) as [fs|] eqn:Hn; simpl.
      * assert (¬ isUnique set2 f) as Hu.
        { intros [_ Hx]. apply Hx. unfold nameIn. rewrite Hn. eauto. }
        rewrite filter_cons, decide_False by done. done.
      * assert (isUnique set2 f) as Hu.
        { split; unfold hashIn, nameIn; rewrite ?Hh, ?Hn; intros [? ?]; done. }
        rewrite filter_cons, decide_True by done.
        rewrite <- !app_assoc. done.
Qed.

(** The four fields of the result, in closed form. *)
Lemma compareFileSets_spec set1 set2 :
  let r := compareFileSets set1 set2 in
  SameNameDifferentHash r = filter (isModified set1) (Files set2) ∧
  UniqueToSet2 r = filter (isUnique set1) (Files set2) ∧
  UniqueToSet1 r = filter (isUnique set2) (Files set1) ∧
  NameMappings r = mappingsOf set1 (filter (isModified set1) (Files set2)) ∅.
Proof.
  unfold compareFileSets.
  destruct (loop1_spec set2 (Files set1)
              (fold_left (compareSet2File set1) (Files set2) emptyComparisonResult))
    as (A1 & A2 & A3 & A4).
  destruct (loop2_spec set1 (Files set2) emptyComparisonResult)
    as (B1 & B2 & B3 & B4).
  simpl in *. rewrite A1, A2, A3, A4, B1, B2, B3, B4. done.
Qed.

(** *** Indexes *)

Lemma appendIndex_lookup key m f k :
  appendIndex key m f !! k =
    if decide (key f = k) then Some (default [] (m !! k) ++ [f]) else m !! k.
Proof.
  unfold appendIndex. rewrite lookup_insert.
  destruct (decide (key f = k)) as [->|]; done.
Qed.

Lemma fold_appendIndex_lookup key files m k :
  fold_left (appendIndex key) files m !! k =
    match filter (λ f, key f = k) files with
    | [] => m !! k
    | l => Some (default [] (m !! k) ++ l)
    end.
Proof.
  revert m. induction files as [|f files IH]; intros m; simpl; [done|].
  rewrite IH, appendIndex_lookup, filter_cons.
  destruct (decide (key f = k)) as [Hk|Hk]; simpl.
  - destruct (filter _ files); simpl; [done|]. by rewrite <- app_assoc.
  - done.
Qed.

Lemma indexBy_lookup key files k : indexBy key files !! k = indexOf key files k.
Proof.
  unfold indexBy, indexOf. rewrite fold_appendIndex_lookup, lookup_empty.
  by destruct (filter _ files).
Qed.

Lemma indexOf_is_Some key files k :
  is_Some (indexOf key files k) ↔ ∃ f, f ∈ files ∧ key f = k.
Proof.
  unfold indexOf. destruct (filter _ files) as [|x l] eqn:E.
  - split; [intros [? ?]; done|]. intros (f & Hf & Hk).
    assert (f ∈ filter (λ f, key f = k) files) as Hin
      by (apply list_elem_of_filter; done).
    rewrite E in Hin. by apply elem_of_nil in Hin.
  - split; [|eauto]. intros _.
    assert (x ∈ filter (λ f, key f = k) files) as Hin
      by (rewrite E; left).
    apply list_elem_of_filter in Hin as [? ?]. eauto.
Qed.

Lemma indexesDerived_hashIn s f : indexesDerived s → f ∈ Files s → hashIn s f.
Proof.
  intros [_ Hh] Hf. unfold hashIn. rewrite Hh, indexBy_lookup.
  apply indexOf_is_Some. eauto.
Qed.

Lemma indexesDerived_nameIn s f : indexesDerived s → f ∈ Files s → nameIn s f.
Proof.
  intros [Hn _] Hf. unfold nameIn. rewrite Hn, indexBy_lookup.
  apply indexOf_is_Some. eauto.
Qed.

(** *** The name mapping *)

Lemma mappingsOf_lookup set1 l m n :
  (∀ f, f ∈ l → nameIn set1 f) →
  mappingsOf set1 l m !! n =
    if decide (n ∈ Name <$> l) then NameMap set1 !! n else m !! n.
Proof.
  revert m. induction l as [|f l IH]; intros m Hl; cbn [mappingsOf].
  - rewrite decide_False; [done|]. rewrite fmap_nil. apply not_elem_of_nil.
  - rewrite fmap_cons.
    assert (nameIn set1 f) as [fs Hfs] by (apply Hl; left).
    rewrite Hfs. rewrite IH by (intros; apply Hl; by right).
    destruct (decide (n ∈ Name <$> l)) as [Hin|Hin].
    + rewrite decide_True; [done|]. by right.
    + rewrite lookup_insert. destruct (decide (Name f = n)) as [<-|Hne].
      * rewrite decide_True; [done|]. left.
      * rewrite decide_False; [done|]. intros Hc.
        apply elem_of_cons in Hc as [->|]; done.
Qed.

Lemma NameMappings_lookup set1 set2 n :
  NameMappings (compareFileSets set1 set2) !! n =
    if decide (n ∈ Name <$> SameNameDifferentHash (compareFileSets set1 set2))
    then NameMap set1 !! n else None.
Proof.
  destruct (compareFileSets_spec set1 set2) as (E1 & _ & _ & E4).
  simpl in *. rewrite E4, E1, mappingsOf_lookup.
  - by rewrite lookup_empty.
  - intros f Hf. apply list_elem_of_filter in Hf as [[_ ?] _]. done.
Qed.

(** *** Catalogs that differ in record order *)

Lemma sameIndex_is_Some m m' k : sameIndex m m' → is_Some (m !! k) ↔ is_Some (m' !! k).
Proof.
  intros H. specialize (H k). destruct H; split; intros [? ?]; eauto; done.
Qed.

Lemma sameCatalog_isModified s s' f : sameCatalog s s' → isModified s f ↔ isModified s' f.
Proof.
  intros (_ & Hn & Hh). unfold isModified, hashIn, nameIn.
  rewrite (sameIndex_is_Some _ _ (Hash f) Hh), (sameIndex_is_Some _ _ (Name f) Hn).
  done.
Qed.

Lemma sameCatalog_isUnique s s' f : sameCatalog s s' → isUnique s f ↔ isUnique s' f.
Proof.
  intros (_ & Hn & Hh). unfold isUnique, hashIn, nameIn.
  rewrite (sameIndex_is_Some _ _ (Hash f) Hh), (sameIndex_is_Some _ _ (Name f) Hn).
  done.
Qed.

Lemma indexOf_Permutation key l l' k :
  l ≡ₚ l' → option_Forall2 (≡ₚ) (indexOf key l k) (indexOf key l' k).
Proof.
  intros Hp. unfold indexOf.
  assert (filter (λ f, key f = k) l ≡ₚ filter (λ f, key f = k) l') as Hf
    by (by rewrite Hp).
  destruct (filter _ l) as [|x xs], (filter _ l') as [|y ys].
  - constructor.
  - by apply Permutation_nil_cons in Hf.
  - symmetry in Hf. by apply Permutation_nil_cons in Hf.
  - by constructor.
Qed.

Lemma sameCatalog_of_Permutation s s' :
  Files s ≡ₚ Files s' → indexesDerived s → indexesDerived s' → sameCatalog s s'.
Proof.
  intros Hp [Hn Hh] [Hn' Hh']. split; [done|].
  split; intros k.
  - rewrite Hn, Hn', !indexBy_lookup. by apply indexOf_Permutation.
  - rewrite Hh, Hh', !indexBy_lookup. by apply indexOf_Permutation.
Qed.

(** ** Lemmas on the scanner *)

(** *** Adding records to a catalog *)

Lemma indexBy_snoc key files f :
  indexBy key (files ++ [f]) = appendIndex key (indexBy key files) f.
Proof. unfold indexBy. by rewrite fold_left_app. Qed.

Lemma indexesDerived_empty : indexesDerived emptyFileSet.
Proof. by split. Qed.

Lemma indexesDerived_addFile s f : indexesDerived s → indexesDerived (addFile s f).
Proof.
  intros [Hn Hh]. split; simpl; rewrite indexBy_snoc; congruence.
Qed.

Lemma fold_addFile_Files l s : Files (fold_left addFile l s) = Files s ++ l.
Proof.
  revert s. induction l as [|f l IH]; intros s; simpl.
  - by rewrite app_nil_r.
  - rewrite IH. simpl. by rewrite <- app_assoc.
Qed.

Lemma fold_addFile_derived l s :
  indexesDerived s → indexesDerived (fold_left addFile l s).
Proof.
  revert s. induction l as [|f l IH]; intros s Hs; simpl; [done|].
  by apply IH, indexesDerived_addFile.
Qed.

(** What a catalog with derived indexes offers to its readers. *)
Lemma indexesDerived_elem s :
  indexesDerived s →
  (∀ n f, f ∈ default [] (NameMap s !! n) ↔ f ∈ Files s ∧ Name f = n) ∧
  (∀ h f, f ∈ default [] (HashMap s !! h) ↔ f ∈ Files s ∧ Hash f = h).
Proof.
  assert (∀ key files k f,
    f ∈ default [] (indexOf key files k) ↔ f ∈ files ∧ key f = k) as Haux.
  { intros key files k f. unfold indexOf.
    transitivity (f ∈ filter (λ f, key f = k) files).
    - destruct (filter _ files); simpl; done.
    - rewrite list_elem_of_filter. tauto. }
  intros [Hn Hh]. split; intros k f.
  - rewrite Hn, indexBy_lookup. apply Haux.
  - rewrite Hh, indexBy_lookup. apply Haux.
Qed.

(** *** The sequential back end *)

Lemma sequential_fold env tasks acc :
  let r := fold_left (sequentialTask env) tasks acc in
  Files r.1 = Files acc.1 ++ hashedRecords env tasks ∧
  (indexesDerived acc.1 → indexesDerived r.1) ∧
  r.2 = acc.2 ++ omap (sequentialWarning env) tasks.
Proof.
  revert acc. induction tasks as [|t tasks IH]; intros acc; simpl.
  - rewrite !app_nil_r. done.
  - destruct (IH (sequentialTask env acc t)) as (E1 & E2 & E3).
    rewrite E1, E3. clear E1 E3.
    unfold sequentialTask, hashedRecords, hashedRecord, sequentialWarning in *.
    simpl. destruct (hashFile env (task_Path t)) as [hash|err]; simpl in *.
    + rewrite <- app_assoc. split; [done|]. split; [|done].
      intros Hd. by apply E2, indexesDerived_addFile.
    + rewrite <- app_assoc. done.
Qed.

Lemma processFilesSequentially_spec env tasks :
  ∃ fs out,
    processFilesSequentially env tasks = (Ok fs, out) ∧
    Files fs = hashedRecords env tasks ∧
    indexesDerived fs ∧
    out = omap (sequentialWarning env) tasks.
Proof.
  unfold processFilesSequentially.
  destruct (sequential_fold env tasks (emptyFileSet, [])) as (E1 & E2 & E3).
  destruct (fold_left _ tasks _) as [fs out]. simpl in *.
  exists fs, out. split; [done|]. split; [done|]. split; [|done].
  apply E2, indexesDerived_empty.
Qed.

(** *** Jobs and batch results *)

Lemma makeJobs_concat fuel tasks b i :
  0 < b → length tasks - i ≤ fuel →
  makeJobs fuel tasks b i ≫= job_Files = drop i tasks.
Proof.
  intros Hb. revert i. induction fuel as [|fuel IH]; intros i Hfuel; simpl.
  - rewrite drop_ge by lia. done.
  - destruct (decide (i < length tasks)) as [Hi|Hi].
    + rewrite bind_cons. simpl. rewrite IH by lia.
      destruct (decide (length tasks < i + b)) as [He|He].
      * rewrite (drop_ge tasks (i + b)) by lia. rewrite app_nil_r.
        apply take_ge. rewrite length_drop. lia.
      * replace (i + b - i) with b by lia.
        rewrite <- drop_drop. apply take_drop.
    + rewrite drop_ge by lia. done.
Qed.

Lemma hashWorker_fold env tasks batch :
  let r := fold_left (hashWorkerTask env) tasks batch in
  FileInfos r = FileInfos batch ++ hashedRecords env tasks ∧
  resultWarnings r = resultWarnings batch ++ omap (parallelWarning env) tasks.
Proof.
  revert batch. induction tasks as [|t tasks IH]; intros batch; simpl.
  - rewrite !app_nil_r. done.
  - destruct (IH (hashWorkerTask env batch t)) as (E1 & E2).
    rewrite E1, E2. clear E1 E2.
    unfold hashWorkerTask, hashedRecords, hashedRecord, parallelWarning, resultWarnings.
    simpl. destruct (hashFile env (task_Path t)) as [hash|err]; simpl.
    + rewrite <- app_assoc. done.
    + rewrite map_app, <- app_assoc. done.
Qed.

Lemma hashWorkerJob_spec env job :
  FileInfos (hashWorkerJob env job) = hashedRecords env (job_Files job) ∧
  resultWarnings (hashWorkerJob env job) = omap (parallelWarning env) (job_Files job).
Proof.
  unfold hashWorkerJob.
  destruct (hashWorker_fold env (job_Files job) {| FileInfos := []; Errors := [] |})
    as (E1 & E2). done.
Qed.

Lemma jobs_records env jobs :
  (hashWorkerJob env <$> jobs) ≫= FileInfos = hashedRecords env (jobs ≫= job_Files).
Proof.
  induction jobs as [|j jobs IH]; [done|].
  rewrite fmap_cons, !bind_cons, IH.
  unfold hashedRecords. rewrite omap_app.
  by destruct (hashWorkerJob_spec env j) as [-> _].
Qed.

Lemma jobs_warnings env jobs :
  (hashWorkerJob env <$> jobs) ≫= resultWarnings
    = omap (parallelWarning env) (jobs ≫= job_Files).
Proof.
  induction jobs as [|j jobs IH]; [done|].
  rewrite fmap_cons, !bind_cons, IH, omap_app.
  by destruct (hashWorkerJob_spec env j) as [_ ->].
Qed.

Lemma omap_lookup_seq {A B} (f : A → B) (l : list A) :
  omap (λ i, f <$> l !! i) (seq 0 (length l)) = f <$> l.
Proof.
  induction l as [|x l IH] using rev_ind; [done|].
  rewrite length_app. simpl. rewrite Nat.add_1_r, seq_S, omap_app. simpl.
  rewrite fmap_app. simpl. f_equal.
  - rewrite <- IH. apply list_omap_ext.
    apply Forall2_same_length_lookup_2; [done|].
    intros i x1 x2 Hx1 Hx2. assert (x1 = x2) as <- by congruence.
    apply lookup_seq in Hx1 as [-> Hlt]. simpl.
    by rewrite lookup_app_l.
  - rewrite list_lookup_middle by done. done.
Qed.

Lemma collect_fold results acc :
  let r := fold_left collectResult results acc in
  Files r.1 = Files acc.1 ++ (results ≫= FileInfos) ∧
  (indexesDerived acc.1 → indexesDerived r.1) ∧
  r.2 = acc.2 ++ (results ≫= resultWarnings).
Proof.
  revert acc. induction results as [|x results IH]; intros acc.
  - simpl. rewrite !app_nil_r. done.
  - cbn [fold_left]. cbv zeta.
    destruct (IH (collectResult acc x)) as (E1 & E2 & E3).
    rewrite E1, E3. clear E1 E3. rewrite !bind_cons.
    unfold collectResult in *. simpl in *.
    rewrite fold_addFile_Files, <- !app_assoc.
    split; [done|]. split; [|done].
    intros Hd. by apply E2, fold_addFile_derived.
Qed.

Lemma batchSizeFor_pos env tasks : 0 < Z.to_nat (batchSizeFor env tasks).
Proof.
  unfold batchSizeFor, minBatchSize. case_bool_decide; lia.
Qed.

Lemma processFilesInParallel_spec env tasks :
  ∃ fs out,
    processFilesInParallel env tasks = (Ok fs, out) ∧
    indexesDerived fs ∧
    (fairArrival env →
       Files fs ≡ₚ hashedRecords env tasks ∧
       out ≡ₚ omap (parallelWarning env) tasks).
Proof.
  unfold processFilesInParallel.
  set (jobs := makeJobs _ _ _ _).
  set (results := omap _ _).
  destruct (collect_fold results (emptyFileSet, [])) as (E1 & E2 & E3).
  destruct (fold_left _ results _) as [fs out]. simpl in *.
  exists fs, out. split; [done|]. split; [apply E2, indexesDerived_empty|].
  intros Hfair.
  assert (results ≡ₚ hashWorkerJob env <$> jobs) as Hres.
  { unfold results. rewrite (Hfair (length jobs)). by rewrite omap_lookup_seq. }
  assert (jobs ≫= job_Files = tasks) as Hjobs.
  { unfold jobs. rewrite makeJobs_concat; [done| |lia]. apply batchSizeFor_pos. }
  rewrite E1, E3, Hres, jobs_records, jobs_warnings, Hjobs. done.
Qed.

(** *** Enumeration *)

Lemma FsNode_nested_ind (P : FsNode → Prop) :
  (∀ size, P (FsFile size)) →
  (∀ readErr entries,
     Forall (λ entry, ∀ child, entry.2 = Ok child → P child) entries →
     P (FsDir readErr entries)) →
  ∀ node, P node.
Proof.
  intros Hfile Hdir. fix IH 1. intros [size|readErr entries].
  - apply Hfile.
  - apply Hdir. induction entries as [|[name [child|e]] rest IHrest].
    + constructor.
    + constructor; [|exact IHrest]. simpl. intros c [= <-]. apply IH.
    + constructor; [|exact IHrest]. simpl. intros c [=].
Qed.

Lemma int_wrap_small z : (- 2 ^ 63 ≤ z ≤ int_max)%Z → int_wrap z = z.
Proof.
  unfold int_wrap, int_max. intros H.
  rewrite Z.mod_small by lia. lia.
Qed.

Lemma walkPost_refl limit st : walkPost limit st (st, None) [].
Proof.
  split; [by left|]. split; [done|]. split; [done|].
  intros _. split; [done|]. by rewrite app_nil_r.
Qed.

Lemma walkPost_trans limit st st1 r files1 files2 :
  walkPost limit st (st1, None) files1 →
  walkPost limit st1 r files2 →
  walkPost limit st r (files1 ++ files2).
Proof.
  intros (_ & A2 & A3 & A4) (B1 & B2 & B3 & B4). simpl in *.
  split; [done|]. split; [auto|]. split; [by etrans|].
  intros Hl. destruct (A4 Hl) as [_ EA]. destruct (B4 Hl) as [? EB].
  split; [done|]. rewrite EB, EA. by rewrite app_assoc.
Qed.

Lemma walkPost_stop limit st st1 files files' :
  walkPost limit st (st1, Some SkipAll) files →
  walkPost limit st (st1, Some SkipAll) files'.
Proof.
  intros (A1 & A2 & A3 & A4). simpl in *.
  split; [by right|]. split; [done|]. split; [done|].
  intros Hl. destruct (A4 Hl) as [? _]. done.
Qed.

(** One call of the callback. *)
Lemma walkCallback_post dir limit path info err st :
  (err = None → is_Some info) →
  walkPost limit st (walkCallback dir limit path info err st)
    match err, info with
    | None, Some i => if fi_IsDir i then [] else [(path, i)]
    | _, _ => []
    end.
Proof.
  intros Hinfo. unfold walkCallback.
  destruct err as [e|].
  - split; [by left|]. split; [done|]. split; [by apply prefix_app_r|]. simpl.
    intros _. split; [done|]. by rewrite app_nil_r.
  - destruct info as [i|]; [|by destruct Hinfo].
    destruct (fi_IsDir i); [apply walkPost_refl|].
    destruct (bool_decide (limit > 0)%Z && bool_decide (taskCount st >= limit)%Z) eqn:Hcap.
    + apply andb_prop in Hcap as [H1%bool_decide_eq_true H2%bool_decide_eq_true].
      split; [by right|]. split; [done|]. split; [done|]. simpl. intros ?. lia.
    + split; [by left|]. simpl. split; [|split; [done|]].
      * intros Hl [Hc Hle]. unfold capInv. simpl.
        apply andb_false_iff in Hcap as [Hcap|Hcap];
          apply bool_decide_eq_false in Hcap; [lia|].
        rewrite int_wrap_small by (unfold int_max in *; lia).
        rewrite length_app. simpl. lia.
      * intros _. split; [done|]. by rewrite fmap_app.
Qed.

Lemma walkEntries_post dir limit path entries st :
  Forall (λ entry, ∀ child, entry.2 = Ok child →
            ∀ path name st,
              walkPost limit st (walk (walkCallback dir limit) path name child st)
                (regularFiles path name child)) entries →
  walkPost limit st
    (walkEntries (walkCallback dir limit) (walk (walkCallback dir limit)) path entries st)
    (flat_map (λ entry : string * result FsNode,
                 match entry.2 with
                 | Ok child => regularFiles (filepath_Join path entry.1) entry.1 child
                 | Err _ => []
                 end) entries).
Proof.
  intros HF. revert st. induction HF as [|[name [child|e]] rest Hhd Htl IH]; intros st.
  - apply walkPost_refl.
  - cbn [walkEntries flat_map fst snd]. simpl in Hhd.
    specialize (Hhd child eq_refl (filepath_Join path name) name st).
    destruct (walk _ _ _ child st) as [st' [err'|]].
    + destruct Hhd as ([?|Herr] & ?); [done|]. simpl in Herr. injection Herr as ->.
      rewrite orb_true_r.
      eapply walkPost_stop. split; [by right|]. exact H.
    + eapply walkPost_trans; [exact Hhd|apply IH].
  - cbn [walkEntries flat_map fst snd].
    pose proof (walkCallback_post dir limit (filepath_Join path name) None (Some e) st) as Hcb.
    destruct (walkCallback _ _ _ None (Some e) st) as [st' [err'|]].
    + destruct Hcb as ([?|Herr] & ?); [done..|]. simpl in Herr. injection Herr as ->.
      eapply walkPost_stop. split; [by right|]. exact H.
    + eapply (walkPost_trans _ _ _ _ []); [apply Hcb; done|apply IH].
Qed.

Lemma walk_post dir limit node :
  ∀ path name st,
    walkPost limit st (walk (walkCallback dir limit) path name node st)
      (regularFiles path name node).
Proof.
  induction node as [size|readErr entries IH] using FsNode_nested_ind;
    intros path name st.
  - cbn [walk regularFiles].
    apply (walkCallback_post dir limit path (Some (FsNode_Info name (FsFile size))) None).
    eauto.
  - cbn [walk regularFiles].
    pose proof (walkCallback_post dir limit path
                  (Some (FsNode_Info name (FsDir readErr entries))) readErr st) as Hcb.
    destruct (walkCallback _ _ _ _ readErr st) as [s1 err1].
    assert (walkPost limit st (s1, err1) []) as Hcb'.
    { destruct readErr; simpl in Hcb; apply Hcb; eauto. }
    clear Hcb.
    destruct readErr as [e|]; [exact Hcb'|].
    destruct err1 as [e1|].
    + destruct Hcb' as ([?|Herr] & ?); [done|]. simpl in Herr. injection Herr as ->.
      eapply walkPost_stop. split; [by right|]. exact H.
    + eapply (walkPost_trans _ _ _ _ []); [exact Hcb'|].
      by apply walkEntries_post.
Qed.

Lemma filepath_Walk_post env dir limit st :
  let r := filepath_Walk (walkCallback dir limit) env dir st in
  r.2 = None ∧
  walkPost limit st r
    match os_Lstat env dir with
    | Ok (name, node) => regularFiles dir name node
    | Err _ => []
    end.
Proof.
  unfold filepath_Walk.
  destruct (os_Lstat env dir) as [[name node]|e].
  - pose proof (walk_post dir limit node dir name st) as H.
    destruct (walk _ dir name node st) as [st' err].
    destruct H as ([H1|H1] & H2 & H3 & H4); simpl in *; subst err; simpl.
    + split; [done|]. split; [by left|]. done.
    + split; [done|]. split; [by left|]. split; [done|]. split; [done|].
      intros Hl. by destruct (H4 Hl).
  - pose proof (walkCallback_post dir limit dir None (Some e) st) as H.
    destruct (walkCallback dir limit dir None (Some e) st) as [st' err].
    destruct H as ([H1|H1] & H2 & H3 & H4); [done|..]; simpl in *; subst err; simpl.
    + split; [done|]. split; [by left|]. done.
    + split; [done|]. split; [by left|]. split; [done|]. split; [done|].
      intros Hl. by destruct (H4 Hl).
Qed.

(** The enumeration never fails. *)
Lemma collectTasks_spec env dirs limit st :
  ∃ st',
    collectTasks env dirs limit st = (st', None) ∧
    ((0 < limit ≤ int_max)%Z → capInv limit st → capInv limit st') ∧
    stdout st `prefix_of` stdout st' ∧
    (∀ dir, dir ∈ dirs → os_Stat_IsNotExist env dir = true →
            missingRootWarning dir ∈ stdout st') ∧
    ((limit ≤ 0)%Z →
       taskKey <$> allTasks st' = (taskKey <$> allTasks st) ++ flat_map (rootFiles env) dirs).
Proof.
  revert st. induction dirs as [|dir dirs IH]; intros st.
  - exists st. simpl. split; [done|]. split; [done|]. split; [done|].
    split; [by intros ? ?%elem_of_nil|]. intros _. by rewrite app_nil_r.
  - cbn [collectTasks flat_map]. unfold rootFiles at 1.
    destruct (os_Stat_IsNotExist env dir) eqn:Hstat.
    + destruct (IH {| allTasks := allTasks st; taskCount := taskCount st;
                      stdout := stdout st ++ [missingRootWarning dir] |})
        as (st' & E & H1 & H2 & H3 & H4).
      exists st'. split; [exact E|]. simpl in *. split; [exact H1|].
      split; [etrans; [|exact H2]; by apply prefix_app_r|].
      split; [|exact H4].
      intros d Hd Hm. apply elem_of_cons in Hd as [->|Hd]; [|by apply H3].
      eapply elem_of_prefix; [|exact H2]. apply elem_of_app. right. left.
    + destruct (filepath_Walk_post env dir limit st) as (Herr & _ & W2 & W3 & W4).
      destruct (filepath_Walk (walkCallback dir limit) env dir st) as [st1 err].
      simpl in *. subst err.
      destruct (IH st1) as (st' & E & H1 & H2 & H3 & H4).
      exists st'. split; [exact E|]. split; [auto|]. split; [by etrans|].
      split.
      * intros d Hd Hm. apply elem_of_cons in Hd as [->|Hd]; [congruence|by apply H3].
      * intros Hl. rewrite (H4 Hl). destruct (W4 Hl) as [_ ->].
        by rewrite <- app_assoc.
Qed.

Lemma hashedRecords_length env tasks : length (hashedRecords env tasks) ≤ length tasks.
Proof.
  unfold hashedRecords. induction tasks as [|t tasks IH]; [done|].
  change (t :: tasks) with ([t] ++ tasks). rewrite omap_app, !length_app.
  simpl. destruct (hashedRecord env t); simpl; lia.
Qed.

Lemma hashedRecords_elem env tasks f :
  f ∈ hashedRecords env tasks ↔
  ∃ task hash, task ∈ tasks ∧ hashFile env (task_Path task) = Ok hash ∧
               f = taskFileInfo task hash.
Proof.
  unfold hashedRecords. rewrite list_elem_of_omap. unfold hashedRecord. split.
  - intros (t & Ht & E). destruct (hashFile env (task_Path t)) as [h|] eqn:Eh; [|done].
    injection E as <-. eauto.
  - intros (t & h & Ht & Eh & ->). exists t. by rewrite Eh.
Qed.

Lemma warning_elem (w : FileTask → option string) (tasks : list FileTask) task line :
  task ∈ tasks → w task = Some line → line ∈ omap w tasks.
Proof. intros Ht Hw. apply list_elem_of_omap. eauto. Qed.

(** Which back end a scan uses, and what it returns: the scan never fails. *)
Lemma walkDirectoriesWithLimit_spec env dirs limit :
  ∃ st fs out,
    collectTasks env dirs limit initialWalkState = (st, None) ∧
    walkDirectoriesWithLimit env dirs limit = (Ok fs, stdout st ++ out) ∧
    (if decide (length (allTasks st) < minFilesForParallelization)
     then processFilesSequentially env (allTasks st)
     else processFilesInParallel env (allTasks st)) = (Ok fs, out) ∧
    indexesDerived fs ∧
    (fairArrival env →
       Files fs ≡ₚ hashedRecords env (allTasks st) ∧
       ∀ task line, task ∈ allTasks st →
         sequentialWarning env task = Some line →
         ∃ line', line' ∈ out ∧
           (sequentialWarning env task = Some line' ∨ parallelWarning env task = Some line')).
Proof.
  unfold walkDirectoriesWithLimit.
  destruct (collectTasks_spec env dirs limit initialWalkState) as (st & E & _).
  rewrite E. exists st.
  destruct (decide (length (allTasks st) < minFilesForParallelization)).
  - destruct (processFilesSequentially_spec env (allTasks st))
      as (fs & out & Es & Ef & Hd & Ho).
    rewrite Es. exists fs, out.
    repeat (split; [done|]). intros _. split; [by rewrite Ef|].
    intros task line Ht Hw. exists line. split; [|by left].
    rewrite Ho. by eapply warning_elem.
  - destruct (processFilesInParallel_spec env (allTasks st))
      as (fs & out & Es & Hd & Hp).
    rewrite Es. exists fs, out.
    repeat (split; [done|]). intros Hf. destruct (Hp Hf) as [Hfiles Hout].
    split; [done|].
    intros task line Ht Hw.
    assert (is_Some (parallelWarning env task)) as [line' Hl'].
    { unfold sequentialWarning, parallelWarning in *.
      destruct (hashFile env (task_Path task)); [done|eauto]. }
    exists line'. split; [|by right]. rewrite Hout. by eapply warning_elem.
Qed.
(** *** The traversal as a list of reports *)

Lemma eventStep_err dir limit ev st st' e :
  eventStep dir limit ev st = (st', Some e) → e = SkipAll.
Proof.
  destruct ev as [path info|path e']; simpl; [|done].
  destruct (fi_IsDir info); [done|].
  destruct (_ && _); [|done]. by intros [= _ <-].
Qed.

Lemma runEvents_err dir limit events : ∀ st st' e,
  runEvents dir limit events st = (st', Some e) → e = SkipAll.
Proof.
  induction events as [|ev events IH]; intros st st' e; [done|].
  cbn [runEvents]. destruct (eventStep dir limit ev st) as [st1 [e1|]] eqn:E.
  - intros [= _ <-]. by eapply eventStep_err.
  - apply IH.
Qed.

Lemma runEvents_app dir limit events1 events2 st :
  runEvents dir limit (events1 ++ events2) st =
    match runEvents dir limit events1 st with
    | (st1, None) => runEvents dir limit events2 st1
    | (st1, Some e) => (st1, Some e)
    end.
Proof.
  revert st. induction events1 as [|ev events1 IH]; intros st; [done|].
  cbn [app runEvents]. destruct (eventStep dir limit ev st) as [st1 [e1|]]; [done|].
  apply IH.
Qed.

Lemma eventStep_stdout dir limit ev st :
  stdout st `prefix_of` stdout (eventStep dir limit ev st).1.
Proof.
  destruct ev as [path info|path e]; simpl; [|by apply prefix_app_r].
  destruct (fi_IsDir info); [done|]. by destruct (_ && _).
Qed.

Lemma runEvents_stdout dir limit events : ∀ st,
  stdout st `prefix_of` stdout (runEvents dir limit events st).1.
Proof.
  induction events as [|ev events IH]; intros st; [done|].
  cbn [runEvents]. pose proof (eventStep_stdout dir limit ev st) as Hs.
  destruct (eventStep dir limit ev st) as [st1 [e1|]]; [done|].
  etrans; [exact Hs|apply IH].
Qed.

Lemma walkEntries_runEvents dir limit path entries :
  Forall (λ entry, ∀ child, entry.2 = Ok child →
            ∀ path name st,
              walk (walkCallback dir limit) path name child st
                = runEvents dir limit (walkEvents path name child) st) entries →
  ∀ st,
    walkEntries (walkCallback dir limit) (walk (walkCallback dir limit)) path entries st
      = runEvents dir limit
          (flat_map (λ entry : string * result FsNode,
                       match entry.2 with
                       | Ok child => walkEvents (filepath_Join path entry.1) entry.1 child
                       | Err e => [evFail (filepath_Join path entry.1) e]
                       end) entries) st.
Proof.
  intros HF. induction HF as [|[name [child|e]] rest Hhd Htl IH]; intros st; [done| |].
  - cbn [walkEntries flat_map fst snd]. simpl in Hhd.
    rewrite runEvents_app, <- (Hhd child eq_refl).
    destruct (walk _ _ _ child st) as [st' [err'|]] eqn:E; [|apply IH].
    rewrite (Hhd child eq_refl) in E. apply runEvents_err in E as ->.
    by rewrite orb_true_r.
  - cbn [walkEntries flat_map fst snd app runEvents eventStep].
    unfold walkCallback at 1 3. apply IH.
Qed.

Lemma walk_runEvents dir limit node : ∀ path name st,
  walk (walkCallback dir limit) path name node st
    = runEvents dir limit (walkEvents path name node) st.
Proof.
  induction node as [size|readErr entries IH] using FsNode_nested_ind;
    intros path name st.
  - cbn [walk walkEvents runEvents eventStep].
    by destruct (walkCallback _ _ _ _ _ _) as [st' [e|]].
  - cbn [walk]. destruct readErr as [e|].
    + reflexivity.
    + cbn [walkEvents]. change (walkCallback dir limit path
        (Some (FsNode_Info name (FsDir None entries))) None st) with (st, @None error).
      by apply walkEntries_runEvents.
Qed.

Lemma filepath_Walk_runEvents env dir limit st :
  os_Stat_IsNotExist env dir = false →
  filepath_Walk (walkCallback dir limit) env dir st
    = ((runEvents dir limit (rootEvents env dir) st).1, None).
Proof.
  intros Hstat. unfold filepath_Walk, rootEvents. rewrite Hstat.
  destruct (os_Lstat env dir) as [[name node]|e].
  - rewrite walk_runEvents.
    destruct (runEvents _ _ _ st) as [st' [e|]] eqn:E; [|done].
    by apply runEvents_err in E as ->.
  - reflexivity.
Qed.

(** Within the cap the callback does not stop the walk. *)
Lemma runEvents_withinCap dir limit pre rest : ∀ st,
  withinCap limit st (pre ++ rest) →
  ∃ st1, runEvents dir limit pre st = (st1, None) ∧ withinCap limit st1 rest.
Proof.
  induction pre as [|ev pre IH]; intros st Hcap; [by exists st|].
  cbn [runEvents]. destruct ev as [path info|path e].
  - assert (length (eventFiles ((evFile path info :: pre) ++ rest))
            = S (length (eventFiles (pre ++ rest)))) as Hlen by done.
    unfold withinCap in Hcap. rewrite Hlen in Hcap. clear Hlen.
    cbn [eventStep]. unfold walkCallback.
    assert (fi_IsDir info = true ∨ fi_IsDir info = false) as [Hd|Hd]
      by (destruct (fi_IsDir info); auto).
    all: rewrite Hd.
    + apply IH. destruct Hcap as [Hl|(Hm & H0 & Hle)]; [by left|right].
      repeat split; try done. lia.
    + destruct Hcap as [Hl|(Hm & H0 & Hle)].
      * rewrite (bool_decide_eq_false_2 (limit > 0)%Z) by lia. simpl.
        apply IH. by left.
      * rewrite (bool_decide_eq_false_2 (taskCount st >= limit)%Z) by lia.
        rewrite andb_false_r. apply IH. right. simpl.
        rewrite int_wrap_small by (unfold int_max in *; lia).
        repeat split; [done|lia|lia].
  - cbn [eventStep]. unfold walkCallback. apply IH.
    destruct Hcap as [Hl|(Hm & H0 & Hle)]; [by left|right]. done.
Qed.

(** A failure that the traversal of the roots reaches within the cap is
    reported. *)
Lemma collectTasks_accessWarning env limit dirs : ∀ st st' pre path e post,
  flat_map (rootEvents env) dirs = pre ++ evFail path e :: post →
  withinCap limit st pre →
  collectTasks env dirs limit st = (st', None) →
  accessWarning path e ∈ stdout st'.
Proof.
  induction dirs as [|dir dirs IH]; intros st st' pre path e post Hev Hcap Hrun.
  { by destruct pre. }
  cbn [flat_map collectTasks] in *.
  destruct (os_Stat_IsNotExist env dir) eqn:Hstat.
  { unfold rootEvents at 1 in Hev. rewrite Hstat in Hev.
    eapply (IH _ st' pre path e post Hev); [|exact Hrun]. exact Hcap. }
  rewrite (filepath_Walk_runEvents env dir limit st Hstat) in Hrun.
  apply app_eq_app in Hev as [l [[Hroot Hrest]|[Hpre Hrest]]].
  - destruct l as [|ev l].
    + rewrite app_nil_r in Hroot. simpl in Hrest.
      destruct (runEvents_withinCap dir limit (rootEvents env dir) [] st) as (st1 & E & Hc1).
      { rewrite app_nil_r, Hroot. exact Hcap. }
      rewrite E in Hrun. simpl in Hrun.
      apply (IH st1 st' [] path e post); [symmetry; exact Hrest| |done].
      destruct Hc1 as [?|(? & ? & ?)]; [by left|right]. done.
    + injection Hrest as <- Hpost.
      destruct (runEvents_withinCap dir limit pre [] st) as (st0 & E & _).
      { by rewrite app_nil_r. }
      pose proof (runEvents_app dir limit pre (evFail path e :: l) st) as Happ.
      rewrite E, <- Hroot in Happ. cbn [runEvents eventStep] in Happ.
      unfold walkCallback at 1 in Happ.
      match type of Happ with
      | _ = runEvents _ _ _ ?s => pose proof (runEvents_stdout dir limit l s) as Hs
      end.
      rewrite <- Happ in Hs. simpl in Hs.
      destruct (runEvents dir limit (rootEvents env dir) st) as [st1 err1].
      simpl in *.
      destruct (collectTasks_spec env dirs limit st1) as (st2 & E2 & _ & Hp & _).
      rewrite E2 in Hrun. injection Hrun as <-.
      eapply elem_of_prefix; [|exact Hp].
      eapply elem_of_prefix; [|exact Hs].
      apply elem_of_app. right. left.
  - subst pre.
    destruct (runEvents_withinCap dir limit (rootEvents env dir) l st) as (st1 & E & Hc1);
      [done|].
    rewrite E in Hrun. simpl in Hrun.
    by apply (IH st1 st' l path e post).
Qed.

(** The non-directories among the reports are the files that the
    traversal can reach. *)
Lemma eventFiles_app events1 events2 :
  eventFiles (events1 ++ events2) = eventFiles events1 ++ eventFiles events2.
Proof. apply omap_app. Qed.

Lemma eventFiles_walkEvents node : ∀ path name,
  eventFiles (walkEvents path name node) = regularFiles path name node.
Proof.
  induction node as [size|readErr entries IH] using FsNode_nested_ind;
    intros path name; [done|].
  destruct readErr as [e|]; [done|]. cbn [walkEvents regularFiles].
  induction IH as [|[name' [child|e]] rest Hhd Htl IHrest]; [done| |].
  - cbn [flat_map fst snd]. rewrite eventFiles_app, IHrest.
    by rewrite (Hhd child eq_refl).
  - cbn [flat_map fst snd]. by rewrite eventFiles_app, IHrest.
Qed.

Lemma eventFiles_rootEvents env dirs :
  eventFiles (flat_map (rootEvents env) dirs) = flat_map (rootFiles env) dirs.
Proof.
  induction dirs as [|dir dirs IH]; [done|].
  cbn [flat_map]. rewrite eventFiles_app, IH. f_equal.
  unfold rootEvents, rootFiles. destruct (os_Stat_IsNotExist env dir); [done|].
  destruct (os_Lstat env dir) as [[name node]|e]; [|done].
  apply eventFiles_walkEvents.
Qed.

(** ** Lemmas on node stores *)

Lemma desc_trans h a b c : desc h a b → desc h b c → desc h a c.
Proof. induction 1; [done|]. intros. eapply desc_step; eauto. Qed.

Lemma desc_le h a x : treeShaped h → desc h a x → a ≤ x.
Proof.
  intros Hts. induction 1 as [|a k c x Hc _ IH]; [done|].
  apply (ts_order h Hts) in Hc. lia.
Qed.

Lemma desc_lt_length h a x : treeShaped h → a < length h → desc h a x → x < length h.
Proof.
  intros Hts Ha. induction 1 as [|a k c x Hc _ IH]; [done|].
  apply IH. apply (ts_order h Hts) in Hc. lia.
Qed.

(** A proper descendant has a parent among the descendants. *)
Lemma desc_inv_last h a x :
  desc h a x → a = x ∨ ∃ p k, desc h a p ∧ child h p k x.
Proof.
  induction 1 as [|a k c x Hc Hd IH]; [by left|].
  right. destruct IH as [<-|(p & k' & Hp & Hk)].
  - exists a, k. split; [constructor|done].
  - exists p, k'. split; [|done]. eapply desc_step; eauto.
Qed.

(** The ancestors of a node form a chain. *)
Lemma desc_chain h u v x :
  treeShaped h → desc h u x → desc h v x → desc h u v ∨ desc h v u.
Proof.
  intros Hts Hu. revert v. induction Hu as [u|u k c x Hc Hd IH]; intros v Hv.
  - by right.
  - destruct (IH v Hv) as [H1|H1].
    + left. eapply desc_step; eauto.
    + apply desc_inv_last in H1 as [->|(p & k' & Hp & Hk)].
      * left. eapply desc_step; [eauto|constructor].
      * destruct (ts_unique h Hts _ _ _ _ _ Hc Hk) as [-> _]. by right.
Qed.

(** The subtrees of two children of a node are disjoint, and do not
    contain the node. *)
Lemma siblings_disjoint h a k c k' c' x :
  treeShaped h → child h a k c → child h a k' c' → k ≠ k' →
  desc h c x → ¬ desc h c' x.
Proof.
  intros Hts Hc Hc' Hne Hx Hx'.
  assert (∀ k1 c1 k2 c2, child h a k1 c1 → child h a k2 c2 → k1 ≠ k2 →
            ¬ desc h c1 c2) as Haux.
  { intros k1 c1 k2 c2 H1 H2 Hk Hd.
    apply desc_inv_last in Hd as [->|(p & kp & Hp & Hk')].
    - destruct (ts_unique h Hts _ _ _ _ _ H1 H2) as [_ ?]. done.
    - destruct (ts_unique h Hts _ _ _ _ _ H2 Hk') as [<- _].
      apply (desc_le h _ _ Hts) in Hp. apply (ts_order h Hts) in H1. lia. }
  destruct (desc_chain h c c' x Hts Hx Hx') as [H|H].
  - by eapply (Haux k c k' c').
  - eapply (Haux k' c' k c); eauto.
Qed.

Lemma parent_not_below h a k c : treeShaped h → child h a k c → ¬ desc h c a.
Proof.
  intros Hts Hc Hd. apply (desc_le h _ _ Hts) in Hd.
  apply (ts_order h Hts) in Hc. lia.
Qed.

Lemma dirDesc_desc h a x : dirDesc h a x → desc h a x.
Proof.
  induction 1 as [|a n k c x Hn Hd Hk _ IH]; [constructor|].
  eapply desc_step; [|exact IH]. by exists n.
Qed.

(** *** Stores that lost children *)

Lemma shrinks_refl h : shrinks h h.
Proof. split; [done|]. intros x n Hn. exists n. by repeat split. Qed.

Lemma shrinks_trans h1 h2 h3 : shrinks h1 h2 → shrinks h2 h3 → shrinks h1 h3.
Proof.
  intros [L1 S1] [L2 S2]. split; [congruence|].
  intros x n Hn. destruct (S1 x n Hn) as (n' & Hn' & ? & ? & ? & ? & ? & ?).
  destruct (S2 x n' Hn') as (n'' & Hn'' & ? & ? & ? & ? & ? & ?).
  exists n''. repeat split; try congruence. by etrans.
Qed.

Lemma shrinks_deleteChild h a k : shrinks h (deleteChild h a k).
Proof.
  unfold deleteChild. split; [apply length_alter|].
  intros x n Hn. destruct (decide (a = x)) as [->|Hne].
  - eexists. split; [by rewrite list_lookup_alter_eq, Hn|].
    simpl. repeat split; try done. apply delete_subseteq.
  - exists n. split; [by rewrite list_lookup_alter_ne|]. by repeat split.
Qed.

Lemma shrinks_child h h' a k c : shrinks h h' → child h' a k c → child h a k c.
Proof.
  intros [HL HS] (n' & Hn' & Hk).
  assert (is_Some (h !! a)) as [n Hn].
  { apply lookup_lt_is_Some. rewrite <- HL. by eapply lookup_lt_Some. }
  destruct (HS a n Hn) as (n'' & Hn'' & _ & _ & _ & _ & _ & Hsub).
  assert (n'' = n') as -> by congruence.
  exists n. split; [done|]. by eapply lookup_weaken.
Qed.

Lemma shrinks_desc h h' a x : shrinks h h' → desc h' a x → desc h a x.
Proof.
  intros Hs. induction 1 as [|a k c x Hc _ IH]; [constructor|].
  eapply desc_step; [|exact IH]. by eapply shrinks_child.
Qed.

Lemma shrinks_treeShaped h h' : shrinks h h' → treeShaped h → treeShaped h'.
Proof.
  intros Hs [Ho Hu]. split.
  - intros a k c Hc. pose proof Hs as [HL _]. rewrite HL.
    apply Ho with k. by eapply shrinks_child.
  - intros a k c a' k' H1 H2. eapply Hu; by eapply shrinks_child.
Qed.

(** *** Pruned subtrees *)

Lemma prunedAt_child h a n k c :
  h !! a = Some n → tn_IsDir n = true → tn_Children n !! k = Some c →
  prunedAt h a → prunedAt h c.
Proof.
  intros Hn Hd Hk Hp x m Hx. apply Hp. eapply dirDesc_step; eauto.
Qed.

Lemma prunedAt_verdict h c : prunedAt h c → verdict h c = true.
Proof.
  intros Hp. unfold verdict. destruct (h !! c) as [m|] eqn:E; [|done].
  destruct (tn_IsDir m) eqn:Hd; [|done]. simpl.
  eapply (Hp c m); [constructor|done..].
Qed.

Lemma prunedAt_intro h c :
  verdict h c = true →
  (∀ n k c', h !! c = Some n → tn_IsDir n = true → tn_Children n !! k = Some c' →
             prunedAt h c') →
  prunedAt h c.
Proof.
  intros Hv Hch x m Hx. inversion Hx as [|? n k c' ? Hn Hd Hk Hx']; subst.
  - intros Hm Hdir. unfold verdict in Hv. rewrite Hm, Hdir in Hv. done.
  - by apply (Hch n k c' Hn Hd Hk).
Qed.

Lemma dirDesc_agree h h' c x :
  (∀ y, desc h c y → h' !! y = h !! y) → dirDesc h' c x → dirDesc h c x.
Proof.
  intros Hag Hd. induction Hd as [|a n k c x Hn Hdir Hk _ IH]; [constructor|].
  rewrite Hag in Hn by constructor.
  eapply dirDesc_step; [done..|]. apply IH.
  intros y Hy. apply Hag. eapply desc_step; [|exact Hy]. by exists n.
Qed.

Lemma prunedAt_frame h h' c :
  (∀ y, desc h c y → h' !! y = h !! y) → prunedAt h c → prunedAt h' c.
Proof.
  intros Hag Hp x m Hx Hm. pose proof (dirDesc_agree h h' c x Hag Hx) as Hx'.
  rewrite Hag in Hm by (by apply dirDesc_desc). by apply (Hp x m).
Qed.

(** *** [removeEmptyDirectories] on a pruned subtree changes nothing *)

Lemma pruneChildren_noop (rec : heap → addr → option (heap * bool)) node entries h :
  (∀ k c, (k, c) ∈ entries → rec h c = Some (h, true)) →
  pruneChildren rec node entries h = Some h.
Proof.
  induction entries as [|[k c] rest IH]; intros Hrec; simpl; [done|].
  rewrite (Hrec k c) by left. simpl. apply IH.
  intros k' c' Hin. apply (Hrec k' c'). by right.
Qed.

Lemma removeEmptyDirectories_pruned fuel h a n :
  treeShaped h → h !! a = Some n →
  (∀ k c, tn_IsDir n = true → tn_Children n !! k = Some c → prunedAt h c) →
  length h - a ≤ fuel →
  removeEmptyDirectories fuel h a = Some (h, verdict h a).
Proof.
  intros Hts. revert a n. induction fuel as [|fuel IH]; intros a n Hn Hp Hfuel.
  - apply lookup_lt_Some in Hn. lia.
  - cbn [removeEmptyDirectories]. unfold verdict. rewrite Hn. simpl.
    destruct (tn_IsDir n) eqn:Hdir; simpl; [|done].
    rewrite pruneChildren_noop.
    + simpl. by rewrite Hn.
    + intros k c Hin. apply elem_of_map_to_list in Hin.
      assert (child h a k c) as Hc by (by exists n).
      pose proof (ts_order h Hts _ _ _ Hc) as Hord.
      assert (is_Some (h !! c)) as [m Hm] by (apply lookup_lt_is_Some; lia).
      pose proof (Hp k c eq_refl Hin) as Hpc.
      rewrite (IH c m Hm); [by rewrite prunedAt_verdict| |lia].
      intros k' c' Hd' Hk'. by eapply prunedAt_child.
Qed.

(** *** What [removeEmptyDirectories] leaves *)

Lemma keepsFiles_refl h : keepsFiles h h.
Proof. by intros x k c m Hc _ _. Qed.

Lemma keepsFiles_trans h1 h2 h3 :
  shrinks h1 h2 → keepsFiles h1 h2 → keepsFiles h2 h3 → keepsFiles h1 h3.
Proof.
  intros [_ HS] K1 K2 x k c m Hc Hm Hd.
  destruct (HS c m Hm) as (m' & Hm' & _ & Hd' & _).
  apply (K2 x k c m'); [by eapply K1|done|congruence].
Qed.

Lemma keepsFiles_deleteChild h a k c :
  child h a k c → verdict h c = false → keepsFiles h (deleteChild h a k).
Proof.
  intros (na & Hna & Hk) Hv x k' c' m (nx & Hnx & Hk') Hm Hd.
  unfold child, deleteChild. destruct (decide (a = x)) as [<-|Hne].
  - rewrite list_lookup_alter_eq, Hna. simpl. eexists. split; [done|]. simpl.
    assert (nx = na) as -> by congruence.
    destruct (decide (k = k')) as [<-|Hkne]; [|by rewrite lookup_delete_ne].
    assert (c' = c) as -> by congruence.
    unfold verdict in Hv. rewrite Hm, Hd in Hv. done.
  - rewrite list_lookup_alter_ne by done. by exists nx.
Qed.

Lemma desc_first_step h a x :
  desc h a x → a = x ∨ ∃ k c, child h a k c ∧ desc h c x.
Proof. intros [|a' k c x' Hc Hd]; [by left|right; eauto]. Qed.

Lemma desc_agree h h' c x :
  (∀ y, desc h c y → h' !! y = h !! y) → desc h c x → desc h' c x.
Proof.
  intros Hag Hd. induction Hd as [a|a k c x (na & Hna & Hk) Hd IH]; [constructor|].
  apply desc_step with k c.
  - exists na. split; [|done]. rewrite Hag; [done|constructor].
  - apply IH. intros y Hy. apply Hag. apply desc_step with k c; [by exists na|done].
Qed.

Lemma holdsFile_desc h a x : desc h a x → holdsFile h x → holdsFile h a.
Proof.
  intros Hd (y & n & Hy & Hn & Hf). exists y, n. split; [|done]. by eapply desc_trans.
Qed.

Lemma holdsFile_agree h h' c x :
  (∀ y, desc h c y → h' !! y = h !! y) → desc h c x → holdsFile h x → holdsFile h' x.
Proof.
  intros Hag Hd (y & n & Hy & Hn & Hf). exists y, n. split; [|split; [|done]].
  - apply (desc_agree h h' x y); [|done]. intros z Hz. apply Hag. by eapply desc_trans.
  - rewrite Hag; [done|]. by eapply desc_trans.
Qed.

Lemma holdsFile_shrinks h h' x : shrinks h h' → holdsFile h' x → holdsFile h x.
Proof.
  intros Sh (y & n' & Hy & Hn' & Hf).
  assert (is_Some (h !! y)) as [n Hn].
  { apply lookup_lt_is_Some. destruct Sh as [<- _]. by apply lookup_lt_Some in Hn'. }
  destruct Sh as [HL HS] eqn:E. clear E.
  destruct (HS y n Hn) as (n'' & Hn'' & _ & Hd & Hfiles & _).
  assert (n'' = n') as -> by congruence.
  exists y, n. split; [by eapply (shrinks_desc h h'); [split|]|]. split; [done|].
  rewrite <- Hfiles, <- Hd. done.
Qed.

(** A node whose verdict is "discard" after pruning had nothing to
    show. *)
Lemma verdict_false_holdsFile h h' c :
  shrinks h h' → (∀ x, desc h c x → holdsFile h x → desc h' c x) →
  verdict h' c = false → ¬ holdsFile h c.
Proof.
  intros Sh K Hv (y & n & Hy & Hn & Hf).
  assert (desc h' c y) as Hy'.
  { apply K; [done|]. exists y, n. split; [constructor|done]. }
  destruct Sh as [HL HS].
  destruct (HS y n Hn) as (n' & Hn' & _ & Hd & Hfiles & _).
  unfold verdict in Hv. inversion Hy' as [c' Ec|c' k c1 y' (nc & Hnc & Hk) Hd1]; subst.
  - rewrite Hn' in Hv. apply orb_false_iff in Hv as [Hv1 Hv2].
    unfold hasEntries in Hv2. apply orb_false_iff in Hv2 as [Hv2 _].
    apply bool_decide_eq_false in Hv2. apply negb_false_iff in Hv1.
    destruct Hf as [Hf|Hf]; [|congruence].
    rewrite <- Hfiles in Hf. destruct (tn_Files n'); [done|simpl in Hv2; lia].
  - rewrite Hnc in Hv. apply orb_false_iff in Hv as [_ Hv2].
    unfold hasEntries in Hv2. apply orb_false_iff in Hv2 as [_ Hv2].
    apply bool_decide_eq_false in Hv2.
    assert (size (tn_Children nc) ≠ 0); [|lia].
    intros Hz. apply map_size_empty_iff in Hz. rewrite Hz in Hk.
    by rewrite lookup_empty in Hk.
Qed.

Section PruneLoop.
Variable rec : heap → addr → option (heap * bool).
Variable h0 : heap.
Variable a : addr.
Variable n : TreeNode.
Hypothesis Hts : treeShaped h0.
Hypothesis Hn : h0 !! a = Some n.
Hypothesis Hrec : ∀ h c, treeShaped h → length h = length h0 → a < c < length h →
  ∃ h' b, rec h c = Some (h', b) ∧ shrinks h h' ∧
    (∀ x, ¬ desc h c x → h' !! x = h !! x) ∧
    (∀ n' k c', h' !! c = Some n' → tn_IsDir n' = true →
                tn_Children n' !! k = Some c' → prunedAt h' c') ∧
    b = verdict h' c ∧ keepsFiles h h' ∧
    (∀ x, desc h c x → holdsFile h x → desc h' c x).

Lemma pruneChildren_spec entries hi :
  NoDup entries.*1 →
  (∀ k c, (k, c) ∈ entries → tn_Children n !! k = Some c) →
  shrinks h0 hi →
  (∀ x, ¬ desc h0 a x → hi !! x = h0 !! x) →
  (∀ k c x, (k, c) ∈ entries → desc h0 c x → hi !! x = h0 !! x) →
  (∃ ni, hi !! a = Some ni ∧ ∀ k c, (k, c) ∈ entries → tn_Children ni !! k = Some c) →
  (∀ ni k c, hi !! a = Some ni → tn_Children ni !! k = Some c →
             (k, c) ∈ entries ∨ prunedAt hi c) →
  keepsFiles h0 hi →
  (∀ x, x ≠ a → desc h0 a x → holdsFile h0 x →
        (∃ k c, (k, c) ∈ entries ∧ desc h0 c x) ∨ desc hi a x) →
  ∃ h', pruneChildren rec a entries hi = Some h' ∧
    shrinks h0 h' ∧
    (∀ x, ¬ desc h0 a x → h' !! x = h0 !! x) ∧
    (∀ ni k c, h' !! a = Some ni → tn_Children ni !! k = Some c → prunedAt h' c) ∧
    keepsFiles h0 h' ∧
    (∀ x, desc h0 a x → holdsFile h0 x → desc h' a x).
Proof.
  revert hi. induction entries as [|[k c] rest IH];
    intros hi Hnd Hsub I1 I2 I3 (ni & Hni & I4) I5 I6 I7.
  - exists hi. split; [done|]. split; [done|]. split; [done|].
    split; [|split; [done|]].
    + intros ni' k c Hni' Hk. destruct (I5 ni' k c Hni' Hk) as [Hin|]; [|done].
      by apply elem_of_nil in Hin.
    + intros x Hd Hf. destruct (decide (x = a)) as [->|Hne]; [constructor|].
      destruct (I7 x Hne Hd Hf) as [(k & c & Hin & _)|]; [|done].
      by apply elem_of_nil in Hin.
  - cbn [pruneChildren].
    assert (child h0 a k c) as Hc by (exists n; split; [done|]; apply Hsub; left).
    pose proof (ts_order h0 Hts _ _ _ Hc) as Hord.
    pose proof I1 as [HL _].
    destruct (Hrec hi c) as (hj & keep & Er & Sj & Fj & Pj & Ekeep & Kj & Gj);
      [by eapply shrinks_treeShaped|done|lia|].
    rewrite Er. simpl.
    assert (∀ x, ¬ desc h0 c x → hj !! x = hi !! x) as Fj'.
    { intros x Hx. apply Fj. intros Hd. apply Hx. by eapply shrinks_desc. }
    assert (hj !! a = Some ni) as Hnj.
    { rewrite Fj'; [done|]. by eapply parent_not_below. }
    set (hk := if negb keep then deleteChild hj a k else hj).
    assert (shrinks hj hk) as Sk.
    { unfold hk. destruct keep; simpl; [apply shrinks_refl|apply shrinks_deleteChild]. }
    assert (∀ x, x ≠ a → hk !! x = hj !! x) as Fk.
    { intros x Hx. unfold hk. destruct keep; simpl; [done|].
      unfold deleteChild. by rewrite list_lookup_alter_ne. }
    assert (fmap fst rest = rest.*1) as _ by done.
    rewrite fmap_cons in Hnd. apply NoDup_cons in Hnd as [Hk_fresh Hnd].
    assert (∀ k' c', (k', c') ∈ rest → k' ≠ k) as Hkne.
    { intros k' c' Hin ->. apply Hk_fresh. apply list_elem_of_fmap.
      by exists (k, c'). }
    apply (IH hk); clear IH.
    + done.
    + intros k' c' Hin. apply Hsub. by right.
    + eapply shrinks_trans; [exact I1|]. by eapply shrinks_trans.
    + intros x Hx. rewrite Fk, Fj', I2; [done..| |].
      * intros Hd. apply Hx. eapply desc_step; eauto.
      * intros ->. apply Hx. constructor.
    + intros k' c' x Hin Hd.
      assert (child h0 a k' c') as Hc'
        by (exists n; split; [done|]; apply Hsub; by right).
      rewrite Fk, Fj'.
      * apply (I3 k' c'); [by right|done].
      * eapply siblings_disjoint; [exact Hts|exact Hc'|exact Hc| |exact Hd].
        by eapply Hkne.
      * intros ->. by eapply parent_not_below.
    + unfold hk. destruct keep; simpl.
      * exists ni. split; [done|]. intros k' c' Hin. apply I4. by right.
      * eexists. split; [unfold deleteChild; by rewrite list_lookup_alter_eq, Hnj|].
        simpl. intros k' c' Hin. rewrite lookup_delete_ne by (symmetry; by eapply Hkne).
        apply I4. by right.
    + intros nk k0 c0 Hnk Hk0.
      assert (tn_Children nk ⊆ tn_Children ni ∧ (keep = false → k0 ≠ k)) as [Hsubk Hdel].
      { unfold hk in Hnk. destruct keep; simpl in Hnk.
        - assert (nk = ni) as -> by congruence. done.
        - unfold deleteChild in Hnk. rewrite list_lookup_alter_eq, Hnj in Hnk.
          simpl in Hnk. injection Hnk as <-. simpl in *. split; [apply delete_subseteq|].
          intros _ ->. by rewrite lookup_delete_eq in Hk0. }
      assert (tn_Children ni !! k0 = Some c0) as Hk0i by (by eapply lookup_weaken).
      destruct (decide (k0 = k)) as [->|Hne].
      * right. assert (c0 = c) as ->.
        { assert (tn_Children ni !! k = Some c) by (apply I4; left). congruence. }
        destruct keep; [|by destruct Hdel].
        unfold hk. simpl. apply prunedAt_intro; [done|]. apply Pj.
      * destruct (I5 ni k0 c0 Hni Hk0i) as [Hin|Hpr].
        { apply elem_of_cons in Hin as [[= -> ->]|Hin]; [done|by left]. }
        right.
        assert (child h0 a k0 c0) as Hc0.
        { eapply shrinks_child; [exact I1|]. by exists ni. }
        eapply prunedAt_frame; [|exact Hpr].
        intros y Hy. apply (shrinks_desc h0 hi) in Hy; [|done].
        rewrite Fk, Fj'; [done| |].
        -- eapply siblings_disjoint; [exact Hts|exact Hc0|exact Hc|done|exact Hy].
        -- intros ->. by eapply parent_not_below.
    + eapply keepsFiles_trans; [exact I1|exact I6|].
      eapply keepsFiles_trans; [exact Sj|exact Kj|].
      unfold hk. destruct keep; simpl; [apply keepsFiles_refl|].
      apply keepsFiles_deleteChild with c; [|done].
      exists ni. split; [done|]. apply I4. left.
    + intros x Hx Hd Hf.
      assert (∀ y, desc h0 c y → hi !! y = h0 !! y) as Hsame
        by (intros y Hy; apply (I3 k c); [left|done]).
      assert (desc h0 c x → desc hk a x) as Hunder.
      { intros Hcx.
        assert (desc hi c x) as Hcx' by (by apply (desc_agree h0 hi)).
        assert (holdsFile hi x) as Hf' by (by apply (holdsFile_agree h0 hi c)).
        pose proof (Gj x Hcx' Hf') as Hcx''.
        destruct keep.
        - unfold hk. simpl. apply desc_step with k c; [|done].
          exists ni. split; [done|]. apply I4. left.
        - exfalso. apply (verdict_false_holdsFile hi hj c Sj Gj); [done|].
          by apply (holdsFile_desc hi c x). }
      destruct (I7 x Hx Hd Hf) as [(k' & c' & Hin & Hd')|Hd'].
      * apply elem_of_cons in Hin as [[= -> ->]|Hin]; [right; by apply Hunder|].
        left. eauto.
      * right. apply desc_first_step in Hd' as [->|(k0 & c0 & (ni' & Hni' & Hk0) & Hd0)];
          [done|].
        assert (ni' = ni) as -> by congruence.
        destruct (decide (k0 = k)) as [->|Hk0ne].
        -- assert (c0 = c) as ->.
           { assert (tn_Children ni !! k = Some c) by (apply I4; left). congruence. }
           apply Hunder. by apply (shrinks_desc h0 hi).
        -- assert (child h0 a k0 c0) as Hc0.
           { eapply shrinks_child; [exact I1|]. by exists ni. }
           assert (∀ y, desc hi c0 y → hk !! y = hi !! y) as Hpath.
           { intros y Hy. apply (shrinks_desc h0 hi) in Hy; [|done].
             rewrite Fk, Fj'; [done| |].
             - eapply siblings_disjoint; [exact Hts|exact Hc0|exact Hc|done|exact Hy].
             - intros ->. by eapply parent_not_below. }
           apply desc_step with k0 c0; [|by apply (desc_agree hi hk)].
           unfold hk. destruct keep; simpl.
           ++ by exists ni.
           ++ eexists. split; [unfold deleteChild; by rewrite list_lookup_alter_eq, Hnj|].
              simpl. by rewrite lookup_delete_ne.
Qed.
End PruneLoop.

Lemma removeEmptyDirectories_keeps fuel h a :
  treeShaped h → a < length h → length h - a ≤ fuel →
  ∃ h' b, removeEmptyDirectories fuel h a = Some (h', b) ∧
    shrinks h h' ∧
    (∀ x, ¬ desc h a x → h' !! x = h !! x) ∧
    (∀ n' k c, h' !! a = Some n' → tn_IsDir n' = true →
               tn_Children n' !! k = Some c → prunedAt h' c) ∧
    b = verdict h' a ∧ keepsFiles h h' ∧
    (∀ x, desc h a x → holdsFile h x → desc h' a x).
Proof.
  revert h a. induction fuel as [|fuel IH]; intros h a Hts Ha Hfuel; [lia|].
  cbn [removeEmptyDirectories].
  assert (is_Some (h !! a)) as [n Hn] by (by apply lookup_lt_is_Some).
  rewrite Hn. simpl. destruct (tn_IsDir n) eqn:Hdir; simpl.
  - destruct (pruneChildren_spec (removeEmptyDirectories fuel) h a n Hts Hn)
      with (entries := childrenOf n) (hi := h)
      as (h' & Ep & Sh & Fr & Pr & Kf & Gf).
    + intros hc c Htc HLc Hc. apply IH; [done|lia|lia].
    + apply NoDup_fst_map_to_list.
    + intros k c Hin. by apply elem_of_map_to_list in Hin.
    + apply shrinks_refl.
    + done.
    + done.
    + exists n. split; [done|]. intros k c Hin. by apply elem_of_map_to_list in Hin.
    + intros ni k c Hni Hk. left. assert (ni = n) as -> by congruence.
      by apply elem_of_map_to_list.
    + apply keepsFiles_refl.
    + intros x Hx Hd _. left.
      apply desc_first_step in Hd as [->|(k & c & (n' & Hn' & Hk) & Hd)]; [done|].
      assert (n' = n) as -> by congruence.
      exists k, c. split; [by apply elem_of_map_to_list|done].
    + rewrite Ep. simpl.
      destruct Sh as [HL HS] eqn:ES.
      destruct (HS a n Hn) as (n' & Hn' & _ & Hd' & _).
      rewrite Hn'. simpl. exists h', (hasEntries n').
      split; [done|]. split; [done|]. split; [done|].
      split; [|split; [|split; [done|done]]].
      * intros n'' k c Hn'' _ Hk. by eapply Pr.
      * unfold verdict. rewrite Hn', Hd', Hdir. done.
  - exists h, true. split; [done|]. split; [apply shrinks_refl|]. split; [done|].
    split; [|split; [|split; [apply keepsFiles_refl|done]]].
    + intros n' k c Hn' Hd'. congruence.
    + unfold verdict. by rewrite Hn, Hdir.
Qed.

Lemma removeEmptyDirectories_spec fuel h a :
  treeShaped h → a < length h → length h - a ≤ fuel →
  ∃ h' b, removeEmptyDirectories fuel h a = Some (h', b) ∧
    shrinks h h' ∧
    (∀ x, ¬ desc h a x → h' !! x = h !! x) ∧
    (∀ n' k c, h' !! a = Some n' → tn_IsDir n' = true →
               tn_Children n' !! k = Some c → prunedAt h' c) ∧
    b = verdict h' a ∧ keepsFiles h h'.
Proof.
  intros Hts Ha Hfuel.
  destruct (removeEmptyDirectories_keeps fuel h a Hts Ha Hfuel)
    as (h' & b & E & Sh & Fr & Pr & Eb & Kf & _).
  exists h', b. done.
Qed.

(** *** The decidable test for trees *)

Lemma elem_of_edges h a k c : (a, k, c) ∈ edges h ↔ child h a k c.
Proof.
  unfold edges, child. rewrite list_elem_of_bind. split.
  - intros ([a' n] & Hin & Han). simpl in *.
    apply list_elem_of_fmap in Hin as ([k' c'] & [= -> -> ->] & Hkc).
    apply elem_of_map_to_list in Hkc.
    apply list_elem_of_lookup in Han as [i Hi].
    apply list_lookup_imap_Some in Hi as (n' & Hn' & [= -> ->]). eauto.
  - intros (n & Hn & Hk). exists (a, n). simpl. split.
    + apply list_elem_of_fmap. exists (k, c). split; [done|].
      by apply elem_of_map_to_list.
    + apply list_elem_of_lookup. exists a.
      apply list_lookup_imap_Some. eauto.
Qed.

Lemma NoDup_fmap_eq {A B} (f : A → B) (l : list A) x y :
  NoDup (f <$> l) → x ∈ l → y ∈ l → f x = f y → x = y.
Proof.
  induction l as [|z l IH]; intros Hnd Hx Hy Hf; [by apply elem_of_nil in Hx|].
  rewrite fmap_cons in Hnd. apply NoDup_cons in Hnd as [Hz Hnd].
  apply elem_of_cons in Hx as [->|Hx]; apply elem_of_cons in Hy as [->|Hy].
  - done.
  - destruct Hz. rewrite Hf. by apply list_elem_of_fmap_2.
  - destruct Hz. rewrite <- Hf. by apply list_elem_of_fmap_2.
  - by apply IH.
Qed.

Lemma treeShapedCheck_sound h : treeShapedCheck h → treeShaped h.
Proof.
  intros [Hord Hnd]. split.
  - intros a k c Hc. apply elem_of_edges in Hc.
    rewrite Forall_forall in Hord. apply (Hord _ Hc).
  - intros a k c a' k' H1 H2. apply elem_of_edges in H1, H2.
    pose proof (NoDup_fmap_eq snd (edges h) _ _ Hnd H1 H2 eq_refl) as E.
    by injection E.
Qed.

(** ** Lemmas on paths *)

Lemma strings_Split_nonempty s sep : strings_Split s sep ≠ [].
Proof.
  destruct s as [|c s]; simpl; [done|].
  destruct (decide (c = sep)); [done|]. by destruct (strings_Split s sep).
Qed.

Lemma strings_Join_cons e rest sep :
  rest ≠ [] → strings_Join (e :: rest) sep = e +:+ sep +:+ strings_Join rest sep.
Proof. by destruct rest. Qed.

(** Joining the pieces of a split restores the string. *)
Lemma strings_Join_Split s :
  strings_Join (strings_Split s filepath_Separator) separatorString = s.
Proof.
  induction s as [|c s IH]; [done|].
  cbn [strings_Split]. pose proof (strings_Split_nonempty s filepath_Separator) as Hne.
  destruct (decide (c = filepath_Separator)) as [->|Hc].
  - rewrite strings_Join_cons by done. by rewrite IH.
  - destruct (strings_Split s filepath_Separator) as [|piece pieces]; [done|].
    destruct pieces as [|p ps]; simpl in *; by rewrite <- IH.
Qed.

(** ** Lemmas on building *)

Lemma child_lt_length h a k c : wellFormed h → child h a k c → a < c < length h.
Proof.
  intros Hwf Hc. destruct (wf_child h Hwf a k c Hc) as (Hlt & m & Hm & _).
  split; [done|]. by eapply lookup_lt_Some.
Qed.

Lemma wellFormed_treeShaped h : wellFormed h → treeShaped h.
Proof.
  intros Hwf. split.
  - intros a k c Hc. by eapply child_lt_length.
  - intros a k c a' k' H1 H2.
    destruct (wf_child h Hwf a k c H1) as (_ & m & Hm & Hn & Hp).
    destruct (wf_child h Hwf a' k' c H2) as (_ & m' & Hm' & Hn' & Hp').
    assert (m' = m) as -> by congruence. split; congruence.
Qed.

Lemma nodePath_lookup h a l : wellFormed h → nodePath h a l → is_Some (h !! a).
Proof.
  intros Hwf [|a' l' k c _ Hc].
  - destruct (wf_root h Hwf) as (r & Hr & _). eauto.
  - destruct (wf_child h Hwf _ _ _ Hc) as (_ & m & Hm & _). eauto.
Qed.

Lemma nodePath_length h a l : wellFormed h → nodePath h a l → length l ≤ a.
Proof.
  intros Hwf. induction 1 as [|a l k c _ IH Hc]; [done|].
  rewrite length_app. simpl. apply (child_lt_length h _ _ _ Hwf) in Hc. lia.
Qed.

Lemma nodePath_root_nil h l : wellFormed h → nodePath h root l → l = [].
Proof.
  intros Hwf H. inversion H as [|a l' k c _ Hc]; [done|].
  apply (child_lt_length h _ _ _ Hwf) in Hc. unfold root in *. lia.
Qed.

(** A node has one path. *)
Lemma nodePath_unique h a l1 l2 :
  wellFormed h → nodePath h a l1 → nodePath h a l2 → l1 = l2.
Proof.
  intros Hwf H1. revert l2. induction H1 as [|a l k c _ IH Hc]; intros l2 H2.
  - symmetry. by eapply nodePath_root_nil.
  - inversion H2 as [|a' l' k' c' Hp' Hc']; subst.
    + apply (child_lt_length h _ _ _ Hwf) in Hc. unfold root in *. lia.
    + destruct (ts_unique h (wellFormed_treeShaped h Hwf) _ _ _ _ _ Hc Hc') as [-> ->].
      by rewrite (IH l').
Qed.

(** Every node has a path. *)
Lemma nodePath_exists h a : wellFormed h → a < length h → ∃ l, nodePath h a l.
Proof.
  intros Hwf. induction a as [a IH] using lt_wf_ind. intros Ha.
  destruct (decide (a = root)) as [->|Hne]; [exists []; constructor|].
  assert (is_Some (h !! a)) as [m Hm] by (by apply lookup_lt_is_Some).
  destruct (wf_parent h Hwf a m Hm Hne) as (p & _ & Hc).
  pose proof (child_lt_length h _ _ _ Hwf Hc) as Hlt.
  destruct (IH p) as [l Hl]; [lia..|].
  exists (l ++ [tn_Name m]). by econstructor.
Qed.

Lemma nodePath_name h a l k m :
  wellFormed h → nodePath h a (l ++ [k]) → h !! a = Some m → tn_Name m = k.
Proof.
  intros Hwf H Hm. inversion H as [E|a' l' k' c' _ Hc E E'].
  - by destruct l.
  - apply app_inj_tail in E' as [-> ->].
    destruct (wf_child h Hwf _ _ _ Hc) as (_ & m' & Hm' & Hn & _). congruence.
Qed.

Lemma nodePath_desc h a b l :
  nodePath h a l → desc h a b → ∃ l', nodePath h b (l ++ l').
Proof.
  intros Ha Hd. revert l Ha. induction Hd as [a|a k c x Hc _ IH]; intros l Ha.
  - exists []. by rewrite app_nil_r.
  - destruct (IH (l ++ [k])) as [l' Hl']; [by econstructor|].
    exists (k :: l'). by rewrite <- app_assoc in Hl'.
Qed.

(** *** Stores with the same links *)

Lemma linksEq_sym h h' : linksEq h h' → linksEq h' h.
Proof.
  intros [HL HE]. split; [done|]. intros a n n' Hn Hn'.
  destruct (HE a n' n Hn' Hn) as (? & ? & ? & ?). by repeat split.
Qed.

Lemma linksEq_lookup h h' a n :
  linksEq h h' → h !! a = Some n →
  ∃ n', h' !! a = Some n' ∧ tn_Name n' = tn_Name n ∧ tn_IsDir n' = tn_IsDir n ∧
        tn_Children n' = tn_Children n ∧ tn_Parent n' = tn_Parent n.
Proof.
  intros [HL HE] Hn.
  assert (is_Some (h' !! a)) as [n' Hn'].
  { apply lookup_lt_is_Some. rewrite <- HL. by eapply lookup_lt_Some. }
  exists n'. split; [done|]. by apply (HE a).
Qed.

Lemma linksEq_child h h' a k c : linksEq h h' → child h a k c → child h' a k c.
Proof.
  intros HE (n & Hn & Hk).
  destruct (linksEq_lookup h h' a n HE Hn) as (n' & Hn' & _ & _ & Hc & _).
  exists n'. split; [done|]. by rewrite Hc.
Qed.

Lemma linksEq_nodePath h h' a l : linksEq h h' → nodePath h a l → nodePath h' a l.
Proof.
  intros HE. induction 1 as [|a l k c _ IH Hc]; [constructor|].
  econstructor; [exact IH|]. by eapply linksEq_child.
Qed.

Lemma linksEq_desc h h' a x : linksEq h h' → desc h a x → desc h' a x.
Proof.
  intros HE. induction 1 as [|a k c x Hc _ IH]; [constructor|].
  eapply desc_step; [|exact IH]. by eapply linksEq_child.
Qed.

Lemma linksEq_wellFormed h h' : linksEq h h' → wellFormed h → wellFormed h'.
Proof.
  intros HE [Hr Hd Hc Hp]. pose proof (linksEq_sym _ _ HE) as HE'. split.
  - destruct Hr as (r & Hr & Hn & Hpar).
    destruct (linksEq_lookup h h' root r HE Hr) as (r' & Hr' & ? & _ & _ & ?).
    exists r'. split; [done|]. split; congruence.
  - intros a n' Hn'.
    destruct (linksEq_lookup h' h a n' HE' Hn') as (n & Hn & _ & Hdir & _).
    rewrite <- Hdir. by eapply Hd.
  - intros a k c Hch. apply (linksEq_child h' h) in Hch; [|done].
    destruct (Hc a k c Hch) as (Hlt & m & Hm & Hname & Hpar). split; [done|].
    destruct (linksEq_lookup h h' c m HE Hm) as (m' & Hm' & ? & _ & _ & ?).
    exists m'. split; [done|]. split; congruence.
  - intros c m' Hm' Hne.
    destruct (linksEq_lookup h' h c m' HE' Hm') as (m & Hm & Hname & _ & _ & Hpar).
    destruct (Hp c m Hm Hne) as (a & Ha & Hch).
    exists a. split; [congruence|]. rewrite <- Hname.
    by eapply linksEq_child.
Qed.

Lemma hasEntries_child n k c : tn_Children n !! k = Some c → hasEntries n = true.
Proof.
  intros Hk. unfold hasEntries. apply orb_true_iff. right.
  apply bool_decide_eq_true.
  assert (size (tn_Children n) ≠ 0); [|lia].
  apply (map_size_ne_0_lookup_2 _ k). eauto.
Qed.

(** *** Attaching a file *)

Lemma attach_lookup (h : heap) (current : addr) file (a : addr) :
  alter (λ n, setFiles n (tn_Files n ++ [file])) current h !! a =
    if decide (current = a)
    then (λ n, setFiles n (tn_Files n ++ [file])) <$> h !! a
    else h !! a.
Proof.
  destruct (decide (current = a)) as [->|Hne].
  - apply list_lookup_alter_eq.
  - by apply list_lookup_alter_ne.
Qed.

Lemma attach_linksEq (h : heap) (current : addr) file :
  linksEq h (alter (λ n, setFiles n (tn_Files n ++ [file])) current h).
Proof.
  split; [by rewrite length_alter|]. intros a n n' Hn. rewrite attach_lookup, Hn.
  destruct (decide (current = a)); simpl; intros [= <-]; done.
Qed.

Lemma attach_inv files file (h : heap) (current : addr) l p :
  buildInv files (Some current) h → nodePath h current l →
  pathParts file = l ++ [p] →
  buildInv files None (alter (λ n, setFiles n (tn_Files n ++ [file])) current h).
Proof.
  intros [Hwf Hfiles Hnames Hne] Hl Hparts.
  set (h' := alter _ current h).
  pose proof (attach_linksEq h current file) as HE. fold h' in HE.
  pose proof (linksEq_sym _ _ HE) as HE'.
  split.
  - by eapply linksEq_wellFormed.
  - intros a n' f Hn' Hf. unfold h' in Hn'. rewrite attach_lookup in Hn'.
    destruct (decide (current = a)) as [<-|Hca].
    + destruct (h !! current) as [n|] eqn:Hn; [|done]. simpl in Hn'.
      injection Hn' as <-. simpl in Hf. apply elem_of_app in Hf as [Hf|Hf].
      * destruct (Hfiles current n f Hn Hf) as (l0 & last & Hp0 & E).
        exists l0, last. split; [by eapply linksEq_nodePath|done].
      * apply list_elem_of_singleton in Hf as ->.
        exists l, p. split; [by eapply linksEq_nodePath|done].
    + destruct (Hfiles a n' f Hn' Hf) as (l0 & last & Hp0 & E).
      exists l0, last. split; [by eapply linksEq_nodePath|done].
  - intros a l0 Hp0 Hl0. apply (Hnames a l0); [|done].
    by eapply linksEq_nodePath.
  - intros a n' Hn' Hroot _. unfold h' in Hn'. rewrite attach_lookup in Hn'.
    destruct (decide (current = a)) as [<-|Hca].
    + destruct (h !! current) as [n|]; [|done]. simpl in Hn'. injection Hn' as <-.
      unfold hasEntries. simpl. rewrite length_app. simpl.
      apply orb_true_iff. left. apply bool_decide_eq_true. lia.
    + apply (Hne a n' Hn' Hroot). congruence.
Qed.

(** *** Allocating a directory *)

Section Alloc.
Variable h : heap.
Variable current : addr.
Variable n : TreeNode.
Variable p : string.
Hypothesis Hwf : wellFormed h.
Hypothesis Hn : h !! current = Some n.
Hypothesis Hfresh : tn_Children n !! p = None.

Let h' := allocChild h current n p.
Let c := length h.

Lemma alloc_lookup_new : h' !! c = Some (newDir p current).
Proof.
  unfold h', allocChild, c. rewrite lookup_app_r by (by rewrite length_insert).
  by rewrite length_insert, Nat.sub_diag.
Qed.

Lemma alloc_lookup_current :
  h' !! current = Some (setChildren n (<[p := c]> (tn_Children n))).
Proof.
  pose proof (lookup_lt_Some _ _ _ Hn) as Hlt.
  unfold h', allocChild. rewrite lookup_app_l by (by rewrite length_insert).
  by rewrite list_lookup_insert_eq.
Qed.

Lemma alloc_lookup_old a : a ≠ current → a < length h → h' !! a = h !! a.
Proof.
  intros Hne Hlt. unfold h', allocChild.
  rewrite lookup_app_l by (by rewrite length_insert).
  by rewrite list_lookup_insert_ne.
Qed.

Lemma alloc_length : length h' = S (length h).
Proof.
  unfold h', allocChild. rewrite length_app, length_insert. simpl. lia.
Qed.

(** Every node of the old store is still there, with the same name,
    flags, files and parent, and at least the same children. *)
Lemma alloc_lookup_grows a m :
  h !! a = Some m →
  ∃ m', h' !! a = Some m' ∧ tn_Name m' = tn_Name m ∧ tn_IsDir m' = tn_IsDir m ∧
        tn_Files m' = tn_Files m ∧ tn_Parent m' = tn_Parent m ∧
        tn_Children m ⊆ tn_Children m'.
Proof.
  intros Hm. destruct (decide (a = current)) as [->|Hne].
  - assert (m = n) as -> by congruence.
    eexists. split; [exact alloc_lookup_current|]. simpl.
    repeat split; try done. by apply insert_subseteq.
  - exists m. split; [|done].
    rewrite alloc_lookup_old; [done..|]. by eapply lookup_lt_Some.
Qed.

Lemma alloc_child_old a k x : child h a k x → child h' a k x.
Proof.
  intros (m & Hm & Hk).
  destruct (alloc_lookup_grows a m Hm) as (m' & Hm' & _ & _ & _ & _ & Hsub).
  exists m'. split; [done|]. by eapply lookup_weaken.
Qed.

Lemma alloc_child_new : child h' current p c.
Proof.
  eexists. split; [exact alloc_lookup_current|]. simpl. apply lookup_insert_eq.
Qed.

Lemma alloc_child_inv a k x :
  child h' a k x → child h a k x ∨ (a = current ∧ k = p ∧ x = c).
Proof.
  intros (m' & Hm' & Hk).
  destruct (decide (a = c)) as [->|Hac].
  - rewrite alloc_lookup_new in Hm'. injection Hm' as <-. simpl in Hk.
    by rewrite lookup_empty in Hk.
  - destruct (decide (a = current)) as [->|Hne].
    + rewrite alloc_lookup_current in Hm'. injection Hm' as <-. simpl in Hk.
      apply lookup_insert_Some in Hk as [[<- <-]|[_ Hk]]; [by right|].
      left. by exists n.
    + assert (a < length h) as Hlt.
      { apply lookup_lt_Some in Hm'. rewrite alloc_length in Hm'. unfold c in Hac. lia. }
      rewrite alloc_lookup_old in Hm' by done. left. by exists m'.
Qed.

Lemma alloc_nodePath_old a l : nodePath h a l → nodePath h' a l.
Proof.
  induction 1 as [|a l k x _ IH Hc]; [constructor|].
  econstructor; [exact IH|]. by apply alloc_child_old.
Qed.

Lemma alloc_nodePath_inv l a l0 :
  nodePath h current l → nodePath h' a l0 →
  nodePath h a l0 ∨ (a = c ∧ l0 = l ++ [p]).
Proof.
  intros Hl. induction 1 as [|a l0 k x Ha IH Hc]; [left; constructor|].
  destruct IH as [IH|[-> _]].
  - apply alloc_child_inv in Hc as [Hc|(-> & -> & ->)].
    + left. by econstructor.
    + right. split; [done|]. by rewrite (nodePath_unique h current l0 l Hwf IH Hl).
  - destruct Hc as (m' & Hm' & Hk). rewrite alloc_lookup_new in Hm'.
    injection Hm' as <-. simpl in Hk. by rewrite lookup_empty in Hk.
Qed.

Lemma alloc_wellFormed : wellFormed h'.
Proof.
  pose proof (lookup_lt_Some _ _ _ Hn) as Hlt.
  destruct Hwf as [Hr Hd Hc Hp]. split.
  - destruct Hr as (r & Hr & Hname & Hpar).
    destruct (alloc_lookup_grows root r Hr) as (r' & Hr' & ? & _ & _ & ? & _).
    exists r'. split; [done|]. split; congruence.
  - intros a m' Hm'. destruct (decide (a = c)) as [->|Hac].
    + rewrite alloc_lookup_new in Hm'. by injection Hm' as <-.
    + assert (a < length h) as Ha.
      { apply lookup_lt_Some in Hm'. rewrite alloc_length in Hm'. unfold c in Hac. lia. }
      assert (is_Some (h !! a)) as [m Hm] by (by apply lookup_lt_is_Some).
      destruct (alloc_lookup_grows a m Hm) as (m'' & Hm'' & _ & Hdir & _).
      assert (m'' = m') as -> by congruence. rewrite Hdir. by eapply Hd.
  - intros a k x Hch. apply alloc_child_inv in Hch as [Hch|(-> & -> & ->)].
    + destruct (Hc a k x Hch) as (Hax & m & Hm & Hname & Hpar). split; [done|].
      destruct (alloc_lookup_grows x m Hm) as (m' & Hm' & ? & _ & _ & ? & _).
      exists m'. split; [done|]. split; congruence.
    + split; [done|]. exists (newDir p current). split; [apply alloc_lookup_new|done].
  - intros x m' Hm' Hne. destruct (decide (x = c)) as [->|Hxc].
    + rewrite alloc_lookup_new in Hm'. injection Hm' as <-. simpl.
      exists current. split; [done|]. apply alloc_child_new.
    + assert (x < length h) as Hx.
      { apply lookup_lt_Some in Hm'. rewrite alloc_length in Hm'. unfold c in Hxc. lia. }
      assert (is_Some (h !! x)) as [m Hm] by (by apply lookup_lt_is_Some).
      destruct (alloc_lookup_grows x m Hm) as (m'' & Hm'' & Hname & _ & _ & Hpar & _).
      assert (m'' = m') as -> by congruence.
      destruct (Hp x m Hm Hne) as (a & Ha & Hch).
      exists a. split; [congruence|]. rewrite Hname. by apply alloc_child_old.
Qed.

Lemma alloc_inv files l :
  buildInv files (Some current) h → nodePath h current l →
  (∃ f rest, f ∈ files ∧ rest ≠ [] ∧ pathParts f = (l ++ [p]) ++ rest) →
  buildInv files (Some c) h' ∧ nodePath h' c (l ++ [p]).
Proof.
  intros [_ Hfiles Hnames Hne] Hl Hnew. split; [split|].
  - apply alloc_wellFormed.
  - intros a m' f Hm' Hf. destruct (decide (a = c)) as [->|Hac].
    + rewrite alloc_lookup_new in Hm'. injection Hm' as <-. simpl in Hf.
      by apply elem_of_nil in Hf.
    + assert (a < length h) as Ha.
      { apply lookup_lt_Some in Hm'. rewrite alloc_length in Hm'. unfold c in Hac. lia. }
      assert (is_Some (h !! a)) as [m Hm] by (by apply lookup_lt_is_Some).
      destruct (alloc_lookup_grows a m Hm) as (m'' & Hm'' & _ & _ & Hfs & _).
      assert (m'' = m') as -> by congruence. rewrite Hfs in Hf.
      destruct (Hfiles a m f Hm Hf) as (l0 & last & Hp0 & E).
      exists l0, last. split; [by apply alloc_nodePath_old|done].
  - intros a l0 Hp0 Hl0.
    destruct (alloc_nodePath_inv l a l0 Hl Hp0) as [Hold|[-> ->]].
    + by apply (Hnames a l0).
    + done.
  - intros a m' Hm' Hroot Hexc.
    assert (a ≠ c) as Hac by congruence.
    assert (a < length h) as Ha.
    { apply lookup_lt_Some in Hm'. rewrite alloc_length in Hm'. unfold c in Hac. lia. }
    destruct (decide (a = current)) as [->|Hcur].
    + rewrite alloc_lookup_current in Hm'. injection Hm' as <-.
      apply (hasEntries_child _ p c). simpl. apply lookup_insert_eq.
    + rewrite alloc_lookup_old in Hm' by done.
      apply (Hne a m' Hm' Hroot). congruence.
  - econstructor; [by apply alloc_nodePath_old|apply alloc_child_new].
Qed.
End Alloc.

(** *** Inserting a file *)

Lemma buildInv_step_down files (h : heap) (current : addr) n p c :
  buildInv files (Some current) h → h !! current = Some n →
  tn_Children n !! p = Some c → buildInv files (Some c) h.
Proof.
  intros [Hwf Hfiles Hnames Hne] Hn Hp. split; [done..|].
  intros a m Hm Hroot Hexc. destruct (decide (a = current)) as [->|Hcur].
  - assert (m = n) as -> by congruence. by eapply hasEntries_child.
  - apply (Hne a m Hm Hroot). congruence.
Qed.

Lemma insertParts_inv files file parts : ∀ (h : heap) (current : addr) l,
  parts ≠ [] → file ∈ files →
  buildInv files (Some current) h → nodePath h current l →
  pathParts file = l ++ parts →
  buildInv files None (insertParts file parts h current).
Proof.
  induction parts as [|p rest IH]; intros h current l Hne Hin Hinv Hl Hparts; [done|].
  destruct rest as [|q rest].
  - cbn [insertParts]. by eapply attach_inv.
  - cbn [insertParts].
    destruct (nodePath_lookup h current l (bi_wf _ _ _ Hinv) Hl) as [n Hn].
    rewrite Hn. destruct (tn_Children n !! p) as [c|] eqn:Hp.
    + apply (IH h c (l ++ [p])); [done|done| | |].
      * by eapply buildInv_step_down.
      * econstructor; [done|]. by exists n.
      * by rewrite <- app_assoc.
    + destruct (alloc_inv h current n p (bi_wf _ _ _ Hinv) Hn Hp files l Hinv Hl)
        as [Hinv' Hl'].
      { exists file, (q :: rest). split; [done|]. split; [done|].
        by rewrite <- app_assoc. }
      apply (IH _ (length h) (l ++ [p])); [done|done|done|done|].
      by rewrite <- app_assoc.
Qed.

Lemma buildInv_weaken files (h : heap) except :
  buildInv files None h → buildInv files except h.
Proof.
  intros [Hwf Hfiles Hnames Hne]. split; [done..|].
  intros a m Hm Hroot _. by apply (Hne a m).
Qed.

Lemma insertFile_inv files (h : heap) file :
  file ∈ files → buildInv files None h → buildInv files None (insertFile h file).
Proof.
  intros Hin Hinv. unfold insertFile.
  apply (insertParts_inv files file _ h root []).
  - apply strings_Split_nonempty.
  - done.
  - by apply buildInv_weaken.
  - constructor.
  - done.
Qed.

Lemma newRoot_inv files : buildInv files None [newRoot].
Proof.
  assert (∀ a k c, ¬ child [newRoot] a k c) as Hnochild.
  { intros a k c (m & Hm & Hk). destruct a as [|a]; [|done].
    injection Hm as <-. simpl in Hk. by rewrite lookup_empty in Hk. }
  split.
  - split.
    + by exists newRoot.
    + intros a m Hm. destruct a as [|a]; [|done]. by injection Hm as <-.
    + intros a k c Hc. by apply Hnochild in Hc.
    + intros c m Hm Hne. destruct c as [|c]; done.
  - intros a m f Hm Hf. destruct a as [|a]; [|done]. injection Hm as <-.
    by apply elem_of_nil in Hf.
  - intros a l Hl Hne. inversion Hl as [|a' l' k c' _ Hc]; subst; [done|].
    by apply Hnochild in Hc.
  - intros a m Hm Hroot. destruct a as [|a]; done.
Qed.

Lemma fold_insertFile_inv files done_ (h : heap) :
  (∀ f, f ∈ done_ → f ∈ files) →
  buildInv files None h → buildInv files None (fold_left insertFile done_ h).
Proof.
  revert h. induction done_ as [|f rest IH]; intros h Hsub Hinv; simpl; [done|].
  apply IH.
  - intros f' Hf'. apply Hsub. by right.
  - apply insertFile_inv; [|done]. apply Hsub. left.
Qed.

Lemma buildTree_inv files : buildInv files None (buildTree files).
Proof. apply fold_insertFile_inv; [done|apply newRoot_inv]. Qed.

(** *** Stores that differ in marks only *)

Lemma skeleton_lookup (h : heap) a :
  skeleton h !! a = (λ n, setIsEntireDir n false) <$> h !! a.
Proof. apply list_lookup_fmap. Qed.

Lemma sameSkeleton_lookup (h h' : heap) a n :
  sameSkeleton h h' → h !! a = Some n →
  ∃ n', h' !! a = Some n' ∧ setIsEntireDir n' false = setIsEntireDir n false.
Proof.
  intros Hs Hn. pose proof (skeleton_lookup h a) as E.
  rewrite Hs, skeleton_lookup, Hn in E. simpl in E.
  destruct (h' !! a) as [n'|]; [|done]. simpl in E. apply (inj Some) in E.
  exists n'. by split.
Qed.

Lemma sameSkeleton_fields n n' :
  setIsEntireDir n' false = setIsEntireDir n false →
  tn_Name n' = tn_Name n ∧ tn_IsDir n' = tn_IsDir n ∧ tn_Files n' = tn_Files n ∧
  tn_Children n' = tn_Children n ∧ tn_Parent n' = tn_Parent n.
Proof. destruct n, n'. unfold setIsEntireDir. simpl. intros [= -> -> -> -> ->]. done. Qed.

Lemma sameSkeleton_length (h h' : heap) : sameSkeleton h h' → length h = length h'.
Proof.
  intros Hs. unfold sameSkeleton, skeleton in Hs.
  by rewrite <- (length_fmap (λ n, setIsEntireDir n false) h), Hs, length_fmap.
Qed.

Lemma sameSkeleton_linksEq (h h' : heap) : sameSkeleton h h' → linksEq h h'.
Proof.
  intros Hs. split; [by apply sameSkeleton_length|].
  intros a n n' Hn Hn'.
  destruct (sameSkeleton_lookup h h' a n Hs Hn) as (n'' & Hn'' & E).
  assert (n'' = n') as -> by congruence.
  destruct (sameSkeleton_fields _ _ E) as (? & ? & ? & ? & ?). done.
Qed.

Lemma markNode_skeleton (h : heap) a b : sameSkeleton h (markNode h a b).
Proof.
  unfold sameSkeleton, skeleton, markNode. apply list_eq. intros i.
  rewrite !list_lookup_fmap, list_lookup_alter.
  destruct (decide (a = i)) as [->|]; [|done].
  by destruct (h !! i).
Qed.

Lemma sameSkeleton_buildInv files (h h' : heap) :
  sameSkeleton h h' → buildInv files None h → buildInv files None h'.
Proof.
  intros Hs [Hwf Hfiles Hnames Hne].
  pose proof (sameSkeleton_linksEq h h' Hs) as HE.
  assert (sameSkeleton h' h) as Hs' by done.
  pose proof (linksEq_sym _ _ HE) as HE'.
  split.
  - by eapply linksEq_wellFormed.
  - intros a n' f Hn' Hf.
    destruct (sameSkeleton_lookup h' h a n' Hs' Hn') as (n & Hn & E).
    destruct (sameSkeleton_fields _ _ E) as (_ & _ & Hfs & _).
    rewrite <- Hfs in Hf. destruct (Hfiles a n f Hn Hf) as (l & last & Hl & Ep).
    exists l, last. split; [by eapply linksEq_nodePath|done].
  - intros a l Hl Hnil. apply (Hnames a l); [|done]. by eapply linksEq_nodePath.
  - intros a n' Hn' Hroot Hexc.
    destruct (sameSkeleton_lookup h' h a n' Hs' Hn') as (n & Hn & E).
    destruct (sameSkeleton_fields _ _ E) as (_ & _ & Hfs & Hch & _).
    pose proof (Hne a n Hn Hroot Hexc) as He.
    unfold hasEntries in *. by rewrite <- Hfs, <- Hch.
Qed.

(** *** Marking returns, and changes marks only *)

Lemma pathPartsLoop_total (h : heap) :
  wellFormed h → ∀ a fuel acc, a < length h → a ≤ fuel →
  is_Some (pathPartsLoop fuel h (Some a) acc).
Proof.
  intros Hwf a. induction a as [a IH] using lt_wf_ind. intros fuel acc Ha Hfuel.
  assert (is_Some (h !! a)) as [m Hm] by (by apply lookup_lt_is_Some).
  destruct fuel as [|fuel]; cbn [pathPartsLoop]; rewrite Hm; simpl.
  - assert (a = root) as -> by (unfold root; lia).
    destruct (wf_root h Hwf) as (r & Hr & Hname & _).
    assert (m = r) as -> by congruence. by rewrite decide_True.
  - destruct (decide (tn_Name m = "")); [eauto|].
    assert (a ≠ root) as Hne.
    { intros ->. destruct (wf_root h Hwf) as (r & Hr & Hname & _). congruence. }
    destruct (wf_parent h Hwf a m Hm Hne) as (p & Hp & Hc).
    pose proof (child_lt_length h _ _ _ Hwf Hc) as Hlt.
    rewrite Hp. apply IH; lia.
Qed.

Lemma childrenLoop_total (h : heap) children b1 b2 :
  (∀ c, c ∈ children → c < length h) → is_Some (childrenLoop h children b1 b2).
Proof.
  revert b1 b2. induction children as [|c rest IH]; intros b1 b2 Hlt; simpl; [eauto|].
  assert (is_Some (h !! c)) as [m Hm] by (apply lookup_lt_is_Some, Hlt; left).
  rewrite Hm. simpl.
  assert (∀ c', c' ∈ rest → c' < length h) as Hrest by (intros; apply Hlt; by right).
  destruct (tn_IsDir m); [destruct (tn_IsEntireDir m); simpl; eauto|eauto].
Qed.

Lemma childrenOf_child (h : heap) a n c :
  h !! a = Some n → c ∈ (childrenOf n).*2 → ∃ k, child h a k c.
Proof.
  intros Hn Hc. apply list_elem_of_fmap in Hc as ([k c'] & -> & Hin).
  apply elem_of_map_to_list in Hin. exists k, n. done.
Qed.

Lemma entireVerdict_total S O d (h : heap) node :
  wellFormed h → node < length h → is_Some (entireVerdict S O d h node).
Proof.
  intros Hwf Hnode. unfold entireVerdict.
  assert (is_Some (h !! node)) as [n Hn] by (by apply lookup_lt_is_Some).
  rewrite Hn. simpl.
  destruct (decide (tn_Name n = "")); [eauto|].
  destruct (pathPartsLoop_total h Hwf node (length h) [] Hnode) as [parts ->]; [lia|].
  simpl. destruct (negb _); [eauto|].
  destruct (countDirect S O _) as [filesInDirCount filesWithoutMatchCount].
  destruct (childrenLoop_total h (childrenOf n).*2 true false) as [[b1 b2] ->].
  { intros c Hc. destruct (childrenOf_child h node n c Hn Hc) as [k Hk].
    apply (child_lt_length h _ _ _ Hwf) in Hk. lia. }
  simpl. eauto.
Qed.

Lemma markSelf_spec S O d (h : heap) node :
  wellFormed h → node < length h →
  ∃ h', markSelf S O d h node = Some h' ∧ sameSkeleton h h'.
Proof.
  intros Hwf Hnode. unfold markSelf.
  destruct (entireVerdict_total S O d h node Hwf Hnode) as [b ->]. simpl.
  eexists. split; [done|]. apply markNode_skeleton.
Qed.

Lemma markChildren_spec (rec : heap → addr → option heap) (h0 : heap) children :
  (∀ h c, sameSkeleton h0 h → c ∈ children →
          ∃ h', rec h c = Some h' ∧ sameSkeleton h h') →
  ∀ h, sameSkeleton h0 h →
  ∃ h', markChildren rec children h = Some h' ∧ sameSkeleton h0 h'.
Proof.
  induction children as [|c rest IH]; intros Hrec h Hs; simpl; [eauto|].
  destruct (Hrec h c Hs) as (h1 & -> & Hs1); [left|]. simpl.
  apply IH.
  - intros h' c' Hs' Hc'. apply Hrec; [done|by right].
  - unfold sameSkeleton in *. congruence.
Qed.

Lemma markEntireDirectoriesNew_spec S O d fuel : ∀ (h : heap) node,
  wellFormed h → node < length h → length h - node ≤ fuel →
  ∃ h', markEntireDirectoriesNew fuel S O d h node = Some h' ∧ sameSkeleton h h'.
Proof.
  induction fuel as [|fuel IH]; intros h node Hwf Hnode Hfuel; [lia|].
  cbn [markEntireDirectoriesNew].
  assert (is_Some (h !! node)) as [n Hn] by (by apply lookup_lt_is_Some).
  rewrite Hn. simpl. rewrite (wf_dir h Hwf node n Hn). simpl.
  destruct (markChildren_spec (markEntireDirectoriesNew fuel S O d) h
              (childrenOf n).*2) with (h := h) as (h1 & -> & Hs1).
  - intros h' c Hs' Hc.
    destruct (childrenOf_child h node n c Hn Hc) as [k Hk].
    pose proof (child_lt_length h _ _ _ Hwf Hk) as Hlt.
    pose proof (sameSkeleton_length _ _ Hs') as HL.
    apply IH; [|lia|lia].
    eapply linksEq_wellFormed; [|exact Hwf]. by apply sameSkeleton_linksEq.
  - done.
  - simpl.
    destruct (markSelf_spec S O d h1 node) as (h2 & -> & Hs2).
    + eapply linksEq_wellFormed; [|exact Hwf]. by apply sameSkeleton_linksEq.
    + by rewrite <- (sameSkeleton_length _ _ Hs1).
    + exists h2. split; [done|]. unfold sameSkeleton in *. congruence.
Qed.

(** *** Pruning a freshly built tree removes nothing *)

Lemma buildInv_pruned files (h : heap) :
  buildInv files None h →
  removeEmptyDirectories (length h) h root = Some (h, verdict h root).
Proof.
  intros [Hwf _ _ Hne].
  destruct (wf_root h Hwf) as (r & Hr & _).
  apply removeEmptyDirectories_pruned with r; [by apply wellFormed_treeShaped|done| |lia].
  intros k c _ Hk x m Hx Hm _.
  apply (Hne x m Hm); [|done].
  assert (child h root k c) as Hc by (by exists r).
  apply dirDesc_desc, (desc_le h _ _ (wellFormed_treeShaped h Hwf)) in Hx.
  apply (child_lt_length h _ _ _ Hwf) in Hc. unfold root in *. lia.
Qed.

Lemma buildSmartTree_spec files S O d :
  directoriesOf (Files S) ∅ = Some d →
  ∃ h, buildSmartTree files S O = Some h ∧ sameSkeleton (buildTree files) h.
Proof.
  intros Hd. unfold buildSmartTree. rewrite Hd. simpl.
  pose proof (buildTree_inv files) as Hinv.
  destruct (markEntireDirectoriesNew_spec S O d (length (buildTree files))
              (buildTree files) root) as (h1 & -> & Hs).
  - apply (bi_wf _ _ _ Hinv).
  - destruct (wf_root _ (bi_wf _ _ _ Hinv)) as (r & Hr & _).
    by eapply lookup_lt_Some.
  - lia.
  - simpl. rewrite (buildInv_pruned files h1); [|by eapply sameSkeleton_buildInv].
    simpl. eauto.
Qed.

Lemma buildSmartTree_skeleton files S O h :
  buildSmartTree files S O = Some h → sameSkeleton (buildTree files) h.
Proof.
  intros E. destruct (directoriesOf (Files S) ∅) as [d|] eqn:Hd.
  - destruct (buildSmartTree_spec files S O d Hd) as (h' & E' & Hs). congruence.
  - unfold buildSmartTree in E. by rewrite Hd in E.
Qed.

(** *** The tree invariant *)

Lemma pathPartsLoop_nodePath (h : heap) a l :
  wellFormed h → nodePath h a l → Forall (λ k, k ≠ "") l →
  ∀ fuel acc, length l ≤ fuel → pathPartsLoop fuel h (Some a) acc = Some (l ++ acc).
Proof.
  intros Hwf Hl. induction Hl as [|a l k c Hl IH Hc]; intros Hne fuel acc Hfuel.
  - destruct (wf_root h Hwf) as (r & Hr & Hname & _).
    destruct fuel; cbn [pathPartsLoop]; rewrite Hr; simpl; by rewrite decide_True.
  - apply Forall_app in Hne as [Hne Hk]. apply Forall_inv in Hk.
    destruct (wf_child h Hwf a k c Hc) as (_ & m & Hm & Hname & Hpar).
    rewrite length_app in Hfuel. simpl in Hfuel.
    destruct fuel as [|fuel]; [lia|]. cbn [pathPartsLoop]. rewrite Hm. simpl.
    rewrite decide_False by congruence.
    rewrite Hpar, Hname, IH; [|done|lia]. by rewrite <- app_assoc.
Qed.

Lemma nodePath_names files (h : heap) a l :
  Forall cleanParts files → buildInv files None h → nodePath h a l →
  Forall (λ k, k ≠ "") l.
Proof.
  intros Hclean Hinv Hl. destruct (decide (l = [])) as [->|Hnil]; [constructor|].
  destruct (bi_names _ _ _ Hinv a l Hl Hnil) as (f & rest & Hf & Hrest & E).
  rewrite Forall_forall in Hclean. pose proof (Hclean f Hf) as Hc.
  unfold cleanParts in Hc. rewrite E, removelast_app in Hc by done.
  by apply Forall_app in Hc as [Hc _].
Qed.

Lemma buildInv_treeInvariant files (h : heap) :
  Forall cleanParts files → buildInv files None h → treeInvariant h.
Proof.
  intros Hclean Hinv. pose proof (bi_wf _ _ _ Hinv) as Hwf.
  split; [|split].
  - intros a d k c Hd Hk.
    destruct (wf_child h Hwf a k c) as (_ & m & Hm & Hname & Hpar); [by exists d|].
    exists m. split; [done|]. split; [done|]. split; [done|]. by eapply wf_dir.
  - intros a n Hn. destruct (wf_root h Hwf) as (r & Hr & Hname & _). split.
    + intros Hempty. destruct (decide (a = root)) as [|Hne]; [done|].
      exfalso.
      destruct (nodePath_exists h a Hwf) as [l Hl]; [by eapply lookup_lt_Some|].
      pose proof (nodePath_names files h a l Hclean Hinv Hl) as Hnames.
      inversion Hl as [|a' l' k c' Hl' Hc]; subst; [done|].
      apply Forall_app in Hnames as [_ Hk]. apply Forall_inv in Hk.
      by rewrite (nodePath_name h a l' k n Hwf Hl Hn) in Hempty.
    + intros ->. congruence.
  - intros a n Hn.
    destruct (nodePath_exists h a Hwf) as [l Hl]; [by eapply lookup_lt_Some|].
    exists l. split.
    + rewrite (pathPartsLoop_nodePath h a l Hwf Hl).
      * by rewrite app_nil_r.
      * by eapply nodePath_names.
      * pose proof (nodePath_length h a l Hwf Hl).
        apply lookup_lt_Some in Hn. lia.
    + intros b m f Hd Hm Hf.
      destruct (nodePath_desc h a b l Hl Hd) as [l' Hl'].
      destruct (bi_files _ _ _ Hinv b m f Hm Hf) as (lb & last & Hlb & E).
      pose proof (nodePath_unique h b _ _ Hwf Hlb Hl') as ->.
      exists (l' ++ [last]). split; [by destruct l'|]. split; [|split].
      * intros ->. pose proof (nodePath_unique h a _ _ Hwf Hl Hl') as E'.
        rewrite <- (app_nil_r l) in E' at 1. apply app_inv_head in E'. by subst.
      * by rewrite E, <- app_assoc.
      * rewrite app_assoc, <- E. unfold pathParts. by rewrite strings_Join_Split.
Qed.

(** ** [filepath.Dir] shortens relative paths *)

Lemma string_length_app s t :
  String.length (s +:+ t) = String.length s + String.length t.
Proof. induction s as [|c s IH]; simpl; [done|]. by rewrite IH. Qed.

Lemma weight_app es1 es2 : weight (es1 ++ es2) = weight es1 + weight es2.
Proof. induction es1 as [|e es1 IH]; simpl; [done|]. rewrite IH. lia. Qed.

Lemma weight_reverse es : weight (reverse es) = weight es.
Proof.
  induction es as [|e es IH]; [done|].
  rewrite reverse_cons, weight_app, IH. simpl. lia.
Qed.

Lemma weight_replicate n e : weight (replicate n e) = n * S (String.length e).
Proof. induction n as [|n IH]; [done|]. simpl in *. by rewrite IH. Qed.

Lemma weight_Join es :
  es ≠ [] → S (String.length (strings_Join es separatorString)) = weight es.
Proof.
  induction es as [|e es IH]; [done|]. intros _.
  destruct es as [|e' es].
  - simpl. lia.
  - rewrite strings_Join_cons by done. rewrite !string_length_app.
    change (weight (e :: e' :: es)) with (S (String.length e) + weight (e' :: es)).
    rewrite <- IH by done. simpl. lia.
Qed.

Lemma weight_Split s :
  weight (strings_Split s filepath_Separator) = S (String.length s).
Proof.
  rewrite <- weight_Join by apply strings_Split_nonempty.
  by rewrite strings_Join_Split.
Qed.

Lemma strings_Split_noSeparator s :
  Forall (λ e, hasSeparator e = false) (strings_Split s filepath_Separator).
Proof.
  induction s as [|c s IH]; [by repeat constructor|].
  cbn [strings_Split]. destruct (decide (c = filepath_Separator)) as [->|Hc].
  - by constructor.
  - pose proof (strings_Split_nonempty s filepath_Separator).
    destruct (strings_Split s filepath_Separator) as [|piece pieces]; [done|].
    apply Forall_cons in IH as [Hp Hps]. constructor; [|done].
    simpl. rewrite Hp. by rewrite bool_decide_eq_false_2.
Qed.

(** The element pass never lengthens a relative path, gains a character
    for every empty element, and keeps only non-empty elements without
    separators. *)
Lemma cleanElements_weight elems : ∀ ups out,
  Forall (λ e, hasSeparator e = false) elems → Forall keptElement out →
  3 * (cleanElements false elems ups out).1 + weight (cleanElements false elems ups out).2
    + length (filter (λ e, e = "") elems)
    ≤ 3 * ups + weight out + weight elems ∧
  Forall keptElement (cleanElements false elems ups out).2.
Proof.
  induction elems as [|e rest IH]; intros ups out Hns Hout.
  - simpl. split; [lia|done].
  - apply Forall_cons in Hns as [He Hrest]. cbn [cleanElements].
    change (weight (e :: rest)) with (S (String.length e) + weight rest).
    rewrite filter_cons.
    destruct (decide (e = "" ∨ e = ".")) as [[->| ->]|Hne].
    + rewrite decide_True by done. destruct (IH ups out Hrest Hout) as [H1 H2].
      split; [simpl in *; lia|done].
    + rewrite decide_False by done. destruct (IH ups out Hrest Hout) as [H1 H2].
      split; [simpl in *; lia|done].
    + rewrite (decide_False (P := e = "")) by tauto.
      destruct (decide (e = "..")) as [->|Hdd].
      * destruct out as [|x out'].
        -- destruct (IH (S ups) [] Hrest Hout) as [H1 H2].
           split; [simpl in *; lia|done].
        -- apply Forall_cons in Hout as [_ Hout'].
           destruct (IH ups out' Hrest Hout') as [H1 H2].
           split; [|done].
           change (weight (x :: out')) with (S (String.length x) + weight out').
           simpl in *. lia.
      * destruct (IH ups (e :: out) Hrest) as [H1 H2].
        { constructor; [|done]. split; [tauto|done]. }
        split; [|done].
        change (weight (e :: out)) with (S (String.length e) + weight out) in H1.
        lia.
Qed.

Lemma rooted_Join e rest :
  keptElement e → rooted (strings_Join (e :: rest) separatorString) = false.
Proof.
  intros [Hne Hsep]. destruct e as [|c e]; [done|].
  simpl in Hsep. apply orb_false_iff in Hsep as [Hc _].
  destruct rest; simpl; done.
Qed.

Lemma upToLastSeparator_length p :
  String.length (upToLastSeparator p) ≤ String.length p.
Proof.
  induction p as [|c p IH]; [done|]. cbn [upToLastSeparator].
  destruct (hasSeparator (String c p)); simpl; lia.
Qed.

Lemma upToLastSeparator_rooted p : rooted p = false → rooted (upToLastSeparator p) = false.
Proof.
  destruct p as [|c p]; [done|]. cbn [upToLastSeparator].
  by destruct (hasSeparator (String c p)).
Qed.

Lemma upToLastSeparator_no_separator p :
  hasSeparator p = false → upToLastSeparator p = "".
Proof. destruct p as [|c p]; [done|]. cbn [upToLastSeparator]. by intros ->. Qed.

Lemma strings_Split_singleton_empty s :
  strings_Split s filepath_Separator = [""] → s = "".
Proof.
  intros E. rewrite <- (strings_Join_Split s). by rewrite E.
Qed.

(** What is kept up to the last separator ends with an empty element. *)
Lemma upToLastSeparator_last p :
  hasSeparator p = true →
  last (strings_Split (upToLastSeparator p) filepath_Separator) = Some "".
Proof.
  induction p as [|c p IH]; [done|]. intros Hsep.
  cbn [upToLastSeparator]. rewrite Hsep. cbn [strings_Split].
  destruct (hasSeparator p) eqn:Hp.
  - specialize (IH eq_refl).
    destruct (decide (c = filepath_Separator)).
    + rewrite last_cons, IH. done.
    + destruct (strings_Split (upToLastSeparator p) filepath_Separator)
        as [|piece pieces] eqn:E; [done|].
      destruct pieces as [|p2 pieces]; [|exact IH].
      simpl in IH. injection IH as ->.
      apply strings_Split_singleton_empty in E.
      destruct p as [|c' p]; [done|]. cbn [upToLastSeparator] in E.
      by rewrite Hp in E.
  - simpl in Hsep. rewrite Hp, orb_false_r in Hsep.
    apply bool_decide_eq_true in Hsep as ->.
    rewrite decide_True by done.
    by rewrite (upToLastSeparator_no_separator p Hp).
Qed.

Lemma last_elem_filter (es : list string) :
  last es = Some "" → 0 < length (filter (λ e, e = "") es).
Proof.
  intros Hlast. assert ("" ∈ filter (λ e : string, e = "") es) as Hin.
  { apply list_elem_of_filter. split; [done|].
    apply last_Some in Hlast as [l' ->]. apply elem_of_app. right. left. }
  destruct (filter _ es); [by apply elem_of_nil in Hin|simpl; lia].
Qed.

(** The parent directory of a relative path is [.] or a shorter relative
    path. *)
Lemma filepath_Dir_relative path :
  rooted path = false →
  filepath_Dir path = "." ∨
  (String.length (filepath_Dir path) < String.length path ∧
   rooted (filepath_Dir path) = false).
Proof.
  intros Hrel. unfold filepath_Dir, filepath_Clean.
  pose proof (upToLastSeparator_rooted path Hrel) as Hrel'.
  pose proof (upToLastSeparator_length path) as Hlen.
  destruct (hasSeparator path) eqn:Hsep;
    [|rewrite (upToLastSeparator_no_separator path Hsep); by left].
  pose proof (last_elem_filter _ (upToLastSeparator_last path Hsep)) as Hempty.
  destruct (upToLastSeparator path) as [|c u] eqn:Hu; [by left|].
  simpl in Hrel'. rewrite Hrel'.
  pose proof (cleanElements_weight (strings_Split (String c u) filepath_Separator) 0 []
                (strings_Split_noSeparator _) (Forall_nil_2 _)) as [Hw Hkept].
  rewrite weight_Split in Hw.
  destruct (cleanElements false _ 0 []) as [ups out].
  cbn [fst snd weight] in Hw, Hkept.
  set (k := length (filter _ _)) in *.
  assert (Forall keptElement (replicate ups ".." ++ reverse out)) as Hall.
  { apply Forall_app. split; [|by apply Forall_reverse].
    apply Forall_replicate. by split. }
  assert (weight (replicate ups ".." ++ reverse out) = 3 * ups + weight out) as Hweight.
  { rewrite weight_app, weight_reverse, weight_replicate. simpl. lia. }
  destruct (replicate ups ".." ++ reverse out) as [|e es] eqn:Hes; [by left|].
  right. split.
  - pose proof (weight_Join (e :: es) ltac:(done)) as HJ. lia.
  - apply rooted_Join. by apply Forall_cons in Hall as [? _].
Qed.

Lemma addAncestors_total fuel : ∀ dir m,
  rooted dir = false → String.length dir ≤ fuel → is_Some (addAncestors fuel dir m).
Proof.
  induction fuel as [|fuel IH]; intros dir m Hrel Hlen.
  - destruct dir; [|simpl in Hlen; lia]. cbn [addAncestors].
    destruct (decide _) as [[_ H]|]; [done|eauto].
  - cbn [addAncestors]. destruct (decide (dir ≠ "." ∧ dir ≠ "")) as [Hd|]; [|eauto].
    destruct (filepath_Dir_relative dir Hrel) as [->|[Hlt Hrel2]].
    + destruct fuel; cbn [addAncestors];
        (destruct (decide _) as [[H _]|]; [done|eauto]).
    + apply IH; [done|lia].
Qed.

Lemma addAncestors_dot fuel m : addAncestors fuel "." m = Some m.
Proof. destruct fuel; cbn [addAncestors]; by destruct (decide _) as [[H _]|]. Qed.

Lemma directoriesOf_total files : ∀ m,
  Forall relativeRecord files → is_Some (directoriesOf files m).
Proof.
  induction files as [|f files IH]; intros m Hrel; cbn [directoriesOf]; [eauto|].
  apply Forall_cons in Hrel as [Hf Hrel].
  destruct (filepath_Dir_relative _ Hf) as [->|[Hlt Hrel']].
  - rewrite addAncestors_dot. simpl. by apply IH.
  - destruct (addAncestors_total (String.length (RelativePath f))
                (filepath_Dir (RelativePath f)) m) as [m' Hm']; [done|lia|].
    rewrite Hm'. simpl. by apply IH.
Qed.

(** On the root path the loop over the ancestors does not end, whatever
    the number of rounds: [filepath.Dir] of the root is the root. *)
Lemma addAncestors_root fuel m : addAncestors fuel "/" m = None.
Proof.
  revert m. induction fuel as [|fuel IH]; intros m; cbn [addAncestors].
  - by destruct (decide _) as [|[]].
  - destruct (decide _) as [|[]]; [|done].
    change (filepath_Dir "/") with "/". apply IH.
Qed.

(** ** The relative paths that a scan produces *)

Lemma string_app_cons c (s t : string) : String c s +:+ t = String c (s +:+ t).
Proof. reflexivity. Qed.

Lemma string_app_assoc (s t u : string) : (s +:+ t) +:+ u = s +:+ (t +:+ u).
Proof.
  induction s as [|c s IH]; [done|]. rewrite !string_app_cons. by rewrite IH.
Qed.

Lemma string_app_empty_r (s : string) : s +:+ "" = s.
Proof. induction s as [|c s IH]; [done|]. rewrite string_app_cons. by rewrite IH. Qed.

Lemma prefix_app s t : String.prefix s (s +:+ t) = true.
Proof.
  induction s as [|c s IH]; [by destruct t|].
  rewrite string_app_cons. cbn [String.prefix].
  destruct (ascii_dec c c); [done|congruence].
Qed.

Lemma string_drop_app s t : string_drop (String.length s) (s +:+ t) = t.
Proof.
  induction s as [|c s IH]; [by destruct t|].
  rewrite string_app_cons. exact IH.
Qed.

Lemma string_app_neq s t : t ≠ "" → s +:+ t ≠ s.
Proof.
  intros Ht E. assert (String.length (s +:+ t) = String.length s) as HL by (by rewrite E).
  rewrite string_length_app in HL. destruct t; [done|simpl in HL; lia].
Qed.

Lemma joinAll_suffix dir names : joinAll dir names = dir +:+ suffixOf names.
Proof.
  unfold joinAll. revert dir.
  induction names as [|name rest IH]; intros dir; cbn [fold_left suffixOf].
  - by rewrite string_app_empty_r.
  - rewrite IH. unfold filepath_Join. rewrite !string_app_assoc. done.
Qed.

Lemma suffixOf_Join name rest :
  suffixOf (name :: rest) = "/" +:+ strings_Join (name :: rest) separatorString.
Proof.
  revert name. induction rest as [|name' rest IH]; intros name.
  - cbn [suffixOf strings_Join]. by rewrite string_app_empty_r.
  - rewrite strings_Join_cons by done.
    change (suffixOf (name :: name' :: rest))
      with ("/" +:+ name +:+ suffixOf (name' :: rest)).
    by rewrite IH.
Qed.

Lemma filepath_Rel_joinAll dir names :
  filepath_Rel dir (joinAll dir names) =
    Ok match names with
       | [] => "."
       | _ => strings_Join names separatorString
       end.
Proof.
  unfold filepath_Rel. rewrite joinAll_suffix. destruct names as [|name rest].
  - cbn [suffixOf]. rewrite string_app_empty_r. by rewrite decide_True.
  - rewrite decide_False by (by apply string_app_neq).
    rewrite suffixOf_Join.
    rewrite <- (string_app_assoc dir "/").
    rewrite prefix_app.
    replace (String.length dir + 1) with (String.length (dir +:+ "/"))
      by (rewrite string_length_app; simpl; lia).
    by rewrite string_drop_app.
Qed.

Lemma strings_Split_app e r :
  hasSeparator e = false →
  strings_Split (e +:+ separatorString +:+ r) filepath_Separator
    = e :: strings_Split r filepath_Separator.
Proof.
  induction e as [|c e IH]; intros Hsep.
  - change ("" +:+ separatorString +:+ r) with (String filepath_Separator r).
    cbn [strings_Split]. by rewrite decide_True.
  - simpl in Hsep. apply orb_false_iff in Hsep as [Hc He].
    apply bool_decide_eq_false in Hc.
    rewrite string_app_cons. cbn [strings_Split]. rewrite decide_False by done.
    rewrite (IH He). done.
Qed.

Lemma strings_Split_plain e :
  hasSeparator e = false → strings_Split e filepath_Separator = [e].
Proof.
  induction e as [|c e IH]; intros Hsep; [done|].
  simpl in Hsep. apply orb_false_iff in Hsep as [Hc He].
  apply bool_decide_eq_false in Hc.
  cbn [strings_Split]. rewrite decide_False by done. by rewrite (IH He).
Qed.

Lemma strings_Split_Join names :
  names ≠ [] → Forall keptElement names →
  strings_Split (strings_Join names separatorString) filepath_Separator = names.
Proof.
  induction names as [|e rest IH]; [done|]. intros _ Hk.
  apply Forall_cons in Hk as [[_ He] Hrest]. destruct rest as [|e' rest].
  - simpl. by apply strings_Split_plain.
  - rewrite strings_Join_cons by done. rewrite strings_Split_app by done.
    by rewrite IH.
Qed.

Lemma cleanRelPath_joinAll dir names rel :
  Forall keptElement names → filepath_Rel dir (joinAll dir names) = Ok rel →
  cleanRelPath rel.
Proof.
  intros Hk. rewrite filepath_Rel_joinAll. intros [= <-].
  destruct names as [|name rest].
  - split; [constructor|done].
  - split.
    + rewrite strings_Split_Join by done.
      assert (Forall (λ part : string, part ≠ "") (name :: rest)) as Hne.
      { eapply Forall_impl; [exact Hk|]. by intros ? [? _]. }
      clear Hk. revert Hne. generalize (name :: rest). intros l Hl.
      induction Hl as [|x l Hx Hl IH]; [constructor|].
      destruct l; simpl; [constructor|]. constructor; [done|exact IH].
    + apply rooted_Join. by apply Forall_cons in Hk as [? _].
Qed.

Lemma walkCallback_clean dir limit names info err st :
  Forall keptElement names → cleanTasks st →
  cleanTasks (walkCallback dir limit (joinAll dir names) info err st).1.
Proof.
  intros Hk Hst. unfold walkCallback.
  destruct err as [e|]; [done|]. destruct info as [info|]; [|done].
  destruct (fi_IsDir info); [done|].
  destruct (bool_decide (limit > 0)%Z && bool_decide (taskCount st >= limit)%Z); [done|].
  unfold cleanTasks. simpl. apply Forall_app. split; [done|].
  constructor; [|constructor]. simpl.
  pose proof (cleanRelPath_joinAll dir names) as Hrel.
  destruct (filepath_Rel dir (joinAll dir names)) as [rel|e] eqn:E.
  - by apply Hrel.
  - by rewrite filepath_Rel_joinAll in E.
Qed.

Lemma joinAll_snoc dir names name :
  filepath_Join (joinAll dir names) name = joinAll dir (names ++ [name]).
Proof. unfold joinAll. by rewrite fold_left_app. Qed.

Lemma walk_clean dir limit node : ∀ names name st,
  Forall keptElement names → plainNames node → cleanTasks st →
  cleanTasks (walk (walkCallback dir limit) (joinAll dir names) name node st).1.
Proof.
  induction node as [size|readErr entries IH] using FsNode_nested_ind;
    intros names name st Hk Hplain Hst.
  - cbn [walk]. by apply walkCallback_clean.
  - cbn [walk].
    pose proof (walkCallback_clean dir limit names
                  (Some (FsNode_Info name (FsDir readErr entries))) readErr st Hk Hst)
      as Hcb.
    destruct (walkCallback _ _ _ _ readErr st) as [s1 err1]. simpl in Hcb.
    destruct readErr as [e|]; [done|]. destruct err1 as [e1|]; [done|].
    cbn [plainNames] in Hplain. clear Hst. revert s1 Hcb.
    induction entries as [|[name' r] rest IHrest]; intros s1 Hs1; [done|].
    destruct Hplain as (Hname & Hchild & Hrest).
    apply Forall_cons in IH as [IHhd IHtl].
    assert (Forall keptElement (names ++ [name'])) as Hk'
      by (apply Forall_app; split; [done|by constructor]).
    cbn [walkEntries]. rewrite joinAll_snoc. destruct r as [child|e].
    + pose proof (IHhd child eq_refl (names ++ [name']) name' s1 Hk' Hchild Hs1) as Hc.
      destruct (walk _ _ name' child s1) as [s' [err'|]]; simpl in Hc.
      * destruct (negb (FsNode_IsDir child) || negb (bool_decide (err' = SkipDir)));
          [done|]. by apply IHrest.
      * by apply IHrest.
    + pose proof (walkCallback_clean dir limit (names ++ [name']) None (Some e) s1
                    Hk' Hs1) as Hc.
      destruct (walkCallback _ _ _ None (Some e) s1) as [s' [err'|]]; simpl in Hc.
      * destruct err'; [by apply IHrest|done..].
      * by apply IHrest.
Qed.

Lemma collectTasks_clean env dirs limit : ∀ st,
  plainEnv env → cleanTasks st → cleanTasks (collectTasks env dirs limit st).1.
Proof.
  induction dirs as [|dir dirs IH]; intros st Henv Hst; [done|].
  cbn [collectTasks]. destruct (os_Stat_IsNotExist env dir); [by apply IH|].
  assert (cleanTasks (filepath_Walk (walkCallback dir limit) env dir st).1) as Hw.
  { unfold filepath_Walk. destruct (os_Lstat env dir) as [[name node]|e] eqn:E.
    - pose proof (walk_clean dir limit node [] name st (Forall_nil_2 _)
                    (Henv dir name node E) Hst) as Hc.
      change (joinAll dir []) with dir in Hc.
      destruct (walk _ dir name node st) as [s' err]. simpl in Hc.
      by destruct err as [[]|].
    - pose proof (walkCallback_clean dir limit [] None (Some e) st (Forall_nil_2 _) Hst)
        as Hc.
      change (joinAll dir []) with dir in Hc.
      destruct (walkCallback dir limit dir None (Some e) st) as [s' err]. simpl in Hc.
      by destruct err as [[]|]. }
  destruct (filepath_Walk (walkCallback dir limit) env dir st) as [st' err].
  simpl in Hw. destruct err; [done|]. by apply IH.
Qed.

(** The records of a scanned catalog have clean relative paths. *)
Lemma scanned_records_clean env dirs limit fs out :
  plainEnv env → fairArrival env →
  walkDirectoriesWithLimit env dirs limit = (Ok fs, out) →
  Forall cleanParts (Files fs) ∧ Forall relativeRecord (Files fs).
Proof.
  intros Henv Hfair E.
  destruct (walkDirectoriesWithLimit_spec env dirs limit)
    as (st & fs' & out' & Ec & Ew & _ & _ & Hf).
  rewrite Ew in E. injection E as <- <-.
  destruct (Hf Hfair) as [Hfiles _].
  pose proof (collectTasks_clean env dirs limit initialWalkState Henv (Forall_nil_2 _))
    as Hclean.
  rewrite Ec in Hclean. simpl in Hclean. unfold cleanTasks in Hclean.
  rewrite Forall_forall in Hclean.
  assert (∀ f, f ∈ Files fs' → cleanRelPath (RelativePath f)) as Hall.
  { intros f Hin. rewrite Hfiles in Hin.
    apply hashedRecords_elem in Hin as (t & h & Ht & _ & ->). simpl. by apply Hclean. }
  split; apply Forall_forall; intros f Hin; by destruct (Hall f Hin).
Qed.

(** The trees of a comparison of two scanned catalogs, as [main] builds
    them, satisfy the tree invariant. *)
Lemma scanned_trees_wellFormed env dirs1 dirs2 limit set1 set2 out1 out2 :
  plainEnv env → fairArrival env →
  walkDirectoriesWithLimit env dirs1 limit = (Ok set1, out1) →
  walkDirectoriesWithLimit env dirs2 limit = (Ok set2, out2) →
  treeInvariant (buildTree (SameNameDifferentHash (compareFileSets set1 set2))) ∧
  (∃ h, buildSmartTree (UniqueToSet2 (compareFileSets set1 set2)) set2 set1 = Some h ∧
        treeInvariant h) ∧
  (∃ h, buildSmartTree (UniqueToSet1 (compareFileSets set1 set2)) set1 set2 = Some h ∧
        treeInvariant h).
Proof.
  intros Henv Hfair E1 E2.
  destruct (scanned_records_clean env dirs1 limit set1 out1 Henv Hfair E1) as [C1 R1].
  destruct (scanned_records_clean env dirs2 limit set2 out2 Henv Hfair E2) as [C2 R2].
  destruct (compareFileSets_spec set1 set2) as (M & U2 & U1 & _).
  assert (∀ (P : FileInfo → Prop) `{∀ f, Decision (P f)} l,
            Forall cleanParts l → Forall cleanParts (filter P l)) as Hfilter.
  { intros P ? l Hl. rewrite Forall_forall in Hl. apply Forall_forall.
    intros f Hf. apply list_elem_of_filter in Hf as [_ Hf]. by apply Hl. }
  assert (∀ files S O, Forall cleanParts files → Forall relativeRecord (Files S) →
            ∃ h, buildSmartTree files S O = Some h ∧ treeInvariant h) as Hsmart.
  { intros files S O Hc Hr.
    destruct (directoriesOf_total (Files S) ∅ Hr) as [d Hd].
    destruct (buildSmartTree_spec files S O d Hd) as (h & E & Hs).
    exists h. split; [done|]. apply (buildInv_treeInvariant files); [done|].
    eapply sameSkeleton_buildInv; [exact Hs|apply buildTree_inv]. }
  split; [|split].
  - rewrite M. eapply buildInv_treeInvariant; [|apply buildTree_inv].
    by apply Hfilter.
  - rewrite U2. apply Hsmart; [by apply Hfilter|done].
  - rewrite U1. apply Hsmart; [by apply Hfilter|done].
Qed.

(** ** What marking establishes *)

Lemma linksEq_lookup_None (h h' : heap) a : linksEq h h' → h !! a = None → h' !! a = None.
Proof.
  intros [HL _] Hn. apply lookup_ge_None in Hn. apply lookup_ge_None. lia.
Qed.

Lemma pathPartsLoop_linksEq (h h' : heap) :
  linksEq h h' → ∀ fuel current acc,
  pathPartsLoop fuel h' current acc = pathPartsLoop fuel h current acc.
Proof.
  intros HE fuel. induction fuel as [|fuel IH]; intros [a|] acc; cbn [pathPartsLoop];
    try done.
  - destruct (h !! a) as [n|] eqn:Hn.
    + destruct (linksEq_lookup h h' a n HE Hn) as (n' & -> & Hname & _). simpl.
      by rewrite Hname.
    + by rewrite (linksEq_lookup_None h h' a HE Hn).
  - destruct (h !! a) as [n|] eqn:Hn.
    + destruct (linksEq_lookup h h' a n HE Hn) as (n' & -> & Hname & _ & _ & Hpar).
      simpl. rewrite Hname, Hpar. destruct (decide _); [done|]. apply IH.
    + by rewrite (linksEq_lookup_None h h' a HE Hn).
Qed.

Lemma childrenLoop_agree (h h' : heap) cs : ∀ b1 b2,
  (∀ c, c ∈ cs → h' !! c = h !! c) →
  childrenLoop h' cs b1 b2 = childrenLoop h cs b1 b2.
Proof.
  induction cs as [|c cs IH]; intros b1 b2 Hag; [done|].
  cbn [childrenLoop]. rewrite (Hag c) by left.
  assert (∀ c', c' ∈ cs → h' !! c' = h !! c') as Hag' by (intros; apply Hag; by right).
  destruct (h !! c) as [m|]; [|done]. simpl.
  destruct (tn_IsDir m); [destruct (negb (tn_IsEntireDir m)); [done|]|]; by apply IH.
Qed.

(** The verdict on a node depends on the links of the store and on the
    marks of the children of the node only. *)
Lemma entireVerdict_frame S O d (h h' : heap) a :
  sameSkeleton h h' → (∀ k c, child h a k c → h' !! c = h !! c) →
  entireVerdict S O d h' a = entireVerdict S O d h a.
Proof.
  intros Hs Hch. pose proof (sameSkeleton_linksEq h h' Hs) as HE.
  unfold entireVerdict. destruct (h !! a) as [n|] eqn:Hn.
  - destruct (linksEq_lookup h h' a n HE Hn) as (n' & -> & Hname & _ & Hc & _).
    simpl. rewrite Hname. destruct (decide _); [done|].
    destruct HE as [HL HE'] eqn:E. clear E.
    rewrite <- HL, (pathPartsLoop_linksEq h h' (conj HL HE')).
    destruct (pathPartsLoop _ h _ _) as [parts|]; [|done]. simpl.
    destruct (negb _); [done|]. destruct (countDirect _ _ _) as [n1 n2].
    unfold childrenOf. rewrite Hc.
    rewrite (childrenLoop_agree h h'); [done|].
    intros c Hin. destruct (childrenOf_child h a n c Hn Hin) as [k Hk].
    by apply (Hch k).
  - by rewrite (linksEq_lookup_None h h' a HE Hn).
Qed.

Lemma settled_frame S O d (h h' : heap) a :
  settled S O d h a → sameSkeleton h h' → h' !! a = h !! a →
  (∀ k c, child h a k c → h' !! c = h !! c) →
  settled S O d h' a.
Proof.
  intros (n & b & Hn & Hv & Hb) Hs Ha Hch. exists n, b.
  split; [congruence|]. split; [|done].
  by rewrite (entireVerdict_frame S O d h h' a Hs Hch).
Qed.

Lemma markNode_lookup_ne (h : heap) a b x : a ≠ x → markNode h a b !! x = h !! x.
Proof. intros Hne. unfold markNode. by rewrite list_lookup_alter_ne. Qed.

Lemma markNode_lookup_eq (h : heap) a b n :
  h !! a = Some n → markNode h a b !! a = Some (setIsEntireDir n b).
Proof. intros Hn. unfold markNode. by rewrite list_lookup_alter_eq, Hn. Qed.

(** A node below [c] other than [c] has its parent below [c]. *)
Lemma desc_parent h c c' x k :
  treeShaped h → desc h c c' → c' ≠ c → child h x k c' → desc h c x.
Proof.
  intros Hts Hd Hne Hc. apply desc_inv_last in Hd as [->|(p & k' & Hp & Hk)]; [done|].
  by destruct (ts_unique h Hts _ _ _ _ _ Hc Hk) as [-> _].
Qed.

Lemma markSelf_settled S O d (h h' : heap) a :
  wellFormed h → markSelf S O d h a = Some h' →
  settled S O d h' a ∧ (∀ x, x ≠ a → h' !! x = h !! x) ∧ sameSkeleton h h'.
Proof.
  intros Hwf E. unfold markSelf in E.
  destruct (entireVerdict S O d h a) as [b|] eqn:Hv; [|done].
  simpl in E. injection E as <-.
  pose proof (markNode_skeleton h a b) as Hs.
  split; [|split; [|done]].
  - assert (is_Some (h !! a)) as [n Hn].
    { unfold entireVerdict in Hv. destruct (h !! a); [eauto|done]. }
    exists (setIsEntireDir n b), b. split; [by apply markNode_lookup_eq|].
    split; [|done]. rewrite <- Hv. apply entireVerdict_frame; [done|].
    intros k c Hc. apply markNode_lookup_ne.
    apply (child_lt_length h _ _ _ Hwf) in Hc. lia.
  - intros x Hx. by apply markNode_lookup_ne.
Qed.

(** The loop over the children of a node, for any property [Q] of a
    node in a store that depends on the links of the store, on the node
    and on its children only. *)
Section MarkLoop.
Variable Q : heap → addr → Prop.
Hypothesis Qframe : ∀ (h h' : heap) x,
  Q h x → sameSkeleton h h' → h' !! x = h !! x →
  (∀ k c, child h x k c → h' !! c = h !! c) → Q h' x.
Variable rec : heap → addr → option heap.
Variable h0 : heap.
Variable a : addr.
Variable n : TreeNode.
Hypothesis Hwf : wellFormed h0.
Hypothesis Hn : h0 !! a = Some n.
Hypothesis Hrec : ∀ h c, wellFormed h → length h = length h0 → a < c < length h →
  ∃ h', rec h c = Some h' ∧ sameSkeleton h h' ∧
    (∀ x, ¬ desc h c x → h' !! x = h !! x) ∧
    (∀ x, desc h c x → Q h' x).

Lemma markChildren_settled entries hi :
  NoDup entries.*1 →
  (∀ k c, (k, c) ∈ entries → tn_Children n !! k = Some c) →
  sameSkeleton h0 hi →
  (∀ x, ¬ desc h0 a x → hi !! x = h0 !! x) →
  (∀ k c x, (k, c) ∈ entries → desc h0 c x → hi !! x = h0 !! x) →
  hi !! a = h0 !! a →
  (∀ x, x ≠ a → desc h0 a x →
        (∃ k c, (k, c) ∈ entries ∧ desc h0 c x) ∨
        (Q hi x ∧ ∀ k c, (k, c) ∈ entries → ¬ desc h0 c x)) →
  ∃ h', markChildren rec entries.*2 hi = Some h' ∧
    sameSkeleton h0 h' ∧
    (∀ x, ¬ desc h0 a x → h' !! x = h0 !! x) ∧
    h' !! a = h0 !! a ∧
    (∀ x, x ≠ a → desc h0 a x → Q h' x).
Proof.
  pose proof (wellFormed_treeShaped h0 Hwf) as Hts.
  revert hi. induction entries as [|[k c] rest IH];
    intros hi Hnd Hsub J1 J2 J3 J4 J5.
  - exists hi. split; [done|]. split; [done|]. split; [done|]. split; [done|].
    intros x Hx Hd. destruct (J5 x Hx Hd) as [(k & c & Hin & _)|[? _]]; [|done].
    by apply elem_of_nil in Hin.
  - rewrite fmap_cons. cbn [markChildren snd].
    assert (child h0 a k c) as Hc by (exists n; split; [done|]; apply Hsub; left).
    pose proof (child_lt_length h0 _ _ _ Hwf Hc) as Hord.
    pose proof (sameSkeleton_linksEq _ _ J1) as HE.
    pose proof (sameSkeleton_length _ _ J1) as HL.
    assert (wellFormed hi) as Hwfi by (by eapply linksEq_wellFormed).
    destruct (Hrec hi c Hwfi) as (hj & -> & Sj & Fj & Pj); [done|lia|]. simpl.
    assert (∀ x, desc hi c x ↔ desc h0 c x) as Hdesc.
    { intros x. split; apply linksEq_desc; [by apply linksEq_sym|done]. }
    rewrite fmap_cons in Hnd. apply NoDup_cons in Hnd as [Hk_fresh Hnd].
    assert (∀ k' c', (k', c') ∈ rest → k' ≠ k) as Hkne.
    { intros k' c' Hin ->. apply Hk_fresh. apply list_elem_of_fmap.
      by exists (k, c'). }
    apply (IH hj); clear IH.
    + done.
    + intros k' c' Hin. apply Hsub. by right.
    + unfold sameSkeleton in *. congruence.
    + intros x Hx. rewrite Fj; [by apply J2|]. rewrite Hdesc.
      intros Hd. apply Hx. eapply desc_step; eauto.
    + intros k' c' x Hin Hd.
      assert (child h0 a k' c') as Hc'
        by (exists n; split; [done|]; apply Hsub; by right).
      rewrite Fj; [apply (J3 k' c'); [by right|done]|]. rewrite Hdesc.
      eapply siblings_disjoint; [exact Hts|exact Hc'|exact Hc| |exact Hd].
      by eapply Hkne.
    + rewrite Fj; [done|]. rewrite Hdesc. by eapply parent_not_below.
    + intros x Hx Hd.
      destruct (J5 x Hx Hd) as [(k' & c' & Hin & Hd')|[Hset Hout]].
      * apply elem_of_cons in Hin as [[= -> ->]|Hin]; [|left; eauto].
        right. split; [apply Pj; by apply Hdesc|].
        intros k' c' Hin Hd''.
        assert (child h0 a k' c') as Hc'
          by (exists n; split; [done|]; apply Hsub; by right).
        eapply siblings_disjoint; [exact Hts|exact Hc'|exact Hc| |exact Hd''|exact Hd'].
        by eapply Hkne.
      * right. assert (¬ desc h0 c x) as Hcx by (apply (Hout k c); left).
        split; [|intros k' c' Hin; apply (Hout k' c'); by right].
        eapply Qframe; [exact Hset|exact Sj| |].
        -- apply Fj. by rewrite Hdesc.
        -- intros k' c' Hc'. apply Fj. rewrite Hdesc. intros Hd'.
           apply (linksEq_child hi h0) in Hc'; [|by apply linksEq_sym].
           destruct (decide (c' = c)) as [->|Hne].
           ++ destruct (ts_unique h0 Hts _ _ _ _ _ Hc Hc') as [-> _]. done.
           ++ apply Hcx. by eapply desc_parent.
Qed.
End MarkLoop.

(** After [markEntireDirectoriesNew] every node at or below the node
    carries the mark that its verdict gives, and nothing else changed. *)
Lemma markEntireDirectoriesNew_settled S O d fuel : ∀ (h : heap) node,
  wellFormed h → node < length h → length h - node ≤ fuel →
  ∃ h', markEntireDirectoriesNew fuel S O d h node = Some h' ∧
    sameSkeleton h h' ∧
    (∀ x, ¬ desc h node x → h' !! x = h !! x) ∧
    (∀ x, desc h node x → settled S O d h' x).
Proof.
  induction fuel as [|fuel IH]; intros h node Hwf Hnode Hfuel; [lia|].
  cbn [markEntireDirectoriesNew].
  assert (is_Some (h !! node)) as [n Hn] by (by apply lookup_lt_is_Some).
  rewrite Hn. simpl. rewrite (wf_dir h Hwf node n Hn). simpl.
  destruct (markChildren_settled (settled S O d) (settled_frame S O d)
              (markEntireDirectoriesNew fuel S O d)
              h node n Hwf Hn) with (entries := childrenOf n) (hi := h)
    as (h1 & -> & S1 & F1 & A1 & P1).
  - intros hc c Hwfc HLc Hc. apply IH; [done|lia|lia].
  - apply NoDup_fst_map_to_list.
  - intros k c Hin. by apply elem_of_map_to_list in Hin.
  - done.
  - done.
  - done.
  - done.
  - intros x Hx Hd. left.
    apply desc_first_step in Hd as [->|(k & c & (n' & Hn' & Hk) & Hd)]; [done|].
    assert (n' = n) as -> by congruence.
    exists k, c. split; [by apply elem_of_map_to_list|done].
  - simpl.
    assert (wellFormed h1) as Hwf1.
    { eapply linksEq_wellFormed; [|exact Hwf]. by apply sameSkeleton_linksEq. }
    destruct (markSelf_spec S O d h1 node Hwf1) as (h2 & E2 & _).
    { by rewrite <- (sameSkeleton_length _ _ S1). }
    rewrite E2. destruct (markSelf_settled S O d h1 h2 node Hwf1 E2) as (Hset & F2 & S2).
    exists h2. split; [done|]. split; [unfold sameSkeleton in *; congruence|].
    split.
    + intros x Hx. rewrite F2; [by apply F1|]. intros ->. apply Hx. constructor.
    + intros x Hd. destruct (decide (x = node)) as [->|Hne]; [done|].
      eapply settled_frame; [by apply P1|exact S2|by apply F2|].
      intros k c Hc. apply F2. intros ->.
      apply (linksEq_child h1 h) in Hc;
        [|by apply linksEq_sym, sameSkeleton_linksEq].
      pose proof (wellFormed_treeShaped h Hwf) as Hts.
      apply (desc_le h _ _ Hts) in Hd. apply (ts_order h Hts) in Hc. lia.
Qed.

Lemma nodePath_desc_root h a l : nodePath h a l → desc h root a.
Proof.
  induction 1 as [|a l k c _ IH Hc]; [constructor|].
  eapply desc_trans; [exact IH|]. eapply desc_step; [exact Hc|constructor].
Qed.

(** *** Reading a verdict *)

Lemma countDirect_spec src oth dirPath :
  countDirect src oth dirPath =
    (length (filter (λ s, filepath_Dir (RelativePath s) = dirPath) (Files src)),
     length (filter (λ s, ¬ hashIn oth s)
               (filter (λ s, filepath_Dir (RelativePath s) = dirPath) (Files src)))).
Proof.
  unfold countDirect.
  assert (∀ l n1 n2,
    fold_left
      (λ (counts : nat * nat) sourceFile,
         if decide (filepath_Dir (RelativePath sourceFile) = dirPath) then
           (S counts.1,
            match HashMap oth !! Hash sourceFile with
            | Some _ => counts.2
            | None => S counts.2
            end)
         else counts) l (n1, n2) =
    (n1 + length (filter (λ s, filepath_Dir (RelativePath s) = dirPath) l),
     n2 + length (filter (λ s, ¬ hashIn oth s)
                    (filter (λ s, filepath_Dir (RelativePath s) = dirPath) l)))) as Haux.
  { induction l as [|s l IH]; intros n1 n2; simpl; [f_equal; lia|].
    rewrite filter_cons. destruct (decide _) as [Hd|Hd]; [|apply IH].
    rewrite IH. simpl. rewrite filter_cons.
    destruct (HashMap oth !! Hash s) as [x|] eqn:Hh.
    - assert (hashIn oth s) as Hin by (unfold hashIn; rewrite Hh; eauto).
      rewrite decide_False by tauto. f_equal; simpl; lia.
    - assert (¬ hashIn oth s) as Hin
        by (unfold hashIn; rewrite Hh; by intros [? ?]).
      rewrite decide_True by done. f_equal; simpl; lia. }
  apply (Haux (Files src) 0 0).
Qed.

Lemma filter_length_eq {A} (P : A → Prop) `{∀ x, Decision (P x)} (l : list A) :
  length (filter P l) = length l → ∀ x, x ∈ l → P x.
Proof.
  induction l as [|y l IH]; intros Hlen x Hx; [by apply elem_of_nil in Hx|].
  rewrite filter_cons in Hlen. destruct (decide (P y)) as [Hy|Hy].
  - simpl in Hlen. apply elem_of_cons in Hx as [->|Hx]; [done|].
    apply IH; [lia|done].
  - pose proof (length_filter P l). simpl in Hlen. lia.
Qed.

Lemma childrenLoop_all_entire (h : heap) cs : ∀ b2 all has,
  childrenLoop h cs true b2 = Some (all, has) →
  negb has || all = true →
  ∀ c m, c ∈ cs → h !! c = Some m → tn_IsDir m = true → tn_IsEntireDir m = true.
Proof.
  induction cs as [|c cs IH]; intros b2 all has E Hok c' m Hin Hm Hdir;
    [by apply elem_of_nil in Hin|].
  cbn [childrenLoop] in E. destruct (h !! c) as [mc|] eqn:Hmc; [|done]. simpl in E.
  destruct (tn_IsDir mc) eqn:Hdc.
  - destruct (tn_IsEntireDir mc) eqn:Hec; simpl in E.
    + apply elem_of_cons in Hin as [->|Hin]; [congruence|].
      by eapply (IH true all has E Hok).
    + injection E as <- <-. done.
  - apply elem_of_cons in Hin as [->|Hin]; [congruence|].
    by eapply (IH b2 all has E Hok).
Qed.

(** A node whose mark is its verdict and says "entire": no record of the
    source catalog directly in its directory has a hash match in the
    other catalog, and all its children are marked entire. *)
Lemma settled_entire S O d (h : heap) a n :
  wellFormed h → settled S O d h a → h !! a = Some n → tn_IsEntireDir n = true →
  (∃ parts, pathPartsLoop (length h) h (Some a) [] = Some parts ∧
     ∀ s, s ∈ Files S →
          filepath_Dir (RelativePath s) = strings_Join parts separatorString →
          ¬ hashIn O s) ∧
  (∀ k c m, child h a k c → h !! c = Some m → tn_IsEntireDir m = true).
Proof.
  intros Hwf (n' & b & Hn' & Hv & Hb) Hn He.
  assert (n' = n) as -> by congruence. rewrite He in Hb. subst b.
  unfold entireVerdict in Hv. rewrite Hn in Hv. simpl in Hv.
  destruct (decide (tn_Name n = "")); [done|].
  destruct (pathPartsLoop (length h) h (Some a) []) as [parts|]; [|done].
  simpl in Hv. destruct (negb _); [done|].
  rewrite countDirect_spec in Hv.
  destruct (childrenLoop h (childrenOf n).*2 true false) as [[all has]|] eqn:Hloop;
    [|done].
  simpl in Hv. injection Hv as Hv.
  apply andb_true_iff in Hv as [Hv Hchildren].
  apply andb_true_iff in Hv as [_ Hfiles].
  split.
  - exists parts. split; [done|]. intros s Hs Hdir.
    set (direct := filter (λ s, filepath_Dir (RelativePath s)
                                = strings_Join parts separatorString) (Files S)) in *.
    assert (s ∈ direct) as Hin by (apply list_elem_of_filter; done).
    apply orb_true_iff in Hfiles as [H0|H1].
    + apply bool_decide_eq_true in H0. destruct direct; [|done].
      by apply elem_of_nil in Hin.
    + apply andb_true_iff in H1 as [_ H1]. apply bool_decide_eq_true in H1.
      by apply (filter_length_eq (λ s, ¬ hashIn O s) direct (eq_sym H1)).
  - intros k c m Hc Hm.
    apply (childrenLoop_all_entire h _ false all has Hloop Hchildren c m); [|done|].
    + destruct Hc as (n2 & Hn2 & Hk). assert (n2 = n) as -> by congruence.
      apply list_elem_of_fmap. exists (k, c). split; [done|].
      by apply elem_of_map_to_list.
    + by eapply wf_dir.
Qed.

(** Hence, in a store all of whose nodes carry their verdicts, below a
    node marked entire no source record that lies directly in the
    directory of a node of the tree has a hash match. *)
Lemma settled_sound S O d (h : heap) a b :
  wellFormed h → (∀ x, x < length h → settled S O d h x) → desc h a b →
  ∀ n, h !! a = Some n → tn_IsEntireDir n = true →
  ∃ parts, pathPartsLoop (length h) h (Some b) [] = Some parts ∧
    ∀ s, s ∈ Files S →
         filepath_Dir (RelativePath s) = strings_Join parts separatorString →
         ¬ hashIn O s.
Proof.
  intros Hwf Hall Hd. induction Hd as [a|a k c x Hc _ IH]; intros n Hn He.
  - apply (settled_entire S O d h a n Hwf); [|done..].
    apply Hall. by eapply lookup_lt_Some.
  - destruct (settled_entire S O d h a n Hwf) as [_ Hch]; [|done..|].
    { apply Hall. by eapply lookup_lt_Some. }
    destruct (wf_child h Hwf a k c Hc) as (_ & m & Hm & _).
    apply (IH m Hm). by eapply Hch.
Qed.

(** The tree that [buildSmartTree] returns carries, at every node, the
    mark that the verdict of the node gives. *)
Lemma buildSmartTree_settled files S O d h :
  directoriesOf (Files S) ∅ = Some d → buildSmartTree files S O = Some h →
  wellFormed h ∧ ∀ x, x < length h → settled S O d h x.
Proof.
  intros Hd E. pose proof (buildTree_inv files) as Hinv.
  pose proof (bi_wf _ _ _ Hinv) as Hwf.
  unfold buildSmartTree in E. rewrite Hd in E. simpl in E.
  destruct (markEntireDirectoriesNew_settled S O d (length (buildTree files))
              (buildTree files) root Hwf) as (h1 & E1 & S1 & _ & P1).
  { destruct (wf_root _ Hwf) as (r & Hr & _). by eapply lookup_lt_Some. }
  { lia. }
  rewrite E1 in E. simpl in E.
  rewrite (buildInv_pruned files h1) in E by (by eapply sameSkeleton_buildInv).
  simpl in E. injection E as <-.
  split; [eapply linksEq_wellFormed; [|exact Hwf]; by apply sameSkeleton_linksEq|].
  intros x Hx. apply P1. rewrite <- (sameSkeleton_length _ _ S1) in Hx.
  destruct (nodePath_exists _ x Hwf Hx) as [l Hl]. by eapply nodePath_desc_root.
Qed.

(** ** Properties of the differ *)

(** C2 (differ classification).  For a catalog [B] whose indexes derive
    from its records and every record [r] of [B], [compareFileSets A B]
    gives [r] exactly one of three outcomes: when [r]'s fingerprint is a
    key of [A]'s fingerprint index, [r] is in none of the three lists;
    otherwise, when [r]'s name is a key of [A]'s name index, [r] is in the
    modified list and in neither unique list, and the name mapping sends
    [r]'s name to [A]'s records of that name; otherwise [r] is in
    unique-to-B and in neither other list. *)
Theorem compareFileSets_classification (A B : FileSet) (r : FileInfo) :
  indexesDerived B →
  r ∈ Files B →
  let res := compareFileSets A B in
  (hashIn A r →
     (r ∉ SameNameDifferentHash res) ∧ (r ∉ UniqueToSet2 res) ∧ (r ∉ UniqueToSet1 res)) ∧
  (¬ hashIn A r → nameIn A r →
     (r ∈ SameNameDifferentHash res) ∧ (r ∉ UniqueToSet2 res) ∧ (r ∉ UniqueToSet1 res) ∧
     NameMappings res !! Name r = NameMap A !! Name r) ∧
  (¬ hashIn A r → ¬ nameIn A r →
     (r ∈ UniqueToSet2 res) ∧ (r ∉ SameNameDifferentHash res) ∧ (r ∉ UniqueToSet1 res)).
Proof.
  intros HB Hr res.
  pose proof (NameMappings_lookup A B (Name r)) as HM.
  destruct (compareFileSets_spec A B) as (E1 & E2 & E3 & _).
  fold res in E1, E2, E3, HM. rewrite E1 in HM. rewrite E1, E2, E3.
  assert (r ∉ filter (isUnique B) (Files A)) as H1.
  { intros Hc. apply list_elem_of_filter in Hc as [[Hc _] _].
    apply Hc. by apply indexesDerived_hashIn. }
  split; [|split].
  - intros Hh. split; [|split]; [| |done].
    + intros Hc. apply list_elem_of_filter in Hc as [[Hc _] _]. done.
    + intros Hc. apply list_elem_of_filter in Hc as [[Hc _] _]. done.
  - intros Hh Hn.
    assert (r ∈ filter (isModified A) (Files B)) as Hin.
    { apply list_elem_of_filter. split; [split|]; done. }
    split; [done|]. split; [|split]; [|done|].
    + intros Hc. apply list_elem_of_filter in Hc as [[_ Hc] _]. done.
    + rewrite HM. rewrite decide_True; [done|].
      apply list_elem_of_fmap. eauto.
  - intros Hh Hn. split; [|split]; [| |done].
    + apply list_elem_of_filter. split; [split|]; done.
    + intros Hc. apply list_elem_of_filter in Hc as [[_ Hc] _]. done.
Qed.

(** The modified file of the first scenario is classified as modified. *)
Lemma compareFileSets_classification_witness :
  indexesDerived Scenario.setB1 ∧
  Scenario.a_mod ∈ Files Scenario.setB1 ∧
  ¬ hashIn Scenario.setA1 Scenario.a_mod ∧
  nameIn Scenario.setA1 Scenario.a_mod ∧
  Scenario.a_mod ∈ SameNameDifferentHash (compareFileSets Scenario.setA1 Scenario.setB1) ∧
  NameMappings (compareFileSets Scenario.setA1 Scenario.setB1) !! Name Scenario.a_mod
    = NameMap Scenario.setA1 !! Name Scenario.a_mod.
Proof.
  assert (indexesDerived Scenario.setB1) as HB
    by by_computation.
  assert (Scenario.a_mod ∈ Files Scenario.setB1) as Hr
    by by_computation.
  assert (¬ hashIn Scenario.setA1 Scenario.a_mod) as Hh
    by by_computation.
  assert (nameIn Scenario.setA1 Scenario.a_mod) as Hn
    by by_computation.
  destruct (compareFileSets_classification Scenario.setA1 Scenario.setB1
              Scenario.a_mod HB Hr) as (_ & H2 & _).
  destruct (H2 Hh Hn) as (H & _ & _ & Hm).
  repeat (split; [assumption|]). exact Hm.
Defined.

(** C3 (differ symmetry law).  A record whose fingerprint is a key of both
    fingerprint indexes is in none of the three lists of
    [compareFileSets A B], whatever its name. *)
Theorem compareFileSets_shared_fingerprint (A B : FileSet) (r : FileInfo) :
  hashIn A r → hashIn B r →
  let res := compareFileSets A B in
  (r ∉ SameNameDifferentHash res) ∧ (r ∉ UniqueToSet1 res) ∧ (r ∉ UniqueToSet2 res).
Proof.
  intros HA HB res.
  destruct (compareFileSets_spec A B) as (E1 & E2 & E3 & _).
  fold res in E1, E2, E3. rewrite E1, E2, E3.
  split; [|split]; intros Hc;
    apply list_elem_of_filter in Hc as [[Hc _] _]; done.
Qed.

(** A renamed file with the same content is reported nowhere. *)
Lemma compareFileSets_shared_fingerprint_witness :
  let res := compareFileSets Scenario.setA3 Scenario.setB3 in
  (Scenario.renamed ∉ SameNameDifferentHash res) ∧
  (Scenario.renamed ∉ UniqueToSet1 res) ∧ (Scenario.renamed ∉ UniqueToSet2 res).
Proof.
  apply (compareFileSets_shared_fingerprint Scenario.setA3 Scenario.setB3
           Scenario.renamed); by_computation.
Defined.

(** C7 (order-insensitivity of the differ).  When [A'] and [B'] hold the
    records of [A] and [B] in another order, with indexes holding the same
    records under the same keys, [compareFileSets A' B'] reports the same
    records as [compareFileSets A B]: each of the three lists is a
    permutation of its counterpart (hence the same set of records), and
    the name mapping has the same keys, each mapped to the same records of
    [A] up to order. *)
Theorem compareFileSets_order_insensitive (A A' B B' : FileSet) :
  sameCatalog A A' → sameCatalog B B' →
  let r := compareFileSets A B in
  let r' := compareFileSets A' B' in
  SameNameDifferentHash r ≡ₚ SameNameDifferentHash r' ∧
  UniqueToSet1 r ≡ₚ UniqueToSet1 r' ∧
  UniqueToSet2 r ≡ₚ UniqueToSet2 r' ∧
  (∀ f, (f ∈ SameNameDifferentHash r ↔ f ∈ SameNameDifferentHash r') ∧
        (f ∈ UniqueToSet1 r ↔ f ∈ UniqueToSet1 r') ∧
        (f ∈ UniqueToSet2 r ↔ f ∈ UniqueToSet2 r')) ∧
  sameIndex (NameMappings r) (NameMappings r').
Proof.
  intros HA HB r r'.
  assert (SameNameDifferentHash r ≡ₚ SameNameDifferentHash r') as P1.
  { destruct (compareFileSets_spec A B) as (E & _).
    destruct (compareFileSets_spec A' B') as (E' & _).
    fold r in E. fold r' in E'. rewrite E, E'.
    rewrite (list_filter_iff _ (isModified A')) by (intros; by apply sameCatalog_isModified).
    destruct HB as (-> & _). done. }
  assert (UniqueToSet1 r ≡ₚ UniqueToSet1 r') as P2.
  { destruct (compareFileSets_spec A B) as (_ & _ & E & _).
    destruct (compareFileSets_spec A' B') as (_ & _ & E' & _).
    fold r in E. fold r' in E'. rewrite E, E'.
    rewrite (list_filter_iff _ (isUnique B')) by (intros; by apply sameCatalog_isUnique).
    destruct HA as (-> & _). done. }
  assert (UniqueToSet2 r ≡ₚ UniqueToSet2 r') as P3.
  { destruct (compareFileSets_spec A B) as (_ & E & _).
    destruct (compareFileSets_spec A' B') as (_ & E' & _).
    fold r in E. fold r' in E'. rewrite E, E'.
    rewrite (list_filter_iff _ (isUnique A')) by (intros; by apply sameCatalog_isUnique).
    destruct HB as (-> & _). done. }
  split; [done|]. split; [done|]. split; [done|]. split.
  - intros f. rewrite P1, P2, P3. done.
  - intros n. unfold r, r'. rewrite !NameMappings_lookup. fold r r'.
    destruct (decide (n ∈ Name <$> SameNameDifferentHash r)) as [Hin|Hin].
    + rewrite decide_True by (by rewrite <- P1).
      destruct HA as (_ & Hn & _). apply Hn.
    + rewrite decide_False by (by rewrite <- P1). constructor.
Qed.

(** Scanning the second scenario's set B in the other order reports the
    same unique file. *)
Lemma compareFileSets_order_insensitive_witness :
  sameCatalog Scenario.setA2 Scenario.setA2 ∧
  sameCatalog Scenario.setB2 Scenario.setB2' ∧
  UniqueToSet2 (compareFileSets Scenario.setA2 Scenario.setB2)
    ≡ₚ UniqueToSet2 (compareFileSets Scenario.setA2 Scenario.setB2').
Proof.
  assert (sameCatalog Scenario.setA2 Scenario.setA2) as HA.
  { apply sameCatalog_of_Permutation; by_computation. }
  assert (sameCatalog Scenario.setB2 Scenario.setB2') as HB.
  { apply sameCatalog_of_Permutation; by_computation. }
  split; [exact HA|]. split; [exact HB|].
  apply (compareFileSets_order_insensitive _ _ _ _ HA HB).
Defined.

(** ** Properties of the scanner *)

Lemma Machine_env_fair : fairArrival Machine.env.
Proof. intros n. simpl. apply reverse_Permutation. Qed.

(** C4 (sequential/parallel refinement).  A scan hashes sequentially
    exactly when fewer than 20 candidate files were enumerated, and in
    parallel otherwise; and on any task list the two back ends return
    catalogs whose record lists are permutations of each other, hence of
    the same length and with the same multiset of fingerprints. *)
Theorem scan_strategy_refinement (env : Env) (dirs : list string) (limit : Z)
    (tasks : list FileTask) :
  fairArrival env →
  (∃ st, collectTasks env dirs limit initialWalkState = (st, None) ∧
     (length (allTasks st) < 20 →
        (walkDirectoriesWithLimit env dirs limit).1
          = (processFilesSequentially env (allTasks st)).1) ∧
     (20 ≤ length (allTasks st) →
        (walkDirectoriesWithLimit env dirs limit).1
          = (processFilesInParallel env (allTasks st)).1)) ∧
  (∃ fs1 out1 fs2 out2,
     processFilesSequentially env tasks = (Ok fs1, out1) ∧
     processFilesInParallel env tasks = (Ok fs2, out2) ∧
     Files fs1 ≡ₚ Files fs2 ∧
     length (Files fs1) = length (Files fs2) ∧
     Hash <$> Files fs1 ≡ₚ Hash <$> Files fs2).
Proof.
  intros Hfair. split.
  - destruct (walkDirectoriesWithLimit_spec env dirs limit)
      as (st & fs & out & E & Ew & Eb & _).
    exists st. split; [done|]. rewrite Ew. simpl.
    unfold minFilesForParallelization in Eb.
    split; intros Hlen.
    + rewrite decide_True in Eb by done. by rewrite Eb.
    + rewrite decide_False in Eb by lia. by rewrite Eb.
  - destruct (processFilesSequentially_spec env tasks) as (fs1 & out1 & E1 & F1 & _).
    destruct (processFilesInParallel_spec env tasks) as (fs2 & out2 & E2 & _ & F2).
    destruct (F2 Hfair) as [F2' _].
    exists fs1, out1, fs2, out2.
    assert (Files fs1 ≡ₚ Files fs2) as HP by (by rewrite F1, F2').
    repeat (split; [done|]). split; by rewrite HP.
Qed.

(** Nineteen files are hashed sequentially and twenty in parallel. *)
Lemma scan_strategy_refinement_witness :
  fairArrival Machine.env ∧
  (∃ st, collectTasks Machine.env ["/few"] (-1) initialWalkState = (st, None) ∧
     length (allTasks st) = 19 ∧
     (walkDirectoriesWithLimit Machine.env ["/few"] (-1)).1
       = (processFilesSequentially Machine.env (allTasks st)).1) ∧
  (∃ st, collectTasks Machine.env ["/big"] (-1) initialWalkState = (st, None) ∧
     length (allTasks st) = 20 ∧
     (walkDirectoriesWithLimit Machine.env ["/big"] (-1)).1
       = (processFilesInParallel Machine.env (allTasks st)).1).
Proof.
  split; [exact Machine_env_fair|].
  destruct (scan_strategy_refinement Machine.env ["/few"] (-1) [] Machine_env_fair)
    as [(st1 & E1 & S1 & _) _].
  destruct (scan_strategy_refinement Machine.env ["/big"] (-1) [] Machine_env_fair)
    as [(st2 & E2 & _ & P2) _].
  assert (length (allTasks st1) = 19) as L1.
  { transitivity (length (allTasks (collectTasks Machine.env ["/few"] (-1) initialWalkState).1)).
    - by rewrite E1.
    - vm_compute. reflexivity. }
  assert (length (allTasks st2) = 20) as L2.
  { transitivity (length (allTasks (collectTasks Machine.env ["/big"] (-1) initialWalkState).1)).
    - by rewrite E2.
    - vm_compute. reflexivity. }
  split.
  - exists st1. split; [done|]. split; [done|]. apply S1. lia.
  - exists st2. split; [done|]. split; [done|]. apply P2. lia.
Defined.

(** C5 (error absorption).  A scan never returns an error.  A root that
    does not exist is skipped with a warning; an entry that cannot be
    examined, or a directory that cannot be listed, gets its warning
    whenever the traversal reaches it (there is no cap, or no more than
    [limit] files come before it); a task whose hashing fails gets a
    warning and no record in the catalog; every task whose hashing
    succeeds has its record in the catalog; and without a cap the tasks
    are all the non-directories that the traversal can reach, the
    entries that cannot be examined or listed being passed over. *)
Theorem walkDirectoriesWithLimit_absorbs_errors (env : Env) (dirs : list string)
    (limit : Z) :
  fairArrival env →
  ∃ st fs out,
    collectTasks env dirs limit initialWalkState = (st, None) ∧
    walkDirectoriesWithLimit env dirs limit = (Ok fs, out) ∧
    (∀ dir, dir ∈ dirs → os_Stat_IsNotExist env dir = true →
            missingRootWarning dir ∈ out) ∧
    (∀ pre path e post,
       flat_map (rootEvents env) dirs = pre ++ evFail path e :: post →
       (limit ≤ 0 ∨ Z.of_nat (length (eventFiles pre)) ≤ limit ≤ int_max)%Z →
       accessWarning path e ∈ out) ∧
    (∀ task e, task ∈ allTasks st → hashFile env (task_Path task) = Err e →
       (∀ f, f ∈ Files fs → AbsolutePath f ≠ task_Path task) ∧
       ∃ line, line ∈ out ∧
         (sequentialWarning env task = Some line ∨ parallelWarning env task = Some line)) ∧
    (∀ task hash, task ∈ allTasks st → hashFile env (task_Path task) = Ok hash →
       taskFileInfo task hash ∈ Files fs) ∧
    ((limit ≤ 0)%Z → taskKey <$> allTasks st = flat_map (rootFiles env) dirs).
Proof.
  intros Hfair.
  destruct (walkDirectoriesWithLimit_spec env dirs limit)
    as (st & fs & out & E & Ew & _ & _ & Hf).
  destruct (Hf Hfair) as [Hfiles Hwarn]. clear Hf.
  destruct (collectTasks_spec env dirs limit initialWalkState)
    as (st' & E' & _ & _ & Hmiss & Hall).
  rewrite E in E'. injection E' as <-.
  exists st, fs, (stdout st ++ out). split; [done|]. split; [done|].
  split; [|split; [|split; [|split]]].
  - intros dir Hd Hm. apply elem_of_app. left. by apply Hmiss.
  - intros pre path e post Hev Hcap. apply elem_of_app. left.
    apply (collectTasks_accessWarning env limit dirs initialWalkState st
             pre path e post Hev); [|exact E].
    destruct Hcap as [Hl|Hle]; [by left|right]. simpl. lia.
  - intros task e Ht He. split.
    + intros f Hin. rewrite Hfiles in Hin.
      apply hashedRecords_elem in Hin as (t' & h & _ & Eh & ->). simpl.
      intros Heq. rewrite Heq in Eh. congruence.
    + destruct (Hwarn task
        ("Warning: Could not hash file " +:+ task_Path task +:+ ": "
           +:+ error_Error e +:+ newline) Ht) as (line & Hl & Hor).
      { unfold sequentialWarning. by rewrite He. }
      exists line. split; [|done]. apply elem_of_app. by right.
  - intros task hash Ht Hh. rewrite Hfiles.
    apply hashedRecords_elem. eauto.
  - intros Hl. rewrite (Hall Hl). done.
Qed.

(** Scanning a missing root and a root with an unreadable entry, an
    unlistable directory and an unhashable file yields the two readable
    files, and four warnings, among them those of the missing root, of
    the entry and of the directory. *)
Lemma walkDirectoriesWithLimit_absorbs_errors_witness :
  fairArrival Machine.env ∧
  (∃ fs out,
     walkDirectoriesWithLimit Machine.env ["/missing"; "/a"] (-1) = (Ok fs, out) ∧
     missingRootWarning "/missing" ∈ out ∧
     accessWarning "/a/denied" Machine.denied ∈ out ∧
     accessWarning "/a/locked" Machine.denied ∈ out) ∧
  match walkDirectoriesWithLimit Machine.env ["/missing"; "/a"] (-1) with
  | (Ok fs, out) => (AbsolutePath <$> Files fs, length out)
  | (Err _, _) => ([], 0)
  end = (["/a/sub/x.txt"; "/a/y.txt"], 4).
Proof.
  split; [exact Machine_env_fair|]. split.
  - destruct (walkDirectoriesWithLimit_absorbs_errors Machine.env ["/missing"; "/a"] (-1)
                Machine_env_fair) as (st & fs & out & _ & E & Hmiss & Hacc & _).
    exists fs, out. split; [exact E|]. split; [|split].
    + apply Hmiss; [left|]. vm_compute. reflexivity.
    + apply (Hacc (take 1 (flat_map (rootEvents Machine.env) ["/missing"; "/a"]))
               "/a/denied" Machine.denied
               (drop 2 (flat_map (rootEvents Machine.env) ["/missing"; "/a"])));
        [vm_compute; reflexivity|left; lia].
    + apply (Hacc (take 2 (flat_map (rootEvents Machine.env) ["/missing"; "/a"]))
               "/a/locked" Machine.denied
               (drop 3 (flat_map (rootEvents Machine.env) ["/missing"; "/a"])));
        [vm_compute; reflexivity|left; lia].
  - vm_compute. reflexivity.
Defined.

(** C6 (file cap).  With a positive limit the enumeration yields at most
    [limit] tasks over all roots together, and the catalog holds at most
    [limit] records; with a zero or negative limit (as [walkDirectories]
    passes) the tasks are all the non-directories that the traversal of
    the roots reaches, and each of them is hashed. *)
Theorem walkDirectoriesWithLimit_file_cap (env : Env) (dirs : list string) (limit : Z) :
  fairArrival env →
  (limit ≤ int_max)%Z →
  walkDirectories env dirs = walkDirectoriesWithLimit env dirs (-1) ∧
  ∃ st fs out,
    collectTasks env dirs limit initialWalkState = (st, None) ∧
    walkDirectoriesWithLimit env dirs limit = (Ok fs, out) ∧
    ((0 < limit)%Z →
       (Z.of_nat (length (allTasks st)) ≤ limit)%Z ∧
       (Z.of_nat (length (Files fs)) ≤ limit)%Z) ∧
    ((limit ≤ 0)%Z →
       taskKey <$> allTasks st = flat_map (rootFiles env) dirs ∧
       Files fs ≡ₚ hashedRecords env (allTasks st)).
Proof.
  intros Hfair Hmax. split; [done|].
  destruct (walkDirectoriesWithLimit_spec env dirs limit)
    as (st & fs & out & E & Ew & _ & _ & Hf).
  destruct (Hf Hfair) as [Hfiles _]. clear Hf.
  destruct (collectTasks_spec env dirs limit initialWalkState)
    as (st' & E' & Hcap & _ & _ & Hall).
  rewrite E in E'. injection E' as <-.
  exists st, fs, (stdout st ++ out). split; [done|]. split; [done|]. split.
  - intros Hpos.
    destruct Hcap as [Hc Hle]; [lia| |].
    { split; simpl; [done|lia]. }
    rewrite Hc in Hle. split; [done|].
    rewrite Hfiles. pose proof (hashedRecords_length env (allTasks st)). lia.
  - intros Hl. split; [|done]. rewrite (Hall Hl). done.
Qed.

(** A cap of 3 over two roots of twenty files each stops after three
    files in all. *)
Lemma walkDirectoriesWithLimit_file_cap_witness :
  fairArrival Machine.env ∧ (3 ≤ int_max)%Z ∧
  (∃ st fs out,
     collectTasks Machine.env ["/big"; "/big"] 3 initialWalkState = (st, None) ∧
     walkDirectoriesWithLimit Machine.env ["/big"; "/big"] 3 = (Ok fs, out) ∧
     (Z.of_nat (length (allTasks st)) ≤ 3)%Z ∧
     (Z.of_nat (length (Files fs)) ≤ 3)%Z) ∧
  match walkDirectoriesWithLimit Machine.env ["/big"; "/big"] 3 with
  | (Ok fs, _) => AbsolutePath <$> Files fs
  | (Err _, _) => []
  end = ["/big/f00"; "/big/f01"; "/big/f02"].
Proof.
  split; [exact Machine_env_fair|].
  assert (3 ≤ int_max)%Z as Hmax by (by vm_compute).
  split; [exact Hmax|]. split.
  - destruct (walkDirectoriesWithLimit_file_cap Machine.env ["/big"; "/big"] 3
                Machine_env_fair Hmax) as (_ & st & fs & out & E1 & E2 & Hcap & _).
    exists st, fs, out. split; [done|]. split; [done|]. apply Hcap. lia.
  - vm_compute. reflexivity.
Defined.

(** C9 (catalog index consistency).  The catalog that either back end, and
    hence a scan, returns has indexes derived from its record list: a
    record is in [NameMap[n]] exactly when it is in [Files] with name [n],
    in [HashMap[h]] exactly when it is in [Files] with hash [h], and each
    index entry lists the records of its key in catalog order, each as
    often as it occurs in [Files]. *)
Theorem scanner_indexes_consistent (env : Env) (tasks : list FileTask)
    (dirs : list string) (limit : Z) :
  let consistent (fs : FileSet) :=
    (∀ n f, f ∈ default [] (NameMap fs !! n) ↔ f ∈ Files fs ∧ Name f = n) ∧
    (∀ h f, f ∈ default [] (HashMap fs !! h) ↔ f ∈ Files fs ∧ Hash f = h) ∧
    (∀ n, NameMap fs !! n = indexOf Name (Files fs) n) ∧
    (∀ h, HashMap fs !! h = indexOf Hash (Files fs) h) in
  (∃ fs out, processFilesSequentially env tasks = (Ok fs, out) ∧ consistent fs) ∧
  (∃ fs out, processFilesInParallel env tasks = (Ok fs, out) ∧ consistent fs) ∧
  (∃ fs out, walkDirectoriesWithLimit env dirs limit = (Ok fs, out) ∧ consistent fs).
Proof.
  intros consistent.
  assert (∀ fs, indexesDerived fs → consistent fs) as Hcons.
  { intros fs Hd. destruct (indexesDerived_elem fs Hd) as [H1 H2].
    split; [done|]. split; [done|]. destruct Hd as [Hn Hh].
    split; intros k; [rewrite Hn|rewrite Hh]; apply indexBy_lookup. }
  split; [|split].
  - destruct (processFilesSequentially_spec env tasks) as (fs & out & E & _ & Hd & _).
    exists fs, out. auto.
  - destruct (processFilesInParallel_spec env tasks) as (fs & out & E & Hd & _).
    exists fs, out. auto.
  - destruct (walkDirectoriesWithLimit_spec env dirs limit)
      as (st & fs & out & _ & E & _ & Hd & _).
    exists fs, (stdout st ++ out). auto.
Qed.

(** ** Properties of pruning *)

(** C8 (pruning idempotence).  On a store that holds trees,
    [removeEmptyDirectories] returns; a second application to the store
    it leaves changes nothing and returns the same verdict; every
    directory left below the node has a file or a child; the verdict on a
    directory is whether it has a file or a child left, and on a
    non-directory it is "keep"; and no node loses a child that is not a
    directory. *)
Theorem removeEmptyDirectories_idempotent (h : heap) (node : addr) :
  treeShaped h → node < length h →
  ∃ h1 keep,
    removeEmptyDirectories (length h) h node = Some (h1, keep) ∧
    removeEmptyDirectories (length h1) h1 node = Some (h1, keep) ∧
    (∀ n1 k c x m,
       h1 !! node = Some n1 → tn_IsDir n1 = true → tn_Children n1 !! k = Some c →
       dirDesc h1 c x → h1 !! x = Some m → tn_IsDir m = true →
       0 < length (tn_Files m) ∨ 0 < size (tn_Children m)) ∧
    (∀ n1, h1 !! node = Some n1 →
       keep = negb (tn_IsDir n1) || hasEntries n1) ∧
    (∀ n, h !! node = Some n → tn_IsDir n = false → keep = true ∧ h1 = h) ∧
    keepsFiles h h1.
Proof.
  intros Hts Hnode.
  destruct (removeEmptyDirectories_spec (length h) h node Hts Hnode)
    as (h1 & keep & E & Sh & _ & Pr & Ekeep & Kf); [lia|].
  exists h1, keep. split; [done|].
  pose proof Sh as [HL HS].
  assert (is_Some (h1 !! node)) as [n1 Hn1]
    by (apply lookup_lt_is_Some; lia).
  split; [|split; [|split; [|split; [|done]]]].
  - rewrite Ekeep.
    apply removeEmptyDirectories_pruned with n1; [|done| |lia].
    + by eapply shrinks_treeShaped.
    + intros k c Hd Hk. by eapply Pr.
  - intros n1' k c x m Hn1' Hd Hk Hx Hm Hdm.
    pose proof (Pr n1' k c Hn1' Hd Hk x m Hx Hm Hdm) as He.
    unfold hasEntries in He. apply orb_true_iff in He.
    destruct He as [He|He]; apply bool_decide_eq_true in He; auto.
  - intros n1' Hn1'. rewrite Ekeep. unfold verdict. by rewrite Hn1'.
  - intros n Hn Hd. revert E. destruct (length h) as [|fuel]; [lia|].
    cbn [removeEmptyDirectories]. rewrite Hn. simpl. rewrite Hd. simpl.
    by intros [= <- <-].
Qed.

(** Pruning the example store removes the empty directory and the chain
    of empty directories, and keeps the directory with a file; pruning
    again changes nothing. *)
Lemma removeEmptyDirectories_idempotent_witness :
  treeShaped PruneExample.store ∧ 0 < length PruneExample.store ∧
  (∃ h1 keep,
     removeEmptyDirectories 5 PruneExample.store 0 = Some (h1, keep) ∧
     removeEmptyDirectories (length h1) h1 0 = Some (h1, keep)) ∧
  match removeEmptyDirectories 5 PruneExample.store 0 with
  | Some (h1, keep) => (map_to_list ∘ tn_Children <$> h1 !! 0, keep)
  | None => (None, false)
  end = (Some [("withfiles", 2)], true).
Proof.
  assert (treeShaped PruneExample.store) as Hts.
  { apply treeShapedCheck_sound, (bool_decide_unpack _). by vm_compute. }
  assert (0 < length PruneExample.store) as Hlen by (simpl; lia).
  split; [exact Hts|]. split; [exact Hlen|]. split.
  - destruct (removeEmptyDirectories_idempotent PruneExample.store 0 Hts Hlen)
      as (h1 & keep & E1 & E2 & _).
    exists h1, keep. split; [exact E1|exact E2].
  - vm_compute. reflexivity.
Defined.

(** ** Properties of the directory trees *)

(** C10 (tree well-formedness).  For records whose relative paths have no
    empty directory part, the tree that [buildTree] builds, and the tree
    that [buildSmartTree] returns, satisfy the tree invariant: a child
    stored under a key has that key as its name, points back to its
    parent and is a directory; the root and only the root has the empty
    name; and joining the names met along the parent links of a node
    gives the directory prefix of the relative path of every record
    attached at or below it.  [buildSmartTree] returns a tree whenever
    no relative path of the source catalog starts with a separator (its
    loop over the ancestors of a directory does not end on such a
    path). *)
Theorem built_trees_wellFormed (files : list FileInfo) (sourceSet otherSet : FileSet) :
  Forall cleanParts files →
  treeInvariant (buildTree files) ∧
  (∀ h, buildSmartTree files sourceSet otherSet = Some h → treeInvariant h) ∧
  (Forall relativeRecord (Files sourceSet) →
   is_Some (buildSmartTree files sourceSet otherSet)).
Proof.
  intros Hclean. pose proof (buildTree_inv files) as Hinv.
  split; [|split].
  - by eapply buildInv_treeInvariant.
  - intros h E. apply (buildInv_treeInvariant files); [done|].
    eapply sameSkeleton_buildInv; [|exact Hinv].
    by eapply buildSmartTree_skeleton.
  - intros Hrel.
    destruct (directoriesOf_total (Files sourceSet) ∅ Hrel) as [d Hd].
    destruct (buildSmartTree_spec files sourceSet otherSet d Hd) as (h & E & _).
    eauto.
Qed.

(** The tree of the three files of [TestBuildTree]. *)
Lemma built_trees_wellFormed_witness :
  Forall cleanParts BuildExample.files ∧
  treeInvariant (buildTree BuildExample.files) ∧
  is_Some (buildSmartTree BuildExample.files BuildExample.source BuildExample.other) ∧
  (λ n, (tn_Name n, tn_Parent n, RelativePath <$> tn_Files n))
    <$> buildTree BuildExample.files
  = [("", None, ["file1.txt"]);
     ("subdir", Some 0, ["subdir/file2.txt"]);
     ("nested", Some 1, ["subdir/nested/file3.txt"])].
Proof.
  assert (Forall cleanParts BuildExample.files) as Hclean
    by by_computation.
  destruct (built_trees_wellFormed BuildExample.files BuildExample.source
              BuildExample.other Hclean) as (H1 & _ & H3).
  split; [exact Hclean|]. split; [exact H1|]. split.
  - apply H3. apply (bool_decide_unpack _). by vm_compute.
  - vm_compute. reflexivity.
Defined.

(** Without the condition on the paths the invariant fails: a doubled
    separator makes a child with the empty name. *)
Lemma buildTree_doubled_separator :
  ¬ treeInvariant (buildTree BuildExample.doubled).
Proof.
  intros (_ & Hroot & _).
  assert (∃ n, buildTree BuildExample.doubled !! 2 = Some n ∧ tn_Name n = "")
    as (n & Hn & Hname).
  { eexists. split; [vm_compute; reflexivity|reflexivity]. }
  apply (Hroot 2 n Hn) in Hname. done.
Qed.

(** ** The collapser on a directory with a fully matched subdirectory *)

(** C1 (collapse soundness) at a failing input.  The source set holds
    [dir/a.txt] and [dir/sub/b.txt], the other set holds the content of
    [dir/sub/b.txt].  The unique list is [dir/a.txt] alone, so the tree
    has no node for [dir/sub], and [buildSmartTree] marks [dir] entire
    although the record [dir/sub/b.txt] of the source set lies beneath
    [dir] and has a fingerprint match in the other set. *)
Theorem buildSmartTree_marks_matched_subdirectory :
  CollapseExample.unique = [CollapseExample.a] ∧
  (λ n, (tn_Name n, tn_IsEntireDir n, map_to_list (tn_Children n)))
    <$> default [] (buildSmartTree CollapseExample.unique CollapseExample.source
                      CollapseExample.other)
  = [("", false, [("dir", 1)]); ("dir", true, [])] ∧
  CollapseExample.b ∈ Files CollapseExample.source ∧
  String.prefix "dir/" (RelativePath CollapseExample.b) = true ∧
  hashIn CollapseExample.other CollapseExample.b.
Proof.
  split; [vm_compute; reflexivity|]. split; [vm_compute; reflexivity|].
  split; [|split].
  - apply (bool_decide_unpack _). by vm_compute.
  - reflexivity.
  - apply (bool_decide_unpack _). by vm_compute.
Qed.

(** X17 (the collapser on the directories it sees).  In the tree that
    [buildSmartTree] returns, below a node marked entire, every
    directory that has a node of its own holds no source record with a
    fingerprint match in the other set.  The directories that
    contributed no file to the unique list have no node, and are the
    ones the marking overlooks. *)
Lemma buildSmartTree_entire_sound (files : list FileInfo) (sourceSet otherSet : FileSet)
    (h : heap) (a b : addr) (n : TreeNode) :
  buildSmartTree files sourceSet otherSet = Some h →
  h !! a = Some n → tn_IsEntireDir n = true → desc h a b →
  ∃ parts, pathPartsLoop (length h) h (Some b) [] = Some parts ∧
    ∀ s, s ∈ Files sourceSet →
         filepath_Dir (RelativePath s) = strings_Join parts separatorString →
         ¬ hashIn otherSet s.
Proof.
  intros E Hn He Hd.
  destruct (directoriesOf (Files sourceSet) ∅) as [d|] eqn:Hdirs.
  - destruct (buildSmartTree_settled files sourceSet otherSet d h Hdirs E) as [Hwf Hall].
    by eapply (settled_sound sourceSet otherSet d h a b).
  - unfold buildSmartTree in E. by rewrite Hdirs in E.
Qed.
(** * Further properties *)

(** ** The differ *)

Lemma filter_nil_iff {A} (P : A → Prop) `{∀ x, Decision (P x)} (l : list A) :
  filter P l = [] ↔ ∀ x, x ∈ l → ¬ P x.
Proof.
  split.
  - intros E x Hx HP. by eapply (filter_nil_not_elem_of P l x).
  - intros Hl. induction l as [|x l IH]; [done|].
    rewrite filter_cons. destruct (decide (P x)) as [HP|_].
    + exfalso. apply (Hl x); [left|done].
    + apply IH. intros y Hy. apply Hl. by right.
Qed.

Lemma ComparisonResult_eq (r r' : ComparisonResult) :
  SameNameDifferentHash r = SameNameDifferentHash r' →
  NameMappings r = NameMappings r' →
  UniqueToSet2 r = UniqueToSet2 r' →
  UniqueToSet1 r = UniqueToSet1 r' → r = r'.
Proof. destruct r, r'. simpl. by intros -> -> -> ->. Qed.

Lemma compareFileSets_spec_empty (set1 set2 : FileSet) :
  (∀ f, f ∈ Files set2 → hashIn set1 f) →
  (∀ f, f ∈ Files set1 → hashIn set2 f ∨ nameIn set2 f) →
  compareFileSets set1 set2 = emptyComparisonResult.
Proof.
  destruct (compareFileSets_spec set1 set2) as (Hm & Hu2 & Hu1 & Hn).
  intros H2 H1.
  assert (filter (isModified set1) (Files set2) = []) as Em.
  { apply filter_nil_iff. intros f Hf [Hh _]. by apply Hh, H2. }
  apply ComparisonResult_eq; simpl.
  - by rewrite Hm.
  - by rewrite Hn, Em.
  - rewrite Hu2. apply filter_nil_iff. intros f Hf [Hh _]. by apply Hh, H2.
  - rewrite Hu1. apply filter_nil_iff. intros f Hf [Hh Hname].
    destruct (H1 f Hf); auto.
Qed.

(** X1 (when the differ reports nothing).  [compareFileSets] returns the
    empty result exactly when every record of set 2 has its hash in the
    hash index of set 1 and every record of set 1 has its hash or its
    name in the indexes of set 2.  A record of set 1 whose content is
    absent from set 2 is thus passed over when set 2 holds a record of
    the same name. *)
Theorem compareFileSets_empty_result (set1 set2 : FileSet) :
  compareFileSets set1 set2 = emptyComparisonResult ↔
  (∀ f, f ∈ Files set2 → hashIn set1 f) ∧
  (∀ f, f ∈ Files set1 → hashIn set2 f ∨ nameIn set2 f).
Proof.
  split.
  - destruct (compareFileSets_spec set1 set2) as (Hm & Hu2 & Hu1 & Hn).
    intros E. rewrite E in Hm, Hu2, Hu1. simpl in Hm, Hu2, Hu1.
    symmetry in Hm, Hu2, Hu1.
    rewrite filter_nil_iff in Hm. rewrite filter_nil_iff in Hu2.
    rewrite filter_nil_iff in Hu1. split.
    + intros f Hf. destruct (decide (hashIn set1 f)) as [|Hh]; [done|].
      destruct (decide (nameIn set1 f)) as [Hname|Hname].
      * by destruct (Hm f Hf).
      * by destruct (Hu2 f Hf).
    + intros f Hf. destruct (decide (hashIn set2 f)) as [|Hh]; [by left|].
      destruct (decide (nameIn set2 f)) as [|Hname]; [by right|].
      by destruct (Hu1 f Hf).
  - intros [H2 H1]. by apply compareFileSets_spec_empty.
Qed.

(** In the shadowing scenario the result is empty although the content
    of [x.txt] of set 1 is nowhere in set 2. *)
Lemma compareFileSets_shadowed_record :
  compareFileSets Shadow.set1 Shadow.set2 = emptyComparisonResult ∧
  Shadow.x1 ∈ Files Shadow.set1 ∧ ¬ hashIn Shadow.set2 Shadow.x1.
Proof.
  split; [vm_compute; reflexivity|]. split; by_computation.
Qed.

(** X2 (the unique lists swap with the arguments).  The records that
    [compareFileSets set1 set2] reports as unique to set 1 are, in the
    same order, those that [compareFileSets set2 set1] reports as unique
    to set 2, and the other way round. *)
Theorem compareFileSets_swap_unique (set1 set2 : FileSet) :
  UniqueToSet1 (compareFileSets set1 set2) = UniqueToSet2 (compareFileSets set2 set1) ∧
  UniqueToSet2 (compareFileSets set1 set2) = UniqueToSet1 (compareFileSets set2 set1).
Proof.
  destruct (compareFileSets_spec set1 set2) as (_ & Hu2 & Hu1 & _).
  destruct (compareFileSets_spec set2 set1) as (_ & Hu2' & Hu1' & _).
  split; congruence.
Qed.

(** X3 (comparison with an empty catalog).  Against an empty set 1 every
    record of set 2 is unique to set 2, in catalog order, and nothing
    else is reported; against an empty set 2 every record of set 1 is
    unique to set 1. *)
Theorem compareFileSets_empty_catalog (s : FileSet) :
  compareFileSets emptyFileSet s = mkComparisonResult [] ∅ (Files s) [] ∧
  compareFileSets s emptyFileSet = mkComparisonResult [] ∅ [] (Files s).
Proof.
  assert (∀ l : list FileInfo, filter (isUnique emptyFileSet) l = l) as Hall.
  { intros l. induction l as [|f l IH]; [done|].
    rewrite filter_cons, decide_True, IH; [done|].
    split; unfold hashIn, nameIn; simpl; rewrite lookup_empty; by intros [? ?]. }
  assert (∀ l : list FileInfo, filter (isModified emptyFileSet) l = []) as Hnone.
  { intros l. apply filter_nil_iff. intros f _ [_ Hname].
    unfold nameIn in Hname. simpl in Hname. rewrite lookup_empty in Hname.
    by destruct Hname. }
  split.
  - destruct (compareFileSets_spec emptyFileSet s) as (Hm & Hu2 & Hu1 & Hn).
    apply ComparisonResult_eq; simpl.
    + by rewrite Hm, Hnone.
    + by rewrite Hn, Hnone.
    + by rewrite Hu2, Hall.
    + by rewrite Hu1.
  - destruct (compareFileSets_spec s emptyFileSet) as (Hm & Hu2 & Hu1 & Hn).
    apply ComparisonResult_eq; simpl.
    + by rewrite Hm.
    + by rewrite Hn.
    + by rewrite Hu2.
    + by rewrite Hu1, Hall.
Qed.

(** X4 (what the name mapping links).  With the indexes of set 1 derived
    from its records, every entry of [NameMappings] belongs to the name
    of a record reported as modified, and its value is the non-empty
    list of exactly the records of set 1 with that name, none of which
    has the hash of a modified record of that name.  So
    [mappedFiles[0]] in [printTree] exists for every modified file. *)
Theorem NameMappings_links (set1 set2 : FileSet) (name : string) (mapped : list FileInfo) :
  indexesDerived set1 →
  NameMappings (compareFileSets set1 set2) !! name = Some mapped →
  mapped ≠ [] ∧
  (∃ f2, f2 ∈ SameNameDifferentHash (compareFileSets set1 set2) ∧ Name f2 = name) ∧
  (∀ f1, f1 ∈ mapped ↔ f1 ∈ Files set1 ∧ Name f1 = name) ∧
  (∀ f1 f2, f1 ∈ mapped → f2 ∈ SameNameDifferentHash (compareFileSets set1 set2) →
            Hash f1 ≠ Hash f2).
Proof.
  intros Hd Hl. rewrite NameMappings_lookup in Hl.
  destruct (decide (name ∈ Name <$> SameNameDifferentHash (compareFileSets set1 set2)))
    as [Hin|]; [|done].
  destruct (indexesDerived_elem set1 Hd) as [Hnames _].
  pose proof Hd as [HN HH].
  assert (mapped ≠ []) as Hne.
  { rewrite HN, indexBy_lookup in Hl. unfold indexOf in Hl.
    destruct (filter (λ f, Name f = name) (Files set1)); [done|].
    by injection Hl as <-. }
  split; [done|]. split; [|split].
  - apply list_elem_of_fmap in Hin as (f2 & -> & Hf2). eauto.
  - intros f1. rewrite <- (Hnames name f1). by rewrite Hl.
  - intros f1 f2 Hf1 Hf2 Heq.
    assert (f1 ∈ Files set1) as Hf1'.
    { apply (Hnames name f1). by rewrite Hl. }
    destruct (compareFileSets_spec set1 set2) as (Hm & _).
    rewrite Hm in Hf2. apply list_elem_of_filter in Hf2 as [[Hh _] _].
    apply Hh. unfold hashIn. rewrite <- Heq.
    by apply (indexesDerived_hashIn set1 f1).
Qed.

(** In the first scenario the modified [a.txt] of set B is linked to the
    original [a.txt] of set A. *)
Lemma NameMappings_links_witness :
  indexesDerived Scenario.setA1 ∧
  NameMappings (compareFileSets Scenario.setA1 Scenario.setB1) !! "a.txt"
    = Some [Scenario.a_orig] ∧
  [Scenario.a_orig] ≠ [] ∧
  (∀ f1, f1 ∈ [Scenario.a_orig] ↔ f1 ∈ Files Scenario.setA1 ∧ Name f1 = "a.txt").
Proof.
  assert (indexesDerived Scenario.setA1) as Hd by by_computation.
  assert (NameMappings (compareFileSets Scenario.setA1 Scenario.setB1) !! "a.txt"
            = Some [Scenario.a_orig]) as Hl by (vm_compute; reflexivity).
  destruct (NameMappings_links Scenario.setA1 Scenario.setB1 "a.txt" [Scenario.a_orig]
              Hd Hl) as (H1 & _ & H3 & _).
  split; [exact Hd|]. split; [exact Hl|]. split; [exact H1|exact H3].
Defined.

(** X5 (the reports keep catalog order and account for every record).
    Each list of the result is a sublist of the catalog it is drawn
    from: order and multiplicity are those of the catalog.  The records
    of set 2 are the skipped, the modified and the unique ones: the
    three counts add up to [len(set2.Files)]. *)
Theorem compareFileSets_sublists (set1 set2 : FileSet) :
  let r := compareFileSets set1 set2 in
  SameNameDifferentHash r `sublist_of` Files set2 ∧
  UniqueToSet2 r `sublist_of` Files set2 ∧
  UniqueToSet1 r `sublist_of` Files set1 ∧
  length (filter (hashIn set1) (Files set2)) + length (SameNameDifferentHash r)
    + length (UniqueToSet2 r) = length (Files set2).
Proof.
  destruct (compareFileSets_spec set1 set2) as (Hm & Hu2 & Hu1 & _).
  cbv zeta. rewrite Hm, Hu2, Hu1.
  split; [apply sublist_filter|]. split; [apply sublist_filter|].
  split; [apply sublist_filter|].
  clear Hm Hu2 Hu1. induction (Files set2) as [|f l IH]; [done|].
  rewrite !filter_cons.
  destruct (decide (hashIn set1 f)) as [Hh|Hh].
  - rewrite (decide_False (P := isModified set1 f)) by (by intros [? _]).
    rewrite (decide_False (P := isUnique set1 f)) by (by intros [? _]).
    simpl. lia.
  - destruct (decide (nameIn set1 f)) as [Hname|Hname].
    + rewrite (decide_True (P := isModified set1 f)) by done.
      rewrite (decide_False (P := isUnique set1 f)) by (by intros [_ ?]).
      simpl. lia.
    + rewrite (decide_False (P := isModified set1 f)) by (by intros [_ ?]).
      rewrite (decide_True (P := isUnique set1 f)) by done.
      simpl. lia.
Qed.
(** ** The scanner *)

Lemma capPost_refl limit st : capInv limit st → capPost limit st (st, None) [].
Proof.
  intros Hc. split; [done|]. split; [by left|]. simpl.
  by rewrite take_nil, app_nil_r.
Qed.

Lemma capInv_room limit st st' (taken : list (string * os_FileInfo)) :
  capInv limit st → capInv limit st' →
  taskKey <$> allTasks st' = (taskKey <$> allTasks st) ++ taken →
  Z.to_nat (limit - taskCount st') = Z.to_nat (limit - taskCount st) - length taken.
Proof.
  intros [E1 L1] [E2 L2] E.
  apply (f_equal length) in E. rewrite length_app, !length_fmap in E. lia.
Qed.

Lemma capPost_trans limit st st1 r files1 files2 :
  capInv limit st →
  capPost limit st (st1, None) files1 →
  capPost limit st1 r files2 →
  capPost limit st r (files1 ++ files2).
Proof.
  intros Hc (A1 & _ & A3) (B1 & B2 & B3). simpl in *.
  split; [done|]. split; [done|].
  rewrite B3, A3, <- app_assoc. f_equal.
  rewrite (capInv_room limit st st1 _ Hc A1 A3).
  rewrite take_app. f_equal. rewrite length_take. f_equal. lia.
Qed.

Lemma capPost_stop limit st st1 files files' :
  capInv limit st →
  capPost limit st (st1, Some SkipAll) files →
  capPost limit st (st1, Some SkipAll) (files ++ files').
Proof.
  intros Hc (A1 & A2 & A3). simpl in *.
  split; [done|]. split; [done|]. simpl. rewrite A3. f_equal.
  destruct A2 as [?|[_ Hfull]]; [done|].
  pose proof (capInv_room limit st st1 _ Hc A1 A3) as Hroom.
  rewrite Hfull, Z.sub_diag, length_take in Hroom. simpl in Hroom.
  rewrite take_app.
  rewrite (proj2 (Nat.sub_0_le _ _)) by lia. by rewrite take_0, app_nil_r.
Qed.

Lemma walkCallback_capPost dir limit path info err st :
  (0 < limit ≤ int_max)%Z → capInv limit st →
  (err = None → is_Some info) →
  capPost limit st (walkCallback dir limit path info err st)
    match err, info with
    | None, Some i => if fi_IsDir i then [] else [(path, i)]
    | _, _ => []
    end.
Proof.
  intros Hl Hc Hinfo. unfold walkCallback.
  destruct err as [e|].
  - split; [done|]. split; [by left|]. simpl. by rewrite take_nil, app_nil_r.
  - destruct info as [i|]; [|by destruct Hinfo].
    destruct (fi_IsDir i); [by apply capPost_refl|].
    destruct Hc as [Hcount Hle].
    destruct (bool_decide (limit > 0)%Z && bool_decide (taskCount st >= limit)%Z) eqn:Hcap.
    + apply andb_prop in Hcap as [H1%bool_decide_eq_true H2%bool_decide_eq_true].
      split; [done|]. split; [right; split; [done|simpl; lia]|]. simpl.
      replace (limit - taskCount st)%Z with 0%Z by lia.
      by rewrite app_nil_r.
    + apply andb_false_iff in Hcap as [Hcap|Hcap];
        apply bool_decide_eq_false in Hcap; [lia|].
      split; [|split; [by left|]]; simpl.
      * unfold capInv. simpl.
        rewrite int_wrap_small by (unfold int_max in *; lia).
        rewrite length_app. simpl. lia.
      * rewrite fmap_app. f_equal.
        destruct (Z.to_nat (limit - taskCount st)) eqn:E; [lia|].
        simpl. by rewrite take_nil.
Qed.

Lemma walkEntries_capPost dir limit path entries :
  (0 < limit ≤ int_max)%Z →
  Forall (λ entry, ∀ child, entry.2 = Ok child →
            ∀ path name st, capInv limit st →
              capPost limit st (walk (walkCallback dir limit) path name child st)
                (regularFiles path name child)) entries →
  ∀ st, capInv limit st →
  capPost limit st
    (walkEntries (walkCallback dir limit) (walk (walkCallback dir limit)) path entries st)
    (flat_map (λ entry : string * result FsNode,
                 match entry.2 with
                 | Ok child => regularFiles (filepath_Join path entry.1) entry.1 child
                 | Err _ => []
                 end) entries).
Proof.
  intros Hl HF. induction HF as [|[name [child|e]] rest Hhd Htl IH]; intros st Hc.
  - by apply capPost_refl.
  - cbn [walkEntries flat_map fst snd]. simpl in Hhd.
    specialize (Hhd child eq_refl (filepath_Join path name) name st Hc).
    destruct (walk _ _ _ child st) as [st' [err'|]].
    + pose proof Hhd as (_ & [?|[Herr _]] & _); [done|].
      simpl in Herr. injection Herr as ->.
      rewrite orb_true_r. by apply capPost_stop.
    + eapply capPost_trans; [done|exact Hhd|]. apply IH, Hhd.
  - cbn [walkEntries flat_map fst snd].
    pose proof (walkCallback_capPost dir limit (filepath_Join path name) None (Some e) st
                  Hl Hc) as Hcb.
    destruct (walkCallback _ _ _ None (Some e) st) as [st' [err'|]].
    + assert (capPost limit st (st', Some err') []) as Hcb' by (by apply Hcb).
      pose proof Hcb' as (_ & [?|[Herr _]] & _); [done|].
      simpl in Herr. injection Herr as ->.
      by apply (capPost_stop limit st st' []).
    + eapply (capPost_trans _ _ _ _ []); [done|by apply Hcb|].
      apply IH. by apply Hcb.
Qed.

Lemma walk_capPost dir limit node :
  (0 < limit ≤ int_max)%Z →
  ∀ path name st, capInv limit st →
    capPost limit st (walk (walkCallback dir limit) path name node st)
      (regularFiles path name node).
Proof.
  intros Hl.
  induction node as [size|readErr entries IH] using FsNode_nested_ind;
    intros path name st Hc.
  - cbn [walk regularFiles].
    apply (walkCallback_capPost dir limit path (Some (FsNode_Info name (FsFile size))) None);
      eauto.
  - cbn [walk regularFiles].
    pose proof (walkCallback_capPost dir limit path
                  (Some (FsNode_Info name (FsDir readErr entries))) readErr st Hl Hc) as Hcb.
    destruct (walkCallback _ _ _ _ readErr st) as [s1 err1].
    assert (capPost limit st (s1, err1) []) as Hcb'.
    { destruct readErr; simpl in Hcb; apply Hcb; eauto. }
    clear Hcb.
    destruct readErr as [e|]; [exact Hcb'|].
    destruct err1 as [e1|].
    + pose proof Hcb' as (_ & [?|[Herr _]] & _); [done|].
      simpl in Herr. injection Herr as ->.
      by apply (capPost_stop limit st s1 []).
    + eapply (capPost_trans _ _ _ _ []); [done|exact Hcb'|].
      apply walkEntries_capPost; [done|done|apply Hcb'].
Qed.

Lemma filepath_Walk_capPost env dir limit st :
  (0 < limit ≤ int_max)%Z → capInv limit st →
  let r := filepath_Walk (walkCallback dir limit) env dir st in
  capInv limit r.1 ∧
  taskKey <$> allTasks r.1 =
    (taskKey <$> allTasks st) ++
      take (Z.to_nat (limit - taskCount st))
        match os_Lstat env dir with
        | Ok (name, node) => regularFiles dir name node
        | Err _ => []
        end.
Proof.
  intros Hl Hc. unfold filepath_Walk.
  destruct (os_Lstat env dir) as [[name node]|e].
  - pose proof (walk_capPost dir limit node Hl dir name st Hc) as H.
    destruct (walk _ dir name node st) as [st' err].
    destruct H as (H1 & H2 & H3). simpl in *.
    by destruct err as [[]|].
  - pose proof (walkCallback_capPost dir limit dir None (Some e) st Hl Hc) as H.
    destruct (walkCallback dir limit dir None (Some e) st) as [st' err].
    destruct H as (H1 & H2 & H3); [done|]. simpl in *.
    by destruct err as [[]|].
Qed.

Lemma collectTasks_capped env dirs limit :
  (0 < limit ≤ int_max)%Z →
  ∀ st st', capInv limit st →
  collectTasks env dirs limit st = (st', None) →
  capInv limit st' ∧
  taskKey <$> allTasks st' =
    (taskKey <$> allTasks st) ++
      take (Z.to_nat (limit - taskCount st)) (flat_map (rootFiles env) dirs).
Proof.
  intros Hl. induction dirs as [|dir dirs IH]; intros st st' Hc E.
  - cbn [collectTasks flat_map] in *. injection E as <-.
    by rewrite take_nil, app_nil_r.
  - cbn [collectTasks flat_map] in *. unfold rootFiles at 1.
    destruct (os_Stat_IsNotExist env dir) eqn:Hstat.
    + by apply IH in E.
    + destruct (filepath_Walk_capPost env dir limit st Hl Hc) as (W1 & W2).
      destruct (filepath_Walk_post env dir limit st) as (Herr & _).
      destruct (filepath_Walk (walkCallback dir limit) env dir st) as [st1 err].
      simpl in *. subst err.
      destruct (IH st1 st' W1 E) as (H1 & H2).
      split; [done|]. rewrite H2, W2, <- app_assoc. f_equal.
      rewrite (capInv_room limit st st1 _ Hc W1 W2).
      rewrite take_app. f_equal. rewrite length_take. f_equal. lia.
Qed.

Lemma hashedRecords_paths env tasks :
  AbsolutePath <$> hashedRecords env tasks = filter (hashable env) (task_Path <$> tasks).
Proof.
  unfold hashedRecords. induction tasks as [|task tasks IH]; [done|].
  rewrite fmap_cons, filter_cons. cbn [omap list_omap]. fold (omap (hashedRecord env) tasks).
  unfold hashedRecord at 1.
  destruct (decide (hashable env (task_Path task))) as [Hh|Hh];
    unfold hashable in Hh; destruct (hashFile env (task_Path task)) as [hash|e];
    try done.
  rewrite fmap_cons. by rewrite IH.
Qed.

Lemma taskKey_paths (tasks : list FileTask) : (taskKey <$> tasks).*1 = task_Path <$> tasks.
Proof. rewrite <- list_fmap_compose. done. Qed.

(** X6 (a small scan keeps traversal order).  When the roots hold fewer
    than twenty files in all, [walkDirectories] returns a catalog whose
    records are, in the order of the traversal, the files that could be
    hashed: the roots in the order given, each in the order of the
    walk. *)
Theorem small_scan_in_traversal_order (env : Env) (dirs : list string) :
  length (flat_map (rootFiles env) dirs) < minFilesForParallelization →
  ∃ fs out,
    walkDirectories env dirs = (Ok fs, out) ∧
    AbsolutePath <$> Files fs
      = filter (hashable env) (flat_map (rootFiles env) dirs).*1.
Proof.
  intros Hsmall. unfold walkDirectories, walkDirectoriesWithLimit.
  destruct (collectTasks_spec env dirs (-1) initialWalkState)
    as (st & E & _ & _ & _ & Htasks).
  rewrite E. specialize (Htasks ltac:(lia)). simpl in Htasks.
  assert (length (allTasks st) = length (flat_map (rootFiles env) dirs)) as Hlen.
  { rewrite <- Htasks. by rewrite length_fmap. }
  rewrite decide_True by lia.
  destruct (processFilesSequentially_spec env (allTasks st)) as (fs & out & Es & Hf & _).
  rewrite Es. exists fs, (stdout st ++ out). split; [done|].
  by rewrite Hf, hashedRecords_paths, <- Htasks, taskKey_paths.
Qed.

(** The scan of [/a] on the example machine: the file that cannot be
    hashed is left out, the other two come in traversal order. *)
Lemma small_scan_in_traversal_order_witness :
  length (flat_map (rootFiles Machine.env) ["/a"]) < minFilesForParallelization ∧
  ∃ fs out,
    walkDirectories Machine.env ["/a"] = (Ok fs, out) ∧
    AbsolutePath <$> Files fs = ["/a/sub/x.txt"; "/a/y.txt"].
Proof.
  assert (length (flat_map (rootFiles Machine.env) ["/a"]) < minFilesForParallelization)
    as Hsmall by by_computation.
  split; [exact Hsmall|].
  destruct (small_scan_in_traversal_order Machine.env ["/a"] Hsmall) as (fs & out & E & Hf).
  exists fs, out. split; [exact E|]. rewrite Hf. vm_compute. reflexivity.
Defined.

Lemma makeJobs_lookup fuel tasks b : ∀ k j,
  0 < b → length tasks - k * b ≤ fuel →
  makeJobs fuel tasks b (k * b) !! j =
    if decide ((k + j) * b < length tasks)
    then Some {| job_Files := take b (drop ((k + j) * b) tasks) |}
    else None.
Proof.
  induction fuel as [|fuel IH]; intros k j Hb Hfuel.
  - simpl. rewrite decide_False by nia. done.
  - cbn [makeJobs]. destruct (decide (k * b < length tasks)) as [Hk|Hk].
    + destruct j as [|j].
      * rewrite Nat.add_0_r.
        rewrite (decide_True (P := k * b < length tasks)) by done.
        simpl. f_equal. f_equal.
        destruct (decide (length tasks < k * b + b)).
        -- rewrite !take_ge; [done|rewrite length_drop; lia..].
        -- f_equal. lia.
      * simpl. replace (k * b + b) with (S k * b) by lia.
        rewrite IH by (simpl; lia).
        replace (S k + j) with (k + S j) by lia. done.
    + rewrite lookup_nil, decide_False by nia. done.
Qed.

(** X7 (how the parallel path cuts batches).  The batch size is at least
    ten, and job number [j] holds the tasks from position [j * batchSize]
    on, [batchSize] of them or what is left of the list; there is such a
    job exactly for the [j] with [j * batchSize < len(tasks)].  So the
    jobs are contiguous, non-overlapping, and cover the task list. *)
Theorem processFilesInParallel_batches (env : Env) (tasks : list FileTask) (j : nat) :
  let batchSize := Z.to_nat (batchSizeFor env tasks) in
  10 ≤ batchSize ∧
  makeJobs (length tasks) tasks batchSize 0 !! j =
    if decide (j * batchSize < length tasks)
    then Some {| job_Files := take batchSize (drop (j * batchSize) tasks) |}
    else None.
Proof.
  cbv zeta. split.
  - unfold batchSizeFor, minBatchSize. case_bool_decide; lia.
  - apply (makeJobs_lookup (length tasks) tasks _ 0 j).
    + apply batchSizeFor_pos.
    + lia.
Qed.

Lemma hashWorker_fold_length env tasks batch :
  let r := fold_left (hashWorkerTask env) tasks batch in
  length (FileInfos r) + length (Errors r)
    = length (FileInfos batch) + length (Errors batch) + length tasks.
Proof.
  revert batch. induction tasks as [|task tasks IH]; intros batch; simpl; [lia|].
  rewrite IH. unfold hashWorkerTask.
  destruct (hashFile env (task_Path task)); simpl; rewrite length_app; simpl; lia.
Qed.

(** X8 (a worker accounts for every task of a job).  The batch result of
    a job holds the records of the tasks that could be hashed, in task
    order, and one error for each task that could not: the two lists
    together are as long as the job.  A failure does not touch the other
    tasks of the batch. *)
Theorem hashWorkerJob_accounts (env : Env) (job : FileJob) :
  FileInfos (hashWorkerJob env job) = hashedRecords env (job_Files job) ∧
  length (FileInfos (hashWorkerJob env job)) + length (Errors (hashWorkerJob env job))
    = length (job_Files job).
Proof.
  split.
  - apply hashWorkerJob_spec.
  - unfold hashWorkerJob. by rewrite hashWorker_fold_length.
Qed.

Lemma omap_lookup_fmap {A B} (f : A → B) (l : list A) (ixs : list nat) :
  omap (λ i, f <$> l !! i) ixs = f <$> omap (λ i, l !! i) ixs.
Proof.
  induction ixs as [|i ixs IH]; [done|].
  cbn [omap list_omap]. fold (omap (λ i, f <$> l !! i) ixs).
  fold (omap (λ i, l !! i) ixs). rewrite IH.
  by destruct (l !! i).
Qed.

(** X9 (the parallel catalog is made of whole batches).  Whatever the
    order in which the batch results arrive, the catalog of
    [processFilesInParallel] lists the records batch by batch in that
    order of arrival, and within each batch in task order. *)
Theorem processFilesInParallel_arrival_order (env : Env) (tasks : list FileTask) :
  let jobs := makeJobs (length tasks) tasks (Z.to_nat (batchSizeFor env tasks)) 0 in
  ∃ fs out,
    processFilesInParallel env tasks = (Ok fs, out) ∧
    Files fs =
      omap (λ i, jobs !! i) (arrival env (length jobs))
        ≫= (λ job, hashedRecords env (job_Files job)).
Proof.
  cbv zeta. unfold processFilesInParallel.
  set (jobs := makeJobs _ _ _ _).
  set (results := omap _ _).
  pose proof (collect_fold results (emptyFileSet, [])) as (HF & _ & _).
  destruct (fold_left collectResult results (emptyFileSet, [])) as [fs out].
  exists fs, out. split; [done|]. simpl in HF. rewrite HF.
  unfold results. rewrite omap_lookup_fmap.
  induction (omap (λ i, jobs !! i) (arrival env (length jobs))) as [|job l IH]; [done|].
  rewrite fmap_cons, !bind_cons, IH. f_equal. apply hashWorkerJob_spec.
Qed.

(** X10 (a capped scan takes the first files of the traversal).  Under a
    positive cap the enumeration collects exactly the first [limit] files
    of the traversal of the roots, all of them when there are fewer, and
    the catalog holds the records of those among them that could be
    hashed. *)
Theorem walkDirectoriesWithLimit_first_files (env : Env) (dirs : list string) (limit : Z) :
  (0 < limit ≤ int_max)%Z →
  ∃ st fs out,
    collectTasks env dirs limit initialWalkState = (st, None) ∧
    walkDirectoriesWithLimit env dirs limit = (Ok fs, out) ∧
    taskKey <$> allTasks st = take (Z.to_nat limit) (flat_map (rootFiles env) dirs) ∧
    (fairArrival env → Files fs ≡ₚ hashedRecords env (allTasks st)).
Proof.
  intros Hl.
  destruct (walkDirectoriesWithLimit_spec env dirs limit)
    as (st & fs & out & E & Ew & _ & _ & Hfair).
  exists st, fs, (stdout st ++ out). split; [done|]. split; [done|]. split.
  - assert (capInv limit initialWalkState) as Hc.
    { unfold capInv. simpl. lia. }
    destruct (collectTasks_capped env dirs limit Hl _ _ Hc E) as (_ & Htasks).
    rewrite Htasks. simpl. by rewrite Z.sub_0_r.
  - intros Hf. by destruct (Hfair Hf).
Qed.

(** A cap of two on the example machine: [/a] yields three files, of
    which the first two are taken, and the walk of [/big] adds none. *)
Lemma walkDirectoriesWithLimit_first_files_witness :
  (0 < 2 ≤ int_max)%Z ∧
  ∃ st fs out,
    collectTasks Machine.env ["/a"; "/big"] 2 initialWalkState = (st, None) ∧
    walkDirectoriesWithLimit Machine.env ["/a"; "/big"] 2 = (Ok fs, out) ∧
    (taskKey <$> allTasks st).*1 = ["/a/broken.txt"; "/a/sub/x.txt"].
Proof.
  assert (0 < 2 ≤ int_max)%Z as Hl by (unfold int_max; lia).
  split; [exact Hl|].
  destruct (walkDirectoriesWithLimit_first_files Machine.env ["/a"; "/big"] 2 Hl)
    as (st & fs & out & E & Ew & Htasks & _).
  exists st, fs, out. split; [exact E|]. split; [exact Ew|].
  rewrite Htasks. vm_compute. reflexivity.
Defined.
(** ** Walking a tree *)

Lemma bind_bind {A B C} (f : A → list B) (g : B → list C) (l : list A) :
  (l ≫= f) ≫= g = l ≫= (λ x, f x ≫= g).
Proof.
  induction l as [|x l IH]; [done|]. by rewrite !bind_cons, bind_app, IH.
Qed.

Lemma bind_ext_in {A B} (f g : A → list B) (l : list A) :
  (∀ x, x ∈ l → f x = g x) → l ≫= f = l ≫= g.
Proof.
  induction l as [|x l IH]; intros H; [done|].
  rewrite !bind_cons, H, IH; [done| |left]. intros y Hy. apply H. by right.
Qed.

Lemma length_bind {A B} (f : A → list B) (l : list A) :
  length (l ≫= f) = sum_list (length ∘ f <$> l).
Proof.
  induction l as [|x l IH]; [done|].
  rewrite bind_cons, length_app, IH. done.
Qed.

Lemma child_childrenOf (h : heap) a n k c :
  h !! a = Some n → child h a k c → c ∈ (childrenOf n).*2.
Proof.
  intros Hn (n' & Hn' & Hk). assert (n' = n) as -> by congruence.
  apply list_elem_of_fmap. exists (k, c). split; [done|].
  by apply elem_of_map_to_list.
Qed.

Lemma childrenOf_NoDup (h : heap) a n :
  treeShaped h → h !! a = Some n → NoDup (childrenOf n).*2.
Proof.
  intros Hts Hn. apply NoDup_fmap_2_strong; [|apply NoDup_map_to_list].
  intros [k c] [k' c'] H1%elem_of_map_to_list H2%elem_of_map_to_list Heq.
  simpl in Heq. subst c'.
  destruct (ts_unique h Hts a k c a k') as [_ ->]; [by exists n..|done].
Qed.

Lemma subtree_elem fuel : ∀ (h : heap) node x,
  treeShaped h → length h - node ≤ fuel → node < length h →
  x ∈ subtree fuel h node ↔ desc h node x.
Proof.
  induction fuel as [|fuel IH]; intros h node x Hts Hfuel Hnode; [lia|].
  cbn [subtree].
  assert (is_Some (h !! node)) as [n Hn] by (by apply lookup_lt_is_Some).
  rewrite Hn. rewrite elem_of_cons, list_elem_of_bind. split.
  - intros [->|(c & Hx & Hc)]; [constructor|].
    destruct (childrenOf_child h node n c Hn Hc) as [k Hk].
    pose proof (ts_order h Hts node k c Hk).
    apply desc_step with k c; [done|]. apply (IH h c x); [done|lia|lia|done].
  - intros Hd. apply desc_first_step in Hd as [->|(k & c & Hk & Hd)]; [by left|].
    right. exists c. pose proof (ts_order h Hts node k c Hk).
    split; [apply (IH h c x); [done|lia|lia|done]|].
    by eapply child_childrenOf.
Qed.

Lemma subtree_NoDup fuel : ∀ (h : heap) node,
  treeShaped h → length h - node ≤ fuel → node < length h →
  NoDup (subtree fuel h node).
Proof.
  induction fuel as [|fuel IH]; intros h node Hts Hfuel Hnode; [lia|].
  cbn [subtree].
  assert (is_Some (h !! node)) as [n Hn] by (by apply lookup_lt_is_Some).
  rewrite Hn.
  assert (∀ c, c ∈ (childrenOf n).*2 →
            ∃ k, child h node k c ∧ node < c < length h) as Hcs.
  { intros c Hc. destruct (childrenOf_child h node n c Hn Hc) as [k Hk].
    exists k. split; [done|]. by apply (ts_order h Hts node k c). }
  apply NoDup_cons. split.
  - intros (c & Hx & Hc)%list_elem_of_bind.
    destruct (Hcs c Hc) as (k & Hk & Hlt).
    apply subtree_elem in Hx; [|done|lia|lia].
    by apply (parent_not_below h node k c).
  - apply NoDup_bind.
    + intros c1 c2 y Hc1 Hc2 Hy1 Hy2.
      destruct (Hcs c1 Hc1) as (k1 & Hk1 & Hlt1).
      destruct (Hcs c2 Hc2) as (k2 & Hk2 & Hlt2).
      apply subtree_elem in Hy1; [|done|lia|lia].
      apply subtree_elem in Hy2; [|done|lia|lia].
      destruct (decide (k1 = k2)) as [->|Hne].
      * destruct Hk1 as (n1 & Hn1 & Hk1). destruct Hk2 as (n2 & Hn2 & Hk2).
        congruence.
      * by destruct (siblings_disjoint h node k1 c1 k2 c2 y).
    + intros c Hc. destruct (Hcs c Hc) as (k & Hk & Hlt). apply IH; [done|lia|lia].
    + by eapply childrenOf_NoDup.
Qed.

(** In a well-formed store every node lies below the root. *)
Lemma subtree_root (h : heap) :
  wellFormed h → subtree (length h) h root ≡ₚ seq 0 (length h).
Proof.
  intros Hwf. pose proof (wellFormed_treeShaped h Hwf) as Hts.
  assert (0 < length h) as Hlen.
  { destruct (wf_root h Hwf) as (r & Hr & _). by apply lookup_lt_Some in Hr. }
  apply NoDup_Permutation.
  - apply subtree_NoDup; [done|unfold root; lia|done].
  - apply NoDup_seq.
  - intros x. rewrite subtree_elem; [|done|unfold root; lia|done].
    rewrite elem_of_seq. split.
    + intros Hd. split; [lia|]. simpl. by apply (desc_lt_length h root x).
    + intros [_ Hx]. destruct (nodePath_exists h x Hwf) as [l Hl]; [simpl in Hx; lia|].
      by eapply nodePath_desc_root.
Qed.

Lemma seq_bind_lookup {A B} (f : A → list B) (l : list A) :
  seq 0 (length l) ≫= (λ a, default [] (f <$> l !! a)) = l ≫= f.
Proof.
  induction l as [|x l IH] using rev_ind; [done|].
  rewrite length_app. simpl. rewrite Nat.add_1_r, seq_S, !bind_app. simpl.
  f_equal.
  - rewrite <- IH. apply bind_ext_in. intros a Ha%elem_of_seq.
    rewrite lookup_app_l by lia. done.
  - rewrite list_lookup_middle by done. done.
Qed.

(** The files of a well-formed store, node by node from the root down. *)
Lemma subtree_files (h : heap) :
  wellFormed h → subtree (length h) h root ≫= filesAt h ≡ₚ h ≫= tn_Files.
Proof.
  intros Hwf. rewrite (subtree_root h Hwf).
  unfold filesAt. by rewrite seq_bind_lookup.
Qed.

Lemma collectChildren_spec (rec : addr → option (list FileInfo))
    (g : addr → list FileInfo) children :
  (∀ c, c ∈ children → rec c = Some (g c)) →
  ∀ files, collectChildren rec children files = Some (files ++ children ≫= g).
Proof.
  induction children as [|c cs IH]; intros Hrec files.
  - simpl. by rewrite app_nil_r.
  - cbn [collectChildren]. rewrite Hrec by left. simpl.
    rewrite IH by (intros c' Hc'; apply Hrec; by right).
    change ((c :: cs) ≫= g) with (g c ++ cs ≫= g). by rewrite app_assoc.
Qed.

Lemma collectAllFilesUnderNode_spec fuel : ∀ (h : heap) node,
  treeShaped h → length h - node ≤ fuel → node < length h →
  collectAllFilesUnderNode fuel h node = Some (subtree fuel h node ≫= filesAt h).
Proof.
  induction fuel as [|fuel IH]; intros h node Hts Hfuel Hnode; [lia|].
  cbn [collectAllFilesUnderNode subtree].
  assert (is_Some (h !! node)) as [n Hn] by (by apply lookup_lt_is_Some).
  rewrite Hn, bind_cons, bind_bind. simpl.
  rewrite (collectChildren_spec _ (λ c, subtree fuel h c ≫= filesAt h)).
  - unfold filesAt at 2. by rewrite Hn.
  - intros c Hc. destruct (childrenOf_child h node n c Hn Hc) as [k Hk].
    pose proof (ts_order h Hts node k c Hk). apply IH; [done|lia|lia].
Qed.

(** *** The files of a built tree *)

Lemma alter_files_bind (h : heap) (i : addr) n file :
  h !! i = Some n →
  alter (λ n, setFiles n (tn_Files n ++ [file])) i h ≫= tn_Files
    ≡ₚ (h ≫= tn_Files) ++ [file].
Proof.
  revert i. induction h as [|m h IH]; intros [|i] Hi; try done.
  - simpl in Hi. injection Hi as ->. cbn [alter list_alter].
    rewrite !bind_cons. simpl. rewrite <- !app_assoc.
    apply Permutation_app_head, Permutation_app_comm.
  - simpl in Hi. cbn [alter list_alter]. rewrite !bind_cons, <- app_assoc.
    apply Permutation_app_head. by apply IH.
Qed.

Lemma insert_files_bind (h : heap) (i : addr) n n' :
  h !! i = Some n → tn_Files n' = tn_Files n →
  <[i := n']> h ≫= tn_Files = h ≫= tn_Files.
Proof.
  revert i. induction h as [|m h IH]; intros [|i] Hi Hf; try done.
  - simpl in Hi. injection Hi as ->. cbn [insert list_insert].
    by rewrite !bind_cons, Hf.
  - simpl in Hi. cbn [insert list_insert]. rewrite !bind_cons. f_equal.
    by apply IH.
Qed.

Lemma insertParts_step file p p' rest (h : heap) (current : addr) :
  insertParts file (p :: p' :: rest) h current =
    match h !! current with
    | None => h
    | Some n =>
        match tn_Children n !! p with
        | Some child => insertParts file (p' :: rest) h child
        | None => insertParts file (p' :: rest) (allocChild h current n p) (length h)
        end
    end.
Proof. reflexivity. Qed.

Lemma insertParts_files file parts : ∀ (h : heap) (current : addr),
  parts ≠ [] → wellFormed h → current < length h →
  insertParts file parts h current ≫= tn_Files ≡ₚ (h ≫= tn_Files) ++ [file].
Proof.
  induction parts as [|p rest IH]; intros h current Hne Hwf Hcur; [done|].
  assert (is_Some (h !! current)) as [n Hn] by (by apply lookup_lt_is_Some).
  destruct rest as [|p' rest].
  - cbn [insertParts]. by apply alter_files_bind with n.
  - rewrite insertParts_step, Hn.
    destruct (tn_Children n !! p) as [c|] eqn:Hp.
    + apply IH; [done|done|].
      assert (child h current p c) as Hc by (by exists n).
      apply (child_lt_length h _ _ _ Hwf) in Hc. lia.
    + rewrite IH.
      * apply Permutation_app_tail. unfold allocChild.
        rewrite bind_app, bind_singleton. simpl. rewrite app_nil_r.
        by rewrite (insert_files_bind h current n).
      * done.
      * by apply alloc_wellFormed.
      * unfold allocChild. rewrite length_app, length_insert. simpl. lia.
Qed.

Lemma fold_insertFile_files files : ∀ done_ (h : heap),
  (∀ f, f ∈ done_ → f ∈ files) → buildInv files None h →
  fold_left insertFile done_ h ≫= tn_Files ≡ₚ (h ≫= tn_Files) ++ done_.
Proof.
  induction done_ as [|f done_ IH]; intros h Hsub Hinv.
  - simpl. by rewrite app_nil_r.
  - cbn [fold_left]. rewrite IH.
    + unfold insertFile. rewrite insertParts_files.
      * by rewrite <- app_assoc.
      * apply strings_Split_nonempty.
      * apply (bi_wf _ _ _ Hinv).
      * destruct (wf_root h (bi_wf _ _ _ Hinv)) as (r & Hr & _).
        by apply lookup_lt_Some in Hr.
    + intros f' Hf'. apply Hsub. by right.
    + apply insertFile_inv; [apply Hsub; left|done].
Qed.

Lemma buildTree_files files : buildTree files ≫= tn_Files ≡ₚ files.
Proof.
  unfold buildTree. rewrite (fold_insertFile_files files); [done|done|].
  apply newRoot_inv.
Qed.

(** *** Counting with Go integers *)

Lemma int_wrap_eq z : ∃ k, int_wrap z = (z + 2 ^ 64 * k)%Z.
Proof.
  unfold int_wrap. exists (- ((z + 2 ^ 63) `div` 2 ^ 64))%Z.
  rewrite Z.mod_eq by lia. lia.
Qed.

Lemma int_wrap_shift z k : int_wrap (z + 2 ^ 64 * k) = int_wrap z.
Proof.
  unfold int_wrap. f_equal.
  replace (z + 2 ^ 64 * k + 2 ^ 63)%Z with (z + 2 ^ 63 + k * 2 ^ 64)%Z by lia.
  apply Z_mod_plus_full.
Qed.

Lemma int_wrap_add_l a b : int_wrap (int_wrap a + b) = int_wrap (a + b).
Proof.
  destruct (int_wrap_eq a) as [k ->].
  replace (a + 2 ^ 64 * k + b)%Z with (a + b + 2 ^ 64 * k)%Z by lia.
  apply int_wrap_shift.
Qed.

Lemma int_wrap_add_r a b : int_wrap (a + int_wrap b) = int_wrap (a + b).
Proof. rewrite Z.add_comm, int_wrap_add_l. f_equal. lia. Qed.

Lemma countChildren_spec (rec : addr → option (Z * Z)) (h : heap) (F D : addr → nat)
    children :
  (∀ c, c ∈ children →
        (∃ m, h !! c = Some m ∧ tn_IsDir m = true) ∧
        rec c = Some (int_wrap (Z.of_nat (F c)), int_wrap (Z.of_nat (D c)))) →
  ∀ f0 d0,
    countChildren rec h children (int_wrap (Z.of_nat f0)) (int_wrap (Z.of_nat d0)) =
      Some (int_wrap (Z.of_nat (f0 + sum_list (F <$> children))),
            int_wrap (Z.of_nat (d0 + sum_list ((λ c, S (D c)) <$> children)))).
Proof.
  induction children as [|c cs IH]; intros Hrec f0 d0.
  - simpl. by rewrite !Nat.add_0_r.
  - cbn [countChildren]. destruct (Hrec c) as ((m & -> & Hdir) & ->); [left|].
    simpl. rewrite Hdir.
    assert (int_wrap (int_wrap (Z.of_nat f0) + int_wrap (Z.of_nat (F c)))
            = int_wrap (Z.of_nat (f0 + F c))) as ->.
    { rewrite int_wrap_add_l, int_wrap_add_r. f_equal. lia. }
    assert (int_wrap (int_wrap (int_wrap (Z.of_nat d0) + 1) + int_wrap (Z.of_nat (D c)))
            = int_wrap (Z.of_nat (d0 + S (D c)))) as ->.
    { rewrite int_wrap_add_l, int_wrap_add_r, <- Z.add_assoc, int_wrap_add_l.
      f_equal. lia. }
    rewrite IH by (intros c' Hc'; apply Hrec; by right).
    f_equal. f_equal; f_equal; f_equal; unfold fmap; lia.
Qed.

Lemma subtree_nonempty fuel (h : heap) node :
  length h - node ≤ fuel → node < length h →
  length (subtree fuel h node) = S (length (subtree fuel h node) - 1).
Proof.
  intros Hfuel Hnode. destruct fuel as [|fuel]; [lia|]. cbn [subtree].
  assert (is_Some (h !! node)) as [n ->] by (by apply lookup_lt_is_Some).
  simpl. lia.
Qed.

Lemma countTreeItems_spec fuel : ∀ (h : heap) node,
  wellFormed h → length h - node ≤ fuel → node < length h →
  countTreeItems fuel h node =
    Some (int_wrap (Z.of_nat (length (subtree fuel h node ≫= filesAt h))),
          int_wrap (Z.of_nat (length (subtree fuel h node) - 1))).
Proof.
  induction fuel as [|fuel IH]; intros h node Hwf Hfuel Hnode; [lia|].
  cbn [countTreeItems].
  assert (is_Some (h !! node)) as [n Hn] by (by apply lookup_lt_is_Some).
  rewrite Hn. cbn [mbind option_bind]. rewrite Z.add_0_l.
  match goal with
  | |- countChildren ?r h ?cs ?f 0%Z = ?rhs =>
      change (countChildren r h cs f (int_wrap (Z.of_nat 0)) = rhs)
  end.
  rewrite (countChildren_spec _ h
             (λ c, length (subtree fuel h c ≫= filesAt h))
             (λ c, length (subtree fuel h c) - 1)).
  - cbn [subtree]. rewrite Hn, bind_cons, bind_bind. f_equal. f_equal.
    + f_equal. f_equal. rewrite length_app. unfold filesAt at 2. rewrite Hn. simpl.
      f_equal. by rewrite length_bind.
    + f_equal. f_equal. simpl. rewrite Nat.sub_0_r, length_bind.
      f_equal. apply list_fmap_ext. intros i c Hc.
      apply list_elem_of_lookup_2 in Hc.
      destruct (childrenOf_child h node n c Hn Hc) as [k Hk].
      pose proof (child_lt_length h _ _ _ Hwf Hk). simpl.
      symmetry. apply subtree_nonempty; lia.
  - intros c Hc. destruct (childrenOf_child h node n c Hn Hc) as [k Hk].
    pose proof (child_lt_length h _ _ _ Hwf Hk).
    assert (is_Some (h !! c)) as [m Hm] by (apply lookup_lt_is_Some; lia).
    split; [exists m; split; [done|]; by apply (wf_dir h Hwf c)|].
    apply IH; [done|lia|lia].
Qed.
(** ** Printing a tree *)

Lemma sum_list_with_bind {A B} (f : B → nat) (g : A → list B) (l : list A) :
  sum_list_with f (l ≫= g) = sum_list_with (λ x, sum_list_with f (g x)) l.
Proof.
  induction l as [|x l IH]; [done|].
  rewrite bind_cons, sum_list_with_app, IH. done.
Qed.

Lemma sum_list_with_ext_in {A} (f g : A → nat) (l : list A) :
  (∀ x, x ∈ l → f x = g x) → sum_list_with f l = sum_list_with g l.
Proof.
  induction l as [|x l IH]; intros H; [done|]. simpl.
  rewrite H by left. rewrite IH; [done|]. intros y Hy. apply H. by right.
Qed.

Lemma sum_list_with_fmap {A B} (f : B → nat) (g : A → B) (l : list A) :
  sum_list_with f (g <$> l) = sum_list_with (f ∘ g) l.
Proof. induction l as [|x l IH]; [done|]. simpl. f_equal. apply IH. Qed.

(** Summing over the children in the order of their sorted names is
    summing over them in any order. *)
Lemma sum_sorted_children (cnt : addr → nat) (m : gmap string addr) :
  sum_list_with (λ name, default 0 (cnt <$> m !! name))
      (sort_Strings (map_to_list m).*1)
    = sum_list_with cnt (map_to_list m).*2.
Proof.
  unfold sort_Strings. rewrite merge_sort_Permutation.
  rewrite !sum_list_with_fmap. apply sum_list_with_ext_in.
  intros [k c] Hin%elem_of_map_to_list. simpl. by rewrite Hin.
Qed.

Section PrintLemmas.
Variable fmt_KB : Z → string.
Variable showDetails : bool.
Variable nameMappings : gmap string (list FileInfo).

Lemma printChildren_spec (rec : addr → string → bool → option (list string))
    (children : gmap string addr) (prefix : string) (count : nat) (cnt : addr → nat) :
  ∀ names i,
  (∀ name, name ∈ names →
     ∃ c, children !! name = Some c ∧
       ∀ isLast, ∃ out, rec c prefix isLast = Some out ∧ length out = cnt c) →
  ∃ outs, printChildren rec children prefix count i names = Some outs ∧
    length outs = sum_list_with (λ name, default 0 (cnt <$> children !! name)) names.
Proof.
  induction names as [|name names IH]; intros i Hnames.
  - by exists [].
  - cbn [printChildren].
    destruct (Hnames name) as (c & Hc & Hrec); [left|].
    rewrite Hc. simpl.
    destruct (Hrec (bool_decide (i = count - 1))) as (out & -> & Hout). simpl.
    destruct (IH (S i)) as (outs & -> & Houts).
    { intros name' Hin. apply Hnames. by right. }
    simpl. eexists. split; [done|]. rewrite length_app, Hout, Houts, Hc. done.
Qed.

(** [printTree] returns on every store that holds trees, and writes one
    line for each named directory it visits and for each file of a
    visited node that is not marked entire. *)
Lemma printTree_lines fuel : ∀ (h : heap) node prefix isLast,
  treeShaped h → length h - node ≤ fuel → node < length h →
  ∃ out, printTree fmt_KB showDetails nameMappings fuel h node prefix isLast = Some out ∧
    length out = sum_list_with (linesAt h) (shown fuel h node).
Proof.
  induction fuel as [|fuel IH]; intros h node prefix isLast Hts Hfuel Hnode; [lia|].
  cbn [printTree shown].
  assert (is_Some (h !! node)) as [n Hn] by (by apply lookup_lt_is_Some).
  rewrite Hn. cbn [mbind option_bind].
  set (own := if decide (tn_Name n ≠ "") then _ else _).
  set (prefix' := if decide (tn_Name n ≠ "") then _ else _).
  assert (length own = if decide (hasDirLine h node) then 1 else 0) as Hown.
  { unfold own. destruct (decide (hasDirLine h node)) as [(n' & Hn' & Hname & Hdir)|Hno].
    - assert (n' = n) as -> by congruence.
      rewrite decide_True by done. by rewrite Hdir.
    - destruct (decide (tn_Name n ≠ "")) as [Hname|]; [|done].
      destruct (tn_IsDir n) eqn:Hdir; [|done].
      exfalso. apply Hno. by exists n. }
  destruct (tn_IsEntireDir n) eqn:Hent.
  - exists own. split; [done|]. simpl. unfold linesAt, printedFiles.
    rewrite Hn, Hent, Hown. simpl. lia.
  - destruct (printChildren_spec (printTree fmt_KB showDetails nameMappings fuel h)
                (tn_Children n) prefix'
                (length (sort_Strings (map_to_list (tn_Children n)).*1))
                (λ c, sum_list_with (linesAt h) (shown fuel h c))
                (sort_Strings (map_to_list (tn_Children n)).*1) 0)
      as (outs & -> & Houts).
    { intros name Hin. unfold sort_Strings in Hin.
      rewrite merge_sort_Permutation in Hin.
      apply list_elem_of_fmap in Hin as ([k c] & -> & Hin).
      apply elem_of_map_to_list in Hin. exists c. split; [done|].
      intros isLast'. apply IH; [done| |].
      - assert (child h node k c) as Hc by (by exists n).
        apply (ts_order h Hts) in Hc. lia.
      - assert (child h node k c) as Hc by (by exists n).
        apply (ts_order h Hts) in Hc. lia. }
    simpl. eexists. split; [done|].
    rewrite !length_app, length_imap, Hown, Houts, sum_sorted_children.
    simpl. rewrite sum_list_with_bind. unfold linesAt at 2, printedFiles.
    rewrite Hn, Hent. unfold childrenOf. lia.
Qed.
End PrintLemmas.

(** Without marks [printTree] visits every node. *)
Lemma shown_subtree fuel : ∀ (h : heap) node,
  (∀ a n, h !! a = Some n → tn_IsEntireDir n = false) →
  shown fuel h node = subtree fuel h node.
Proof.
  induction fuel as [|fuel IH]; intros h node Hno; [done|].
  cbn [shown subtree]. destruct (h !! node) as [n|] eqn:Hn; [|done].
  rewrite (Hno node n Hn). f_equal. apply bind_ext_in. intros c _. by apply IH.
Qed.

Lemma fold_insertFile_unmarked : ∀ done_ (h : heap),
  (∀ a n, h !! a = Some n → tn_IsEntireDir n = false) →
  ∀ a n, fold_left insertFile done_ h !! a = Some n → tn_IsEntireDir n = false.
Proof.
  assert (∀ file parts (h : heap) current,
    (∀ a n, h !! a = Some n → tn_IsEntireDir n = false) →
    ∀ a n, insertParts file parts h current !! a = Some n → tn_IsEntireDir n = false)
    as Hparts.
  { intros file parts. induction parts as [|p rest IH]; intros h current Hno a n Ha.
    - by apply (Hno a).
    - destruct rest as [|p' rest].
      + cbn [insertParts] in Ha. rewrite attach_lookup in Ha.
        destruct (decide (current = a)) as [->|]; [|by apply (Hno a)].
        destruct (h !! a) as [m|] eqn:Hm; [|done]. simpl in Ha.
        injection Ha as <-. simpl. by apply (Hno a).
      + rewrite insertParts_step in Ha.
        destruct (h !! current) as [m|] eqn:Hm; [|by apply (Hno a)].
        destruct (tn_Children m !! p) as [c|].
        * by apply (IH h c Hno a).
        * apply (IH _ _) with (a := a) in Ha; [done|].
          intros a' n' Ha'. unfold allocChild in Ha'.
          apply lookup_app_Some in Ha' as [Ha'|[_ Ha']].
          -- destruct (decide (a' = current)) as [->|Hne].
             ++ rewrite list_lookup_insert_eq in Ha'
                  by (by apply lookup_lt_Some in Hm).
                injection Ha' as <-. simpl. by apply (Hno current).
             ++ rewrite list_lookup_insert_ne in Ha' by done. by apply (Hno a').
          -- apply list_lookup_singleton_Some in Ha' as [_ <-]. done. }
  intros done_. induction done_ as [|f done_ IH]; intros h Hno a n Ha.
  - by apply (Hno a).
  - cbn [fold_left] in Ha. apply (IH (insertFile h f)) with (a := a); [|done].
    intros a' n' Ha'. unfold insertFile in Ha'. by eapply Hparts.
Qed.

Lemma buildTree_unmarked files a n :
  buildTree files !! a = Some n → tn_IsEntireDir n = false.
Proof.
  apply (fold_insertFile_unmarked files [newRoot]).
  intros [|a'] n' Ha'; [|done]. simpl in Ha'. by injection Ha' as <-.
Qed.

Lemma sum_list_with_add {A} (f g : A → nat) (l : list A) :
  sum_list_with (λ x, f x + g x) l = sum_list_with f l + sum_list_with g l.
Proof. induction l as [|x l IH]; [done|]. simpl. rewrite IH. lia. Qed.

Lemma length_bind_with {A B} (f : A → list B) (l : list A) :
  length (l ≫= f) = sum_list_with (λ x, length (f x)) l.
Proof.
  induction l as [|x l IH]; [done|]. rewrite bind_cons, length_app, IH. done.
Qed.

Lemma sum_list_with_one {A} (l : list A) : sum_list_with (λ _, 1) l = length l.
Proof. induction l as [|x l IH]; [done|]. simpl. by rewrite IH. Qed.

(** The lines of a tree built from clean paths: one for each file and
    one for each directory but the root. *)
Lemma buildTree_lines files :
  Forall cleanParts files →
  sum_list_with (linesAt (buildTree files))
      (shown (length (buildTree files)) (buildTree files) root)
    = length files + (length (buildTree files) - 1).
Proof.
  intros Hclean. set (h := buildTree files).
  pose proof (buildTree_inv files) as Hinv. fold h in Hinv.
  pose proof (bi_wf _ _ _ Hinv) as Hwf.
  destruct (buildInv_treeInvariant files h Hclean Hinv) as (_ & Hroot & _).
  assert (∀ a n, h !! a = Some n → tn_IsEntireDir n = false) as Hno
    by (intros a n; apply buildTree_unmarked).
  rewrite (shown_subtree _ h root Hno), (subtree_root h Hwf).
  rewrite (sum_list_with_ext_in _
             (λ x, (if decide (x = root) then 0 else 1) + length (filesAt h x))).
  - rewrite sum_list_with_add, <- length_bind_with.
    unfold filesAt. rewrite seq_bind_lookup.
    assert (length (h ≫= tn_Files) = length files) as ->
      by (unfold h; by rewrite (buildTree_files files)).
    assert (0 < length h) as Hlen.
    { destruct (wf_root _ Hwf) as (r & Hr & _). by apply lookup_lt_Some in Hr. }
    destruct (length h) as [|k]; [lia|]. simpl.
    rewrite (sum_list_with_ext_in _ (λ _, 1)).
    + rewrite sum_list_with_one, length_seq. lia.
    + intros x Hx%elem_of_seq. unfold root. by rewrite decide_False by lia.
  - intros x Hx%elem_of_seq.
    assert (is_Some (h !! x)) as [n Hn] by (apply lookup_lt_is_Some; simpl in Hx; lia).
    unfold linesAt, printedFiles, filesAt. rewrite Hn, (Hno x n Hn). simpl. f_equal.
    destruct (decide (x = root)) as [->|Hx'].
    + rewrite decide_False; [done|].
      intros (n' & Hn' & Hname & _). apply Hname. by apply (Hroot root n').
    + rewrite decide_True; [done|]. exists n. split; [done|].
      split; [|by apply (wf_dir h Hwf x)].
      intros Hname. by apply Hx', (Hroot x n Hn).
Qed.
(** ** The marking that looks at the tree only *)

Lemma allEntireLoop_agree (h h' : heap) cs :
  (∀ c, c ∈ cs → h' !! c = h !! c) → allEntireLoop h' cs = allEntireLoop h cs.
Proof.
  induction cs as [|c cs IH]; intros Hag; [done|].
  cbn [allEntireLoop]. rewrite (Hag c) by left.
  destruct (h !! c) as [m|]; [|done]. simpl.
  destruct (tn_IsDir m && negb (tn_IsEntireDir m)); [done|].
  apply IH. intros c' Hc'. apply Hag. by right.
Qed.

Lemma allEntireLoop_total (h : heap) cs :
  (∀ c, c ∈ cs → c < length h) → is_Some (allEntireLoop h cs).
Proof.
  induction cs as [|c cs IH]; intros Hcs; [by eexists|].
  cbn [allEntireLoop].
  assert (is_Some (h !! c)) as [m ->] by (apply lookup_lt_is_Some, Hcs; left).
  simpl. destruct (tn_IsDir m && negb (tn_IsEntireDir m)); [by eexists|].
  apply IH. intros c' Hc'. apply Hcs. by right.
Qed.

Lemma allEntireLoop_true (h : heap) cs :
  (∀ c, c ∈ cs → ∃ m, h !! c = Some m ∧ tn_IsEntireDir m = true) →
  allEntireLoop h cs = Some true.
Proof.
  induction cs as [|c cs IH]; intros Hcs; [done|].
  cbn [allEntireLoop]. destruct (Hcs c) as (m & -> & Hm); [left|].
  simpl. rewrite Hm, andb_false_r. apply IH. intros c' Hc'. apply Hcs. by right.
Qed.

Lemma treeVerdict_frame (h h' : heap) a :
  sameSkeleton h h' → (∀ k c, child h a k c → h' !! c = h !! c) →
  treeVerdict h' a = treeVerdict h a.
Proof.
  intros Hs Hch. unfold treeVerdict. destruct (h !! a) as [n|] eqn:Hn.
  - destruct (sameSkeleton_lookup h h' a n Hs Hn) as (n' & -> & Hf).
    apply sameSkeleton_fields in Hf as (Hname & _ & Hfiles & Hc & _).
    simpl. rewrite Hname, Hfiles, Hc. destruct (decide _); [done|].
    unfold childrenOf. rewrite Hc.
    rewrite (allEntireLoop_agree h h'); [done|].
    intros c Hin. destruct (childrenOf_child h a n c Hn Hin) as [k Hk].
    by apply (Hch k).
  - by rewrite (linksEq_lookup_None h h' a (sameSkeleton_linksEq h h' Hs) Hn).
Qed.

Lemma treeSettled_frame (h h' : heap) a :
  treeSettled h a → sameSkeleton h h' → h' !! a = h !! a →
  (∀ k c, child h a k c → h' !! c = h !! c) →
  treeSettled h' a.
Proof.
  intros (n & b & Hn & Hv & Hb) Hs Ha Hch. exists n, b.
  split; [congruence|]. split; [|done].
  by rewrite (treeVerdict_frame h h' a Hs Hch).
Qed.

Lemma treeVerdict_total (h : heap) node :
  wellFormed h → node < length h → is_Some (treeVerdict h node).
Proof.
  intros Hwf Hnode. unfold treeVerdict.
  assert (is_Some (h !! node)) as [n Hn] by (by apply lookup_lt_is_Some).
  rewrite Hn. simpl. destruct (decide _); [by eexists|].
  destruct (allEntireLoop_total h (childrenOf n).*2) as [b ->]; [|by eexists].
  intros c Hc. destruct (childrenOf_child h node n c Hn Hc) as [k Hk].
  apply (child_lt_length h _ _ _ Hwf) in Hk. lia.
Qed.

(** After [markEntireDirectories] every node at or below the node
    carries the mark that its verdict gives, and nothing else changed. *)
Lemma markEntireDirectories_settled S O fuel : ∀ (h : heap) node,
  wellFormed h → node < length h → length h - node ≤ fuel →
  ∃ h', markEntireDirectories fuel S O h node = Some h' ∧
    sameSkeleton h h' ∧
    (∀ x, ¬ desc h node x → h' !! x = h !! x) ∧
    (∀ x, desc h node x → treeSettled h' x).
Proof.
  induction fuel as [|fuel IH]; intros h node Hwf Hnode Hfuel; [lia|].
  cbn [markEntireDirectories].
  assert (is_Some (h !! node)) as [n Hn] by (by apply lookup_lt_is_Some).
  rewrite Hn. simpl. rewrite (wf_dir h Hwf node n Hn). simpl.
  destruct (markChildren_settled treeSettled treeSettled_frame
              (markEntireDirectories fuel S O)
              h node n Hwf Hn) with (entries := childrenOf n) (hi := h)
    as (h1 & -> & S1 & F1 & A1 & P1).
  - intros hc c Hwfc HLc Hc. apply IH; [done|lia|lia].
  - apply NoDup_fst_map_to_list.
  - intros k c Hin. by apply elem_of_map_to_list in Hin.
  - done.
  - done.
  - done.
  - done.
  - intros x Hx Hd. left.
    apply desc_first_step in Hd as [->|(k & c & (n' & Hn' & Hk) & Hd)]; [done|].
    assert (n' = n) as -> by congruence.
    exists k, c. split; [by apply elem_of_map_to_list|done].
  - simpl.
    assert (wellFormed h1) as Hwf1.
    { eapply linksEq_wellFormed; [|exact Hwf]. by apply sameSkeleton_linksEq. }
    assert (node < length h1) as Hnode1
      by (by rewrite <- (sameSkeleton_length _ _ S1)).
    destruct (treeVerdict_total h1 node Hwf1 Hnode1) as [b Hb].
    rewrite Hb. simpl.
    assert (is_Some (h1 !! node)) as [n1 Hn1] by (by apply lookup_lt_is_Some).
    pose proof (markNode_skeleton h1 node b) as S2.
    assert (∀ k c, child h1 node k c → markNode h1 node b !! c = h1 !! c) as Hkids.
    { intros k c Hc. apply markNode_lookup_ne.
      apply (child_lt_length h1 _ _ _ Hwf1) in Hc. lia. }
    eexists. split; [done|]. split; [unfold sameSkeleton in *; congruence|].
    split.
    + intros x Hx. rewrite markNode_lookup_ne; [by apply F1|].
      intros ->. apply Hx. constructor.
    + intros x Hd. destruct (decide (x = node)) as [->|Hne].
      * exists (setIsEntireDir n1 b), b. split; [by apply markNode_lookup_eq|].
        split; [|done]. rewrite <- Hb. by apply treeVerdict_frame.
      * eapply treeSettled_frame; [by apply P1|exact S2| |].
        -- by apply markNode_lookup_ne.
        -- intros k c Hc. apply markNode_lookup_ne. intros ->.
           apply (linksEq_child h1 h) in Hc;
             [|by apply linksEq_sym, sameSkeleton_linksEq].
           pose proof (wellFormed_treeShaped h Hwf) as Hts.
           apply (desc_le h _ _ Hts) in Hd. apply (ts_order h Hts) in Hc. lia.
Qed.

(** In a tree built from clean paths every directory has a file or a
    child, so once every node is settled, every node but the root is
    marked. *)
Lemma treeSettled_all_entire files (h : heap) :
  Forall cleanParts files → buildInv files None h →
  (∀ x, x < length h → treeSettled h x) →
  ∀ k x n, length h - x ≤ k → h !! x = Some n →
    tn_IsEntireDir n = bool_decide (x ≠ root).
Proof.
  intros Hclean Hinv Hset.
  pose proof (bi_wf _ _ _ Hinv) as Hwf.
  destruct (buildInv_treeInvariant files h Hclean Hinv) as (_ & Hroot & _).
  induction k as [|k IH]; intros x n Hk Hn.
  { apply lookup_lt_Some in Hn. lia. }
  destruct (Hset x) as (n' & b & Hn' & Hv & Hb); [by apply lookup_lt_Some in Hn|].
  assert (n' = n) as -> by congruence. rewrite Hb. clear Hb.
  unfold treeVerdict in Hv. rewrite Hn in Hv. simpl in Hv.
  destruct (decide (tn_Name n = "")) as [Hname|Hname].
  - injection Hv as <-. apply (Hroot x n Hn) in Hname. subst x.
    by rewrite bool_decide_eq_false_2 by (intros H; by apply H).
  - assert (x ≠ root) as Hx by (intros ->; by apply Hname, (Hroot root n Hn)).
    rewrite bool_decide_eq_true_2 by done.
    rewrite (allEntireLoop_true h) in Hv.
    + simpl in Hv. injection Hv as <-.
      pose proof (bi_nonempty _ _ _ Hinv x n Hn Hx) as He.
      unfold hasEntries in He.
      destruct (bool_decide (0 < size (tn_Children n))); simpl in *; [done|].
      rewrite orb_false_r in He. by rewrite He.
    + intros c Hc. destruct (childrenOf_child h x n c Hn Hc) as [key Hkey].
      pose proof (child_lt_length h _ _ _ Hwf Hkey) as Hlt.
      assert (is_Some (h !! c)) as [m Hm] by (apply lookup_lt_is_Some; lia).
      exists m. split; [done|]. rewrite (IH c m); [|lia|done].
      apply bool_decide_eq_true_2. unfold root. lia.
Qed.

(** ** What pruning leaves *)

Lemma dirDesc_trans h a b c : dirDesc h a b → dirDesc h b c → dirDesc h a c.
Proof.
  induction 1 as [|a n k c' x Hn Hd Hk _ IH]; [done|].
  intros Hbc. eapply dirDesc_step; eauto.
Qed.

(** A pruned directory has a file, or a node that is not a directory,
    at or below it. *)
Lemma prunedAt_holdsFile h : treeShaped h →
  ∀ k c, length h - c ≤ k → c < length h → prunedAt h c → holdsFile h c.
Proof.
  intros Hts. induction k as [|k IH]; intros c Hk Hc Hpr; [lia|].
  assert (is_Some (h !! c)) as [m Hm] by (by apply lookup_lt_is_Some).
  destruct (tn_IsDir m) eqn:Hdir.
  - pose proof (Hpr c m (dirDesc_refl h c) Hm Hdir) as He.
    unfold hasEntries in He. apply orb_true_iff in He as [He|He];
      apply bool_decide_eq_true in He.
    + exists c, m. split; [constructor|]. split; [done|]. left.
      intros Hnil. rewrite Hnil in He. simpl in He. lia.
    + destruct (map_to_list (tn_Children m)) as [|[key c'] rest] eqn:Hl.
      { apply map_to_list_empty_iff in Hl. rewrite Hl, map_size_empty in He. lia. }
      assert (tn_Children m !! key = Some c') as Hkey.
      { apply elem_of_map_to_list. rewrite Hl. left. }
      assert (child h c key c') as Hchild by (by exists m).
      pose proof (ts_order h Hts _ _ _ Hchild).
      apply (holdsFile_desc h c c').
      * eapply desc_step; [exact Hchild|constructor].
      * apply IH; [lia|lia|]. by eapply prunedAt_child.
  - exists c, m. split; [constructor|]. split; [done|]. by right.
Qed.
(** ** The directory trees *)

(** X11 (a built tree holds every file once).  [collectAllFilesUnderNode]
    returns on the root of the tree that [buildTree] builds, and what it
    collects is the list given to [buildTree], up to order: no file is
    dropped and none is attached twice, whatever the paths are. *)
Theorem buildTree_keeps_files (files : list FileInfo) :
  ∃ l, collectAllFilesUnderNode (length (buildTree files)) (buildTree files) root = Some l ∧
       l ≡ₚ files.
Proof.
  pose proof (bi_wf _ _ _ (buildTree_inv files)) as Hwf.
  assert (0 < length (buildTree files)) as Hlen.
  { destruct (wf_root _ Hwf) as (r & Hr & _). by apply lookup_lt_Some in Hr. }
  eexists. split.
  - apply collectAllFilesUnderNode_spec;
      [by apply wellFormed_treeShaped|unfold root; lia|done].
  - by rewrite (subtree_files _ Hwf), buildTree_files.
Qed.

(** X12 (the counts of a built tree).  On the tree that [buildTree]
    builds, [countTreeItems] returns the number of files given to
    [buildTree] and the number of directory nodes the tree has besides
    its root, as Go integers. *)
Theorem countTreeItems_buildTree (files : list FileInfo) :
  countTreeItems (length (buildTree files)) (buildTree files) root =
    Some (int_wrap (Z.of_nat (length files)),
          int_wrap (Z.of_nat (length (buildTree files) - 1))).
Proof.
  pose proof (bi_wf _ _ _ (buildTree_inv files)) as Hwf.
  assert (0 < length (buildTree files)) as Hlen.
  { destruct (wf_root _ Hwf) as (r & Hr & _). by apply lookup_lt_Some in Hr. }
  rewrite countTreeItems_spec; [|done|unfold root; lia|done].
  by rewrite (subtree_files _ Hwf), buildTree_files, (subtree_root _ Hwf), length_seq.
Qed.

(** X14 (the marking that looks at the tree only marks everything).  On
    the tree that [buildTree] builds from clean paths,
    [markEntireDirectories] returns, changes nothing but marks, and marks
    every directory of the tree as entire, the root excepted; the two
    catalogs play no part. *)
Theorem markEntireDirectories_marks_every_directory (files : list FileInfo)
    (sourceSet otherSet : FileSet) :
  Forall cleanParts files →
  ∃ h, markEntireDirectories (length (buildTree files)) sourceSet otherSet
         (buildTree files) root = Some h ∧
    sameSkeleton (buildTree files) h ∧
    ∀ a n, h !! a = Some n → tn_IsEntireDir n = bool_decide (a ≠ root).
Proof.
  intros Hclean. pose proof (buildTree_inv files) as Hinv.
  pose proof (bi_wf _ _ _ Hinv) as Hwf.
  assert (0 < length (buildTree files)) as Hlen.
  { destruct (wf_root _ Hwf) as (r & Hr & _). by apply lookup_lt_Some in Hr. }
  destruct (markEntireDirectories_settled sourceSet otherSet (length (buildTree files))
              (buildTree files) root Hwf Hlen) as (h & E & Hs & _ & Hset);
    [unfold root; lia|].
  exists h. split; [done|]. split; [done|].
  assert (buildInv files None h) as Hinv' by (by eapply sameSkeleton_buildInv).
  intros a n Ha.
  apply (treeSettled_all_entire files h Hclean Hinv') with (k := length h); [|lia|done].
  intros x Hx. apply Hset. rewrite <- (sameSkeleton_length _ _ Hs) in Hx.
  destruct (nodePath_exists _ x Hwf Hx) as [l Hl]. by eapply nodePath_desc_root.
Qed.

(** The three files of [TestBuildTree]: both directories are marked. *)
Lemma markEntireDirectories_marks_every_directory_witness :
  Forall cleanParts BuildExample.files ∧
  (∃ h, markEntireDirectories (length (buildTree BuildExample.files))
          BuildExample.source BuildExample.other (buildTree BuildExample.files) root
          = Some h ∧
     ∀ a n, h !! a = Some n → tn_IsEntireDir n = bool_decide (a ≠ root)) ∧
  (λ n, (tn_Name n, tn_IsEntireDir n))
    <$> default [] (markEntireDirectories (length (buildTree BuildExample.files))
                      BuildExample.source BuildExample.other
                      (buildTree BuildExample.files) root)
  = [("", false); ("subdir", true); ("nested", true)].
Proof.
  assert (Forall cleanParts BuildExample.files) as Hclean by by_computation.
  split; [exact Hclean|]. split.
  - destruct (markEntireDirectories_marks_every_directory BuildExample.files
                BuildExample.source BuildExample.other Hclean) as (h & E & _ & Hall).
    exists h. split; [exact E|exact Hall].
  - vm_compute. reflexivity.
Defined.

(** X15 ([buildSmartTree] changes marks only).  The tree that
    [buildSmartTree] returns is the tree that [buildTree] builds from
    the same files, apart from the [IsEntireDir] marks: its pruning step
    finds no directory to remove. *)
Theorem buildSmartTree_changes_marks_only (files : list FileInfo)
    (sourceSet otherSet : FileSet) (h : heap) :
  buildSmartTree files sourceSet otherSet = Some h →
  length h = length (buildTree files) ∧
  ∀ a n, buildTree files !! a = Some n →
    ∃ n', h !! a = Some n' ∧
      tn_Name n' = tn_Name n ∧ tn_IsDir n' = tn_IsDir n ∧ tn_Files n' = tn_Files n ∧
      tn_Children n' = tn_Children n ∧ tn_Parent n' = tn_Parent n.
Proof.
  intros E. pose proof (buildSmartTree_skeleton files sourceSet otherSet h E) as Hs.
  split; [symmetry; by apply sameSkeleton_length|].
  intros a n Ha. destruct (sameSkeleton_lookup _ _ a n Hs Ha) as (n' & Hn' & Hf).
  exists n'. split; [done|]. by apply sameSkeleton_fields.
Qed.

(** The collapse example: the tree keeps its two nodes and their
    fields. *)
Lemma buildSmartTree_changes_marks_only_witness :
  ∃ h, buildSmartTree CollapseExample.unique CollapseExample.source
         CollapseExample.other = Some h ∧
       length h = length (buildTree CollapseExample.unique).
Proof.
  assert (is_Some (buildSmartTree CollapseExample.unique CollapseExample.source
                     CollapseExample.other)) as [h E] by by_computation.
  exists h. split; [exact E|].
  exact (proj1 (buildSmartTree_changes_marks_only CollapseExample.unique
                  CollapseExample.source CollapseExample.other h E)).
Defined.

(** X16 (what is collapsed stays collapsed below).  In the tree that
    [buildSmartTree] returns the root is never marked entire, and every
    node below a node marked entire is marked entire too: [printTree],
    which does not descend into a marked directory, hides only marked
    directories. *)
Theorem buildSmartTree_entire_closed (files : list FileInfo)
    (sourceSet otherSet : FileSet) (h : heap) :
  buildSmartTree files sourceSet otherSet = Some h →
  (∀ r, h !! root = Some r → tn_IsEntireDir r = false) ∧
  (∀ a b n m, h !! a = Some n → tn_IsEntireDir n = true → desc h a b →
              h !! b = Some m → tn_IsEntireDir m = true).
Proof.
  intros E.
  destruct (directoriesOf (Files sourceSet) ∅) as [d|] eqn:Hdirs;
    [|unfold buildSmartTree in E; by rewrite Hdirs in E].
  destruct (buildSmartTree_settled files sourceSet otherSet d h Hdirs E) as [Hwf Hall].
  split.
  - intros r Hr. destruct (Hall root) as (n & b & Hn & Hv & Hb);
      [by apply lookup_lt_Some in Hr|].
    assert (n = r) as -> by congruence. rewrite Hb.
    unfold entireVerdict in Hv. rewrite Hr in Hv. simpl in Hv.
    destruct (wf_root h Hwf) as (r' & Hr' & Hname & _).
    assert (r' = r) as -> by congruence.
    rewrite decide_True in Hv by done. by injection Hv as <-.
  - intros a b n m Hn He Hd. revert n Hn He m.
    induction Hd as [a|a k c x Hc Hd IH]; intros n Hn He m Hm; [congruence|].
    assert (is_Some (h !! c)) as [mc Hmc].
    { apply lookup_lt_is_Some. apply (child_lt_length h _ _ _ Hwf) in Hc. lia. }
    apply (IH mc Hmc); [|done].
    destruct (settled_entire sourceSet otherSet d h a n Hwf) as [_ Hkids];
      [apply Hall; by apply lookup_lt_Some in Hn|done|done|].
    by apply (Hkids k c mc).
Qed.

(** The collapse example: its root is not marked. *)
Lemma buildSmartTree_entire_closed_witness :
  ∃ h, buildSmartTree CollapseExample.unique CollapseExample.source
         CollapseExample.other = Some h ∧
       ∀ r, h !! root = Some r → tn_IsEntireDir r = false.
Proof.
  assert (is_Some (buildSmartTree CollapseExample.unique CollapseExample.source
                     CollapseExample.other)) as [h E] by by_computation.
  exists h. split; [exact E|].
  exact (proj1 (buildSmartTree_entire_closed CollapseExample.unique
                  CollapseExample.source CollapseExample.other h E)).
Defined.

(** In the collapse example the directory [dir] is marked, and no record
    of the source set that lies directly in [dir] has a match. *)
Lemma buildSmartTree_entire_sound_witness :
  buildSmartTree CollapseExample.unique CollapseExample.source CollapseExample.other
    = Some CollapsedTree.tree ∧
  ∃ parts, pathPartsLoop 2 CollapsedTree.tree (Some 1) [] = Some parts ∧
    ∀ s, s ∈ Files CollapseExample.source →
         filepath_Dir (RelativePath s) = strings_Join parts separatorString →
         ¬ hashIn CollapseExample.other s.
Proof.
  assert (buildSmartTree CollapseExample.unique CollapseExample.source
            CollapseExample.other = Some CollapsedTree.tree) as E
    by (vm_compute; reflexivity).
  split; [exact E|].
  refine (buildSmartTree_entire_sound CollapseExample.unique CollapseExample.source
            CollapseExample.other CollapsedTree.tree 1 1 _ E _ _ _).
  - reflexivity.
  - reflexivity.
  - constructor.
Defined.

(** X21 (how many lines [printTree] writes).  On a store that holds
    trees [printTree] returns, whatever the prefix, the flags and the
    name mapping, and the number of strings it writes is the sum over
    the nodes it visits of one for a named directory and one for each
    file of a node that is not marked entire; it visits the children of
    a node only when the node is not marked entire. *)
Theorem printTree_line_count (fmt_KB : Z → string) (showDetails : bool)
    (nameMappings : gmap string (list FileInfo)) (h : heap) (node : addr)
    (prefix : string) (isLast : bool) :
  treeShaped h → node < length h →
  ∃ out, printTree fmt_KB showDetails nameMappings (length h) h node prefix isLast
           = Some out ∧
    length out = sum_list_with (linesAt h) (shown (length h) h node).
Proof. intros Hts Hnode. apply printTree_lines; [done|lia|done]. Qed.

(** The collapsed tree of the collapse example prints as one line, the
    directory [dir]; its file is not shown. *)
Lemma printTree_line_count_witness :
  treeShaped CollapsedTree.tree ∧ 0 < length CollapsedTree.tree ∧
  ∃ out, printTree (λ _, "") false ∅ 2 CollapsedTree.tree 0 "" true = Some out ∧
    length out = 1.
Proof.
  assert (treeShaped CollapsedTree.tree) as Hts.
  { apply treeShapedCheck_sound. by_computation. }
  assert (0 < length CollapsedTree.tree) as Hlen by (simpl; lia).
  split; [exact Hts|]. split; [exact Hlen|].
  destruct (printTree_line_count (λ _, "") false ∅ CollapsedTree.tree 0 "" true Hts Hlen)
    as (out & E & Hout).
  exists out. split; [exact E|]. rewrite Hout. vm_compute. reflexivity.
Defined.

(** X22 (the printout of a built tree).  For the tree that [buildTree]
    builds from clean paths, as printed for the modified files and in
    preview mode, [printTree] writes one line for each file and one for
    each directory of the tree. *)
Theorem printTree_buildTree (fmt_KB : Z → string) (showDetails : bool)
    (nameMappings : gmap string (list FileInfo)) (files : list FileInfo) :
  Forall cleanParts files →
  ∃ out, printTree fmt_KB showDetails nameMappings (length (buildTree files))
           (buildTree files) root "" true = Some out ∧
    length out = length files + (length (buildTree files) - 1).
Proof.
  intros Hclean. pose proof (bi_wf _ _ _ (buildTree_inv files)) as Hwf.
  assert (0 < length (buildTree files)) as Hlen.
  { destruct (wf_root _ Hwf) as (r & Hr & _). by apply lookup_lt_Some in Hr. }
  destruct (printTree_lines fmt_KB showDetails nameMappings (length (buildTree files))
              (buildTree files) root "" true) as (out & E & Hout);
    [by apply wellFormed_treeShaped|unfold root; lia|done|].
  exists out. split; [done|]. by rewrite Hout, buildTree_lines.
Qed.

(** The three files of [TestBuildTree] print as five lines. *)
Lemma printTree_buildTree_witness :
  Forall cleanParts BuildExample.files ∧
  ∃ out, printTree (λ _, "") false ∅ (length (buildTree BuildExample.files))
           (buildTree BuildExample.files) root "" true = Some out ∧
    length out = 5.
Proof.
  assert (Forall cleanParts BuildExample.files) as Hclean by by_computation.
  split; [exact Hclean|].
  destruct (printTree_buildTree (λ _, "") false ∅ BuildExample.files Hclean)
    as (out & E & Hout).
  exists out. split; [exact E|]. rewrite Hout. vm_compute. reflexivity.
Defined.

(** X20 (pruning removes nothing that has a file).  On a store that
    holds trees [removeEmptyDirectories] returns; it keeps the node
    exactly when the node has something to show (a file, or a node that
    is not a directory, at or below it); every node below it that has
    something to show is still below it afterwards; no node loses a
    file; and every directory it leaves below the node has something to
    show. *)
Theorem removeEmptyDirectories_keeps_files (h : heap) (node : addr) :
  treeShaped h → node < length h →
  ∃ h1 keep,
    removeEmptyDirectories (length h) h node = Some (h1, keep) ∧
    (keep = true ↔ holdsFile h node) ∧
    (∀ x, desc h node x → holdsFile h x → desc h1 node x) ∧
    (∀ x n, h !! x = Some n → ∃ n1, h1 !! x = Some n1 ∧ tn_Files n1 = tn_Files n) ∧
    (∀ x, dirDesc h1 node x → x ≠ node → holdsFile h x).
Proof.
  intros Hts Hnode.
  destruct (removeEmptyDirectories_keeps (length h) h node Hts Hnode)
    as (h1 & keep & E & Sh & _ & Pr & Ekeep & _ & G); [lia|].
  exists h1, keep. split; [done|].
  pose proof (shrinks_treeShaped h h1 Sh Hts) as Hts1.
  pose proof Sh as [HL HS].
  assert (∀ c, c < length h1 → prunedAt h1 c → holdsFile h c) as Hshow.
  { intros c Hc Hpr. apply (holdsFile_shrinks h h1 c Sh).
    by apply (prunedAt_holdsFile h1 Hts1 (length h1)); [lia|..]. }
  split; [|split; [done|split]].
  - split.
    + intros ->. symmetry in Ekeep. unfold verdict in Ekeep.
      assert (is_Some (h !! node)) as [n Hn] by (by apply lookup_lt_is_Some).
      destruct (HS node n Hn) as (n1 & Hn1 & _ & Hd & Hfiles & _).
      rewrite Hn1 in Ekeep. apply orb_true_iff in Ekeep as [Hnd|He].
      * exists node, n. split; [constructor|]. split; [done|]. right.
        apply negb_true_iff in Hnd. congruence.
      * destruct (tn_IsDir n1) eqn:Hdir1.
        -- unfold hasEntries in He. apply orb_true_iff in He as [He|He];
             apply bool_decide_eq_true in He.
           ++ exists node, n. split; [constructor|]. split; [done|]. left.
              rewrite <- Hfiles. intros Hnil. rewrite Hnil in He. simpl in He. lia.
           ++ destruct (map_to_list (tn_Children n1)) as [|[key c] rest] eqn:Hl.
              { apply map_to_list_empty_iff in Hl.
                rewrite Hl, map_size_empty in He. lia. }
              assert (tn_Children n1 !! key = Some c) as Hkey.
              { apply elem_of_map_to_list. rewrite Hl. left. }
              assert (child h1 node key c) as Hc1 by (by exists n1).
              pose proof (ts_order h1 Hts1 _ _ _ Hc1).
              apply (holdsFile_desc h node c).
              ** eapply desc_step; [by eapply shrinks_child|constructor].
              ** apply Hshow; [lia|]. by apply (Pr n1 key c).
        -- exists node, n. split; [constructor|]. split; [done|]. right. congruence.
    + intros Hf. destruct keep; [done|]. exfalso.
      by apply (verdict_false_holdsFile h h1 node Sh G).
  - intros x n Hn. destruct (HS x n Hn) as (n1 & Hn1 & _ & _ & Hfiles & _). eauto.
  - intros x Hd Hx. inversion Hd as [|a n1 key c x' Hn1 Hdir Hkey Hcx]; subst; [done|].
    assert (child h1 node key c) as Hc1 by (by exists n1).
    pose proof (ts_order h1 Hts1 _ _ _ Hc1).
    apply Hshow.
    + apply (desc_lt_length h1 c x Hts1); [lia|by apply dirDesc_desc].
    + intros y m Hy. apply (Pr n1 key c Hn1 Hdir Hkey). by eapply dirDesc_trans.
Qed.

(** Pruning the example store: the directory that holds a file stays,
    with its file. *)
Lemma removeEmptyDirectories_keeps_files_witness :
  treeShaped PruneExample.store ∧ 0 < length PruneExample.store ∧
  holdsFile PruneExample.store 2 ∧
  ∃ h1 keep,
    removeEmptyDirectories (length PruneExample.store) PruneExample.store 0
      = Some (h1, keep) ∧
    desc h1 0 2.
Proof.
  assert (treeShaped PruneExample.store) as Hts.
  { apply treeShapedCheck_sound. by_computation. }
  assert (0 < length PruneExample.store) as Hlen by (simpl; lia).
  assert (desc PruneExample.store 0 2) as Hd.
  { apply desc_step with "withfiles" 2; [|constructor].
    eexists. split; [reflexivity|]. by_computation. }
  assert (holdsFile PruneExample.store 2) as Hf.
  { eexists 2, _. split; [constructor|]. split; [reflexivity|]. by left. }
  split; [exact Hts|]. split; [exact Hlen|]. split; [exact Hf|].
  destruct (removeEmptyDirectories_keeps_files PruneExample.store 0 Hts Hlen)
    as (h1 & keep & E & _ & G & _).
  exists h1, keep. split; [exact E|]. exact (G 2 Hd Hf).
Defined.
(** ** The command line *)

Lemma strconv_Atoi_range s n : strconv_Atoi s = Some n → (- 2 ^ 63 ≤ n ≤ int_max)%Z.
Proof.
  unfold strconv_Atoi.
  destruct (match s with
            | String "-" rest => (true, rest)
            | String "+" rest => (false, rest)
            | _ => (false, s)
            end) as [neg digits].
  destruct digits as [|c digits]; [done|].
  destruct (digitsValue (String c digits) 0) as [un|]; [|done]. simpl.
  destruct (decide _) as [Hr|]; [|done]. by intros [= <-].
Qed.

Lemma parseFlags_previewCount n : ∀ args st,
  length args ≤ n → (1 ≤ previewCount st ≤ int_max)%Z →
  (1 ≤ previewCount (parseFlags args st) ≤ int_max)%Z.
Proof.
  induction n as [|n IH]; intros [|arg rest] st Hlen Hst; try done.
  { simpl in Hlen. lia. }
  simpl in Hlen. cbn [parseFlags].
  repeat (destruct (decide _); [apply IH; [lia|exact Hst]|]).
  destruct (decide _); [|apply IH; [lia|exact Hst]].
  destruct rest as [|next rest']; [exact Hst|].
  assert (∀ count out,
    match strconv_Atoi next with
    | Some count =>
        if decide (count < 1)%Z
        then (10%Z, ["Invalid preview count: " +:+ next
                       +:+ ". Using default of 10." +:+ newline])
        else (count, [])
    | None =>
        (10%Z, ["Invalid preview count: " +:+ next
                  +:+ ". Using default of 10." +:+ newline])
    end = (count, out) → (1 ≤ count ≤ int_max)%Z) as Hcount.
  { intros count out. destruct (strconv_Atoi next) as [c|] eqn:Ha.
    - apply strconv_Atoi_range in Ha. destruct (decide (c < 1)%Z).
      + intros [= <- _]. unfold int_max. lia.
      + intros [= <- _]. lia.
    - intros [= <- _]. unfold int_max. lia. }
  destruct (match strconv_Atoi next with Some _ => _ | None => _ end)
    as [count out] eqn:E.
  apply IH; [simpl in Hlen; lia|]. simpl. by apply (Hcount count out).
Qed.

(** Where the preview count comes from: the loop leaves it as it was,
    or sets it to ten, or to the number read from an argument that
    follows [--preview-count]. *)
Lemma parseFlags_previewCount_origin n : ∀ args st,
  length args ≤ n →
  previewCount (parseFlags args st) = previewCount st ∨
  previewCount (parseFlags args st) = 10%Z ∨
  ∃ pre value post,
    args = pre ++ "--preview-count" :: value :: post ∧
    strconv_Atoi value = Some (previewCount (parseFlags args st)).
Proof.
  induction n as [|n IH]; intros [|arg rest] st Hlen; try (by left).
  { simpl in Hlen. lia. }
  simpl in Hlen.
  assert (∀ st', previewCount st' = previewCount st →
    previewCount (parseFlags rest st') = previewCount st ∨
    previewCount (parseFlags rest st') = 10%Z ∨
    ∃ pre value post,
      arg :: rest = pre ++ "--preview-count" :: value :: post ∧
      strconv_Atoi value = Some (previewCount (parseFlags rest st'))) as Hskip.
  { intros st' Est.
    destruct (IH rest st' ltac:(lia)) as [E|[E|(pre & value & post & -> & E)]].
    - left. congruence.
    - right. by left.
    - right. right. by exists (arg :: pre), value, post. }
  cbn [parseFlags].
  repeat (destruct (decide _); [by apply Hskip|]).
  destruct (decide _) as [->|]; [|by apply Hskip].
  destruct rest as [|next rest']; [by left|].
  destruct (match strconv_Atoi next with Some _ => _ | None => _ end)
    as [count out] eqn:E.
  assert (count = 10%Z ∨ strconv_Atoi next = Some count) as Hcount.
  { destruct (strconv_Atoi next) as [c|]; [|injection E as <- _; by left].
    destruct (decide (c < 1)%Z); injection E as <- _; [by left|by right]. }
  match goal with
  | |- context [parseFlags rest' ?s] =>
      destruct (IH rest' s ltac:(simpl in Hlen; lia))
        as [E'|[E'|(pre & value & post & -> & E')]]
  end.
  - simpl in E'. rewrite E'. right. destruct Hcount as [->|Hc]; [by left|right].
    by exists [], next, rest'.
  - right. by left.
  - right. right. by exists ("--preview-count" :: next :: pre), value, post.
Qed.

(** X23 (preview mode always caps the scan).  Whatever follows the two
    directory arguments on the command line, the preview count that the
    flag loop of [main] leaves is at least one, and it is ten or the
    number that [strconv.Atoi] reads from an argument that comes
    directly after a [--preview-count]; so the scans of [runPreview],
    which pass it as the limit, are capped: each returns at most that
    many records. *)
Theorem preview_scan_capped (env : Env) (args dirs : list string) :
  fairArrival env →
  let count := previewCount (parseFlags args initialFlags) in
  (1 ≤ count ≤ int_max)%Z ∧
  (count = 10%Z ∨
   ∃ pre value post,
     args = pre ++ "--preview-count" :: value :: post ∧
     strconv_Atoi value = Some count) ∧
  ∃ fs out,
    walkDirectoriesWithLimit env dirs count = (Ok fs, out) ∧
    (Z.of_nat (length (Files fs)) ≤ count)%Z.
Proof.
  intros Hfair. cbv zeta.
  pose proof (parseFlags_previewCount_origin (length args) args initialFlags
                ltac:(done)) as Horigin.
  set (count := previewCount (parseFlags args initialFlags)) in *.
  assert (1 ≤ count ≤ int_max)%Z as Hcount.
  { apply (parseFlags_previewCount (length args)); [done|].
    simpl. unfold int_max. lia. }
  split; [done|]. split.
  { destruct Horigin as [E|[E|E]]; [by left|by left|by right]. }
  destruct (walkDirectoriesWithLimit_spec env dirs count)
    as (st & fs & out & E & Ew & _ & _ & Hf).
  exists fs, (stdout st ++ out). split; [done|].
  destruct (Hf Hfair) as [Hperm _]. rewrite Hperm.
  pose proof (hashedRecords_length env (allTasks st)) as Hle.
  assert (capInv count initialWalkState) as Hc by (unfold capInv; simpl; lia).
  destruct (collectTasks_capped env dirs count ltac:(lia) _ _ Hc E) as ([Hn Hcap] & _).
  lia.
Qed.

(** A preview count of zero is replaced by ten, with a message; a scan
    of [/big], which holds twenty files, returns ten records. *)
Lemma preview_scan_capped_witness :
  fairArrival Machine.env ∧
  parseFlags ["--preview-count"; "0"; "--details"] initialFlags
    = {| showDetails := true; showUniqueToSet1 := false; showUniqueToSet2 := false;
         showModified := false; isPreview := true; previewCount := 10;
         flagsOut := ["Invalid preview count: 0. Using default of 10." +:+ newline] |} ∧
  ∃ fs out,
    walkDirectoriesWithLimit Machine.env ["/big"]
      (previewCount (parseFlags ["--preview-count"; "0"; "--details"] initialFlags))
      = (Ok fs, out) ∧
    (Z.of_nat (length (Files fs))
       ≤ previewCount (parseFlags ["--preview-count"; "0"; "--details"] initialFlags))%Z.
Proof.
  split; [exact Machine_env_fair|]. split; [vm_compute; reflexivity|].
  exact (proj2 (proj2 (preview_scan_capped Machine.env
                         ["--preview-count"; "0"; "--details"]
                         ["/big"] Machine_env_fair))).
Defined.

(** X24 (arguments the flag loop does not know).  An argument that is
    none of the six flags is passed over without a message and without
    effect: a command line with no known flag leaves every variable as
    it was. *)
Theorem parseFlags_ignores_unknown (args : list string) (st : Flags) :
  (∀ arg, arg ∈ args → arg ∉ knownFlags) → parseFlags args st = st.
Proof.
  induction args as [|arg rest IH]; intros Hun; [done|].
  assert (arg ∉ knownFlags) as Harg by (apply Hun; left).
  unfold knownFlags in Harg. rewrite !not_elem_of_cons in Harg.
  destruct Harg as (H1 & H2 & H3 & H4 & H5 & H6 & _).
  cbn [parseFlags]. rewrite !decide_False by done.
  apply IH. intros arg' Hin. apply Hun. by right.
Qed.

(** A misspelt flag and a stray word. *)
Lemma parseFlags_ignores_unknown_witness :
  (∀ arg, arg ∈ ["--detail"; "preview"] → arg ∉ knownFlags) ∧
  parseFlags ["--detail"; "preview"] initialFlags = initialFlags.
Proof.
  assert (∀ arg, arg ∈ ["--detail"; "preview"] → arg ∉ knownFlags) as Hun.
  { intros arg Hin. apply (bool_decide_unpack _).
    revert arg Hin. apply Forall_forall. by_computation. }
  split; [exact Hun|].
  exact (parseFlags_ignores_unknown ["--detail"; "preview"] initialFlags Hun).
Defined.
(** ** Directories of joined paths *)

Lemma hasSeparator_app s t : hasSeparator (s +:+ separatorString +:+ t) = true.
Proof.
  induction s as [|c s IH].
  - change ("" +:+ separatorString +:+ t) with (String filepath_Separator t).
    done.
  - rewrite string_app_cons. cbn [hasSeparator]. by rewrite IH, orb_true_r.
Qed.

Lemma upToLastSeparator_app s p :
  hasSeparator p = false →
  upToLastSeparator (s +:+ separatorString +:+ p) = s +:+ separatorString.
Proof.
  intros Hp. induction s as [|c s IH].
  - change ("" +:+ separatorString +:+ p) with (String filepath_Separator p).
    cbn [upToLastSeparator].
    change (hasSeparator (String filepath_Separator p)) with true. cbv iota.
    by rewrite (upToLastSeparator_no_separator p Hp).
  - rewrite !string_app_cons. cbn [upToLastSeparator].
    rewrite <- string_app_cons, hasSeparator_app. by rewrite IH.
Qed.

Lemma strings_Join_snoc l p :
  l ≠ [] →
  strings_Join (l ++ [p]) separatorString
    = strings_Join l separatorString +:+ separatorString +:+ p.
Proof.
  induction l as [|e l IH]; [done|]. intros _. destruct l as [|e' l].
  - done.
  - change ((e :: e' :: l) ++ [p]) with (e :: ((e' :: l) ++ [p])).
    rewrite strings_Join_cons by done. rewrite IH by done.
    rewrite (strings_Join_cons e (e' :: l)) by done.
    by rewrite !string_app_assoc.
Qed.

Lemma strings_Split_Join_app l t :
  l ≠ [] → Forall (λ e, hasSeparator e = false) l →
  strings_Split (strings_Join l separatorString +:+ separatorString +:+ t)
      filepath_Separator
    = l ++ strings_Split t filepath_Separator.
Proof.
  induction l as [|e l IH]; [done|]. intros _ Hl.
  apply Forall_cons in Hl as [He Hl]. destruct l as [|e' l].
  - simpl strings_Join. by rewrite strings_Split_app.
  - rewrite strings_Join_cons by done. rewrite string_app_assoc, string_app_assoc.
    rewrite strings_Split_app by done. rewrite IH by done. done.
Qed.

Lemma cleanElements_normal r l :
  Forall normalElement l → ∀ rest ups out,
  cleanElements r (l ++ rest) ups out = cleanElements r rest ups (reverse l ++ out).
Proof.
  induction 1 as [|e l [[He _] [Hdot Hup]] _ IH]; intros rest ups out; [done|].
  cbn [app cleanElements].
  rewrite decide_False by (intros [?|?]; done). rewrite decide_False by done.
  rewrite IH, reverse_cons, <- app_assoc. done.
Qed.

Lemma rooted_app s t : s ≠ "" → rooted (s +:+ t) = rooted s.
Proof. by destruct s. Qed.

Lemma strings_Join_nonempty e l : e ≠ "" → strings_Join (e :: l) separatorString ≠ "".
Proof. destruct e; [done|]. intros _. by destruct l. Qed.

Lemma filepath_Clean_trailing l :
  l ≠ [] → Forall normalElement l →
  filepath_Clean (strings_Join l separatorString +:+ separatorString)
    = strings_Join l separatorString.
Proof.
  intros Hne Hl.
  assert (Forall (λ e, hasSeparator e = false) l) as Hsep.
  { eapply Forall_impl; [exact Hl|]. by intros e [[_ ?] _]. }
  assert (rooted (strings_Join l separatorString +:+ separatorString) = false) as Hroot.
  { destruct l as [|e l]; [done|]. apply Forall_cons in Hl as [[[He He'] _] _].
    rewrite rooted_app by (by apply strings_Join_nonempty).
    by apply rooted_Join. }
  assert (strings_Split (strings_Join l separatorString +:+ separatorString)
            filepath_Separator = l ++ [""]) as Hsplit.
  { pose proof (strings_Split_Join_app l "" Hne Hsep) as E.
    rewrite string_app_empty_r in E. exact E. }
  unfold filepath_Clean.
  destruct (strings_Join l separatorString +:+ separatorString) as [|c u] eqn:Hp.
  { destruct l as [|e l]; [done|]. apply Forall_cons in Hl as [[[He _] _] _].
    destruct e; [done|]. destruct l; done. }
  simpl in Hroot. rewrite Hroot, Hsplit.
  rewrite (cleanElements_normal false l Hl [""] 0 []). cbn [cleanElements].
  rewrite decide_True by (by left). cbn [cleanElements].
  rewrite app_nil_r, reverse_involutive. simpl.
  destruct l; done.
Qed.

(** The directory of a path made of normal elements is the path without
    its last element. *)
Lemma filepath_Dir_Join l p :
  Forall normalElement (l ++ [p]) →
  filepath_Dir (strings_Join (l ++ [p]) separatorString)
    = match l with [] => "." | _ => strings_Join l separatorString end.
Proof.
  intros Hall. apply Forall_app in Hall as [Hl Hp].
  apply Forall_inv in Hp as [[_ Hp] _]. unfold filepath_Dir.
  destruct l as [|e l].
  - simpl strings_Join. by rewrite (upToLastSeparator_no_separator p Hp).
  - rewrite strings_Join_snoc by done. rewrite upToLastSeparator_app by done.
    by rewrite filepath_Clean_trailing.
Qed.

Lemma strings_Join_not_dot l :
  l ≠ [] → Forall normalElement l →
  strings_Join l separatorString ≠ "." ∧ strings_Join l separatorString ≠ "".
Proof.
  intros Hne Hl. destruct l as [|e l]; [done|].
  pose proof Hl as Hl'. apply Forall_cons in Hl' as [[[He _] [Hdot _]] Hrest].
  split; [|by apply strings_Join_nonempty].
  destruct l as [|e' l]; [done|].
  intros Heq.
  pose proof (weight_Join (e :: e' :: l) ltac:(done)) as Hw.
  rewrite Heq in Hw. simpl in Hw.
  destruct e; [done|]. simpl in Hw. lia.
Qed.

Lemma addAncestors_mono fuel : ∀ dir m m' key,
  addAncestors fuel dir m = Some m' → m !! key = Some true → m' !! key = Some true.
Proof.
  induction fuel as [|fuel IH]; intros dir m m' key E Hkey.
  - cbn [addAncestors] in E. destruct (decide _); [done|]. by injection E as <-.
  - cbn [addAncestors] in E. destruct (decide _); [|by injection E as <-].
    apply (IH _ _ _ key) in E; [done|].
    destruct (decide (dir = key)) as [->|Hne].
    + by rewrite lookup_insert_eq.
    + by rewrite lookup_insert_ne.
Qed.

(** The loop over the ancestors of a directory enters the directory and
    each of its ancestors. *)
Lemma addAncestors_spec l : ∀ fuel m,
  l ≠ [] → Forall normalElement l → length l ≤ fuel →
  ∃ m', addAncestors fuel (strings_Join l separatorString) m = Some m' ∧
    ∀ k, 0 < k ≤ length l → m' !! strings_Join (take k l) separatorString = Some true.
Proof.
  induction l as [|p l IH] using rev_ind; [done|]. intros fuel m _ Hall Hfuel.
  rewrite length_app in Hfuel. simpl in Hfuel.
  destruct fuel as [|fuel]; [lia|]. cbn [addAncestors].
  destruct (strings_Join_not_dot (l ++ [p])) as [Hdot Hempty];
    [by destruct l|done|].
  rewrite decide_True by done. rewrite filepath_Dir_Join by done.
  pose proof Hall as Hall'. apply Forall_app in Hall' as [Hl _].
  destruct l as [|e l].
  - rewrite addAncestors_dot. eexists. split; [done|].
    intros k Hk. simpl in Hk. assert (k = 1) as -> by lia.
    simpl. by rewrite lookup_insert_eq.
  - destruct (IH fuel (<[strings_Join ((e :: l) ++ [p]) separatorString := true]> m))
      as (m' & E & Hm'); [done|done|simpl in *; lia|].
    exists m'. split; [done|]. intros k Hk. rewrite length_app in Hk. simpl in Hk.
    destruct (decide (k ≤ length (e :: l))) as [Hle|Hgt].
    + rewrite take_app_le by done. apply Hm'. simpl in *. lia.
    + rewrite take_ge by (rewrite length_app; simpl in *; lia).
      eapply addAncestors_mono; [exact E|]. by rewrite lookup_insert_eq.
Qed.

Lemma directoriesOf_spec files : ∀ m d,
  directoriesOf files m = Some d →
  (∀ key, m !! key = Some true → d !! key = Some true) ∧
  ∀ f k, f ∈ files → normalRecord f → 0 < k < length (pathParts f) →
    d !! strings_Join (take k (pathParts f)) separatorString = Some true.
Proof.
  induction files as [|f files IH]; intros m d E.
  - cbn [directoriesOf] in E. injection E as <-. split; [done|].
    by intros f k Hin%elem_of_nil.
  - cbn [directoriesOf] in E.
    destruct (addAncestors _ _ m) as [m1|] eqn:E1; [|done]. simpl in E.
    destruct (IH m1 d E) as [Hmono Hfiles]. split.
    + intros key Hkey. apply Hmono. by eapply addAncestors_mono.
    + intros f' k Hin Hnorm Hk. apply elem_of_cons in Hin as [->|Hin];
        [|by apply Hfiles].
      apply Hmono. unfold normalRecord in Hnorm.
      destruct (pathParts f) as [|p l _] eqn:Hparts using rev_ind;
        [simpl in Hk; lia|].
      assert (RelativePath f = strings_Join (l ++ [p]) separatorString) as Hrel.
      { rewrite <- Hparts. unfold pathParts. by rewrite strings_Join_Split. }
      rewrite Hrel, filepath_Dir_Join in E1 by done.
      rewrite length_app in Hk. simpl in Hk.
      rewrite take_app_le by lia.
      destruct l as [|e l]; [simpl in Hk; lia|].
      apply Forall_app in Hnorm as [Hl _].
      destruct (addAncestors_spec (e :: l)
                  (String.length (strings_Join ((e :: l) ++ [p]) separatorString)) m)
        as (m1' & E1' & Hm1); [done|done| |].
      * pose proof (weight_Join ((e :: l) ++ [p]) ltac:(done)) as Hw.
        rewrite weight_app in Hw. simpl in Hw.
        assert (length (e :: l) ≤ weight (e :: l)); [|simpl in *; lia].
        clear. induction (e :: l) as [|x xs IHx]; simpl; lia.
      * assert (m1' = m1) as -> by congruence. apply Hm1. lia.
Qed.

(** ** When a directory is marked entire *)

Lemma normalRecord_cleanParts f : normalRecord f → cleanParts f.
Proof.
  unfold normalRecord, cleanParts. intros Hn.
  destruct (pathParts f) as [|p l _] using rev_ind; [done|].
  rewrite removelast_last. apply Forall_app in Hn as [Hl _].
  eapply Forall_impl; [exact Hl|]. by intros e [[? _] _].
Qed.

Lemma nodePath_nil_root h a : nodePath h a [] → a = root.
Proof.
  inversion 1 as [|a' l k c Hl Hc Heq]; [done|]. by destruct l.
Qed.

Lemma childrenLoop_entire (h : heap) cs : ∀ b1 b2,
  (∀ c, c ∈ cs → ∃ m, h !! c = Some m ∧ tn_IsDir m = true ∧ tn_IsEntireDir m = true) →
  childrenLoop h cs b1 b2 = Some (b1, b2 || bool_decide (cs ≠ [])).
Proof.
  induction cs as [|c cs IH]; intros b1 b2 Hcs.
  - simpl. by rewrite orb_false_r.
  - cbn [childrenLoop]. destruct (Hcs c) as (m & -> & Hd & He); [left|].
    simpl. rewrite Hd, He. simpl. rewrite IH by (intros c' Hc'; apply Hcs; by right).
    simpl. by rewrite orb_true_r.
Qed.

Lemma sameSkeleton_files_bind (h h' : heap) :
  sameSkeleton h h' → h' ≫= tn_Files = h ≫= tn_Files.
Proof.
  unfold sameSkeleton, skeleton. revert h'.
  induction h as [|n h IH]; intros [|n' h'] E; try done.
  rewrite !fmap_cons in E. injection E as _ _ Ef _ _ Eh.
  rewrite !bind_cons. by rewrite (IH h' Eh), Ef.
Qed.

Section Collapse.
Variable files : list FileInfo.
Variables sourceSet otherSet : FileSet.
Variable d : gmap string bool.
Variable h : heap.
Hypothesis Hsub : ∀ f, f ∈ files → f ∈ Files sourceSet.
Hypothesis Hnorm : Forall normalRecord (Files sourceSet).
Hypothesis Hdirs : directoriesOf (Files sourceSet) ∅ = Some d.
Hypothesis Hinv : buildInv files None h.
Hypothesis Hfiles : h ≫= tn_Files ≡ₚ files.
Hypothesis Hset : ∀ x, x < length h → settled sourceSet otherSet d h x.

Lemma collapse_clean : Forall cleanParts files.
Proof.
  apply Forall_forall. intros f Hf. apply normalRecord_cleanParts.
  rewrite Forall_forall in Hnorm. by apply Hnorm, Hsub.
Qed.

(** A node all of whose directories, itself included, hold only
    unmatched source records is marked entire. *)
Lemma settled_complete : ∀ k a n,
  length h - a ≤ k → h !! a = Some n → a ≠ root →
  (∀ b parts, desc h a b →
     pathPartsLoop (length h) h (Some b) [] = Some parts →
     ∀ s, s ∈ Files sourceSet →
       filepath_Dir (RelativePath s) = strings_Join parts separatorString →
       ¬ hashIn otherSet s) →
  tn_IsEntireDir n = true.
Proof.
  pose proof collapse_clean as Hclean.
  pose proof (bi_wf _ _ _ Hinv) as Hwf.
  destruct (buildInv_treeInvariant files h Hclean Hinv) as (_ & Hroot & Hpaths).
  induction k as [|k IH]; intros a n Hk Hn Ha Hun.
  { apply lookup_lt_Some in Hn. lia. }
  pose proof (lookup_lt_Some _ _ _ Hn) as Halt.
  destruct (Hset a Halt) as (n' & b0 & Hn' & Hv & Hb).
  assert (n' = n) as -> by congruence. rewrite Hb.
  assert (entireVerdict sourceSet otherSet d h a = Some true); [|congruence].
  clear Hv Hb Hn'. unfold entireVerdict. rewrite Hn. simpl.
  rewrite decide_False by (intros Hname; by apply Ha, (Hroot a n Hn)).
  destruct (nodePath_exists h a Hwf Halt) as [l Hl].
  assert (l ≠ []) as Hlne by (intros ->; by apply Ha, (nodePath_nil_root h a)).
  pose proof (nodePath_names files h a l Hclean Hinv Hl) as Hnames.
  pose proof (nodePath_length h a l Hwf Hl) as Hllen.
  assert (pathPartsLoop (length h) h (Some a) [] = Some l) as Hloop.
  { rewrite (pathPartsLoop_nodePath h a l Hwf Hl Hnames) by lia.
    by rewrite app_nil_r. }
  rewrite Hloop. simpl.
  (* the directory is one of the source set *)
  assert (d !! strings_Join l separatorString = Some true) as Hd.
  { destruct (bi_names _ _ _ Hinv a l Hl Hlne) as (f & rest & Hf & Hrest & Hparts).
    destruct (directoriesOf_spec _ _ _ Hdirs) as [_ Hanc].
    rewrite Forall_forall in Hnorm.
    pose proof (Hanc f (length l) (Hsub f Hf) (Hnorm f (Hsub f Hf))) as Hk'.
    rewrite Hparts, take_app_length, length_app in Hk'. apply Hk'.
    destruct l; [done|]. destruct rest; [done|]. simpl. lia. }
  rewrite Hd. simpl.
  (* the direct files *)
  rewrite countDirect_spec.
  set (L := filter (λ s, filepath_Dir (RelativePath s)
                         = strings_Join l separatorString) (Files sourceSet)).
  assert (filter (λ s, ¬ hashIn otherSet s) L = L) as HL.
  { assert (∀ L' : list FileInfo, (∀ s, s ∈ L' → ¬ hashIn otherSet s) →
              filter (λ s, ¬ hashIn otherSet s) L' = L') as Hall.
    { induction L' as [|s L' IHL]; intros HL'; [done|].
      rewrite filter_cons, decide_True by (apply HL'; left).
      f_equal. apply IHL. intros s' Hs'. apply HL'. by right. }
    apply Hall. intros s [Hs Hin]%list_elem_of_filter.
    by apply (Hun a l (desc_refl h a) Hloop s). }
  rewrite HL.
  (* the children *)
  rewrite (childrenLoop_entire h (childrenOf n).*2 true false).
  2:{ intros c Hc. destruct (childrenOf_child h a n c Hn Hc) as [key Hkey].
      pose proof (child_lt_length h _ _ _ Hwf Hkey) as Hlt.
      assert (is_Some (h !! c)) as [m Hm] by (apply lookup_lt_is_Some; lia).
      exists m. split; [done|]. split; [by apply (wf_dir h Hwf c)|].
      apply (IH c m); [lia|done|unfold root; lia|].
      intros b parts Hb. apply Hun. by eapply desc_step. }
  simpl.
  (* the content *)
  pose proof (bi_nonempty _ _ _ Hinv a n Hn Ha) as He.
  destruct (bool_decide ((childrenOf n).*2 ≠ [])) eqn:Hkids; simpl.
  - rewrite orb_true_r. simpl. rewrite andb_true_r.
    destruct (length L); simpl; [done|].
    by rewrite bool_decide_eq_true_2.
  - apply bool_decide_eq_false in Hkids.
    assert (size (tn_Children n) = 0) as Hsize.
    { destruct (decide ((childrenOf n).*2 = [])) as [Hnil|]; [|done].
      unfold childrenOf in Hnil. apply fmap_nil_inv in Hnil.
      apply map_to_list_empty_iff in Hnil. rewrite Hnil. apply map_size_empty. }
    unfold hasEntries in He. rewrite Hsize in He. simpl in He.
    rewrite orb_false_r in He. apply bool_decide_eq_true in He; [|done].
    destruct (tn_Files n) as [|f fs] eqn:Hfs; [simpl in He; lia|].
    assert (f ∈ L) as HfL.
    { apply list_elem_of_filter.
      assert (f ∈ files) as Hf.
      { rewrite <- Hfiles. apply list_elem_of_bind. exists n.
        split; [rewrite Hfs; left|]. by eapply list_elem_of_lookup_2. }
      split; [|by apply Hsub].
      destruct (Hpaths a n Hn) as (l' & Hl' & Hbelow).
      assert (l' = l) as -> by congruence.
      destruct (Hbelow a n f (desc_refl h a) Hn) as (rest & Hrest & Hone & Hparts & Hrel);
        [rewrite Hfs; left|].
      specialize (Hone eq_refl). destruct rest as [|p [|]]; try done.
      rewrite Hrel. rewrite Forall_forall in Hnorm.
      pose proof (Hnorm f (Hsub f Hf)) as Hnf. unfold normalRecord in Hnf.
      rewrite Hparts in Hnf. rewrite filepath_Dir_Join by done.
      by destruct l. }
    destruct L as [|s L']; [by apply elem_of_nil in HfL|]. simpl.
    by rewrite bool_decide_eq_true_2.
Qed.
End Collapse.
(** ** The collapser *)

(** X18 (which directories are marked entire).  Let the tree be built
    from records of the source catalog, and let the relative paths of
    the source catalog be made of normal elements.  Then a directory of
    the tree is marked entire exactly when, for every directory that
    has a tree node at or below it, no record of the source catalog
    lying directly in that directory has its hash in the hash index of
    the other catalog.  The directories without a tree node are not
    looked at. *)
Theorem buildSmartTree_entire_iff (files : list FileInfo) (sourceSet otherSet : FileSet)
    (h : heap) (a : addr) (n : TreeNode) :
  (∀ f, f ∈ files → f ∈ Files sourceSet) →
  Forall normalRecord (Files sourceSet) →
  buildSmartTree files sourceSet otherSet = Some h →
  h !! a = Some n → a ≠ root →
  tn_IsEntireDir n = true ↔
  ∀ b parts, desc h a b →
    pathPartsLoop (length h) h (Some b) [] = Some parts →
    ∀ s, s ∈ Files sourceSet →
      filepath_Dir (RelativePath s) = strings_Join parts separatorString →
      ¬ hashIn otherSet s.
Proof.
  intros Hsub Hnorm E Hn Ha.
  destruct (directoriesOf (Files sourceSet) ∅) as [d|] eqn:Hdirs;
    [|unfold buildSmartTree in E; by rewrite Hdirs in E].
  destruct (buildSmartTree_settled files sourceSet otherSet d h Hdirs E) as [Hwf Hall].
  pose proof (buildSmartTree_skeleton files sourceSet otherSet h E) as Hs.
  split.
  - intros He b parts Hb Hparts.
    destruct (settled_sound sourceSet otherSet d h a b Hwf Hall Hb n Hn He)
      as (parts' & Hparts' & Hun).
    assert (parts' = parts) as -> by congruence. exact Hun.
  - intros Hun.
    apply (settled_complete files sourceSet otherSet d h Hsub Hnorm Hdirs)
      with (k := length h) (a := a); [| |done|lia|done|done|done].
    + eapply sameSkeleton_buildInv; [exact Hs|apply buildTree_inv].
    + by rewrite (sameSkeleton_files_bind _ _ Hs), buildTree_files.
Qed.

(** The collapse example: [dir] is marked because the one directory
    with a node at or below it, [dir] itself, holds the unmatched
    [dir/a.txt] only. *)
Lemma buildSmartTree_entire_iff_witness :
  (∀ f, f ∈ CollapseExample.unique → f ∈ Files CollapseExample.source) ∧
  Forall normalRecord (Files CollapseExample.source) ∧
  buildSmartTree CollapseExample.unique CollapseExample.source CollapseExample.other
    = Some CollapsedTree.tree ∧
  (tn_IsEntireDir CollapsedTree.dirNode = true ↔
   ∀ b parts, desc CollapsedTree.tree 1 b →
     pathPartsLoop 2 CollapsedTree.tree (Some b) [] = Some parts →
     ∀ s, s ∈ Files CollapseExample.source →
       filepath_Dir (RelativePath s) = strings_Join parts separatorString →
       ¬ hashIn CollapseExample.other s).
Proof.
  assert (∀ f, f ∈ CollapseExample.unique → f ∈ Files CollapseExample.source) as Hsub.
  { apply Forall_forall. by_computation. }
  assert (Forall normalRecord (Files CollapseExample.source)) as Hnorm
    by by_computation.
  assert (buildSmartTree CollapseExample.unique CollapseExample.source
            CollapseExample.other = Some CollapsedTree.tree) as E
    by (vm_compute; reflexivity).
  split; [exact Hsub|]. split; [exact Hnorm|]. split; [exact E|].
  refine (buildSmartTree_entire_iff CollapseExample.unique CollapseExample.source
            CollapseExample.other CollapsedTree.tree 1 CollapsedTree.dirNode
            Hsub Hnorm E _ _).
  - reflexivity.
  - done.
Defined.

(** X19 (a set without matches collapses whole).  When no record of the
    source catalog has its hash in the hash index of the other catalog,
    every directory of the tree is marked entire, the root excepted, so
    that [printTree] shows the top-level directories and the files of
    the root only. *)
Theorem buildSmartTree_collapses_unmatched (files : list FileInfo)
    (sourceSet otherSet : FileSet) (h : heap) :
  (∀ f, f ∈ files → f ∈ Files sourceSet) →
  Forall normalRecord (Files sourceSet) →
  (∀ s, s ∈ Files sourceSet → ¬ hashIn otherSet s) →
  buildSmartTree files sourceSet otherSet = Some h →
  ∀ a n, h !! a = Some n → tn_IsEntireDir n = bool_decide (a ≠ root).
Proof.
  intros Hsub Hnorm Hun E a n Hn.
  destruct (decide (a = root)) as [->|Ha].
  - rewrite bool_decide_eq_false_2 by (intros H; by apply H).
    destruct (directoriesOf (Files sourceSet) ∅) as [d|] eqn:Hdirs;
      [|unfold buildSmartTree in E; by rewrite Hdirs in E].
    destruct (buildSmartTree_settled files sourceSet otherSet d h Hdirs E) as [Hwf Hall].
    destruct (Hall root) as (n' & b & Hn' & Hv & Hb); [by apply lookup_lt_Some in Hn|].
    assert (n' = n) as -> by congruence. rewrite Hb.
    unfold entireVerdict in Hv. rewrite Hn in Hv. simpl in Hv.
    destruct (wf_root h Hwf) as (r & Hr & Hname & _).
    assert (r = n) as -> by congruence.
    rewrite decide_True in Hv by done. by injection Hv as <-.
  - rewrite bool_decide_eq_true_2 by done.
    apply (buildSmartTree_entire_iff files sourceSet otherSet h a n Hsub Hnorm E Hn Ha).
    intros b parts _ _ s Hs _. by apply Hun.
Qed.

(** The three files of [TestBuildTree] against an empty catalog: both
    directories are marked. *)
Lemma buildSmartTree_collapses_unmatched_witness :
  (∀ f, f ∈ BuildExample.files → f ∈ Files BuildExample.source) ∧
  Forall normalRecord (Files BuildExample.source) ∧
  (∀ s, s ∈ Files BuildExample.source → ¬ hashIn BuildExample.other s) ∧
  (∀ h, buildSmartTree BuildExample.files BuildExample.source BuildExample.other = Some h →
        ∀ a n, h !! a = Some n → tn_IsEntireDir n = bool_decide (a ≠ root)) ∧
  (λ n, (tn_Name n, tn_IsEntireDir n))
    <$> default [] (buildSmartTree BuildExample.files BuildExample.source
                      BuildExample.other)
  = [("", false); ("subdir", true); ("nested", true)].
Proof.
  assert (∀ f, f ∈ BuildExample.files → f ∈ Files BuildExample.source) as Hsub.
  { apply Forall_forall. by_computation. }
  assert (Forall normalRecord (Files BuildExample.source)) as Hnorm by by_computation.
  assert (∀ s, s ∈ Files BuildExample.source → ¬ hashIn BuildExample.other s) as Hun.
  { apply Forall_forall. by_computation. }
  split; [exact Hsub|]. split; [exact Hnorm|]. split; [exact Hun|]. split.
  - intros h E. exact (buildSmartTree_collapses_unmatched BuildExample.files
                         BuildExample.source BuildExample.other h Hsub Hnorm Hun E).
  - vm_compute. reflexivity.
Defined.
(** ** The shape of a built tree *)

Lemma nodePath_injective h a b l : nodePath h a l → nodePath h b l → a = b.
Proof.
  intros Ha. revert b. induction Ha as [|a l k c _ IH Hc]; intros b Hb.
  - symmetry. by eapply nodePath_nil_root.
  - inversion Hb as [Eb E|a' l' k' c' Hp' Hc' Eb E].
    + by destruct l.
    + apply app_inj_tail in E as [-> ->]. rewrite (IH a' Hp') in Hc.
      destruct Hc as (n1 & Hn1 & Hk1). destruct Hc' as (n2 & Hn2 & Hk2). congruence.
Qed.

(** Inserting a file keeps the paths there are and makes a node for
    every directory on the way. *)
Lemma insertParts_paths file parts : ∀ (h : heap) (current : addr) l0,
  wellFormed h → nodePath h current l0 →
  (∀ a l, nodePath h a l → nodePath (insertParts file parts h current) a l) ∧
  (∀ l rest, parts = l ++ rest → rest ≠ [] →
     ∃ a, nodePath (insertParts file parts h current) a (l0 ++ l)).
Proof.
  induction parts as [|p rest' IH]; intros h current l0 Hwf Hcur.
  - split; [done|]. intros l rest E Hrest. symmetry in E.
    apply app_eq_nil in E as [_ ->]. done.
  - destruct (nodePath_lookup h current l0 Hwf Hcur) as [n Hn].
    destruct rest' as [|p' rest'].
    + cbn [insertParts].
      assert (∀ a l, nodePath h a l →
                nodePath (alter (λ n, setFiles n (tn_Files n ++ [file])) current h) a l)
        as Hkeep.
      { intros a l. apply linksEq_nodePath, attach_linksEq. }
      split; [done|]. intros l rest E Hrest.
      destruct l as [|x l].
      * exists current. rewrite app_nil_r. by apply Hkeep.
      * injection E as _ E. symmetry in E. apply app_eq_nil in E as [_ ->]. done.
    + rewrite insertParts_step, Hn.
      assert (∀ (h1 : heap) c,
        wellFormed h1 → (∀ a l, nodePath h a l → nodePath h1 a l) →
        nodePath h1 c (l0 ++ [p]) →
        (∀ a l, nodePath h a l → nodePath (insertParts file (p' :: rest') h1 c) a l) ∧
        (∀ l rest, p :: p' :: rest' = l ++ rest → rest ≠ [] →
           ∃ a, nodePath (insertParts file (p' :: rest') h1 c) a (l0 ++ l))) as Hstep.
      { intros h1 c Hwf1 Hold Hc.
        destruct (IH h1 c (l0 ++ [p]) Hwf1 Hc) as [Hkeep Hnew]. split.
        - intros a l Hl. by apply Hkeep, Hold.
        - intros l rest E Hrest. destruct l as [|x l].
          + exists current. rewrite app_nil_r. by apply Hkeep, Hold.
          + injection E as <- E. destruct (Hnew l rest E Hrest) as [a Ha].
            exists a. by rewrite <- app_assoc in Ha. }
      destruct (tn_Children n !! p) as [c|] eqn:Hp.
      * apply Hstep; [done|done|].
        apply nodePath_child with current; [done|by exists n].
      * apply Hstep.
        -- by apply alloc_wellFormed.
        -- intros a l. by apply alloc_nodePath_old.
        -- apply nodePath_child with current.
           ++ by apply alloc_nodePath_old.
           ++ by apply alloc_child_new.
Qed.

Lemma fold_insertFile_paths files : ∀ done_ (h : heap),
  (∀ f, f ∈ done_ → f ∈ files) → buildInv files None h →
  (∀ a l, nodePath h a l → nodePath (fold_left insertFile done_ h) a l) ∧
  (∀ f l rest, f ∈ done_ → pathParts f = l ++ rest → rest ≠ [] →
     ∃ a, nodePath (fold_left insertFile done_ h) a l).
Proof.
  induction done_ as [|f done_ IH]; intros h Hsub Hinv.
  - split; [done|]. by intros f l rest Hin%elem_of_nil.
  - cbn [fold_left].
    assert (buildInv files None (insertFile h f)) as Hinv'
      by (apply insertFile_inv; [apply Hsub; left|done]).
    destruct (IH (insertFile h f)) as [Hkeep Hnew];
      [intros f' Hf'; apply Hsub; by right|done|].
    destruct (insertParts_paths f (pathParts f) h root [] (bi_wf _ _ _ Hinv)
                (nodePath_root h)) as [Hkeep1 Hnew1].
    split.
    + intros a l Hl. by apply Hkeep, Hkeep1.
    + intros f' l rest Hin E Hrest. apply elem_of_cons in Hin as [->|Hin].
      * destruct (Hnew1 l rest E Hrest) as [a Ha]. exists a. by apply Hkeep.
      * by eapply Hnew.
Qed.

(** X13 (the directories of a built tree).  The tree that [buildTree]
    builds has exactly one node for the empty path (its root) and for
    every path that is a proper, non-empty beginning of the path parts
    of one of the files; there is no other node, and no path has two
    nodes. *)
Theorem buildTree_nodes (files : list FileInfo) (l : list string) :
  ((∃ a, nodePath (buildTree files) a l) ↔
   l = [] ∨ ∃ f rest, f ∈ files ∧ rest ≠ [] ∧ pathParts f = l ++ rest) ∧
  (∀ a b, nodePath (buildTree files) a l → nodePath (buildTree files) b l → a = b).
Proof.
  pose proof (buildTree_inv files) as Hinv. split; [split|].
  - intros [a Ha]. destruct (decide (l = [])) as [->|Hne]; [by left|]. right.
    by apply (bi_names _ _ _ Hinv a l).
  - intros [->|(f & rest & Hf & Hrest & E)].
    + exists root. constructor.
    + destruct (fold_insertFile_paths files files [newRoot]) as [_ Hnew];
        [done|apply newRoot_inv|].
      by apply (Hnew f l rest).
  - intros a b. apply nodePath_injective.
Qed.

(** ** Scanning and comparing *)

(** X25 (a set compared with itself).  The catalog that a scan returns,
    compared with itself, gives the empty result: nothing is modified
    and nothing is unique, whatever the roots hold and whichever back
    end built the catalog. *)
Theorem scan_compared_with_itself (env : Env) (dirs : list string) (limit : Z)
    (fs : FileSet) (out : list string) :
  walkDirectoriesWithLimit env dirs limit = (Ok fs, out) →
  compareFileSets fs fs = emptyComparisonResult.
Proof.
  intros E.
  destruct (walkDirectoriesWithLimit_spec env dirs limit)
    as (st & fs' & out' & _ & E' & _ & Hd & _).
  assert (fs' = fs) as -> by congruence.
  apply compareFileSets_spec_empty; intros f Hf.
  - by apply indexesDerived_hashIn.
  - left. by apply indexesDerived_hashIn.
Qed.

(** The scan of [/a] on the example machine. *)
Lemma scan_compared_with_itself_witness :
  ∃ fs out,
    walkDirectoriesWithLimit Machine.env ["/a"] (-1) = (Ok fs, out) ∧
    compareFileSets fs fs = emptyComparisonResult.
Proof.
  destruct (walkDirectoriesWithLimit_spec Machine.env ["/a"] (-1))
    as (st & fs & out & _ & E & _).
  exists fs, (stdout st ++ out). split; [exact E|].
  exact (scan_compared_with_itself Machine.env ["/a"] (-1) fs _ E).
Defined.
(** ** The one-pass scanner and the two-pass scanner *)

Section WalkSim.
Context {S1 S2 : Type}.
Variable cb1 : @WalkFunc S1.
Variable cb2 : @WalkFunc S2.
Variable R : S1 → S2 → Prop.
Hypothesis Hcb : ∀ path info err s1 s2, R s1 s2 →
  (cb1 path info err s1).2 = (cb2 path info err s2).2 ∧
  R (cb1 path info err s1).1 (cb2 path info err s2).1.

Lemma walkEntries_sim path entries :
  Forall (λ entry, ∀ child, entry.2 = Ok child →
            ∀ path name s1 s2, R s1 s2 →
              (walk cb1 path name child s1).2 = (walk cb2 path name child s2).2 ∧
              R (walk cb1 path name child s1).1 (walk cb2 path name child s2).1) entries →
  ∀ s1 s2, R s1 s2 →
    (walkEntries cb1 (walk cb1) path entries s1).2
      = (walkEntries cb2 (walk cb2) path entries s2).2 ∧
    R (walkEntries cb1 (walk cb1) path entries s1).1
      (walkEntries cb2 (walk cb2) path entries s2).1.
Proof.
  intros HF. induction HF as [|[name [child|e]] rest Hhd Htl IH]; intros s1 s2 HR.
  - done.
  - cbn [walkEntries]. simpl in Hhd.
    destruct (Hhd child eq_refl (filepath_Join path name) name s1 s2 HR) as [He HR'].
    destruct (walk cb1 _ _ child s1) as [s1' err1].
    destruct (walk cb2 _ _ child s2) as [s2' err2].
    simpl in He, HR'. subst err2.
    destruct err1 as [err|]; [|by apply IH].
    destruct (negb (FsNode_IsDir child) || negb (bool_decide (err = SkipDir)));
      [done|by apply IH].
  - cbn [walkEntries].
    destruct (Hcb (filepath_Join path name) None (Some e) s1 s2 HR) as [He HR'].
    destruct (cb1 _ None (Some e) s1) as [s1' err1].
    destruct (cb2 _ None (Some e) s2) as [s2' err2].
    simpl in He, HR'. subst err2.
    destruct err1 as [[]|]; try done; by apply IH.
Qed.

Lemma walk_sim node : ∀ path name s1 s2, R s1 s2 →
  (walk cb1 path name node s1).2 = (walk cb2 path name node s2).2 ∧
  R (walk cb1 path name node s1).1 (walk cb2 path name node s2).1.
Proof.
  induction node as [size|readErr entries IH] using FsNode_nested_ind;
    intros path name s1 s2 HR.
  - cbn [walk]. by apply Hcb.
  - cbn [walk].
    destruct (Hcb path (Some (FsNode_Info name (FsDir readErr entries))) readErr s1 s2 HR)
      as [He HR'].
    destruct (cb1 path _ readErr s1) as [s1' err1].
    destruct (cb2 path _ readErr s2) as [s2' err2].
    simpl in He, HR'. subst err2.
    destruct readErr; [done|]. destruct err1; [done|].
    by apply walkEntries_sim.
Qed.

Lemma filepath_Walk_sim env dir s1 s2 : R s1 s2 →
  (filepath_Walk cb1 env dir s1).2 = (filepath_Walk cb2 env dir s2).2 ∧
  R (filepath_Walk cb1 env dir s1).1 (filepath_Walk cb2 env dir s2).1.
Proof.
  intros HR. unfold filepath_Walk. destruct (os_Lstat env dir) as [[name node]|e].
  - destruct (walk_sim node dir name s1 s2 HR) as [He HR'].
    destruct (walk cb1 dir name node s1) as [s1' err1].
    destruct (walk cb2 dir name node s2) as [s2' err2].
    simpl in He, HR'. subst err2. by destruct err1 as [[]|].
  - destruct (Hcb dir None (Some e) s1 s2 HR) as [He HR'].
    destruct (cb1 dir None (Some e) s1) as [s1' err1].
    destruct (cb2 dir None (Some e) s2) as [s2' err2].
    simpl in He, HR'. subst err2. by destruct err1 as [[]|].
Qed.
End WalkSim.

Lemma hashedRecords_snoc env tasks task :
  hashedRecords env (tasks ++ [task])
    = hashedRecords env tasks ++ from_option (λ f, [f]) [] (hashedRecord env task).
Proof.
  unfold hashedRecords. rewrite omap_app. reflexivity.
Qed.

Lemma callbacks_inStep env dir path info err old st :
  inStep env old st →
  (Original.walkCallback env dir path info err old).2
    = (walkCallback dir (-1) path info err st).2 ∧
  inStep env (Original.walkCallback env dir path info err old).1
    (walkCallback dir (-1) path info err st).1.
Proof.
  intros (HF & Hd & Hout). unfold Original.walkCallback, walkCallback.
  destruct err as [e|].
  - split; [done|]. split; [done|]. split; [done|]. simpl.
    rewrite Hout, <- !app_assoc. apply Permutation_app_head, Permutation_app_comm.
  - destruct info as [i|]; [|done]. destruct (fi_IsDir i); [done|].
    rewrite bool_decide_eq_false_2 by lia. simpl.
    unfold inStep. simpl. rewrite hashedRecords_snoc, omap_app. simpl.
    unfold hashedRecord, sequentialWarning. simpl.
    destruct (hashFile env path) as [hash|e]; simpl.
    + split; [done|]. split; [by rewrite HF|]. split; [by apply indexesDerived_addFile|].
      by rewrite app_nil_r.
    + split; [done|]. split; [by rewrite HF, app_nil_r|]. split; [done|].
      by rewrite Hout, app_assoc.
Qed.

Lemma walkRoots_inStep env dirs : ∀ old st,
  inStep env old st →
  (Original.walkRoots env dirs old).2 = (collectTasks env dirs (-1) st).2 ∧
  inStep env (Original.walkRoots env dirs old).1 (collectTasks env dirs (-1) st).1.
Proof.
  induction dirs as [|dir dirs IH]; intros old st HR; [done|].
  cbn [Original.walkRoots collectTasks].
  destruct (os_Stat_IsNotExist env dir).
  - apply IH. destruct HR as (HF & Hd & Hout). split; [done|]. split; [done|]. simpl.
    rewrite Hout, <- !app_assoc. apply Permutation_app_head, Permutation_app_comm.
  - destruct (filepath_Walk_sim (Original.walkCallback env dir) (walkCallback dir (-1))
                (inStep env) (callbacks_inStep env dir) env dir old st HR) as [He HR'].
    destruct (filepath_Walk (Original.walkCallback env dir) env dir old) as [old' err1].
    destruct (filepath_Walk (walkCallback dir (-1)) env dir st) as [st' err2].
    simpl in He, HR'. subst err2. destruct err1; [done|]. by apply IH.
Qed.

Lemma FileSet_eq (s s' : FileSet) :
  Files s = Files s' → indexesDerived s → indexesDerived s' → s = s'.
Proof.
  destruct s, s'. unfold indexesDerived. simpl.
  intros -> [-> ->] [-> ->]. done.
Qed.

(** X26 (the two-pass scanner does what the one-pass scanner did).  The
    [walkDirectories] of the first version, which hashes each file as
    the walk meets it, always returns a catalog, and so does the present
    one.  When the roots hold fewer than twenty files the two catalogs
    are equal, records in the same order, and the two print the same
    warnings, in possibly different orders; for more files, and batch
    results that each arrive once, the two catalogs hold the same
    records under the same index keys. *)
Theorem walkDirectories_agrees_with_original (env : Env) (dirs : list string) :
  ∃ fs out fs' out',
    Original.walkDirectories env dirs = (Ok fs, out) ∧
    walkDirectories env dirs = (Ok fs', out') ∧
    (length (flat_map (rootFiles env) dirs) < minFilesForParallelization →
       fs' = fs ∧ out' ≡ₚ out) ∧
    (fairArrival env → sameCatalog fs fs').
Proof.
  assert (inStep env (emptyFileSet, []) initialWalkState) as HR0.
  { split; [done|]. split; [apply indexesDerived_empty|done]. }
  destruct (walkRoots_inStep env dirs _ _ HR0) as [He HR].
  destruct (walkDirectoriesWithLimit_spec env dirs (-1))
    as (st & fs' & out' & E & Ew & Eb & Hd' & Hfair).
  rewrite E in He, HR. simpl in He, HR.
  unfold Original.walkDirectories.
  destruct (Original.walkRoots env dirs (emptyFileSet, [])) as [[fs out] err].
  simpl in He, HR. subst err. destruct HR as (HF & Hd & Hout). simpl in *.
  exists fs, out, fs', (stdout st ++ out').
  split; [done|]. split; [exact Ew|]. split.
  - intros Hsmall.
    destruct (collectTasks_spec env dirs (-1) initialWalkState)
      as (st0 & E0 & _ & _ & _ & Htasks).
    assert (st0 = st) as -> by congruence.
    specialize (Htasks ltac:(lia)). simpl in Htasks.
    assert (length (allTasks st) = length (flat_map (rootFiles env) dirs)) as Hlen.
    { rewrite <- Htasks. by rewrite length_fmap. }
    rewrite decide_True in Eb by lia.
    destruct (processFilesSequentially_spec env (allTasks st))
      as (fs1 & out1 & E1 & HF1 & Hd1 & Hout1).
    assert (fs1 = fs' ∧ out1 = out') as [-> ->] by (split; congruence).
    split.
    + apply FileSet_eq; [congruence|done|done].
    + by rewrite Hout, Hout1.
  - intros Hf. destruct (Hfair Hf) as [Hperm _].
    apply sameCatalog_of_Permutation; [|done|done]. by rewrite HF, Hperm.
Qed.
